(** * ConnectN: a shallow embedding of connect_n.h and of the search players

    The embedding follows the C++ sources function by function.

    - [std::bitset<S_ROWS * S_COLS>] is an integer of [S_ROWS * S_COLS] bits,
      written as a [Z] with the truncation to the width spelled out where the
      C++ operation drops bits ([<<], [~], construction from [1ULL]).
    - [int] and [long] values are [Z]; the coordinates and scores that occur
      stay far inside the machine ranges, the two saturated scores are the
      constants [LONG_MAX] and [LONG_MIN]. [std::pow(10, count)] is taken
      at a count of 1, 2 or 3 and is the exact power of ten.
    - [std::unordered_map] is the list of its entries in insertion order
      together with a function that gives the order of iteration, which the
      C++ standard leaves open. [float] arithmetic and [rand()] are
      parameters as well.
    - Member functions that mutate [*this] return the new object next to
      their C++ result.
    - Operations whose C++ behaviour is undefined or that throw (reading
      [back()] or [operator[]] of an empty [std::vector], a null pointer,
      [throw std::exception()]) return a [fault] in the [result] monad. *)

From Stdlib Require Import ZArith List Bool Lia Permutation.
Import ListNotations.

Local Open Scope Z_scope.

(* ================================================================== *)
(** ** Faults and the result monad *)

Inductive fault : Type :=
| BackOfEmptyVector      (* std::vector::back() on an empty vector *)
| IndexPastEnd           (* std::vector::operator[] past the end *)
| NullDereference        (* member access through a null node pointer *)
| ExceptionThrown        (* throw std::exception() *)
| DivisionByZero         (* integer remainder by zero *)
| UseAfterFree           (* a node reached after it was deleted *)
| OutOfFuel.             (* the loop bound of the embedding was too small *)

Inductive result (A : Type) : Type :=
| Ok (a : A)
| Fault (f : fault).

Arguments Ok {A} a.
Arguments Fault {A} f.

Definition bind {A B : Type} (r : result A) (k : A -> result B) : result B :=
  match r with
  | Ok a => k a
  | Fault f => Fault f
  end.

Notation "x <- c ;; k" := (bind c (fun x => k))
  (at level 61, c at next level, right associativity).
Notation "' p <- c ;; k" := (bind c (fun p => k))
  (at level 61, p pattern, c at next level, right associativity).

(* ================================================================== *)
(** ** std::bitset<W> as a W-bit integer *)

Module Bitset.

(** Keep the low [w] bits: what a [std::bitset<w>] can hold. *)
Definition trunc (w : nat) (z : Z) : Z := z mod 2 ^ Z.of_nat w.

(** [std::bitset<w> b{v}] for an [unsigned long long] [v]. *)
Definition of_ull (w : nat) (v : Z) : Z := trunc w v.

(** [b << k]: bits shifted past the width are dropped. *)
Definition shl (w : nat) (b k : Z) : Z := trunc w (Z.shiftl b k).

(** [b >> k]. *)
Definition shr (b k : Z) : Z := Z.shiftr b k.

(** [~b]: every one of the [w] bits flipped. *)
Definition flip (w : nat) (b : Z) : Z := trunc w (Z.lnot b).

(** The values a [std::bitset<w>] ranges over. *)
Definition wf (w : nat) (b : Z) : Prop := 0 <= b < 2 ^ Z.of_nat w.

End Bitset.

(* ================================================================== *)
(** ** Shape, Vec2i, Tile, Move *)

Record Shape : Type := mkShape { rows : Z; cols : Z }.

Record Vec2i : Type := mkVec2i { x : Z; y : Z }.

Definition Vec2i_eqb (a b : Vec2i) : bool :=
  (x a =? x b) && (y a =? y b).

Definition Vec2i_add (a b : Vec2i) : Vec2i := mkVec2i (x a + x b) (y a + y b).
Definition Vec2i_neg (a : Vec2i) : Vec2i := mkVec2i (- x a) (- y a).
Definition Vec2i_scale (a : Vec2i) (c : Z) : Vec2i := mkVec2i (x a * c) (y a * c).

Inductive Tile : Type := Negative | Empty | Positive.

(** [static_cast<long>(tile)] *)
Definition Tile_value (t : Tile) : Z :=
  match t with
  | Negative => -1
  | Empty => 0
  | Positive => 1
  end.

Definition Tile_eqb (a b : Tile) : bool :=
  match a, b with
  | Negative, Negative | Empty, Empty | Positive, Positive => true
  | _, _ => false
  end.

Definition getEnemyTile (t : Tile) : Tile :=
  match t with
  | Negative => Positive
  | Positive => Negative
  | Empty => Empty
  end.

Record Move : Type := mkMove { pos : Vec2i; tile : Tile }.

Definition Move_eqb (a b : Move) : bool :=
  Vec2i_eqb (pos a) (pos b) && Tile_eqb (tile a) (tile b).

(** [Move{}]: value-initialised. *)
Definition Move_default : Move := mkMove (mkVec2i 0 0) Empty.

(** [std::optional<Tile> == Tile] and [!=]: an absent value differs from
    every tile. *)
Definition optTile_is (o : option Tile) (t : Tile) : bool :=
  match o with
  | Some t' => Tile_eqb t' t
  | None => false
  end.

(* ================================================================== *)
(** ** Board<S_ROWS, S_COLS> *)

Record Board : Type := mkBoard {
  m_positivePieces : Z;
  m_negativePieces : Z
}.

Section BoardOps.

(** The template parameters. *)
Variables S_ROWS S_COLS : nat.

Definition n_bits : nat := (S_ROWS * S_COLS)%nat.

Definition m_shape : Shape := mkShape (Z.of_nat S_ROWS) (Z.of_nat S_COLS).

Definition connectN : Z := 4.

(** [Board()] *)
Definition Board_empty : Board := mkBoard (Bitset.of_ull n_bits 0) (Bitset.of_ull n_bits 0).

Definition isValidPosition (p : Vec2i) : bool :=
  negb ((x p <? 0) || (x p >=? cols m_shape) || (y p <? 0) || (y p >=? rows m_shape)).

Definition index (p : Vec2i) : Z := y p * cols m_shape + x p.

(** [Board::operator[]] *)
Definition board_at (b : Board) (p : Vec2i) : option Tile :=
  if negb (isValidPosition p) then None
  else
    let mask := Bitset.of_ull n_bits 1 in
    if Z.land (Bitset.shr (m_positivePieces b) (index p)) mask =? mask then Some Positive
    else if Z.land (Bitset.shr (m_negativePieces b) (index p)) mask =? mask then Some Negative
    else Some Empty.

(** [Board::operator<<]: the C++ result and the board afterwards. *)
Definition place (b : Board) (move : Move) : bool * Board :=
  if negb (isValidPosition (pos move)) then (false, b)
  else
    let below := mkVec2i (x (pos move)) (y (pos move) + 1) in
    if negb (y (pos move) + 1 =? rows m_shape) && optTile_is (board_at b below) Empty
    then (false, b)
    else
      let mask := Bitset.shl n_bits (Bitset.of_ull n_bits 1) (index (pos move)) in
      match tile move with
      | Positive => (true, mkBoard (Z.lor (m_positivePieces b) mask) (m_negativePieces b))
      | Negative => (true, mkBoard (m_positivePieces b) (Z.lor (m_negativePieces b) mask))
      | Empty => (false, b)
      end.

(** [Board::operator>>] *)
Definition remove (b : Board) (move : Move) : bool * Board :=
  if negb (isValidPosition (pos move)) then (false, b)
  else
    let mask := Bitset.flip n_bits (Bitset.shl n_bits (Bitset.of_ull n_bits 1) (index (pos move))) in
    match tile move with
    | Positive => (true, mkBoard (Z.land (m_positivePieces b) mask) (m_negativePieces b))
    | Negative => (true, mkBoard (m_positivePieces b) (Z.land (m_negativePieces b) mask))
    | Empty => (false, b)
    end.

(** The values the two bit-sets of a [Board] range over. *)
Definition Board_wf (b : Board) : Prop :=
  Bitset.wf n_bits (m_positivePieces b) /\ Bitset.wf n_bits (m_negativePieces b).

End BoardOps.

(* ================================================================== *)
(** ** Loops *)

(** The values [i] takes in [for (int i{lo}; i < hi; ++i)]. *)
Definition int_range (lo hi : Z) : list Z :=
  map (fun k => lo + Z.of_nat k) (seq 0 (Z.to_nat (hi - lo))).

(* ================================================================== *)
(** ** evaluate *)

(** [std::numeric_limits<long>::max()] and [min()] for a 64-bit [long]. *)
Definition LONG_MAX : Z := 2 ^ 63 - 1.
Definition LONG_MIN : Z := - 2 ^ 63.

(** [std::pair<std::optional<long>, long>] *)
Definition Evaluation : Type := (option Z * Z)%type.

Section Evaluate.

Variables S_ROWS S_COLS : nat.

Let boardShape : Shape := m_shape S_ROWS S_COLS.
Let N : Z := connectN.

Definition directions : list Vec2i :=
  [mkVec2i 1 0; mkVec2i 0 1; mkVec2i 1 (-1); mkVec2i 1 1].

(** The body of the [check] lambda, for the remaining values of [i]. *)
Fixpoint check_loop (b : Board) (p d : Vec2i) (lastTile : Tile)
  (steps : list Z) (count : Z) : Z :=
  match steps with
  | [] => count
  | i :: steps' =>
      let current := Vec2i_add p (Vec2i_scale d i) in
      if (x current <? 0) || (x current >=? cols boardShape) ||
         (y current <? 0) || (y current >=? rows boardShape)
      then count
      else
        match board_at S_ROWS S_COLS b current with
        | None => count
        | Some t =>
            if negb (Tile_eqb t lastTile) then count
            else check_loop b p d lastTile steps' (count + 1)
        end
  end.

Definition check (b : Board) (p d : Vec2i) (lastTile : Tile) : Z :=
  check_loop b p d lastTile (int_range 1 N) 0.

(** The pair returned when a run of [N] is found. *)
Definition win_of (lastTile : Tile) : Evaluation :=
  (Some (Tile_value lastTile),
   match lastTile with Positive => LONG_MAX | _ => LONG_MIN end).

(** [for (auto d : directions)] at one cell: [inl] is an early [return],
    [inr] the score after the loop. *)
Fixpoint scan_directions (b : Board) (p : Vec2i) (lastTile : Tile)
  (ds : list Vec2i) (score : Z) : Evaluation + Z :=
  match ds with
  | [] => inr score
  | d :: ds' =>
      let count := 1 + check b p d lastTile in
      if count >=? N then inl (win_of lastTile)
      else
        let count := count + check b p (Vec2i_neg d) lastTile in
        if count >=? N then inl (win_of lastTile)
        else scan_directions b p lastTile ds' (score + 10 ^ count * Tile_value lastTile)
  end.

(** The cells in the order of the two nested loops, [y] outside. *)
Definition cells : list Vec2i :=
  flat_map (fun yy => map (fun xx => mkVec2i xx yy) (int_range 0 (cols boardShape)))
           (int_range 0 (rows boardShape)).

Fixpoint scan_cells (b : Board) (ps : list Vec2i) (score : Z) : Evaluation + Z :=
  match ps with
  | [] => inr score
  | p :: ps' =>
      match board_at S_ROWS S_COLS b p with
      | None | Some Empty => scan_cells b ps' score
      | Some lastTile =>
          match scan_directions b p lastTile directions score with
          | inl r => inl r
          | inr score' => scan_cells b ps' score'
          end
      end
  end.

(** The draw check: no cell of row 0 compares equal to [Tile::Empty]. *)
Definition isDraw (b : Board) : bool :=
  forallb (fun i => negb (optTile_is (board_at S_ROWS S_COLS b (mkVec2i i 0)) Empty))
          (int_range 0 (cols boardShape)).

(** [evaluate(board)] *)
Definition evaluate (b : Board) : Evaluation :=
  match scan_cells b cells 0 with
  | inl r => r
  | inr score => if isDraw b then (Some 0, 0) else (None, score)
  end.

(** [evaluate(board, lastPosition)] *)
Definition evaluate_at (b : Board) (lastPosition : Vec2i) : Evaluation :=
  match board_at S_ROWS S_COLS b lastPosition with
  | None | Some Empty => (None, 0)
  | Some lastTile =>
      match scan_directions b lastPosition lastTile directions 0 with
      | inl r => r
      | inr score => if isDraw b then (Some 0, 0) else (None, score)
      end
  end.

End Evaluate.

(* ================================================================== *)
(** ** generateValidPositions *)

Section MoveGenerator.

Variables S_ROWS S_COLS : nat.

Let boardShape : Shape := m_shape S_ROWS S_COLS.

(** The inner loop over [level]: the position pushed before [break], if any. *)
Fixpoint scan_levels (b : Board) (xx : Z) (levels : list Z) : option Vec2i :=
  match levels with
  | [] => None
  | level :: levels' =>
      if negb (optTile_is (board_at S_ROWS S_COLS b (mkVec2i xx level)) Empty)
      then Some (mkVec2i xx (level - 1))
      else scan_levels b xx levels'
  end.

(** [res.back()] *)
Definition vector_back {A : Type} (v : list A) : result A :=
  match rev v with
  | [] => Fault BackOfEmptyVector
  | a :: _ => Ok a
  end.

(** One iteration of the loop over the columns. *)
Definition column_step (b : Board) (res : list Vec2i) (xx : Z) : result (list Vec2i) :=
  if negb (optTile_is (board_at S_ROWS S_COLS b (mkVec2i xx 0)) Empty) then Ok res
  else
    let res1 :=
      match scan_levels b xx (int_range 1 (rows boardShape)) with
      | Some p => res ++ [p]
      | None => res
      end in
    last_ <- vector_back res1 ;;
    if negb (x last_ =? xx) then Ok (res1 ++ [mkVec2i xx (rows boardShape - 1)])
    else Ok res1.

Fixpoint column_loop (b : Board) (xs : list Z) (res : list Vec2i) : result (list Vec2i) :=
  match xs with
  | [] => Ok res
  | xx :: xs' => res' <- column_step b res xx ;; column_loop b xs' res'
  end.

Definition generateValidPositions (b : Board) : result (list Vec2i) :=
  column_loop b (int_range 0 (cols boardShape)) [].

End MoveGenerator.

(* ================================================================== *)
(** ** MinimaxPlayer *)

(** [v[i]] on a [std::vector]. *)
Definition vector_index {A : Type} (v : list A) (i : nat) : result A :=
  match nth_error v i with
  | Some a => Ok a
  | None => Fault IndexPastEnd
  end.

Definition has_value {A : Type} (o : option A) : bool :=
  match o with
  | Some _ => true
  | None => false
  end.

Record MinimaxPlayer : Type := mkMinimaxPlayer {
  m_depth : Z;
  m_tile : Tile;
  m_enemyTile : Tile
}.

Section Minimax.

Variables S_ROWS S_COLS : nat.
Variable self : MinimaxPlayer.

(** What a recursive call of [alphabeta] yields: its pair, and the shared
    board as the call leaves it. *)
Definition SearchResult : Type := (Z * Move * Board)%type.

(** The loop of the maximising branch over the remaining positions. *)
Fixpoint maximise_loop (recur : Board -> Z -> Z -> result SearchResult)
  (currentTile : Tile) (positions : list Vec2i) (b : Board)
  (alpha beta maxValue : Z) (resultMove : Move) : result SearchResult :=
  match positions with
  | [] => Ok (maxValue, resultMove, b)
  | p :: positions' =>
      let m := mkMove p currentTile in
      let b1 := snd (place S_ROWS S_COLS b m) in
      '(res_first, _, b2) <- recur b1 alpha beta ;;
      let b3 := snd (remove S_ROWS S_COLS b2 m) in
      let maxValue' := if res_first >? maxValue then res_first else maxValue in
      let resultMove' := if res_first >? maxValue then m else resultMove in
      let alpha' := Z.max alpha res_first in
      if beta <=? alpha' then Ok (maxValue', resultMove', b3)
      else maximise_loop recur currentTile positions' b3 alpha' beta maxValue' resultMove'
  end.

(** The loop of the minimising branch. *)
Fixpoint minimise_loop (recur : Board -> Z -> Z -> result SearchResult)
  (currentTile : Tile) (positions : list Vec2i) (b : Board)
  (alpha beta minValue : Z) (resultMove : Move) : result SearchResult :=
  match positions with
  | [] => Ok (minValue, resultMove, b)
  | p :: positions' =>
      let m := mkMove p currentTile in
      let b1 := snd (place S_ROWS S_COLS b m) in
      '(res_first, _, b2) <- recur b1 alpha beta ;;
      let b3 := snd (remove S_ROWS S_COLS b2 m) in
      let minValue' := if res_first <? minValue then res_first else minValue in
      let resultMove' := if res_first <? minValue then m else resultMove in
      let beta' := Z.min beta res_first in
      if beta' <=? alpha then Ok (minValue', resultMove', b3)
      else minimise_loop recur currentTile positions' b3 alpha beta' minValue' resultMove'
  end.

(** [MinimaxPlayer::alphabeta]; [fuel] bounds the recursion depth. *)
Fixpoint alphabeta (fuel : nat) (b : Board) (alpha beta depth : Z) (isEnemy : bool)
  : result SearchResult :=
  match fuel with
  | O => Fault OutOfFuel
  | S fuel' =>
      let '(isTerminal, score) := evaluate S_ROWS S_COLS b in
      if (depth =? 0) || has_value isTerminal then Ok (score, Move_default, b)
      else
        let currentTile := if negb isEnemy then m_tile self else m_enemyTile self in
        let isMaximising :=
          if Tile_eqb (m_tile self) Positive
          then (if negb isEnemy then true else false)
          else (if negb isEnemy then false else true) in
        positions <- generateValidPositions S_ROWS S_COLS b ;;
        p0 <- vector_index positions 0 ;;
        let resultMove := mkMove p0 currentTile in
        let recur := fun b' alpha' beta' =>
          alphabeta fuel' b' alpha' beta' (depth - 1) (negb isEnemy) in
        if isMaximising
        then maximise_loop recur currentTile positions b alpha beta LONG_MIN resultMove
        else minimise_loop recur currentTile positions b alpha beta LONG_MAX resultMove
  end.

(** A recursion that starts at a depth [d >= 0] is at most [d + 1] calls
    deep; one that starts below zero only stops at terminal boards. *)
Definition alphabeta_fuel : nat :=
  S (Nat.max (Z.to_nat (m_depth self)) (n_bits S_ROWS S_COLS)).

(** [MinimaxPlayer::getNextMove]: the search runs on a copy of the board. *)
Definition Minimax_getNextMove (b : Board) : result Move :=
  let newBoard := b in
  '(_, res, _) <- alphabeta alphabeta_fuel newBoard LONG_MIN LONG_MAX (m_depth self) false ;;
  Ok res.

End Minimax.

(* ================================================================== *)
(** ** Game *)

(** The players are referred to by address. *)
Record Game : Type := mkGame {
  board : Board;
  isGameOver : bool;
  playerPositive : nat;
  playerNegative : nat;
  currentPlayer : nat
}.

Section GameDriver.

Variables S_ROWS S_COLS : nat.

(** [player->getNextMove(board)] for the player at an address. The agents
    of the repository read the board and leave it unchanged. *)
Variable getNextMove : nat -> Board -> result Move.

Definition swapPlayers (g : Game) : result Game :=
  if Nat.eqb (currentPlayer g) (playerPositive g)
  then Ok (mkGame (board g) (isGameOver g) (playerPositive g) (playerNegative g) (playerNegative g))
  else if Nat.eqb (currentPlayer g) (playerNegative g)
  then Ok (mkGame (board g) (isGameOver g) (playerPositive g) (playerNegative g) (playerPositive g))
  else Fault ExceptionThrown.

(** [Game::makeMove]: the returned terminal signal and the game afterwards. *)
Definition makeMove (g : Game) : result (option Z * Game) :=
  newMove <- getNextMove (currentPlayer g) (board g) ;;
  if negb (isGameOver g)
  then
    let '(placed, b') := place S_ROWS S_COLS (board g) newMove in
    let g1 := mkGame b' (isGameOver g) (playerPositive g) (playerNegative g) (currentPlayer g) in
    if placed
    then
      g2 <- swapPlayers g1 ;;
      Ok (fst (evaluate_at S_ROWS S_COLS (board g2) (pos newMove)), g2)
    else Ok (fst (evaluate S_ROWS S_COLS (board g1)), g1)
  else Ok (fst (evaluate S_ROWS S_COLS (board g)), g).

End GameDriver.

(* ================================================================== *)
(** ** MonteCarloNode *)

(** Nodes live in a store and are referred to by their index in it, the
    way the C++ code refers to them by pointer; [None] is [nullptr].
    [children] lists the entries of the [std::unordered_map] in the order
    of their insertion. *)
Record MonteCarloNode : Type := mkNode {
  visits : Z;
  wins : Z;
  m_board : Board;
  m_isTerminal : bool;
  m_winState : Z;
  m_turn : Tile;
  m_maxChildren : Z;
  m_isFullyExpanded : bool;
  m_parent : option nat;
  children : list (Move * nat)
}.

Definition set_counts (n : MonteCarloNode) (v w : Z) : MonteCarloNode :=
  mkNode v w (m_board n) (m_isTerminal n) (m_winState n) (m_turn n)
         (m_maxChildren n) (m_isFullyExpanded n) (m_parent n) (children n).

Definition set_board (n : MonteCarloNode) (b : Board) : MonteCarloNode :=
  mkNode (visits n) (wins n) b (m_isTerminal n) (m_winState n) (m_turn n)
         (m_maxChildren n) (m_isFullyExpanded n) (m_parent n) (children n).

Definition set_terminal (n : MonteCarloNode) (t : bool) (w : Z) : MonteCarloNode :=
  mkNode (visits n) (wins n) (m_board n) t w (m_turn n)
         (m_maxChildren n) (m_isFullyExpanded n) (m_parent n) (children n).

Definition set_turn (n : MonteCarloNode) (t : Tile) : MonteCarloNode :=
  mkNode (visits n) (wins n) (m_board n) (m_isTerminal n) (m_winState n) t
         (m_maxChildren n) (m_isFullyExpanded n) (m_parent n) (children n).

Definition set_maxChildren (n : MonteCarloNode) (k : Z) : MonteCarloNode :=
  mkNode (visits n) (wins n) (m_board n) (m_isTerminal n) (m_winState n) (m_turn n)
         k (m_isFullyExpanded n) (m_parent n) (children n).

Definition set_fullyExpanded (n : MonteCarloNode) (f : bool) : MonteCarloNode :=
  mkNode (visits n) (wins n) (m_board n) (m_isTerminal n) (m_winState n) (m_turn n)
         (m_maxChildren n) f (m_parent n) (children n).

Definition set_parent (n : MonteCarloNode) (p : option nat) : MonteCarloNode :=
  mkNode (visits n) (wins n) (m_board n) (m_isTerminal n) (m_winState n) (m_turn n)
         (m_maxChildren n) (m_isFullyExpanded n) p (children n).

Definition set_children (n : MonteCarloNode) (c : list (Move * nat)) : MonteCarloNode :=
  mkNode (visits n) (wins n) (m_board n) (m_isTerminal n) (m_winState n) (m_turn n)
         (m_maxChildren n) (m_isFullyExpanded n) (m_parent n) c.

(** [children.find(move)] *)
Fixpoint umap_find (m : list (Move * nat)) (k : Move) : option nat :=
  match m with
  | [] => None
  | (k', v) :: m' => if Move_eqb k' k then Some v else umap_find m' k
  end.

(** [children[move] = v] *)
Fixpoint umap_assign (m : list (Move * nat)) (k : Move) (v : nat) : list (Move * nat) :=
  match m with
  | [] => [(k, v)]
  | (k', v') :: m' =>
      if Move_eqb k' k then (k', v) :: m' else (k', v') :: umap_assign m' k v
  end.

(** [optional.value()] *)
Definition value {A : Type} (o : option A) : result A :=
  match o with
  | Some a => Ok a
  | None => Fault ExceptionThrown
  end.

Section Node.

Variables S_ROWS S_COLS : nat.

(** The constructor [MonteCarloNode(t_turn, t_board)]. *)
Definition Node_new (t_turn : Tile) (t_board : Board) : result MonteCarloNode :=
  positions <- generateValidPositions S_ROWS S_COLS t_board ;;
  Ok (mkNode 0 0 t_board false 0 t_turn (Z.of_nat (length positions)) false None []).

Definition Node_isTerminal (n : MonteCarloNode) : bool * MonteCarloNode :=
  if negb (m_isTerminal n)
  then
    let '(terminal, _) := evaluate S_ROWS S_COLS (m_board n) in
    let n1 := set_terminal n (has_value terminal) (m_winState n) in
    let n2 := match terminal with
              | Some w => set_terminal n1 (m_isTerminal n1) w
              | None => n1
              end in
    (m_isTerminal n2, n2)
  else (m_isTerminal n, n).

Definition Node_isFullyExpanded (n : MonteCarloNode) : bool * MonteCarloNode :=
  let n1 :=
    if negb (m_isFullyExpanded n) && (m_maxChildren n =? Z.of_nat (length (children n)))
    then set_fullyExpanded n true
    else n in
  (m_isFullyExpanded n1, n1).

Definition Node_applyMove (n : MonteCarloNode) (move : Move) : result (bool * MonteCarloNode) :=
  let '(placed, b') := place S_ROWS S_COLS (m_board n) move in
  let n1 := set_board n b' in
  if placed
  then
    positions <- generateValidPositions S_ROWS S_COLS (m_board n1) ;;
    let n2 := set_maxChildren n1 (Z.of_nat (length positions)) in
    let n3 := snd (Node_isTerminal n2) in
    let n4 := snd (Node_isFullyExpanded n3) in
    Ok (true, set_turn n4 (getEnemyTile (m_turn n4)))
  else Ok (false, n1).

Definition Node_getWinState (n : MonteCarloNode) : option Z * MonteCarloNode :=
  let n1 := snd (Node_isTerminal n) in
  (Some (m_winState n1), n1).

End Node.

(* ================================================================== *)
(** ** MonteCarloPlayer *)

(** The [float] operations of [bestUCT]; [F_lowest] is
    [-std::numeric_limits<float>::max()]. *)
Record FloatOps : Type := mkFloatOps {
  F : Type;
  F_of_int : Z -> F;
  F_add : F -> F -> F;
  F_mul : F -> F -> F;
  F_div : F -> F -> F;
  F_sqrt : F -> F;
  F_log : F -> F;
  F_gt : F -> F -> bool;
  F_lowest : F
}.

Record MonteCarloPlayer : Type := mkMonteCarloPlayer {
  m_nSimulation : Z;
  m_c : Z;
  mc_tile : Tile
}.

(** The store of nodes and the number of calls made to [rand()]. *)
Record Tree : Type := mkTree {
  nodes : list MonteCarloNode;
  rand_calls : nat
}.

(** Computations over the tree that may fault. *)
Definition Sim (A : Type) : Type := Tree -> result (A * Tree).

Definition ret {A : Type} (a : A) : Sim A := fun t => Ok (a, t).

Definition sbind {A B : Type} (c : Sim A) (k : A -> Sim B) : Sim B :=
  fun t => match c t with
           | Ok (a, t') => k a t'
           | Fault f => Fault f
           end.

Definition lift {A : Type} (r : result A) : Sim A :=
  fun t => match r with
           | Ok a => Ok (a, t)
           | Fault f => Fault f
           end.

Notation "x <~ c ;; k" := (sbind c (fun x => k))
  (at level 61, c at next level, right associativity).
Notation "' p <~ c ;; k" := (sbind c (fun p => k))
  (at level 61, p pattern, c at next level, right associativity).

(** [*node] *)
Definition deref (node : option nat) : Sim MonteCarloNode :=
  fun t => match node with
           | None => Fault NullDereference
           | Some i => match nth_error (nodes t) i with
                       | Some n => Ok (n, t)
                       | None => Fault NullDereference
                       end
           end.

Fixpoint list_set {A : Type} (l : list A) (i : nat) (a : A) : list A :=
  match l, i with
  | [], _ => []
  | _ :: l', O => a :: l'
  | h :: l', S i' => h :: list_set l' i' a
  end.

(** [*node = n] *)
Definition store (node : option nat) (n : MonteCarloNode) : Sim unit :=
  fun t => match node with
           | None => Fault NullDereference
           | Some i => Ok (tt, mkTree (list_set (nodes t) i n) (rand_calls t))
           end.

(** [new MonteCarloNode(...)] *)
Definition alloc (n : MonteCarloNode) : Sim nat :=
  fun t => Ok (length (nodes t), mkTree (nodes t ++ [n]) (rand_calls t)).

Definition node_count : Sim nat := fun t => Ok (length (nodes t), t).

Section MonteCarlo.

Variables S_ROWS S_COLS : nat.
Variable fl : FloatOps.

(** The order in which a range-for visits the keys of the
    [std::unordered_map], from the order of their insertion. *)
Variable umap_order : list Move -> list Move.

(** The value of the [k]-th call of [rand()]. *)
Variable rand : nat -> Z.

Variable self : MonteCarloPlayer.

(** A member function of the node behind a pointer. *)
Definition method {A : Type} (f : MonteCarloNode -> A * MonteCarloNode)
  (node : option nat) : Sim A :=
  n <~ deref node ;;
  let '(a, n') := f n in
  _ <~ store node n' ;;
  ret a.

Definition isTerminal : option nat -> Sim bool := method (Node_isTerminal S_ROWS S_COLS).
Definition isFullyExpanded : option nat -> Sim bool := method Node_isFullyExpanded.
Definition getWinState : option nat -> Sim (option Z) := method (Node_getWinState S_ROWS S_COLS).

Definition createChild (this : option nat) (move : Move) : Sim nat :=
  n <~ deref this ;;
  fresh <~ lift (Node_new S_ROWS S_COLS (m_turn n) (m_board n)) ;;
  newNode <~ alloc fresh ;;
  '(_, applied) <~ lift (Node_applyMove S_ROWS S_COLS fresh move) ;;
  _ <~ store (Some newNode) (set_parent applied this) ;;
  n' <~ deref this ;;
  _ <~ store this (set_children n' (umap_assign (children n') move newNode)) ;;
  ret newNode.

Definition getExpandedMoves (node : option nat) : Sim (list Move) :=
  n <~ deref node ;;
  ret (umap_order (map fst (children n))).

Definition getChildForMove (node : option nat) (move : Move) : Sim (option nat) :=
  n <~ deref node ;;
  ret (umap_find (children n) move).

(** The loop of [bestUCT] over the remaining moves. *)
Fixpoint bestUCT_loop (node : option nat) (moves : list Move)
  (maxVal : F fl) (res : Move * option nat) : Sim (Move * option nat) :=
  match moves with
  | [] => ret res
  | move :: moves' =>
      found <~ getChildForMove node move ;;
      child <~ lift (value found) ;;
      c <~ deref (Some child) ;;
      n <~ deref node ;;
      let cq := F_of_int fl (wins c) in
      let cn := F_of_int fl (visits c) in
      let rn := F_of_int fl (visits n) in
      let val := F_add fl (F_div fl cq cn)
                   (F_mul fl (F_of_int fl (m_c self))
                      (F_sqrt fl (F_div fl (F_log fl rn) cn))) in
      if F_gt fl val maxVal
      then bestUCT_loop node moves' val (move, Some child)
      else bestUCT_loop node moves' maxVal res
  end.

Definition bestUCT (node : option nat) : Sim (Move * option nat) :=
  allMoves <~ getExpandedMoves node ;;
  bestUCT_loop node allMoves (F_lowest fl) (Move_default, None).

(** The loop of [expand] over the remaining positions. *)
Fixpoint expand_loop (node : option nat) (turn : Tile) (positions : list Vec2i)
  : Sim (option nat) :=
  match positions with
  | [] => ret None
  | p :: positions' =>
      res <~ getChildForMove node (mkMove p turn) ;;
      match res with
      | None => child <~ createChild node (mkMove p turn) ;; ret (Some child)
      | Some _ => expand_loop node turn positions'
      end
  end.

Definition expand (node : option nat) : Sim (option nat) :=
  n <~ deref node ;;
  positions <~ lift (generateValidPositions S_ROWS S_COLS (m_board n)) ;;
  expand_loop node (m_turn n) positions.

(** The [while] loop of [traverse]. *)
Fixpoint traverse_loop (fuel : nat) (node : option nat) (res : Move * option nat)
  : Sim (option nat) :=
  match fuel with
  | O => lift (Fault OutOfFuel)
  | S fuel' =>
      terminal <~ isTerminal node ;;
      if negb terminal
      then
        full <~ isFullyExpanded node ;;
        if negb full then expand node
        else
          res' <~ bestUCT node ;;
          traverse_loop fuel' (snd res') res'
      else ret (snd res)
  end.

(** Every descent moves to a node allocated later, so the loop runs at
    most once per node of the store. *)
Definition traverse (node : option nat) : Sim (option nat) :=
  k <~ node_count ;;
  traverse_loop (S k) node (Move_default, None).

(** [rand()] *)
Definition call_rand : Sim Z :=
  fun t => Ok (rand (rand_calls t), mkTree (nodes t) (S (rand_calls t))).

(** [playoutPolicy] on the simulation node. *)
Definition playoutPolicy (simNode : MonteCarloNode) : Sim Move :=
  moves <~ lift (generateValidPositions S_ROWS S_COLS (m_board simNode)) ;;
  r <~ call_rand ;;
  match moves with
  | [] => lift (Fault DivisionByZero)
  | _ :: _ =>
      let idx := r mod Z.of_nat (length moves) + 0 in
      p <~ lift (vector_index moves (Z.to_nat idx)) ;;
      ret (mkMove p (m_turn simNode))
  end.

(** The [while] loop of [playout] on the private copy. *)
Fixpoint playout_loop (fuel : nat) (simNode : MonteCarloNode) : Sim MonteCarloNode :=
  match fuel with
  | O => lift (Fault OutOfFuel)
  | S fuel' =>
      let '(terminal, simNode1) := Node_isTerminal S_ROWS S_COLS simNode in
      if negb terminal
      then
        move <~ playoutPolicy simNode1 ;;
        '(applied, simNode2) <~ lift (Node_applyMove S_ROWS S_COLS simNode1 move) ;;
        if negb applied then lift (Fault ExceptionThrown)
        else playout_loop fuel' simNode2
      else ret simNode1
  end.

(** [playout]. Every move applied fills a cell, so the loop runs at most
    once per cell and once more. [delete simNode] deletes the children of
    the copy, which are those of [node]: a later use of them is a fault. *)
Definition playout (node : option nat) : Sim (option Z) :=
  terminal <~ isTerminal node ;;
  if terminal then getWinState node
  else
    n <~ deref node ;;
    simNode <~ playout_loop (S (S (n_bits S_ROWS S_COLS))) n ;;
    let '(res, simNode') := Node_getWinState S_ROWS S_COLS simNode in
    match children simNode' with
    | [] => ret res
    | _ :: _ => lift (Fault UseAfterFree)
    end.

Definition update_counts (node : option nat) (playoutResults : Z) : Sim unit :=
  n <~ deref node ;;
  store node (set_counts n (visits n + 1)
                           (wins n + playoutResults * Tile_value (mc_tile self))).

(** The [while] loop of [backpropagate] and the update of the root after it. *)
Fixpoint backpropagate_loop (fuel : nat) (node : option nat) (playoutResults : Z)
  : Sim unit :=
  match fuel with
  | O => lift (Fault OutOfFuel)
  | S fuel' =>
      n <~ deref node ;;
      match m_parent n with
      | Some parent =>
          _ <~ update_counts node playoutResults ;;
          backpropagate_loop fuel' (Some parent) playoutResults
      | None => update_counts node playoutResults
      end
  end.

Definition backpropagate (leaf : option nat) (playoutResults : Z) : Sim unit :=
  k <~ node_count ;;
  backpropagate_loop (S k) leaf playoutResults.

(** One pass of the simulation loop. *)
Definition simulation (root : option nat) : Sim unit :=
  leaf <~ traverse root ;;
  results <~ playout leaf ;;
  r <~ lift (value results) ;;
  backpropagate leaf r.

Fixpoint simulations (count : nat) (root : option nat) : Sim unit :=
  match count with
  | O => ret tt
  | S count' => _ <~ simulation root ;; simulations count' root
  end.

(** The final loop of [monteCarloTreeSearch] over the remaining moves. *)
Fixpoint mostVisited_loop (root : option nat) (moves : list Move)
  (maxVisits : Z) (res : Move) : Sim Move :=
  match moves with
  | [] => ret res
  | move :: moves' =>
      found <~ getChildForMove root move ;;
      child <~ lift (value found) ;;
      c <~ deref (Some child) ;;
      if visits c >? maxVisits
      then mostVisited_loop root moves' (visits c) move
      else mostVisited_loop root moves' maxVisits res
  end.

Definition mostVisited (root : option nat) : Sim Move :=
  allMoves <~ getExpandedMoves root ;;
  mostVisited_loop root allMoves 0 Move_default.

(** The tree after the simulation loop of [monteCarloTreeSearch]. *)
Definition search_tree (b : Board) : result Tree :=
  match (fresh <~ lift (Node_new S_ROWS S_COLS (mc_tile self) b) ;;
         root <~ alloc fresh ;;
         simulations (Z.to_nat (m_nSimulation self)) (Some root))
        (mkTree [] 0) with
  | Ok (_, t) => Ok t
  | Fault f => Fault f
  end.

(** [MonteCarloPlayer::monteCarloTreeSearch]; the root is the first node
    of the store. *)
Definition monteCarloTreeSearch (b : Board) : result Move :=
  t <- search_tree b ;;
  match mostVisited (Some 0%nat) t with
  | Ok (res, _) => Ok res
  | Fault f => Fault f
  end.

Definition MonteCarlo_getNextMove (b : Board) : result Move :=
  monteCarloTreeSearch b.

End MonteCarlo.

(* ================================================================== *)
(** * Vocabulary of the properties *)

(** The bit-set of a colour; [Empty] has none. *)
Definition pieces (b : Board) (t : Tile) : Z :=
  match t with
  | Positive => m_positivePieces b
  | Negative => m_negativePieces b
  | Empty => 0
  end.

Section BoardVocabulary.

Variables S_ROWS S_COLS : nat.

(** A cell holds a piece. *)
Definition occupied (b : Board) (p : Vec2i) : bool :=
  match board_at S_ROWS S_COLS b p with
  | Some Positive | Some Negative => true
  | _ => false
  end.

(** No cell has the bits of both colours. *)
Definition single_colour (b : Board) : Prop :=
  forall p, isValidPosition S_ROWS S_COLS p = true ->
    ~ (Z.testbit (m_positivePieces b) (index S_ROWS S_COLS p) = true /\
       Z.testbit (m_negativePieces b) (index S_ROWS S_COLS p) = true).

(** Every cell below a piece holds a piece. *)
Definition gravity (b : Board) : Prop :=
  forall p q, occupied b p = true ->
    x q = x p -> y p < y q < Z.of_nat S_ROWS -> occupied b q = true.

(** [gravity], decided by a scan of the cells. *)
Definition gravityb (b : Board) : bool :=
  forallb (fun p =>
             implb (occupied b p)
                   (forallb (fun yy => occupied b (mkVec2i (x p) yy))
                            (int_range (y p + 1) (Z.of_nat S_ROWS))))
          (cells S_ROWS S_COLS).

(** The placement rule of [operator<<]. *)
Definition placeable (b : Board) (move : Move) : Prop :=
  isValidPosition S_ROWS S_COLS (pos move) = true /\
  (y (pos move) + 1 = Z.of_nat S_ROWS \/
   occupied b (mkVec2i (x (pos move)) (y (pos move) + 1)) = true) /\
  (tile move = Positive \/ tile move = Negative).

(** The board after a successful placement. *)
Definition with_piece (b : Board) (move : Move) : Board :=
  let mask := 2 ^ index S_ROWS S_COLS (pos move) in
  match tile move with
  | Positive => mkBoard (Z.lor (m_positivePieces b) mask) (m_negativePieces b)
  | Negative => mkBoard (m_positivePieces b) (Z.lor (m_negativePieces b) mask)
  | Empty => b
  end.

(** [b'] shows at every position the enemy of the tile that [b] shows. *)
Definition colour_swapped (b b' : Board) : Prop :=
  forall p, board_at S_ROWS S_COLS b' p = option_map getEnemyTile (board_at S_ROWS S_COLS b p).

End BoardVocabulary.

(** The board with the two bit-sets exchanged. *)
Definition swap_colours (b : Board) : Board :=
  mkBoard (m_negativePieces b) (m_positivePieces b).

(** The evaluation names a winner. *)
Definition reports_win (e : Evaluation) : bool :=
  match fst e with
  | Some v => negb (v =? 0)
  | None => false
  end.

(** How two scans of the same cells relate under an exchange of the
    colours: the same early exit for the enemy tile, or the negated score. *)
Definition mirrored (r r' : Evaluation + Z) : Prop :=
  match r with
  | inl e => exists t, t <> Empty /\ e = win_of t /\ r' = inl (win_of (getEnemyTile t))
  | inr s => r' = inr (- s)
  end.

(** ** Boards and moves of the examples, all 6x7 *)

(** The bit of the cell in column [xx] of row [yy]. *)
Definition bit_6x7 (xx yy : Z) : Z := 2 ^ (yy * 7 + xx).

(** One Positive tile at (0,5). *)
Definition board_one_positive : Board := mkBoard (bit_6x7 0 5) 0.

(** Positive tiles at (0,5), (1,5), (2,5) and (3,5). *)
Definition board_four_positive : Board :=
  mkBoard (bit_6x7 0 5 + bit_6x7 1 5 + bit_6x7 2 5 + bit_6x7 3 5) 0.

Definition move_positive_0_5 : Move := mkMove (mkVec2i 0 5) Positive.
Definition move_negative_0_5 : Move := mkMove (mkVec2i 0 5) Negative.
Definition move_negative_0_4 : Move := mkMove (mkVec2i 0 4) Negative.

(** A game on the empty board, the players at addresses 1 and 2, and an
    agent that always answers with a position left of the grid. *)
Definition game_start : Game := mkGame (Board_empty 6 7) false 1%nat 2%nat 1%nat.
Definition agent_off_grid (player : nat) (b : Board) : result Move :=
  Ok (mkMove (mkVec2i (-1) 5) Positive).

(** ** The move generator *)

Section GeneratorVocabulary.

Variables S_ROWS S_COLS : nat.

(** The top cell of a column compares equal to [Tile::Empty]. *)
Definition column_open (b : Board) (xx : Z) : bool :=
  optTile_is (board_at S_ROWS S_COLS b (mkVec2i xx 0)) Empty.

(** What the loop body means to append for a column. *)
Definition column_target (b : Board) (xx : Z) : list Vec2i :=
  if column_open b xx
  then [match scan_levels S_ROWS S_COLS b xx (int_range 1 (Z.of_nat S_ROWS)) with
        | Some p => p
        | None => mkVec2i xx (Z.of_nat S_ROWS - 1)
        end]
  else [].

(** The first open column among [xs] has no piece below its top cell. *)
Fixpoint first_open_bare (b : Board) (xs : list Z) : bool :=
  match xs with
  | [] => false
  | xx :: xs' =>
      if column_open b xx
      then negb (has_value (scan_levels S_ROWS S_COLS b xx (int_range 1 (Z.of_nat S_ROWS))))
      else first_open_bare b xs'
  end.

(** The lowest row of a column whose cell is empty. *)
Definition lowest_empty_row (b : Board) (xx : Z) : option Z :=
  find (fun yy => optTile_is (board_at S_ROWS S_COLS b (mkVec2i xx yy)) Empty)
       (rev (int_range 0 (Z.of_nat S_ROWS))).

(** The result the specification describes: for each column with an empty
    top cell, in ascending order, its lowest empty row. *)
Definition expected_positions (b : Board) : list Vec2i :=
  flat_map (fun xx =>
              if column_open b xx
              then match lowest_empty_row b xx with
                   | Some r => [mkVec2i xx r]
                   | None => []
                   end
              else [])
           (int_range 0 (Z.of_nat S_COLS)).

End GeneratorVocabulary.

(** One Positive tile at (3,5): the board after a first move in the
    middle column. *)
Definition board_centre_opening : Board := mkBoard (bit_6x7 3 5) 0.

(** ** The minimax scenario *)

(** Positive tiles at (0,5), (1,5) and (2,5), nothing else. *)
Definition board_three_positive : Board :=
  mkBoard (bit_6x7 0 5 + bit_6x7 1 5 + bit_6x7 2 5) 0.

Definition move_positive_3_5 : Move := mkMove (mkVec2i 3 5) Positive.

(** The Positive minimax player of a given depth against Negative. *)
Definition minimax_positive (depth : Z) : MinimaxPlayer :=
  mkMinimaxPlayer depth Positive Negative.

(** ** The Monte Carlo search *)

(** The visit count of the child that a map of children holds for a move. *)
Definition child_visits (t : Tree) (chs : list (Move * nat)) (m : Move) : Z :=
  match umap_find chs m with
  | Some c => match nth_error (nodes t) c with
              | Some n => visits n
              | None => 0
              end
  | None => 0
  end.

(** [res] is what a scan of [order] keeps when it replaces its candidate,
    the default move with bound [floor] at the start, at every strictly
    larger count: the first move of [order] with the largest count, or
    [fallback] if no count exceeds [floor]. *)
Definition first_maximum (count : Move -> Z) (order : list Move)
  (floor : Z) (fallback res : Move) : Prop :=
  (res = fallback /\ forall m, In m order -> count m <= floor) \/
  (exists before after,
      order = before ++ res :: after /\
      floor < count res /\
      (forall m, In m before -> count m < count res) /\
      (forall m, In m after -> count m <= count res)).

(** Seven tiles on the bottom row, P P N N P P N: every column holds a
    tile, so no run of the generator on this board or on a board that grows
    from it meets a bare column. *)
Definition board_bottom_row : Board :=
  mkBoard (bit_6x7 0 5 + bit_6x7 1 5 + bit_6x7 4 5 + bit_6x7 5 5)
          (bit_6x7 2 5 + bit_6x7 3 5 + bit_6x7 6 5).

(** Integers in thousandths in place of [float]; the example runs stop
    before [bestUCT] is reached. *)
Definition milli_floats : FloatOps :=
  mkFloatOps Z (fun z => z * 1000) Z.add (fun a b => a * b / 1000)
             (fun a b => a * 1000 / b) (fun a => Z.sqrt (a * 1000))
             (fun a => Z.log2 (a / 1000) * 693) Z.gtb (- 10 ^ 38).

(** A sequence of values for [rand()]. *)
Definition rand_example (k : nat) : Z := Z.of_nat k * 5 + 3.

(** The keys of the map, the newest first. *)
Definition newest_first (keys : list Move) : list Move := rev keys.

Definition player_two_simulations : MonteCarloPlayer := mkMonteCarloPlayer 2 1 Negative.

Definition move_negative_1_4 : Move := mkMove (mkVec2i 1 4) Negative.

(** The tree after two simulations on [board_bottom_row] when the map of
    children iterates newest first. *)
Definition tree_after_two_simulations : Tree :=
  Eval vm_compute in
    match search_tree 6 7 milli_floats newest_first rand_example
            player_two_simulations board_bottom_row with
    | Ok t => t
    | Fault _ => mkTree [] 0
    end.

(** ** The links of the search tree *)

(** The visit count of the node at an address. *)
Definition visits_at (h : list MonteCarloNode) (c : nat) : Z :=
  match nth_error h c with
  | Some n => visits n
  | None => 0
  end.

(** The addresses that the root's map of children holds. *)
Definition root_children (h : list MonteCarloNode) : list nat :=
  match h with
  | r :: _ => map snd (children r)
  | [] => []
  end.

(** The sum of the visit counts of the root's expanded children. *)
Definition root_children_visits (h : list MonteCarloNode) : Z :=
  fold_right (fun c acc => visits_at h c + acc) 0 (root_children h).

(** The pointers of a store of nodes form a tree rooted at address 0: the
    root has no parent, every other node has a parent allocated before it,
    children are allocated nodes other than the root, and the root's map
    holds exactly the nodes whose parent is the root, each once. *)
Record linked (h : list MonteCarloNode) : Prop := mkLinked {
  linked_root : exists r, nth_error h 0 = Some r /\ m_parent r = None;
  linked_parent : forall i n, nth_error h i = Some n -> (0 < i)%nat ->
                    exists p, m_parent n = Some p /\ (p < i)%nat;
  linked_children : forall i n c, nth_error h i = Some n ->
                      In c (map snd (children n)) -> (0 < c < length h)%nat;
  linked_root_children : forall c n, nth_error h c = Some n ->
                           (m_parent n = Some 0%nat <-> In c (root_children h));
  linked_nodup : NoDup (root_children h)
}.

(** A node keeps its place in the tree. *)
Definition same_links (n n' : MonteCarloNode) : Prop :=
  m_parent n' = m_parent n /\ children n' = children n.

(** A computation leaves the tree linked, deletes no node, and leaves the
    visit counts of the root and of its children as they were. *)
Definition stable (t t' : Tree) : Prop :=
  linked (nodes t') /\
  (length (nodes t) <= length (nodes t'))%nat /\
  root_children_visits (nodes t') = root_children_visits (nodes t) /\
  visits_at (nodes t') 0 = visits_at (nodes t) 0.

(** A pointer is null or the address of an allocated node other than the
    root. *)
Definition below_root (t : Tree) (p : option nat) : Prop :=
  match p with
  | None => True
  | Some c => (0 < c < length (nodes t))%nat
  end.

(** The store after [createChild]: the child at the next free address and
    the parent's map of children with one more entry. *)
Definition with_child (h : list MonteCarloNode) (i : nat) (n child : MonteCarloNode)
  (move : Move) : list MonteCarloNode :=
  list_set (h ++ [child]) i (set_children n (children n ++ [(move, length h)])).

(* ================================================================== *)
(** * Vocabulary of the further properties *)

(** ** Runs of equal tiles *)

Section RunVocabulary.

Variables S_ROWS S_COLS : nat.

(** The [connectN] cells from [q] on in steps of [d] all show the tile [t]. *)
Definition line_of (b : Board) (t : Tile) (q d : Vec2i) : Prop :=
  forall k, 0 <= k < connectN ->
    board_at S_ROWS S_COLS b (Vec2i_add q (Vec2i_scale d k)) = Some t.

(** A row, a column or a diagonal holds [connectN] adjacent tiles of the
    colour [t]. *)
Definition four_in_a_row (b : Board) (t : Tile) : Prop :=
  t <> Empty /\ exists q d, In d directions /\ line_of b t q d.

End RunVocabulary.

(** The terminal values there are: none, a win of Positive, a draw, a win
    of Negative. *)
Definition signal (o : option Z) : Prop :=
  o = None \/ o = Some 1 \/ o = Some 0 \/ o = Some (-1).

(* ================================================================== *)
(** * HumanPlayer *)

Record HumanPlayer : Type := mkHumanPlayer { hm_tile : Tile }.

Section Human.

Variables S_ROWS S_COLS : nat.

(** The loop of [HumanPlayer::getNextMove] over the rows of the chosen
    column: the value assigned to [p.y] before [break], if any. *)
Fixpoint drop_loop (b : Board) (px : Z) (levels : list Z) : option Z :=
  match levels with
  | [] => None
  | i :: levels' =>
      if negb (optTile_is (board_at S_ROWS S_COLS b (mkVec2i px i)) Empty)
      then Some (i - 1)
      else drop_loop b px levels'
  end.

(** [HumanPlayer::getNextMove]; [column] is the number read from
    [std::cin] into [p.x]. *)
Definition Human_getNextMove (self : HumanPlayer) (column : Z) (b : Board) : Move :=
  let boardShape := m_shape S_ROWS S_COLS in
  let py := match drop_loop b column (int_range 0 (rows boardShape)) with
            | Some r => r
            | None => rows boardShape - 1
            end in
  mkMove (mkVec2i column py) (hm_tile self).

End Human.

(* ================================================================== *)
(** * The search players: vocabulary *)

(** A computation returns or reads [back()] of an empty vector. *)
Definition returns_or_reads_empty {A : Type} (r : result A) : Prop :=
  (exists a, r = Ok a) \/ r = Fault BackOfEmptyVector.

(** The faults that the two defects of the code account for: [back()] of
    an empty vector in the move generator, and a null node pointer. *)
Definition benign (f : fault) : Prop :=
  f = BackOfEmptyVector \/ f = NullDereference.

(** A computation returns, or ends in one of those two faults: it throws
    no exception, divides by no zero, reads no vector past its end, uses no
    deleted node, and its loops end. *)
Definition safe {A : Type} (r : result A) : Prop :=
  match r with
  | Ok _ => True
  | Fault f => benign f
  end.

(** ** The minimax value without pruning *)

Section PlainMinimax.

Variables S_ROWS S_COLS : nat.
Variable self : MinimaxPlayer.

(** The values of the boards that the moves of [currentTile] to the
    [positions] lead to. *)
Fixpoint minimax_children (recur : Board -> result Z) (currentTile : Tile)
  (positions : list Vec2i) (b : Board) : result (list Z) :=
  match positions with
  | [] => Ok []
  | p :: positions' =>
      v <- recur (snd (place S_ROWS S_COLS b (mkMove p currentTile))) ;;
      vs <- minimax_children recur currentTile positions' b ;;
      Ok (v :: vs)
  end.

(** The value that [alphabeta] is meant to compute: the score of
    [evaluate] at depth 0 and on terminal boards, and otherwise the largest
    value of a child where [alphabeta] maximises and the smallest where it
    minimises, over all the generated positions. *)
Fixpoint minimax (fuel : nat) (b : Board) (depth : Z) (isEnemy : bool) : result Z :=
  match fuel with
  | O => Fault OutOfFuel
  | S fuel' =>
      let '(isTerminal, score) := evaluate S_ROWS S_COLS b in
      if (depth =? 0) || has_value isTerminal then Ok score
      else
        let currentTile := if negb isEnemy then m_tile self else m_enemyTile self in
        let isMaximising :=
          if Tile_eqb (m_tile self) Positive
          then (if negb isEnemy then true else false)
          else (if negb isEnemy then false else true) in
        positions <- generateValidPositions S_ROWS S_COLS b ;;
        values <- minimax_children
                    (fun b' => minimax fuel' b' (depth - 1) (negb isEnemy))
                    currentTile positions b ;;
        Ok (if isMaximising
            then fold_right Z.max LONG_MIN values
            else fold_right Z.min LONG_MAX values)
  end.

End PlainMinimax.

(** How the value [r] that a search with the window from [alpha] to [beta]
    returns relates to the true value [v]: equal inside the window, on the
    same side outside. *)
Definition within_window (v alpha beta r : Z) : Prop :=
  (v <= alpha -> r <= alpha) /\ (beta <= v -> beta <= r) /\
  (alpha < v < beta -> r = v).

(** ** The search tree as a game tree *)

(** Two states of a node with the same board, turn, parent and children. *)
Definition same_frame (n n' : MonteCarloNode) : Prop :=
  m_board n' = m_board n /\ m_turn n' = m_turn n /\
  m_parent n' = m_parent n /\ children n' = children n.

(** The memoised win state is one of the three outcomes. *)
Definition winState_sound (n : MonteCarloNode) : Prop :=
  m_winState n = 1 \/ m_winState n = 0 \/ m_winState n = -1.

Section GameTree.

Variables S_ROWS S_COLS : nat.

(** What a node memoises and counts agrees with its board: the terminal
    flag and the win state with [evaluate], the bound on the children with
    the move generator; the wins lie within the visits; and every key of
    the map of children is a move of the node's turn to a position that
    the generator gives for the node's board, no key twice. *)
Record node_sound (n : MonteCarloNode) : Prop := mkNodeSound {
  sound_winState : winState_sound n;
  sound_terminal :
    m_isTerminal n = true ->
    fst (evaluate S_ROWS S_COLS (m_board n)) = Some (m_winState n);
  sound_maxChildren :
    exists l, generateValidPositions S_ROWS S_COLS (m_board n) = Ok l /\
              m_maxChildren n = Z.of_nat (length l);
  sound_counts : Z.abs (wins n) <= visits n;
  sound_keys :
    forall m, In m (map fst (children n)) ->
      tile m = m_turn n /\
      exists l, generateValidPositions S_ROWS S_COLS (m_board n) = Ok l /\ In (pos m) l;
  sound_distinct : NoDup (map fst (children n))
}.

(** The child that node [i] holds for the move [m]: it points back to
    [i], holds the board of [i] after [operator<<] with [m], and the enemy's
    turn if that placement succeeded. *)
Definition edge_sound (h : list MonteCarloNode) (i : nat) (n : MonteCarloNode)
  (m : Move) (c : nat) : Prop :=
  exists n', nth_error h c = Some n' /\ m_parent n' = Some i /\
    m_board n' = snd (place S_ROWS S_COLS (m_board n) m) /\
    m_turn n' = (if fst (place S_ROWS S_COLS (m_board n) m)
                 then getEnemyTile (m_turn n) else m_turn n).

(** The store is a game tree for the board [b] with [turn] to move. *)
Record game_tree (b : Board) (turn : Tile) (h : list MonteCarloNode) : Prop := mkGameTree {
  tree_root : exists r, nth_error h 0 = Some r /\ m_board r = b /\ m_turn r = turn;
  tree_nodes : forall i n, nth_error h i = Some n -> node_sound n;
  tree_edges : forall i n m c, nth_error h i = Some n -> In (m, c) (children n) ->
                 edge_sound h i n m c;
  tree_turns : turn <> Empty -> forall i n, nth_error h i = Some n -> m_turn n <> Empty
}.

(** The number of cells that read [Empty]. *)
Definition empties (b : Board) : nat :=
  length (filter (fun p => optTile_is (board_at S_ROWS S_COLS b p) Empty)
                 (cells S_ROWS S_COLS)).

End GameTree.

(* ================================================================== *)
(** * The hash functions of the map of children *)

Section Hashing.

(** [std::hash<int>], which the standard leaves to the implementation. *)
Variable hash_int : Z -> Z.

(** [std::hash<Vec2i>] *)
Definition hash_Vec2i (vec : Vec2i) : Z :=
  Z.lxor (hash_int (x vec)) (hash_int (y vec)).

(** [std::hash<Move>] *)
Definition hash_Move (move : Move) : Z :=
  Z.lxor (hash_Vec2i (pos move)) (hash_int (Tile_value (tile move))).

End Hashing.

(* ================================================================== *)
(** * Printing and the game loop *)

From Stdlib Require String Ascii.
Import String.StringSyntax Ascii.AsciiSyntax.
Delimit Scope string_scope with string.
Delimit Scope char_scope with char.

Local Infix "+++" := String.append (at level 60, right associativity).

(** The text written to a [std::ostream] so far. *)
Definition ostream : Type := String.string.

Definition newline : String.string := String.String (Ascii.ascii_of_nat 10) String.EmptyString.

(** [operator<<(std::ostream&, Tile)]; the three enumerators are the only
    values of a [Tile] here, so the [default] branch has no counterpart. *)
Definition Tile_show (os : ostream) (t : Tile) : ostream :=
  match t with
  | Negative => os +++ "O"%string
  | Positive => os +++ "X"%string
  | Empty => os +++ "."%string
  end.

Fixpoint string_repeat (n : nat) (c : Ascii.ascii) : String.string :=
  match n with
  | O => String.EmptyString
  | S n' => String.String c (string_repeat n' c)
  end.

(** [std::string(count, c)] for an [int] count: a negative count converts
    to a size beyond [max_size()] and [std::length_error] is thrown. *)
Definition string_of_count (count : Z) (c : Ascii.ascii) : result String.string :=
  if count <? 0 then Fault ExceptionThrown
  else Ok (string_repeat (Z.to_nat count) c).

Section Printing.

Variables S_ROWS S_COLS : nat.

Let boardShape : Shape := m_shape S_ROWS S_COLS.

(** The inner loop of the board printer over the cells of one row. *)
Fixpoint show_cells (b : Board) (yy : Z) (xs : list Z) (os : ostream) : result ostream :=
  match xs with
  | [] => Ok os
  | xx :: xs' =>
      match board_at S_ROWS S_COLS b (mkVec2i xx yy) with
      | None => Fault ExceptionThrown
      | Some t => show_cells b yy xs' (Tile_show os t +++ " | "%string)
      end
  end.

(** The outer loop over the rows. *)
Fixpoint show_rows (b : Board) (full_horizontal_line inner_horizontal_line : String.string)
  (ys : list Z) (os : ostream) : result ostream :=
  match ys with
  | [] => Ok os
  | yy :: ys' =>
      os1 <- show_cells b yy (int_range 0 (cols boardShape)) (os +++ "| "%string) ;;
      let os2 := os1 +++ newline in
      let os3 := if negb (yy =? rows boardShape - 1)
                 then os2 +++ inner_horizontal_line +++ newline
                 else os2 +++ full_horizontal_line +++ newline in
      show_rows b full_horizontal_line inner_horizontal_line ys' os3
  end.

(** [operator<<(std::ostream&, Board&)] *)
Definition Board_show (os : ostream) (b : Board) : result ostream :=
  dashes <- string_of_count ((cols boardShape + 2) * 3) "-"%char ;;
  let full_horizontal_line := "+"%string +++ dashes +++ "+"%string in
  dashes' <- string_of_count ((cols boardShape - 1) * 4) "-"%char ;;
  let inner_horizontal_line := "+---"%string +++ dashes' +++ "+"%string in
  show_rows b full_horizontal_line inner_horizontal_line (int_range 0 (rows boardShape))
            (os +++ full_horizontal_line +++ newline).

(** [player->getNextMove(board)] and [player->getFriendlyName()] for the
    player at an address; what an agent prints or reads itself is not part
    of the text. *)
Variable getNextMove : nat -> Board -> result Move.
Variable getFriendlyName : nat -> String.string.

(** The [switch] of [gameLoop] on the terminal value. *)
Definition announce (g : Game) (value : Z) (os : ostream) : result ostream :=
  if value =? 1
  then Ok (os +++ "Player "%string +++ getFriendlyName (playerPositive g)
              +++ " has won!"%string +++ newline)
  else if value =? 0
  then Ok (os +++ "It's a draw!"%string +++ newline)
  else if value =? -1
  then Ok (os +++ "Player "%string +++ getFriendlyName (playerNegative g)
              +++ " has won!"%string +++ newline)
  else Fault ExceptionThrown.

(** The [for] loop of [gameLoop] with [turns] iterations left. *)
Fixpoint gameLoop_turns (turns : nat) (g : Game) (os : ostream) : result (Game * ostream) :=
  match turns with
  | O => Ok (g, os)
  | S turns' =>
      os1 <- Board_show os (board g) ;;
      let os2 := os1 +++ newline +++ "It is "%string +++ getFriendlyName (currentPlayer g)
                     +++ "'s Turn"%string +++ newline in
      '(valueOpt, g1) <- makeMove S_ROWS S_COLS getNextMove g ;;
      match valueOpt with
      | Some value =>
          os3 <- announce g1 value os2 ;;
          Ok (mkGame (board g1) true (playerPositive g1) (playerNegative g1)
                     (currentPlayer g1), os3)
      | None => gameLoop_turns turns' g1 os2
      end
  end.

(** [Game::gameLoop] *)
Definition gameLoop (g : Game) (os : ostream) : result (Game * ostream) :=
  let maxLimit := 1000%nat in
  '(g1, os1) <- gameLoop_turns maxLimit g os ;;
  os2 <- Board_show os1 (board g1) ;;
  Ok (g1, os2 +++ newline +++ newline).

End Printing.

(** An agent that always answers with Positive at (0,5), and the names
    of the example game. *)
Definition agent_bottom_left (player : nat) (b : Board) : result Move :=
  Ok move_positive_0_5.

Definition names_example (player : nat) : String.string :=
  match player with
  | 1%nat => "Human"%string
  | _ => "Mrs. Minimax"%string
  end.

(** The node that the constructor makes for the board with a full bottom
    row and Negative to move. *)
Definition node_bottom_row : MonteCarloNode :=
  mkNode 0 0 board_bottom_row false 0 Negative 7 false None [].

(** ** The path of backpropagate *)

(** The addresses from a node up to the root along the parent pointers,
    at most [fuel] of them. *)
Fixpoint path_to_root (h : list MonteCarloNode) (fuel : nat) (c : nat) : list nat :=
  match fuel with
  | O => []
  | S fuel' =>
      match nth_error h c with
      | Some n =>
          match m_parent n with
          | Some p => c :: path_to_root h fuel' p
          | None => [c]
          end
      | None => []
      end
  end.

(** A node after one playout with the result [r] went through it, for
    the player with the tile [t]. *)
Definition bumped (t : Tile) (r : Z) (n : MonteCarloNode) : MonteCarloNode :=
  set_counts n (visits n + 1) (wins n + r * Tile_value t).

(** ** Agents *)

(** An agent whose moves, where [operator<<] accepts them, go to cells
    that read [Empty]. *)
Definition polite (S_ROWS S_COLS : nat) (getNextMove : nat -> Board -> result Move) : Prop :=
  forall player b move,
    getNextMove player b = Ok move ->
    fst (place S_ROWS S_COLS b move) = true ->
    board_at S_ROWS S_COLS b (pos move) = Some Empty.

(** An agent that answers with Positive at (3,5) while that cell reads
    [Empty] and with [Move{}] afterwards; the game that starts from the
    board with three Positive tiles; and the game and the text when
    [gameLoop] has run on it. *)
Definition agent_centre (player : nat) (b : Board) : result Move :=
  if optTile_is (board_at 6 7 b (mkVec2i 3 5)) Empty
  then Ok move_positive_3_5
  else Ok Move_default.

Definition game_three_positive : Game := mkGame board_three_positive false 1%nat 2%nat 1%nat.

Definition game_after_win : Game * ostream :=
  Eval vm_compute in
    match gameLoop 6 7 agent_centre names_example game_three_positive String.EmptyString with
    | Ok r => r
    | Fault _ => (game_three_positive, String.EmptyString)
    end.

(** The tree after two simulations, with one more playout result carried
    up from the node at address 1. *)
Definition tree_after_backpropagate : Tree :=
  Eval vm_compute in
    match backpropagate player_two_simulations (Some 1%nat) 1 tree_after_two_simulations with
    | Ok (_, t) => t
    | Fault _ => mkTree [] 0
    end.

(** The store with that node alone, and the store after [expand] on it. *)
Definition tree_bottom_row : Tree := mkTree [node_bottom_row] 0.

Definition tree_after_expand : Tree :=
  Eval vm_compute in
    match expand 6 7 (Some 0%nat) tree_bottom_row with
    | Ok (_, t) => t
    | Fault _ => mkTree [] 0
    end.

(** An agent that answers on every board that is not terminal with a move
    that [operator<<] accepts, to a cell that reads [Empty]. *)
Definition plays_legally (S_ROWS S_COLS : nat) (getNextMove : nat -> Board -> result Move)
  : Prop :=
  forall player b,
    fst (evaluate S_ROWS S_COLS b) = None ->
    exists move,
      getNextMove player b = Ok move /\
      fst (place S_ROWS S_COLS b move) = true /\
      board_at S_ROWS S_COLS b (pos move) = Some Empty.

(** Two human players, Positive at address 1, who always type the
    leftmost column whose top cell is empty. *)
Definition leftmost_open_column (b : Board) : Z :=
  match find (column_open 6 7 b) (int_range 0 7) with
  | Some c => c
  | None => 0
  end.

Definition agent_leftmost (player : nat) (b : Board) : result Move :=
  Ok (Human_getNextMove 6 7
        (mkHumanPlayer (if Nat.eqb player 1 then Positive else Negative))
        (leftmost_open_column b) b).

(* ================================================================== *)
(** * Properties *)

(** ** Loops and bits *)

Lemma int_range_In (lo hi i : Z) : In i (int_range lo hi) <-> lo <= i < hi.
Proof.
  unfold int_range. rewrite in_map_iff. split.
  - intros [k [<- Hk]]. apply in_seq in Hk. lia.
  - intros H. exists (Z.to_nat (i - lo)). split; [lia|]. apply in_seq. lia.
Qed.

Lemma int_range_cons (lo hi : Z) :
  lo < hi -> int_range lo hi = lo :: int_range (lo + 1) hi.
Proof.
  intros H. unfold int_range.
  replace (Z.to_nat (hi - lo)) with (S (Z.to_nat (hi - (lo + 1)))) by lia.
  cbn [seq map]. f_equal; [lia|].
  rewrite <- seq_shift, map_map. apply map_ext. intros; lia.
Qed.

Lemma int_range_nil (lo hi : Z) : hi <= lo -> int_range lo hi = [].
Proof.
  intros H. unfold int_range. replace (Z.to_nat (hi - lo)) with O by lia. reflexivity.
Qed.

Lemma land_shiftr_one (z i : Z) :
  0 <= i -> (Z.land (Z.shiftr z i) 1 =? 1) = Z.testbit z i.
Proof.
  intros Hi. change 1 with (Z.ones 1) at 1. rewrite Z.land_ones by lia.
  change (2 ^ 1) with 2. rewrite Zmod_odd, <- Z.bit0_odd, Z.shiftr_spec by lia.
  rewrite Z.add_0_l. destruct (Z.testbit z i); reflexivity.
Qed.

Lemma of_ull_one (w : nat) : (0 < w)%nat -> Bitset.of_ull w 1 = 1.
Proof.
  intros H. unfold Bitset.of_ull, Bitset.trunc. apply Z.mod_small.
  split; [lia|]. apply Z.pow_gt_1; lia.
Qed.

Lemma mask_pow2 (w : nat) (i : Z) :
  0 <= i < Z.of_nat w -> Bitset.shl w (Bitset.of_ull w 1) i = 2 ^ i.
Proof.
  intros H. rewrite of_ull_one by lia. unfold Bitset.shl, Bitset.trunc.
  rewrite Z.shiftl_1_l. apply Z.mod_small. split.
  - apply Z.pow_nonneg; lia.
  - apply Z.pow_lt_mono_r; lia.
Qed.

Lemma lor_pow2_bit (z i j : Z) :
  0 <= i -> Z.testbit (Z.lor z (2 ^ i)) j = Z.testbit z j || (j =? i).
Proof.
  intros Hi. rewrite Z.lor_spec. f_equal.
  destruct (Z.eqb_spec j i) as [->|Hne].
  - apply Z.pow2_bits_true; lia.
  - apply Z.pow2_bits_false; lia.
Qed.

Lemma flip_pow2_bit (w : nat) (i j : Z) :
  0 <= i -> 0 <= j ->
  Z.testbit (Bitset.flip w (2 ^ i)) j = (j <? Z.of_nat w) && negb (j =? i).
Proof.
  intros Hi Hj. unfold Bitset.flip, Bitset.trunc.
  destruct (Z.ltb_spec j (Z.of_nat w)).
  - rewrite Z.mod_pow2_bits_low by lia. rewrite Z.lnot_spec by lia. cbn. f_equal.
    destruct (Z.eqb_spec j i) as [->|Hne].
    + apply Z.pow2_bits_true; lia.
    + apply Z.pow2_bits_false; lia.
  - rewrite Z.mod_pow2_bits_high by lia. reflexivity.
Qed.

Lemma wf_bit_high (w : nat) (z j : Z) :
  Bitset.wf w z -> Z.of_nat w <= j -> Z.testbit z j = false.
Proof.
  intros [H0 H1] Hj. destruct (Z.eq_dec z 0) as [->|Hz]; [apply Z.bits_0|].
  apply Z.bits_above_log2; [lia|].
  apply Z.lt_le_trans with (Z.of_nat w); [|lia].
  apply Z.log2_lt_pow2; lia.
Qed.

(** ** Positions *)

Section Positions.

Variables S_ROWS S_COLS : nat.

Lemma isValidPosition_iff (p : Vec2i) :
  isValidPosition S_ROWS S_COLS p = true <->
  0 <= x p < Z.of_nat S_COLS /\ 0 <= y p < Z.of_nat S_ROWS.
Proof.
  unfold isValidPosition, m_shape; cbn [rows cols].
  rewrite negb_true_iff, !orb_false_iff, !Z.ltb_ge, !Z.geb_leb, !Z.leb_gt. lia.
Qed.

Lemma index_range (p : Vec2i) :
  isValidPosition S_ROWS S_COLS p = true ->
  0 <= index S_ROWS S_COLS p < Z.of_nat (n_bits S_ROWS S_COLS).
Proof.
  rewrite isValidPosition_iff. unfold index, n_bits, m_shape; cbn [rows cols].
  intros [Hx Hy]. rewrite Nat2Z.inj_mul. nia.
Qed.

Lemma index_inj (p q : Vec2i) :
  isValidPosition S_ROWS S_COLS p = true ->
  isValidPosition S_ROWS S_COLS q = true ->
  index S_ROWS S_COLS p = index S_ROWS S_COLS q -> p = q.
Proof.
  rewrite !isValidPosition_iff. unfold index, m_shape; cbn [rows cols].
  destruct p as [px py], q as [qx qy]; cbn [x y]. intros Hp Hq He.
  assert (py = qy) by nia. subst. f_equal. lia.
Qed.

End Positions.

(** ** The board: reading, placing, removing *)

Section BoardFacts.

Variables S_ROWS S_COLS : nat.

Local Abbreviation valid := (isValidPosition S_ROWS S_COLS).
Local Abbreviation idx := (index S_ROWS S_COLS).
Local Abbreviation cell := (board_at S_ROWS S_COLS).

Lemma board_at_invalid (b : Board) (p : Vec2i) :
  valid p = false -> cell b p = None.
Proof. intros H. unfold board_at. rewrite H. reflexivity. Qed.

Lemma board_at_bits (b : Board) (p : Vec2i) :
  valid p = true ->
  cell b p =
    Some (if Z.testbit (m_positivePieces b) (idx p) then Positive
          else if Z.testbit (m_negativePieces b) (idx p) then Negative
          else Empty).
Proof.
  intros H. pose proof (index_range _ _ _ H) as Hi.
  unfold board_at. rewrite H. cbn [negb].
  rewrite of_ull_one by lia. unfold Bitset.shr.
  rewrite !land_shiftr_one by lia.
  destruct (Z.testbit (m_positivePieces b) (idx p)); [reflexivity|].
  destruct (Z.testbit (m_negativePieces b) (idx p)); reflexivity.
Qed.

Lemma occupied_bits (b : Board) (p : Vec2i) :
  valid p = true ->
  occupied S_ROWS S_COLS b p =
    Z.testbit (m_positivePieces b) (idx p) || Z.testbit (m_negativePieces b) (idx p).
Proof.
  intros H. unfold occupied. rewrite board_at_bits by assumption.
  destruct (Z.testbit (m_positivePieces b) (idx p)); [reflexivity|].
  destruct (Z.testbit (m_negativePieces b) (idx p)); reflexivity.
Qed.

Lemma occupied_valid (b : Board) (p : Vec2i) :
  occupied S_ROWS S_COLS b p = true -> valid p = true.
Proof.
  unfold occupied. destruct (valid p) eqn:E; [reflexivity|].
  rewrite board_at_invalid by assumption. discriminate.
Qed.

Lemma is_Empty_occupied (b : Board) (p : Vec2i) :
  valid p = true -> optTile_is (cell b p) Empty = negb (occupied S_ROWS S_COLS b p).
Proof.
  intros H. unfold occupied. rewrite board_at_bits by assumption.
  destruct (Z.testbit (m_positivePieces b) (idx p)); [reflexivity|].
  destruct (Z.testbit (m_negativePieces b) (idx p)); reflexivity.
Qed.

Lemma place_cases (b : Board) (move : Move) :
  (placeable S_ROWS S_COLS b move /\ place S_ROWS S_COLS b move = (true, with_piece S_ROWS S_COLS b move)) \/
  (~ placeable S_ROWS S_COLS b move /\ place S_ROWS S_COLS b move = (false, b)).
Proof.
  unfold place, placeable.
  destruct (valid (pos move)) eqn:Hv; cbn [negb].
  2:{ right. split; [intros [H _]; discriminate | reflexivity]. }
  pose proof (index_range _ _ _ Hv) as Hi.
  apply isValidPosition_iff in Hv as Hxy.
  change (rows (m_shape S_ROWS S_COLS)) with (Z.of_nat S_ROWS).
  destruct (Z.eqb_spec (y (pos move) + 1) (Z.of_nat S_ROWS)) as [Hb|Hb]; cbn [negb andb].
  - rewrite mask_pow2 by assumption. unfold with_piece.
    destruct (tile move) eqn:Ht.
    + left. repeat split; auto.
    + right. split; [|reflexivity]. intros (_ & _ & [H|H]); discriminate.
    + left. repeat split; auto.
  - assert (Hvb : valid (mkVec2i (x (pos move)) (y (pos move) + 1)) = true).
    { apply isValidPosition_iff. cbn [x y]. lia. }
    rewrite is_Empty_occupied by assumption.
    destruct (occupied _ _ b _) eqn:Ho; cbn [negb].
    + rewrite mask_pow2 by assumption. unfold with_piece.
      destruct (tile move) eqn:Ht.
      * left. repeat split; auto.
      * right. split; [|reflexivity]. intros (_ & _ & [H|H]); discriminate.
      * left. repeat split; auto.
    + right. split; [|reflexivity]. intros (_ & [H|H] & _); [lia | discriminate].
Qed.

Lemma place_true (b b' : Board) (move : Move) :
  place S_ROWS S_COLS b move = (true, b') ->
  placeable S_ROWS S_COLS b move /\ b' = with_piece S_ROWS S_COLS b move.
Proof.
  intros H. destruct (place_cases b move) as [[Hp He]|[_ He]];
    rewrite He in H; inversion H; auto.
Qed.

(** The board after a successful removal. *)
Lemma remove_valid (b : Board) (move : Move) :
  valid (pos move) = true ->
  remove S_ROWS S_COLS b move =
    let mask := Bitset.flip (n_bits S_ROWS S_COLS) (2 ^ idx (pos move)) in
    match tile move with
    | Positive => (true, mkBoard (Z.land (m_positivePieces b) mask) (m_negativePieces b))
    | Negative => (true, mkBoard (m_positivePieces b) (Z.land (m_negativePieces b) mask))
    | Empty => (false, b)
    end.
Proof.
  intros Hv. pose proof (index_range _ _ _ Hv) as Hi.
  unfold remove. rewrite Hv. cbn [negb]. rewrite mask_pow2 by assumption. reflexivity.
Qed.

Lemma clear_after_set (z i : Z) :
  Bitset.wf (n_bits S_ROWS S_COLS) z -> 0 <= i -> Z.testbit z i = false ->
  Z.land (Z.lor z (2 ^ i)) (Bitset.flip (n_bits S_ROWS S_COLS) (2 ^ i)) = z.
Proof.
  intros Hwf Hi Hbit. apply Z.bits_inj'. intros j Hj.
  rewrite Z.land_spec, lor_pow2_bit, flip_pow2_bit by assumption.
  destruct (Z.eqb_spec j i) as [->|Hne].
  - rewrite Hbit. destruct (i <? _); reflexivity.
  - rewrite orb_false_r. cbn [negb]. rewrite andb_true_r.
    destruct (Z.ltb_spec j (Z.of_nat (n_bits S_ROWS S_COLS))); [apply andb_true_r|].
    rewrite (wf_bit_high _ _ _ Hwf) by lia. reflexivity.
Qed.

Lemma cells_In (p : Vec2i) : In p (cells S_ROWS S_COLS) <-> valid p = true.
Proof.
  unfold cells. rewrite in_flat_map, isValidPosition_iff. cbn [rows cols m_shape]. split.
  - intros (yy & Hy & Hp). apply in_map_iff in Hp as (xx & <- & Hx).
    apply int_range_In in Hy, Hx. cbn [x y]. lia.
  - intros [Hx Hy]. exists (y p). split; [apply int_range_In; lia|].
    apply in_map_iff. exists (x p). split; [destruct p; reflexivity | apply int_range_In; lia].
Qed.

Lemma gravityb_sound (b : Board) :
  gravityb S_ROWS S_COLS b = true -> gravity S_ROWS S_COLS b.
Proof.
  unfold gravityb. rewrite forallb_forall. intros H p q Hocc Hx Hy.
  assert (Hp : In p (cells S_ROWS S_COLS)) by (apply cells_In; eapply occupied_valid; eassumption).
  specialize (H p Hp). rewrite Hocc in H. cbn [implb] in H. rewrite forallb_forall in H.
  replace q with (mkVec2i (x p) (y q)) by (destruct q as [qx qy]; cbn in *; congruence).
  apply H. apply int_range_In. lia.
Qed.

End BoardFacts.


Section BoardClaims.

Variables S_ROWS S_COLS : nat.

Local Abbreviation valid := (isValidPosition S_ROWS S_COLS).
Local Abbreviation idx := (index S_ROWS S_COLS).
Local Abbreviation cell := (board_at S_ROWS S_COLS).

Lemma with_piece_own_bits (b : Board) (move : Move) (j : Z) :
  valid (pos move) = true -> tile move <> Empty ->
  Z.testbit (pieces (with_piece S_ROWS S_COLS b move) (tile move)) j =
  Z.testbit (pieces b (tile move)) j || (j =? idx (pos move)).
Proof.
  intros Hv Ht. pose proof (index_range _ _ _ Hv) as Hi.
  unfold with_piece. destruct (tile move); cbn [pieces m_positivePieces m_negativePieces];
    [apply lor_pow2_bit; lia | contradiction | apply lor_pow2_bit; lia].
Qed.

Lemma with_piece_other_bits (b : Board) (move : Move) :
  pieces (with_piece S_ROWS S_COLS b move) (getEnemyTile (tile move)) =
  pieces b (getEnemyTile (tile move)).
Proof. unfold with_piece. destruct (tile move); reflexivity. Qed.

(** C5. [operator<<] succeeds exactly when the position is inside the grid,
    on the bottom row or above an occupied cell, and the tile is Positive or
    Negative; a success sets the bit of that colour at that position and
    nothing else; a failure leaves both bit-sets as they were. *)
Theorem place_contract (b : Board) (move : Move) :
  (fst (place S_ROWS S_COLS b move) = true <-> placeable S_ROWS S_COLS b move) /\
  (fst (place S_ROWS S_COLS b move) = true ->
     (forall j, Z.testbit (pieces (snd (place S_ROWS S_COLS b move)) (tile move)) j =
                Z.testbit (pieces b (tile move)) j || (j =? idx (pos move))) /\
     pieces (snd (place S_ROWS S_COLS b move)) (getEnemyTile (tile move)) =
     pieces b (getEnemyTile (tile move))) /\
  (fst (place S_ROWS S_COLS b move) = false -> snd (place S_ROWS S_COLS b move) = b).
Proof.
  destruct (place_cases S_ROWS S_COLS b move) as [[Hp He]|[Hp He]]; rewrite He; cbn [fst snd].
  - split; [tauto|]. split; [|discriminate]. intros _.
    destruct Hp as (Hv & _ & Ht). split.
    + intros j. apply with_piece_own_bits; [assumption|].
      destruct Ht as [-> | ->]; discriminate.
    + apply with_piece_other_bits.
  - split; [split; [discriminate | contradiction]|]. split; [discriminate | reflexivity].
Qed.

(** C1, as amended. When the bit of the move's colour at the move's position
    is clear beforehand (as it is for an empty cell), a successful
    [operator<<] followed by [operator>>] of the same move gives back both
    bit-sets unchanged. *)
Theorem place_then_remove_restores (b : Board) (move : Move) :
  Board_wf S_ROWS S_COLS b ->
  Z.testbit (pieces b (tile move)) (idx (pos move)) = false ->
  fst (place S_ROWS S_COLS b move) = true ->
  remove S_ROWS S_COLS (snd (place S_ROWS S_COLS b move)) move = (true, b).
Proof.
  intros [HwfP HwfN] Hclear Hok.
  destruct (place_cases S_ROWS S_COLS b move) as [[Hp He]|[_ He]];
    rewrite He in Hok |- *; cbn [fst snd] in *; [|discriminate].
  destruct Hp as (Hv & _ & Ht). pose proof (index_range _ _ _ Hv) as Hi.
  rewrite remove_valid by assumption. unfold with_piece. destruct b as [P N].
  destruct Ht as [Ht|Ht]; rewrite Ht in *; cbn [pieces m_positivePieces m_negativePieces] in *;
    rewrite clear_after_set by (assumption || lia); reflexivity.
Qed.

(** [operator>>] succeeds exactly when the position is inside the grid and
    the tile is Positive or Negative, whatever the cell holds; a success
    clears the bit of that colour at that position and nothing else; a
    failure leaves both bit-sets as they were. *)
Lemma remove_contract (b : Board) (move : Move) :
  (fst (remove S_ROWS S_COLS b move) = true <->
     valid (pos move) = true /\ (tile move = Positive \/ tile move = Negative)) /\
  (fst (remove S_ROWS S_COLS b move) = true ->
     (forall j, Z.testbit (pieces (snd (remove S_ROWS S_COLS b move)) (tile move)) j =
                Z.testbit (pieces b (tile move)) j &&
                ((j <? Z.of_nat (n_bits S_ROWS S_COLS)) && negb (j =? idx (pos move)))) /\
     pieces (snd (remove S_ROWS S_COLS b move)) (getEnemyTile (tile move)) =
     pieces b (getEnemyTile (tile move))) /\
  (fst (remove S_ROWS S_COLS b move) = false -> snd (remove S_ROWS S_COLS b move) = b).
Proof.
  destruct (valid (pos move)) eqn:Hv.
  - pose proof (index_range _ _ _ Hv) as Hi. rewrite remove_valid by assumption.
    assert (Hbits : forall z j,
              Z.testbit (Z.land z (Bitset.flip (n_bits S_ROWS S_COLS) (2 ^ idx (pos move)))) j =
              Z.testbit z j &&
              ((j <? Z.of_nat (n_bits S_ROWS S_COLS)) && negb (j =? idx (pos move)))).
    { intros z j. rewrite Z.land_spec. destruct (Z.neg_nonneg_cases j) as [Hj|Hj].
      - rewrite !Z.testbit_neg_r by assumption. reflexivity.
      - rewrite flip_pow2_bit by lia. reflexivity. }
    destruct (tile move) eqn:Ht; cbn [fst snd pieces getEnemyTile m_positivePieces m_negativePieces].
    + split; [split; auto|]. split; [|discriminate]. intros _. split; [apply Hbits | reflexivity].
    + split; [split; [discriminate | intros [_ [H|H]]; discriminate]|].
      split; [discriminate | reflexivity].
    + split; [split; auto|]. split; [|discriminate]. intros _. split; [apply Hbits | reflexivity].
  - unfold remove. rewrite Hv. cbn [negb fst snd].
    split; [split; [discriminate | intros [H _]; discriminate]|].
    split; [discriminate | reflexivity].
Qed.

Lemma with_piece_occupied (b : Board) (move : Move) (p : Vec2i) :
  valid (pos move) = true -> tile move <> Empty -> valid p = true ->
  occupied S_ROWS S_COLS (with_piece S_ROWS S_COLS b move) p =
  occupied S_ROWS S_COLS b p || Vec2i_eqb p (pos move).
Proof.
  intros Hv Ht Hp. pose proof (index_range _ _ _ Hv) as Hi.
  rewrite !occupied_bits by assumption.
  assert (Heq : (idx p =? idx (pos move)) = Vec2i_eqb p (pos move)).
  { unfold Vec2i_eqb. destruct (Z.eqb_spec (idx p) (idx (pos move))) as [E|E].
    - apply index_inj in E; try assumption. subst p. rewrite !Z.eqb_refl. reflexivity.
    - symmetry. apply andb_false_iff.
      destruct (Z.eqb_spec (x p) (x (pos move))), (Z.eqb_spec (y p) (y (pos move))); auto.
      exfalso. apply E. unfold index. congruence. }
  unfold with_piece.
  destruct (tile move); [|contradiction|]; cbn [m_positivePieces m_negativePieces];
    rewrite lor_pow2_bit by lia; rewrite Heq;
    destruct (Z.testbit (m_positivePieces b) (idx p)),
             (Z.testbit (m_negativePieces b) (idx p)),
             (Vec2i_eqb p (pos move)); reflexivity.
Qed.

(** C4, as amended. On a board where no cell holds both colours and every
    piece rests on pieces down to the bottom row, a successful [operator<<]
    on a cell that does not hold the other colour gives a board with the
    same two properties. *)
Theorem place_preserves_invariants (b b' : Board) (move : Move) :
  single_colour S_ROWS S_COLS b ->
  gravity S_ROWS S_COLS b ->
  cell b (pos move) <> Some (getEnemyTile (tile move)) ->
  place S_ROWS S_COLS b move = (true, b') ->
  single_colour S_ROWS S_COLS b' /\ gravity S_ROWS S_COLS b'.
Proof.
  intros Hsingle Hgrav Hfree Hplace.
  apply place_true in Hplace as [(Hv & Hsup & Ht) ->].
  pose proof (index_range _ _ _ Hv) as Hi.
  assert (Hne : tile move <> Empty) by (destruct Ht as [-> | ->]; discriminate).
  split.
  - intros p Hp [HP HN].
    destruct (Z.eq_dec (idx p) (idx (pos move))) as [E|E].
    + apply index_inj in E; try assumption. subst p.
      apply Hfree. rewrite board_at_bits by assumption.
      specialize (Hsingle _ Hv). unfold with_piece in HP, HN.
      destruct Ht as [Ht|Ht]; rewrite Ht in *;
        cbn [m_positivePieces m_negativePieces getEnemyTile] in *.
      * rewrite HN. destruct (Z.testbit (m_positivePieces b) _); [|reflexivity].
        exfalso. apply Hsingle. auto.
      * rewrite HP. reflexivity.
    + apply (Hsingle p Hp). unfold with_piece in HP, HN.
      destruct (tile move); cbn [m_positivePieces m_negativePieces] in *;
        rewrite ?lor_pow2_bit in * by lia;
        replace (idx p =? idx (pos move)) with false in * by (symmetry; apply Z.eqb_neq; assumption);
        rewrite ?orb_false_r in *; auto.
  - intros p q Hocc Hx Hy.
    pose proof (occupied_valid _ _ _ _ Hocc) as Hp.
    assert (Hq : valid q = true).
    { apply isValidPosition_iff. apply isValidPosition_iff in Hp. lia. }
    rewrite with_piece_occupied in Hocc |- * by assumption.
    apply orb_true_iff. left.
    apply orb_true_iff in Hocc as [Hocc|Hocc].
    + apply (Hgrav p q); assumption.
    + unfold Vec2i_eqb in Hocc. apply andb_true_iff in Hocc as [Ex Ey].
      apply Z.eqb_eq in Ex, Ey.
      destruct Hsup as [Hbottom|Hbelow]; [lia|].
      destruct (Z.eq_dec (y q) (y (pos move) + 1)) as [E|E].
      * replace q with (mkVec2i (x (pos move)) (y (pos move) + 1)); [assumption|].
        destruct q as [qx qy]; cbn [x y] in *. f_equal; lia.
      * apply (Hgrav _ q Hbelow); cbn [x y]; lia.
Qed.

End BoardClaims.

Lemma board_one_positive_single_colour : single_colour 6 7 board_one_positive.
Proof.
  intros p Hv [_ HN]. cbn [board_one_positive m_negativePieces] in HN.
  rewrite Z.bits_0 in HN. discriminate.
Qed.

Lemma board_one_positive_gravity : gravity 6 7 board_one_positive.
Proof. apply gravityb_sound. reflexivity. Qed.

(** C1 fails as stated: on the 6x7 board whose cell (0,5) is already
    Positive, placing Positive at (0,5) succeeds and the removal then clears
    the bit that was set before. *)
Lemma place_then_remove_counterexample :
  Board_wf 6 7 board_one_positive /\
  fst (place 6 7 board_one_positive move_positive_0_5) = true /\
  remove 6 7 (snd (place 6 7 board_one_positive move_positive_0_5)) move_positive_0_5
    = (true, Board_empty 6 7) /\
  Board_empty 6 7 <> board_one_positive.
Proof.
  repeat split; try (vm_compute; congruence); discriminate.
Qed.

Lemma place_then_remove_restores_witness :
  Board_wf 6 7 (Board_empty 6 7) /\
  Z.testbit (pieces (Board_empty 6 7) (tile move_positive_0_5))
            (index 6 7 (pos move_positive_0_5)) = false /\
  fst (place 6 7 (Board_empty 6 7) move_positive_0_5) = true /\
  remove 6 7 (snd (place 6 7 (Board_empty 6 7) move_positive_0_5)) move_positive_0_5
    = (true, Board_empty 6 7).
Proof.
  assert (Hwf : Board_wf 6 7 (Board_empty 6 7)) by (vm_compute; repeat split; congruence).
  split; [exact Hwf|]. split; [reflexivity|]. split; [reflexivity|].
  apply (place_then_remove_restores 6 7 (Board_empty 6 7) move_positive_0_5);
    [exact Hwf | reflexivity | reflexivity].
Defined.

(** C4 fails as stated: placing Negative on the Positive cell (0,5) of a
    board that has both properties succeeds and leaves the cell with the
    bits of both colours. *)
Lemma place_invariants_counterexample :
  single_colour 6 7 board_one_positive /\
  gravity 6 7 board_one_positive /\
  fst (place 6 7 board_one_positive move_negative_0_5) = true /\
  ~ single_colour 6 7 (snd (place 6 7 board_one_positive move_negative_0_5)).
Proof.
  split; [|split; [|split]].
  - exact board_one_positive_single_colour.
  - exact board_one_positive_gravity.
  - reflexivity.
  - intros H. apply (H (mkVec2i 0 5)); [reflexivity|]. split; reflexivity.
Qed.

Lemma place_preserves_invariants_witness :
  single_colour 6 7 board_one_positive /\
  gravity 6 7 board_one_positive /\
  board_at 6 7 board_one_positive (pos move_negative_0_4)
    <> Some (getEnemyTile (tile move_negative_0_4)) /\
  place 6 7 board_one_positive move_negative_0_4
    = (true, snd (place 6 7 board_one_positive move_negative_0_4)) /\
  single_colour 6 7 (snd (place 6 7 board_one_positive move_negative_0_4)) /\
  gravity 6 7 (snd (place 6 7 board_one_positive move_negative_0_4)).
Proof.
  assert (Hfree : board_at 6 7 board_one_positive (pos move_negative_0_4)
                  <> Some (getEnemyTile (tile move_negative_0_4)))
    by (vm_compute; discriminate).
  split; [exact board_one_positive_single_colour|].
  split; [exact board_one_positive_gravity|].
  split; [exact Hfree|]. split; [reflexivity|].
  apply (place_preserves_invariants 6 7 board_one_positive _ move_negative_0_4);
    [exact board_one_positive_single_colour | exact board_one_positive_gravity
    | exact Hfree | reflexivity].
Defined.

(** ** evaluate under an exchange of the colours *)

Lemma Tile_eqb_enemy (a b : Tile) :
  Tile_eqb (getEnemyTile a) (getEnemyTile b) = Tile_eqb a b.
Proof. destruct a, b; reflexivity. Qed.

Lemma Tile_value_enemy (t : Tile) : Tile_value (getEnemyTile t) = - Tile_value t.
Proof. destruct t; reflexivity. Qed.

Section Symmetry.

Variables S_ROWS S_COLS : nat.
Variables b b' : Board.
Hypothesis Hswap : colour_swapped S_ROWS S_COLS b b'.

Lemma check_loop_swapped (p d : Vec2i) (t : Tile) (steps : list Z) (count : Z) :
  check_loop S_ROWS S_COLS b' p d (getEnemyTile t) steps count =
  check_loop S_ROWS S_COLS b p d t steps count.
Proof.
  revert count. induction steps as [|i steps IH]; intros count; [reflexivity|].
  cbn [check_loop]. rewrite Hswap.
  destruct (_ || _); [reflexivity|].
  destruct (board_at S_ROWS S_COLS b _) as [t'|]; cbn [option_map]; [|reflexivity].
  rewrite Tile_eqb_enemy. destruct (negb _); [reflexivity | apply IH].
Qed.

Lemma check_swapped (p d : Vec2i) (t : Tile) :
  check S_ROWS S_COLS b' p d (getEnemyTile t) = check S_ROWS S_COLS b p d t.
Proof. apply check_loop_swapped. Qed.

Lemma scan_directions_swapped (p : Vec2i) (t : Tile) (ds : list Vec2i) (score : Z) :
  t <> Empty ->
  mirrored (scan_directions S_ROWS S_COLS b p t ds score)
           (scan_directions S_ROWS S_COLS b' p (getEnemyTile t) ds (- score)).
Proof.
  intros Ht. revert score. induction ds as [|d ds IH]; intros score; cbn [scan_directions].
  - reflexivity.
  - rewrite !check_swapped.
    destruct (_ >=? _); [exists t; auto|].
    destruct (_ >=? _); [exists t; auto|].
    rewrite Tile_value_enemy.
    match goal with
    | |- mirrored _ (scan_directions _ _ _ _ _ _ ?s) =>
        replace s with (- (score + 10 ^ (1 + check S_ROWS S_COLS b p d t +
                                         check S_ROWS S_COLS b p (Vec2i_neg d) t) * Tile_value t))
          by lia
    end.
    apply IH.
Qed.

Lemma scan_cells_swapped (ps : list Vec2i) (score : Z) :
  mirrored (scan_cells S_ROWS S_COLS b ps score)
           (scan_cells S_ROWS S_COLS b' ps (- score)).
Proof.
  revert score. induction ps as [|p ps IH]; intros score; cbn [scan_cells].
  - reflexivity.
  - rewrite Hswap. destruct (board_at S_ROWS S_COLS b p) as [[| |]|]; cbn [option_map getEnemyTile];
      try apply IH.
    + pose proof (scan_directions_swapped p Negative directions score) as H.
      cbn [getEnemyTile] in H.
      destruct (scan_directions S_ROWS S_COLS b p Negative directions score) as [e|s];
        cbn [mirrored] in H.
      * destruct H as (t & Ht & He & ->); [discriminate|]. exists t. auto.
      * rewrite H by discriminate. apply IH.
    + pose proof (scan_directions_swapped p Positive directions score) as H.
      cbn [getEnemyTile] in H.
      destruct (scan_directions S_ROWS S_COLS b p Positive directions score) as [e|s];
        cbn [mirrored] in H.
      * destruct H as (t & Ht & He & ->); [discriminate|]. exists t. auto.
      * rewrite H by discriminate. apply IH.
Qed.

Lemma isDraw_swapped : isDraw S_ROWS S_COLS b' = isDraw S_ROWS S_COLS b.
Proof.
  unfold isDraw. induction (int_range 0 (cols (m_shape S_ROWS S_COLS))) as [|i l IH];
    [reflexivity|].
  cbn [forallb]. rewrite IH, Hswap.
  destruct (board_at S_ROWS S_COLS b _) as [[| |]|]; reflexivity.
Qed.

(** C10, as amended. Against the board with the colours exchanged, the
    terminal result of [evaluate] is negated; the score is negated when no
    winner is reported, and is the other saturation constant, which is the
    negation less one, when a winner is reported. *)
Theorem evaluate_colour_symmetry :
  fst (evaluate S_ROWS S_COLS b') = option_map Z.opp (fst (evaluate S_ROWS S_COLS b)) /\
  (reports_win (evaluate S_ROWS S_COLS b) = false ->
     snd (evaluate S_ROWS S_COLS b') = - snd (evaluate S_ROWS S_COLS b)) /\
  (reports_win (evaluate S_ROWS S_COLS b) = true ->
     snd (evaluate S_ROWS S_COLS b') = - snd (evaluate S_ROWS S_COLS b) - 1).
Proof.
  unfold evaluate. pose proof (scan_cells_swapped (cells S_ROWS S_COLS) 0) as H.
  change (- 0) with 0 in H.
  destruct (scan_cells S_ROWS S_COLS b (cells S_ROWS S_COLS) 0) as [e|s]; cbn [mirrored] in H.
  - destruct H as (t & Ht & -> & ->).
    destruct t; [|contradiction|]; (split; [reflexivity|]); split;
      intros Hw; try discriminate Hw; reflexivity.
  - rewrite H, isDraw_swapped.
    destruct (isDraw S_ROWS S_COLS b); (split; [reflexivity|]); split;
      intros Hw; try discriminate Hw; cbn [snd]; lia.
Qed.

End Symmetry.

Lemma swap_colours_swapped (S_ROWS S_COLS : nat) (b : Board) :
  single_colour S_ROWS S_COLS b -> colour_swapped S_ROWS S_COLS b (swap_colours b).
Proof.
  intros Hs p. destruct (isValidPosition S_ROWS S_COLS p) eqn:Hv.
  - rewrite !board_at_bits by assumption. specialize (Hs p Hv).
    unfold swap_colours; cbn [m_positivePieces m_negativePieces option_map].
    destruct (Z.testbit (m_positivePieces b) _), (Z.testbit (m_negativePieces b) _);
      try reflexivity. exfalso. apply Hs. auto.
  - rewrite !board_at_invalid by assumption. reflexivity.
Qed.

Lemma no_negative_single_colour (S_ROWS S_COLS : nat) (b : Board) :
  m_negativePieces b = 0 -> single_colour S_ROWS S_COLS b.
Proof. intros H p _ [_ HN]. rewrite H, Z.bits_0 in HN. discriminate. Qed.

(** C10 fails as stated: with four Positive tiles on the bottom row the
    score is [LONG_MAX], with the colours exchanged it is [LONG_MIN], and
    [LONG_MAX] is not the negation of [LONG_MIN]. *)
Lemma evaluate_symmetry_counterexample :
  colour_swapped 6 7 board_four_positive (swap_colours board_four_positive) /\
  snd (evaluate 6 7 board_four_positive) = LONG_MAX /\
  snd (evaluate 6 7 (swap_colours board_four_positive)) = LONG_MIN /\
  snd (evaluate 6 7 board_four_positive) <>
    - snd (evaluate 6 7 (swap_colours board_four_positive)).
Proof.
  split; [apply swap_colours_swapped, no_negative_single_colour; reflexivity|].
  split; [reflexivity|]. split; [reflexivity|]. vm_compute. discriminate.
Qed.

Lemma evaluate_colour_symmetry_witness :
  colour_swapped 6 7 board_one_positive (swap_colours board_one_positive) /\
  fst (evaluate 6 7 (swap_colours board_one_positive))
    = option_map Z.opp (fst (evaluate 6 7 board_one_positive)) /\
  (reports_win (evaluate 6 7 board_one_positive) = false ->
     snd (evaluate 6 7 (swap_colours board_one_positive))
       = - snd (evaluate 6 7 board_one_positive)) /\
  (reports_win (evaluate 6 7 board_one_positive) = true ->
     snd (evaluate 6 7 (swap_colours board_one_positive))
       = - snd (evaluate 6 7 board_one_positive) - 1).
Proof.
  split.
  - apply swap_colours_swapped, no_negative_single_colour. reflexivity.
  - apply (evaluate_colour_symmetry 6 7 board_one_positive (swap_colours board_one_positive)).
    apply swap_colours_swapped, no_negative_single_colour. reflexivity.
Defined.

(** ** The game driver *)

(** C9. When the move the active agent returns cannot be placed,
    [makeMove] leaves the board and the active player as they were and
    returns the terminal component of [evaluate] on that board. *)
Theorem makeMove_illegal_move (S_ROWS S_COLS : nat)
  (getNextMove : nat -> Board -> result Move) (g : Game) (newMove : Move) :
  getNextMove (currentPlayer g) (board g) = Ok newMove ->
  fst (place S_ROWS S_COLS (board g) newMove) = false ->
  makeMove S_ROWS S_COLS getNextMove g = Ok (fst (evaluate S_ROWS S_COLS (board g)), g).
Proof.
  intros Hmove Hfail. unfold makeMove. rewrite Hmove. cbn [bind].
  destruct (place_cases S_ROWS S_COLS (board g) newMove) as [[_ He]|[_ He]];
    rewrite He in Hfail |- *; cbn [fst] in Hfail; [discriminate|].
  destruct g as [b over pp pn cur]; cbn [board isGameOver playerPositive playerNegative currentPlayer].
  destruct over; reflexivity.
Qed.

Lemma makeMove_illegal_move_witness :
  agent_off_grid (currentPlayer game_start) (board game_start)
    = Ok (mkMove (mkVec2i (-1) 5) Positive) /\
  fst (place 6 7 (board game_start) (mkMove (mkVec2i (-1) 5) Positive)) = false /\
  makeMove 6 7 agent_off_grid game_start = Ok (fst (evaluate 6 7 (board game_start)), game_start).
Proof.
  split; [reflexivity|]. split; [reflexivity|].
  apply (makeMove_illegal_move 6 7 agent_off_grid game_start (mkMove (mkVec2i (-1) 5) Positive));
    reflexivity.
Defined.

(** ** The move generator *)

Lemma int_range_split (lo mid hi : Z) :
  lo <= mid <= hi -> int_range lo hi = int_range lo mid ++ int_range mid hi.
Proof.
  intros H. remember (Z.to_nat (mid - lo)) as n eqn:Hn.
  revert lo H Hn. induction n as [|n IH]; intros lo H Hn.
  - replace mid with lo by lia. rewrite (int_range_nil lo lo) by lia. reflexivity.
  - rewrite (int_range_cons lo hi), (int_range_cons lo mid) by lia.
    cbn [app]. f_equal. apply IH; lia.
Qed.

Lemma vector_back_snoc {A : Type} (v : list A) (a : A) : vector_back (v ++ [a]) = Ok a.
Proof. unfold vector_back. rewrite rev_app_distr. reflexivity. Qed.

Lemma vector_back_In {A : Type} (v : list A) :
  v <> [] -> exists a, vector_back v = Ok a /\ In a v.
Proof.
  intros Hv. destruct (exists_last Hv) as (v' & a & ->).
  exists a. split; [apply vector_back_snoc | apply in_or_app; right; left; reflexivity].
Qed.

Section Generator.

Variables S_ROWS S_COLS : nat.
Variable b : Board.

Local Abbreviation cell := (board_at S_ROWS S_COLS b).
Local Abbreviation levels := (int_range 1 (Z.of_nat S_ROWS)).

Lemma scan_levels_x (xx : Z) (ls : list Z) (p : Vec2i) :
  scan_levels S_ROWS S_COLS b xx ls = Some p -> x p = xx.
Proof.
  induction ls as [|l ls IH]; cbn [scan_levels]; [discriminate|].
  destruct (negb _); [intros [= <-]; reflexivity | exact IH].
Qed.

Lemma scan_levels_Some (xx lo hi : Z) (p : Vec2i) :
  scan_levels S_ROWS S_COLS b xx (int_range lo hi) = Some p ->
  exists l, lo <= l < hi /\ p = mkVec2i xx (l - 1) /\
            optTile_is (cell (mkVec2i xx l)) Empty = false /\
            forall yy, lo <= yy < l -> optTile_is (cell (mkVec2i xx yy)) Empty = true.
Proof.
  remember (Z.to_nat (hi - lo)) as n eqn:Hn. revert lo Hn.
  induction n as [|n IH]; intros lo Hn.
  - rewrite int_range_nil by lia. discriminate.
  - rewrite int_range_cons by lia. cbn [scan_levels].
    destruct (optTile_is (cell (mkVec2i xx lo)) Empty) eqn:E; cbn [negb].
    + intros H. apply IH in H as (l & Hl & -> & Hne & Hbelow); [|lia].
      exists l. repeat split; try assumption; try lia.
      intros yy Hy. destruct (Z.eq_dec yy lo) as [->|]; [assumption | apply Hbelow; lia].
    + intros [= <-]. exists lo. repeat split; try assumption; lia.
Qed.

Lemma scan_levels_None (xx lo hi : Z) :
  scan_levels S_ROWS S_COLS b xx (int_range lo hi) = None ->
  forall yy, lo <= yy < hi -> optTile_is (cell (mkVec2i xx yy)) Empty = true.
Proof.
  remember (Z.to_nat (hi - lo)) as n eqn:Hn. revert lo Hn.
  induction n as [|n IH]; intros lo Hn.
  - intros _ yy Hy. lia.
  - rewrite int_range_cons by lia. cbn [scan_levels].
    destruct (optTile_is (cell (mkVec2i xx lo)) Empty) eqn:E; cbn [negb]; [|discriminate].
    intros H yy Hy. destruct (Z.eq_dec yy lo) as [->|]; [assumption|].
    apply (IH (lo + 1)); [lia | assumption | lia].
Qed.

Lemma column_target_x (xx : Z) (p : Vec2i) :
  In p (column_target S_ROWS S_COLS b xx) -> x p = xx.
Proof.
  unfold column_target. destruct (column_open _ _ _ _); [|intros []].
  intros [<-|[]]. destruct (scan_levels _ _ _ _ _) eqn:E; [|reflexivity].
  eapply scan_levels_x; eassumption.
Qed.

(** One pass of the loop body: the intended position is appended, unless
    the column is open and bare and nothing was appended before, in which
    case [res.back()] reads an empty vector. *)
Lemma column_step_spec (res : list Vec2i) (xx : Z) :
  Forall (fun p => x p < xx) res ->
  column_step S_ROWS S_COLS b res xx =
    if match res with [] => first_open_bare S_ROWS S_COLS b [xx] | _ :: _ => false end
    then Fault BackOfEmptyVector
    else Ok (res ++ column_target S_ROWS S_COLS b xx).
Proof.
  intros Hres. unfold column_step, column_target. cbn [first_open_bare].
  fold (column_open S_ROWS S_COLS b xx).
  change (rows (m_shape S_ROWS S_COLS)) with (Z.of_nat S_ROWS).
  destruct (column_open S_ROWS S_COLS b xx); cbn [negb].
  2:{ rewrite app_nil_r. destruct res; reflexivity. }
  destruct (scan_levels S_ROWS S_COLS b xx levels) as [p|] eqn:E; cbn [has_value negb].
  - rewrite vector_back_snoc. cbn [bind].
    rewrite (scan_levels_x _ _ _ E), Z.eqb_refl. cbn [negb]. destruct res; reflexivity.
  - destruct res as [|r res]; [reflexivity|].
    destruct (vector_back_In (r :: res)) as (a & -> & Ha); [discriminate|]. cbn [bind].
    rewrite Forall_forall in Hres. specialize (Hres a Ha).
    replace (x a =? xx) with false by (symmetry; apply Z.eqb_neq; lia). reflexivity.
Qed.

Lemma column_loop_spec (lo hi : Z) (res : list Vec2i) :
  Forall (fun p => x p < lo) res ->
  column_loop S_ROWS S_COLS b (int_range lo hi) res =
    if match res with [] => first_open_bare S_ROWS S_COLS b (int_range lo hi) | _ :: _ => false end
    then Fault BackOfEmptyVector
    else Ok (res ++ flat_map (column_target S_ROWS S_COLS b) (int_range lo hi)).
Proof.
  remember (Z.to_nat (hi - lo)) as n eqn:Hn. revert lo res Hn.
  induction n as [|n IH]; intros lo res Hn Hres.
  - rewrite int_range_nil by lia. cbn. rewrite app_nil_r. destruct res; reflexivity.
  - rewrite int_range_cons by lia. cbn [column_loop flat_map].
    rewrite column_step_spec by assumption. cbn [first_open_bare].
    assert (Hnext : Forall (fun p => x p < lo + 1) (res ++ column_target S_ROWS S_COLS b lo)).
    { apply Forall_app. split.
      - eapply Forall_impl; [|exact Hres]. cbn. intros; lia.
      - apply Forall_forall. intros p Hp. apply column_target_x in Hp. lia. }
    destruct res as [|r res].
    + cbn [app] in *. unfold column_target in *.
      destruct (column_open S_ROWS S_COLS b lo).
      * destruct (scan_levels S_ROWS S_COLS b lo levels) eqn:E; cbn [has_value negb bind].
        -- rewrite IH by (lia || assumption). reflexivity.
        -- reflexivity.
      * cbn [bind]. rewrite IH by (lia || assumption). reflexivity.
    + cbn [bind]. rewrite IH by (lia || assumption).
      cbn [app]. rewrite <- app_assoc. reflexivity.
Qed.

(** What [generateValidPositions] computes. *)
Lemma generateValidPositions_spec :
  generateValidPositions S_ROWS S_COLS b =
    if first_open_bare S_ROWS S_COLS b (int_range 0 (Z.of_nat S_COLS))
    then Fault BackOfEmptyVector
    else Ok (flat_map (column_target S_ROWS S_COLS b) (int_range 0 (Z.of_nat S_COLS))).
Proof. unfold generateValidPositions. rewrite column_loop_spec by constructor. reflexivity. Qed.

End Generator.

Lemma find_rev_last {A : Type} (f : A -> bool) (l1 l2 : list A) (r : A) :
  f r = true -> (forall a, In a l2 -> f a = false) ->
  find f (rev (l1 ++ r :: l2)) = Some r.
Proof.
  intros Hr Hl2. rewrite rev_app_distr. cbn [rev]. rewrite <- app_assoc. cbn [app].
  assert (H : forall a, In a (rev l2) -> f a = false).
  { intros a Ha. apply Hl2, in_rev, Ha. }
  induction (rev l2) as [|a l IH]; cbn [app find].
  - rewrite Hr. reflexivity.
  - rewrite (H a) by (left; reflexivity). apply IH. intros a' Ha'. apply H. right. exact Ha'.
Qed.

Section GeneratorMeaning.

Variables S_ROWS S_COLS : nat.
Variable b : Board.
Hypothesis Hgravity : gravity S_ROWS S_COLS b.

Lemma column_target_lowest (xx : Z) :
  column_open S_ROWS S_COLS b xx = true ->
  exists r, lowest_empty_row S_ROWS S_COLS b xx = Some r /\
            column_target S_ROWS S_COLS b xx = [mkVec2i xx r].
Proof.
  intros Hopen. unfold column_target. rewrite Hopen.
  assert (Hv : isValidPosition S_ROWS S_COLS (mkVec2i xx 0) = true).
  { unfold column_open in Hopen.
    destruct (isValidPosition S_ROWS S_COLS (mkVec2i xx 0)) eqn:E; [reflexivity|].
    rewrite board_at_invalid in Hopen by assumption. discriminate. }
  apply isValidPosition_iff in Hv. cbn [x y] in Hv.
  unfold lowest_empty_row.
  destruct (scan_levels S_ROWS S_COLS b xx (int_range 1 (Z.of_nat S_ROWS))) as [p|] eqn:E.
  - apply scan_levels_Some in E as (l & Hl & -> & Hne & Hempty).
    exists (l - 1). split; [|reflexivity].
    rewrite (int_range_split 0 (l - 1) (Z.of_nat S_ROWS)) by lia.
    rewrite (int_range_cons (l - 1)) by lia.
    replace (l - 1 + 1) with l by lia.
    apply find_rev_last.
    + destruct (Z.eq_dec (l - 1) 0) as [->|]; [exact Hopen | apply Hempty; lia].
    + intros yy Hy. apply int_range_In in Hy.
      assert (Hvl : isValidPosition S_ROWS S_COLS (mkVec2i xx l) = true)
        by (apply isValidPosition_iff; cbn [x y]; lia).
      assert (Hvy : isValidPosition S_ROWS S_COLS (mkVec2i xx yy) = true)
        by (apply isValidPosition_iff; cbn [x y]; lia).
      rewrite is_Empty_occupied in Hne |- * by assumption.
      apply negb_false_iff in Hne. apply negb_false_iff.
      destruct (Z.eq_dec yy l) as [->|]; [assumption|].
      apply (Hgravity (mkVec2i xx l)); cbn [x y]; [assumption | reflexivity | lia].
  - exists (Z.of_nat S_ROWS - 1). split; [|reflexivity].
    rewrite (int_range_split 0 (Z.of_nat S_ROWS - 1) (Z.of_nat S_ROWS)) by lia.
    rewrite (int_range_cons (Z.of_nat S_ROWS - 1)) by lia.
    apply find_rev_last.
    + destruct (Z.eq_dec (Z.of_nat S_ROWS - 1) 0) as [->|]; [exact Hopen|].
      apply (scan_levels_None _ _ _ _ _ _ E). lia.
    + intros yy Hy. apply int_range_In in Hy. lia.
Qed.

Lemma flat_map_targets (xs : list Z) :
  flat_map (column_target S_ROWS S_COLS b) xs =
  flat_map (fun xx =>
              if column_open S_ROWS S_COLS b xx
              then match lowest_empty_row S_ROWS S_COLS b xx with
                   | Some r => [mkVec2i xx r]
                   | None => []
                   end
              else []) xs.
Proof.
  induction xs as [|xx xs IH]; [reflexivity|]. cbn [flat_map]. rewrite IH. f_equal.
  destruct (column_open S_ROWS S_COLS b xx) eqn:Hopen.
  - destruct (column_target_lowest xx Hopen) as (r & -> & ->). reflexivity.
  - unfold column_target. rewrite Hopen. reflexivity.
Qed.

Lemma flat_map_targets_length (xs : list Z) :
  (length (flat_map (column_target S_ROWS S_COLS b) xs) <= length xs)%nat.
Proof.
  induction xs as [|xx xs IH]; [reflexivity|]. cbn [flat_map]. rewrite length_app.
  unfold column_target at 1. destruct (column_open _ _ _ _); cbn [length]; lia.
Qed.

(** On a board that obeys gravity, a run of [generateValidPositions] that
    reads no empty vector returns the positions the specification describes:
    for each column with an empty top cell, in ascending order, its lowest
    empty row; and at most one position per column. *)
Lemma generateValidPositions_when_defined (l : list Vec2i) :
  generateValidPositions S_ROWS S_COLS b = Ok l ->
  l = expected_positions S_ROWS S_COLS b /\ (length l <= S_COLS)%nat.
Proof.
  rewrite generateValidPositions_spec.
  destruct (first_open_bare _ _ _ _); [discriminate|]. intros [= <-]. split.
  - apply flat_map_targets.
  - eapply Nat.le_trans; [apply flat_map_targets_length|].
    unfold int_range. rewrite length_map, length_seq. lia.
Qed.

End GeneratorMeaning.

Lemma Board_empty_cell (S_ROWS S_COLS : nat) (p : Vec2i) :
  isValidPosition S_ROWS S_COLS p = true ->
  board_at S_ROWS S_COLS (Board_empty S_ROWS S_COLS) p = Some Empty.
Proof.
  intros Hv. rewrite board_at_bits by assumption.
  unfold Board_empty, Bitset.of_ull, Bitset.trunc; cbn [m_positivePieces m_negativePieces].
  rewrite Z.mod_0_l by (apply Z.pow_nonzero; lia). rewrite Z.bits_0. reflexivity.
Qed.

Lemma Board_empty_scan_levels (S_ROWS S_COLS : nat) (xx : Z) (levels : list Z) :
  0 <= xx < Z.of_nat S_COLS ->
  (forall l, In l levels -> 0 <= l < Z.of_nat S_ROWS) ->
  scan_levels S_ROWS S_COLS (Board_empty S_ROWS S_COLS) xx levels = None.
Proof.
  intros Hx. induction levels as [|l levels IH]; intros Hl; [reflexivity|].
  cbn [scan_levels]. rewrite Board_empty_cell.
  - cbn. apply IH. intros k Hk. apply Hl. right. exact Hk.
  - apply isValidPosition_iff. cbn [x y]. split; [assumption|]. apply Hl. left. reflexivity.
Qed.

(** C3 fails on the code. Whenever the first column with an empty top cell
    has no piece at all, the loop body reads [res.back()] of an empty
    vector; this is so on the empty board of every size, and the read
    happens at column 0 of the empty 6x7 board. *)
Theorem generateValidPositions_reads_empty_vector :
  (forall (S_ROWS S_COLS : nat) (b : Board),
     first_open_bare S_ROWS S_COLS b (int_range 0 (Z.of_nat S_COLS)) = true ->
     generateValidPositions S_ROWS S_COLS b = Fault BackOfEmptyVector) /\
  (forall S_ROWS S_COLS : nat,
     (0 < S_ROWS)%nat -> (0 < S_COLS)%nat ->
     generateValidPositions S_ROWS S_COLS (Board_empty S_ROWS S_COLS)
       = Fault BackOfEmptyVector) /\
  column_step 6 7 (Board_empty 6 7) [] 0 = Fault BackOfEmptyVector.
Proof.
  split; [|split; [|reflexivity]].
  - intros S_ROWS S_COLS b H. rewrite generateValidPositions_spec, H. reflexivity.
  - intros S_ROWS S_COLS HR HC. rewrite generateValidPositions_spec.
    rewrite int_range_cons by lia. cbn [first_open_bare].
    unfold column_open. rewrite Board_empty_cell by (apply isValidPosition_iff; cbn [x y]; lia).
    cbn [optTile_is Tile_eqb]. rewrite Board_empty_scan_levels; [reflexivity | lia |].
    intros l Hl. apply int_range_In in Hl. lia.
Qed.

(** C2 fails on the code: on the 6x7 board with a single tile at (3,5),
    which obeys gravity, the specification describes seven positions, and the
    generator reads [res.back()] of an empty vector at column 0. *)
Theorem generateValidPositions_centre_opening :
  gravity 6 7 board_centre_opening /\
  expected_positions 6 7 board_centre_opening =
    [mkVec2i 0 5; mkVec2i 1 5; mkVec2i 2 5; mkVec2i 3 4;
     mkVec2i 4 5; mkVec2i 5 5; mkVec2i 6 5] /\
  generateValidPositions 6 7 board_centre_opening = Fault BackOfEmptyVector.
Proof.
  split; [apply gravityb_sound; reflexivity|]. split; reflexivity.
Qed.

Lemma generateValidPositions_when_defined_witness :
  gravity 6 7 board_three_positive /\
  generateValidPositions 6 7 board_three_positive =
    Ok [mkVec2i 0 4; mkVec2i 1 4; mkVec2i 2 4; mkVec2i 3 5;
        mkVec2i 4 5; mkVec2i 5 5; mkVec2i 6 5] /\
  [mkVec2i 0 4; mkVec2i 1 4; mkVec2i 2 4; mkVec2i 3 5;
   mkVec2i 4 5; mkVec2i 5 5; mkVec2i 6 5] = expected_positions 6 7 board_three_positive /\
  (7 <= 7)%nat.
Proof.
  split; [apply gravityb_sound; reflexivity|]. split; [reflexivity|].
  apply (generateValidPositions_when_defined 6 7 board_three_positive).
  - apply gravityb_sound. reflexivity.
  - reflexivity.
Defined.

(** ** evaluate on the empty board *)

Lemma Board_empty_scan_cells (S_ROWS S_COLS : nat) (ps : list Vec2i) (score : Z) :
  (forall p, In p ps -> isValidPosition S_ROWS S_COLS p = true) ->
  scan_cells S_ROWS S_COLS (Board_empty S_ROWS S_COLS) ps score = inr score.
Proof.
  induction ps as [|p ps IH]; intros Hps; [reflexivity|]. cbn [scan_cells].
  rewrite Board_empty_cell by (apply Hps; left; reflexivity).
  apply IH. intros q Hq. apply Hps. right. exact Hq.
Qed.

(** On the empty board of any size with at least one row and one column,
    [evaluate] reports no terminal result and the score 0. *)
Lemma evaluate_empty_board (S_ROWS S_COLS : nat) :
  (0 < S_ROWS)%nat -> (0 < S_COLS)%nat ->
  evaluate S_ROWS S_COLS (Board_empty S_ROWS S_COLS) = (None, 0).
Proof.
  intros HR HC. unfold evaluate.
  rewrite Board_empty_scan_cells by (intros p Hp; apply cells_In; exact Hp).
  unfold isDraw. change (cols (m_shape S_ROWS S_COLS)) with (Z.of_nat S_COLS).
  rewrite int_range_cons by lia. cbn [forallb].
  rewrite Board_empty_cell by (apply isValidPosition_iff; cbn [x y]; lia).
  reflexivity.
Qed.

Lemma evaluate_empty_board_witness :
  (0 < 6)%nat /\ (0 < 7)%nat /\ evaluate 6 7 (Board_empty 6 7) = (None, 0).
Proof.
  split; [lia|]. split; [lia|]. apply (evaluate_empty_board 6 7); lia.
Defined.

(** ** Minimax on the three-in-a-row scenario *)

(** The scenario board shows Positive at (0,5), (1,5), (2,5) and an empty
    cell everywhere else. *)
Lemma board_three_positive_cells :
  map (board_at 6 7 board_three_positive) (cells 6 7) =
  repeat (Some Empty) 35 ++
  [Some Positive; Some Positive; Some Positive;
   Some Empty; Some Empty; Some Empty; Some Empty].
Proof. reflexivity. Qed.




(** The search keeps the first move of maximal value and has no preference
    for the nearest win: against an opponent whose moves place nothing (enemy
    tile [Empty]) every line wins within three plies, all with the value
    [LONG_MAX], and at depth 3 the search returns the move of column 0. *)
Lemma minimax_keeps_first_maximal_move :
  Minimax_getNextMove 6 7 (mkMinimaxPlayer 3 Positive Empty) board_three_positive
    = Ok (mkMove (mkVec2i 0 4) Positive).
Proof. vm_compute. reflexivity. Qed.

(** ** The move that monteCarloTreeSearch returns *)

Section FinalChoice.

Variables S_ROWS S_COLS : nat.
Variable fl : FloatOps.
Variable umap_order : list Move -> list Move.
Variable rand : nat -> Z.
Variable self : MonteCarloPlayer.

Lemma mostVisited_loop_spec (t t' : Tree) (root : MonteCarloNode)
  (moves : list Move) (floor : Z) (fallback res : Move) :
  nth_error (nodes t) 0 = Some root ->
  mostVisited_loop (Some 0%nat) moves floor fallback t = Ok (res, t') ->
  t' = t /\
  first_maximum (child_visits t (children root)) moves floor fallback res.
Proof.
  intros Hroot. revert floor fallback.
  induction moves as [|move moves IH]; intros floor fallback; cbn [mostVisited_loop].
  - intros [= <- <-]. split; [reflexivity|]. left. split; [reflexivity | intros m []].
  - unfold sbind at 1, getChildForMove, sbind at 1, deref. rewrite Hroot. unfold ret at 1.
    unfold sbind at 1, lift, value.
    destruct (umap_find (children root) move) as [child|] eqn:Hfind; [|discriminate].
    unfold sbind at 1, deref.
    destruct (nth_error (nodes t) child) as [c|] eqn:Hchild; [|discriminate].
    assert (Hcount : child_visits t (children root) move = visits c).
    { unfold child_visits. rewrite Hfind, Hchild. reflexivity. }
    destruct (Z.gtb_spec (visits c) floor) as [Hgt|Hle]; intros H;
      apply IH in H as [-> Hmax]; (split; [reflexivity|]).
    + right. destruct Hmax as [[-> Hall]|(before & after & -> & Hfloor & Hb & Ha)].
      * exists [], moves. rewrite Hcount. repeat split; [lia | intros m [] |].
        intros m Hm. apply Hall, Hm.
      * exists (move :: before), after. repeat split; [lia | | exact Ha].
        intros m [<-|Hm]; [lia | apply Hb, Hm].
    + destruct Hmax as [[-> Hall]|(before & after & -> & Hfloor & Hb & Ha)].
      * left. split; [reflexivity|]. intros m [<-|Hm]; [lia | apply Hall, Hm].
      * right. exists (move :: before), after. repeat split; [lia | | exact Ha].
        intros m [<-|Hm]; [lia | apply Hb, Hm].
Qed.

Lemma first_maximum_bound (count : Move -> Z) (order : list Move) (res m : Move) :
  first_maximum count order 0 Move_default res ->
  In m order -> count m <= Z.max 0 (count res).
Proof.
  intros [[_ Hall]|(before & after & -> & Hpos & Hb & Ha)] Hm.
  - specialize (Hall m Hm). lia.
  - apply in_app_or in Hm as [Hm|[<-|Hm]].
    + specialize (Hb m Hm). lia.
    + lia.
    + specialize (Ha m Hm). lia.
Qed.

(** C7, as amended. The move that [monteCarloTreeSearch] returns is, among
    the moves of the root's expanded children taken in the iteration order of
    the root's map of children, the first one whose child has the largest
    visit count (the value-initialised move when no child has a positive
    count); no expanded child of the root has more visits. Win counts play
    no part, and the iteration order of the map decides between equal
    counts. *)
Theorem monteCarloTreeSearch_first_most_visited (b : Board) (res : Move) :
  (forall keys, Permutation (umap_order keys) keys) ->
  monteCarloTreeSearch S_ROWS S_COLS fl umap_order rand self b = Ok res ->
  exists t root,
    search_tree S_ROWS S_COLS fl umap_order rand self b = Ok t /\
    nth_error (nodes t) 0 = Some root /\
    first_maximum (child_visits t (children root))
                  (umap_order (map fst (children root))) 0 Move_default res /\
    (forall m, In m (map fst (children root)) ->
               child_visits t (children root) m
                 <= Z.max 0 (child_visits t (children root) res)).
Proof.
  intros Hperm. unfold monteCarloTreeSearch.
  destruct (search_tree S_ROWS S_COLS fl umap_order rand self b) as [t|f]; [|discriminate].
  cbn [bind]. unfold mostVisited, sbind at 1, getExpandedMoves, sbind at 1, deref.
  destruct (nth_error (nodes t) 0) as [root|] eqn:Hroot; [|discriminate].
  unfold ret at 1.
  destruct (mostVisited_loop _ _ _ _ t) as [[res' t']|f] eqn:Hloop; [|discriminate].
  intros [= <-]. exists t, root. split; [reflexivity|]. split; [exact Hroot|].
  apply (mostVisited_loop_spec _ _ _ _ _ _ _ Hroot) in Hloop as [_ Hmax].
  split; [exact Hmax|]. intros m Hm.
  apply (first_maximum_bound _ _ _ _ Hmax).
  apply (Permutation_in m (Permutation_sym (Hperm _))). exact Hm.
Qed.

End FinalChoice.

(** Two simulations on the board with a full bottom row, with a map of
    children that iterates newest first. *)
Lemma two_simulations_tree :
  search_tree 6 7 milli_floats newest_first rand_example
      player_two_simulations board_bottom_row = Ok tree_after_two_simulations.
Proof. vm_compute. reflexivity. Qed.

Lemma two_simulations_move :
  monteCarloTreeSearch 6 7 milli_floats newest_first rand_example
      player_two_simulations board_bottom_row = Ok move_negative_1_4.
Proof. unfold monteCarloTreeSearch. rewrite two_simulations_tree. reflexivity. Qed.

Lemma newest_first_permutation (keys : list Move) : Permutation (newest_first keys) keys.
Proof. apply Permutation_sym, Permutation_rev. Qed.

Lemma monteCarloTreeSearch_first_most_visited_witness :
  (forall keys, Permutation (newest_first keys) keys) /\
  monteCarloTreeSearch 6 7 milli_floats newest_first rand_example
      player_two_simulations board_bottom_row = Ok move_negative_1_4 /\
  exists t root,
    search_tree 6 7 milli_floats newest_first rand_example
        player_two_simulations board_bottom_row = Ok t /\
    nth_error (nodes t) 0 = Some root /\
    first_maximum (child_visits t (children root))
                  (newest_first (map fst (children root))) 0 Move_default
                  move_negative_1_4 /\
    (forall m, In m (map fst (children root)) ->
               child_visits t (children root) m
                 <= Z.max 0 (child_visits t (children root) move_negative_1_4)).
Proof.
  split; [exact newest_first_permutation|]. split; [exact two_simulations_move|].
  apply (monteCarloTreeSearch_first_most_visited 6 7 milli_floats newest_first
           rand_example player_two_simulations board_bottom_row).
  - exact newest_first_permutation.
  - exact two_simulations_move.
Defined.

(** C7 fails as stated: after two simulations on the 6x7 board with a full
    bottom row the root has the children for columns 0 and 1, each visited
    once; when the map of children iterates newest first, the search returns
    the move of column 1. *)
Lemma monteCarloTreeSearch_tie_counterexample :
  search_tree 6 7 milli_floats newest_first rand_example
      player_two_simulations board_bottom_row = Ok tree_after_two_simulations /\
  option_map children (nth_error (nodes tree_after_two_simulations) 0)
    = Some [(move_negative_0_4, 1%nat); (move_negative_1_4, 2%nat)] /\
  option_map visits (nth_error (nodes tree_after_two_simulations) 1) = Some 1 /\
  option_map visits (nth_error (nodes tree_after_two_simulations) 2) = Some 1 /\
  monteCarloTreeSearch 6 7 milli_floats newest_first rand_example
      player_two_simulations board_bottom_row = Ok move_negative_1_4.
Proof.
  split; [exact two_simulations_tree|].
  split; [reflexivity|]. split; [reflexivity|]. split; [reflexivity|].
  exact two_simulations_move.
Qed.


(** ** The visit counts of the search tree *)

(** *** The store *)

Lemma length_list_set {A : Type} (l : list A) (i : nat) (a : A) :
  length (list_set l i a) = length l.
Proof.
  revert i. induction l as [|h l IH]; intros [|i]; cbn; try reflexivity.
  rewrite IH. reflexivity.
Qed.

Lemma nth_error_list_set_same {A : Type} (l : list A) (i : nat) (a : A) :
  (i < length l)%nat -> nth_error (list_set l i a) i = Some a.
Proof.
  revert i. induction l as [|h l IH]; intros [|i] H; cbn in *; try lia; try reflexivity.
  apply IH. lia.
Qed.

Lemma nth_error_list_set_other {A : Type} (l : list A) (i j : nat) (a : A) :
  i <> j -> nth_error (list_set l i a) j = nth_error l j.
Proof.
  revert i j. induction l as [|h l IH]; intros [|i] [|j] H; cbn; try reflexivity; try lia.
  apply IH. lia.
Qed.

Lemma nth_error_list_set {A : Type} (l : list A) (i j : nat) (a b : A) :
  nth_error (list_set l i a) j = Some b ->
  (j = i /\ b = a /\ (i < length l)%nat) \/ (j <> i /\ nth_error l j = Some b).
Proof.
  intros H. destruct (Nat.eq_dec j i) as [->|Hne].
  - left. assert (Hi : (i < length l)%nat).
    { rewrite <- (length_list_set l i a). apply nth_error_Some. congruence. }
    rewrite nth_error_list_set_same in H by assumption. injection H as <-. auto.
  - right. rewrite nth_error_list_set_other in H by auto. auto.
Qed.

Lemma root_children_list_set (h : list MonteCarloNode) (i : nat) (n n' : MonteCarloNode) :
  nth_error h i = Some n -> children n' = children n ->
  root_children (list_set h i n') = root_children h.
Proof.
  intros Hn Hc. destruct h as [|r h]; [reflexivity|].
  destruct i as [|i]; cbn in *; [|reflexivity]. injection Hn as ->. rewrite Hc. reflexivity.
Qed.

Lemma visits_at_list_set_same (h : list MonteCarloNode) (i : nat) (n' : MonteCarloNode) :
  (i < length h)%nat -> visits_at (list_set h i n') i = visits n'.
Proof. intros H. unfold visits_at. rewrite nth_error_list_set_same by assumption. reflexivity. Qed.

Lemma visits_at_list_set_other (h : list MonteCarloNode) (i j : nat) (n' : MonteCarloNode) :
  i <> j -> visits_at (list_set h i n') j = visits_at h j.
Proof. intros H. unfold visits_at. rewrite nth_error_list_set_other by assumption. reflexivity. Qed.

(** The sum over a list of addresses after one node is replaced. *)
Lemma sum_visits_list_set_out (h : list MonteCarloNode) (i : nat) (n' : MonteCarloNode)
  (l : list nat) :
  ~ In i l ->
  fold_right (fun c acc => visits_at (list_set h i n') c + acc) 0 l =
  fold_right (fun c acc => visits_at h c + acc) 0 l.
Proof.
  induction l as [|c l IH]; intros Hin; [reflexivity|]. cbn [fold_right].
  rewrite IH by (intros H; apply Hin; right; exact H).
  rewrite visits_at_list_set_other by (intros ->; apply Hin; left; reflexivity).
  reflexivity.
Qed.

Lemma sum_visits_list_set_in (h : list MonteCarloNode) (i : nat) (n n' : MonteCarloNode)
  (l : list nat) :
  nth_error h i = Some n -> NoDup l -> In i l ->
  fold_right (fun c acc => visits_at (list_set h i n') c + acc) 0 l =
  fold_right (fun c acc => visits_at h c + acc) 0 l + (visits n' - visits n).
Proof.
  intros Hn Hnd. assert (Hi : (i < length h)%nat) by (apply nth_error_Some; congruence).
  induction Hnd as [|c l Hc Hnd IH]; intros Hin; [destruct Hin|]. cbn [fold_right].
  destruct Hin as [->|Hin].
  - rewrite sum_visits_list_set_out by assumption.
    rewrite visits_at_list_set_same by assumption. unfold visits_at at 2. rewrite Hn. lia.
  - rewrite IH by assumption.
    rewrite visits_at_list_set_other by (intros ->; contradiction). lia.
Qed.

(** Replacing a node by one with the same links keeps the tree linked. *)
Lemma linked_list_set (h : list MonteCarloNode) (i : nat) (n n' : MonteCarloNode) :
  linked h -> nth_error h i = Some n -> same_links n n' -> linked (list_set h i n').
Proof.
  intros [Hroot Hpar Hch Hrc Hnd] Hn [Hp Hc].
  assert (Hrcs : root_children (list_set h i n') = root_children h)
    by (eapply root_children_list_set; eassumption).
  constructor.
  - destruct Hroot as (r & Hr & Hrp). destruct (Nat.eq_dec i 0) as [->|Hne].
    + exists n'. rewrite nth_error_list_set_same by (apply nth_error_Some; congruence).
      split; [reflexivity|]. congruence.
    + exists r. rewrite nth_error_list_set_other by assumption. auto.
  - intros j m Hm Hj. apply nth_error_list_set in Hm as [(-> & -> & _)|[_ Hm]].
    + rewrite Hp. eapply Hpar; eassumption.
    + eapply Hpar; eassumption.
  - intros j m c Hm Hin. rewrite length_list_set.
    apply nth_error_list_set in Hm as [(-> & -> & _)|[_ Hm]].
    + rewrite Hc in Hin. eapply Hch; eassumption.
    + eapply Hch; eassumption.
  - intros c m Hm. rewrite Hrcs.
    apply nth_error_list_set in Hm as [(-> & -> & _)|[_ Hm]].
    + rewrite Hp. apply Hrc. assumption.
    + apply Hrc. assumption.
  - rewrite Hrcs. assumption.
Qed.

Lemma root_not_own_child (h : list MonteCarloNode) : linked h -> ~ In 0%nat (root_children h).
Proof.
  intros [Hroot _ Hch _ _] Hin. destruct Hroot as (r & Hr & _).
  destruct h as [|r' h]; [discriminate|]. cbn in Hr. injection Hr as ->.
  specialize (Hch 0%nat r 0%nat eq_refl Hin). lia.
Qed.

Lemma root_children_visits_list_set (h : list MonteCarloNode) (i : nat)
  (n n' : MonteCarloNode) :
  linked h -> nth_error h i = Some n -> same_links n n' ->
  root_children_visits (list_set h i n') =
  root_children_visits h +
  (if in_dec Nat.eq_dec i (root_children h) then visits n' - visits n else 0).
Proof.
  intros Hl Hn [_ Hc]. unfold root_children_visits.
  rewrite (root_children_list_set h i n n') by assumption.
  destruct (in_dec Nat.eq_dec i (root_children h)) as [Hin|Hout].
  - apply sum_visits_list_set_in; [assumption | apply (linked_nodup _ Hl) | assumption].
  - rewrite sum_visits_list_set_out by assumption. lia.
Qed.

(** *** Computations over the tree *)

Lemma sbind_Ok {A B : Type} (c : Sim A) (k : A -> Sim B) (t : Tree) (r : B * Tree) :
  sbind c k t = Ok r -> exists a t1, c t = Ok (a, t1) /\ k a t1 = Ok r.
Proof.
  unfold sbind. destruct (c t) as [[a t1]|f]; [|discriminate]. intros H. exists a, t1. auto.
Qed.

Lemma ret_Ok {A : Type} (a a' : A) (t t' : Tree) : ret a t = Ok (a', t') -> a' = a /\ t' = t.
Proof. intros [= <- <-]. auto. Qed.

Lemma lift_Ok {A : Type} (r : result A) (a : A) (t t' : Tree) :
  lift r t = Ok (a, t') -> r = Ok a /\ t' = t.
Proof. unfold lift. destruct r; [intros [= <- <-]; auto | discriminate]. Qed.

Lemma deref_Ok (node : option nat) (n : MonteCarloNode) (t t' : Tree) :
  deref node t = Ok (n, t') ->
  t' = t /\ exists i, node = Some i /\ nth_error (nodes t) i = Some n.
Proof.
  unfold deref. destruct node as [i|]; [|discriminate].
  destruct (nth_error (nodes t) i) as [m|] eqn:E; [|discriminate].
  intros [= <- <-]. split; [reflexivity|]. exists i. auto.
Qed.

Lemma store_Ok (node : option nat) (n : MonteCarloNode) (u : unit) (t t' : Tree) :
  store node n t = Ok (u, t') ->
  exists i, node = Some i /\ nodes t' = list_set (nodes t) i n /\ rand_calls t' = rand_calls t.
Proof.
  unfold store. destruct node as [i|]; [|discriminate]. intros [= _ <-]. exists i. auto.
Qed.

Lemma alloc_Ok (n : MonteCarloNode) (a : nat) (t t' : Tree) :
  alloc n t = Ok (a, t') -> a = length (nodes t) /\ nodes t' = nodes t ++ [n].
Proof. unfold alloc. intros [= <- <-]. auto. Qed.

(** Split a successful sequence [x <~ c ;; k] into its first step and the
    rest, which keeps the name of the hypothesis. *)
Ltac sim_bind H a t1 H1 := apply sbind_Ok in H as (a & t1 & H1 & H).

Lemma stable_refl (t : Tree) : linked (nodes t) -> stable t t.
Proof. intros H. split; [assumption|]. split; [lia|]. split; reflexivity. Qed.

Lemma stable_nodes (t t' : Tree) : linked (nodes t) -> nodes t' = nodes t -> stable t t'.
Proof.
  intros H E. unfold stable. rewrite E.
  split; [assumption|]. split; [lia|]. split; reflexivity.
Qed.

Lemma stable_trans (t1 t2 t3 : Tree) : stable t1 t2 -> stable t2 t3 -> stable t1 t3.
Proof.
  intros (_ & Hlen1 & Hs1 & Hv1) (Hl & Hlen2 & Hs2 & Hv2).
  split; [assumption|]. split; [lia|]. split; congruence.
Qed.

Lemma stable_linked (t t' : Tree) : stable t t' -> linked (nodes t').
Proof. intros H. apply H. Qed.

Lemma below_root_stable (t t' : Tree) (p : option nat) :
  stable t t' -> below_root t p -> below_root t' p.
Proof. intros (_ & Hlen & _) Hp. destruct p as [c|]; cbn in *; [lia | exact I]. Qed.

(** A node replaced by one with the same links and the same visit count. *)
Lemma stable_list_set (t t' : Tree) (i : nat) (n n' : MonteCarloNode) :
  linked (nodes t) -> nth_error (nodes t) i = Some n ->
  same_links n n' -> visits n' = visits n ->
  nodes t' = list_set (nodes t) i n' ->
  stable t t'.
Proof.
  intros Hl Hn Hs Hv E. unfold stable. rewrite E.
  split; [eapply linked_list_set; eassumption|].
  split; [rewrite length_list_set; lia|]. split.
  - rewrite (root_children_visits_list_set _ _ n) by assumption.
    rewrite Hv. destruct (in_dec _ _ _); lia.
  - destruct (Nat.eq_dec i 0) as [->|Hne].
    + rewrite visits_at_list_set_same by (apply nth_error_Some; congruence).
      unfold visits_at. rewrite Hn. assumption.
    + apply visits_at_list_set_other. assumption.
Qed.

Section Methods.

Variables S_ROWS S_COLS : nat.

Lemma Node_isTerminal_links (n : MonteCarloNode) :
  same_links n (snd (Node_isTerminal S_ROWS S_COLS n)) /\
  visits (snd (Node_isTerminal S_ROWS S_COLS n)) = visits n.
Proof.
  unfold Node_isTerminal, same_links. destruct (negb (m_isTerminal n)); [|auto].
  destruct (evaluate S_ROWS S_COLS (m_board n)) as [[w|] s]; cbn; auto.
Qed.

Lemma Node_isFullyExpanded_links (n : MonteCarloNode) :
  same_links n (snd (Node_isFullyExpanded n)) /\
  visits (snd (Node_isFullyExpanded n)) = visits n.
Proof.
  unfold Node_isFullyExpanded, same_links. destruct (_ && _); cbn; auto.
Qed.

Lemma Node_getWinState_links (n : MonteCarloNode) :
  same_links n (snd (Node_getWinState S_ROWS S_COLS n)) /\
  visits (snd (Node_getWinState S_ROWS S_COLS n)) = visits n.
Proof. unfold Node_getWinState. cbn [snd]. apply Node_isTerminal_links. Qed.

Lemma Node_applyMove_links (n n' : MonteCarloNode) (move : Move) (ok : bool) :
  Node_applyMove S_ROWS S_COLS n move = Ok (ok, n') ->
  same_links n n' /\ visits n' = visits n.
Proof.
  unfold Node_applyMove.
  destruct (place S_ROWS S_COLS (m_board n) move) as [[|] b'].
  - destruct (generateValidPositions S_ROWS S_COLS _) as [positions|f]; [|discriminate].
    cbn [bind]. cbv zeta. intros [= _ <-].
    pose proof (Node_isTerminal_links
                  (set_maxChildren (set_board n b') (Z.of_nat (length positions))))
      as [[H1 H2] H3].
    destruct (_ && _); unfold same_links;
      cbn [set_turn set_fullyExpanded set_maxChildren set_board m_parent children visits] in *;
      auto.
  - intros [= _ <-]. unfold same_links. cbn. auto.
Qed.

Lemma Node_new_fresh (turn : Tile) (b : Board) (n : MonteCarloNode) :
  Node_new S_ROWS S_COLS turn b = Ok n ->
  m_parent n = None /\ children n = [] /\ visits n = 0.
Proof.
  unfold Node_new. destruct (generateValidPositions S_ROWS S_COLS b); [|discriminate].
  cbn [bind]. intros [= <-]. auto.
Qed.

(** A member function that keeps the links and the visit count of its node. *)
Lemma method_stable {A : Type} (f : MonteCarloNode -> A * MonteCarloNode)
  (node : option nat) (a : A) (t t' : Tree) :
  (forall n, same_links n (snd (f n)) /\ visits (snd (f n)) = visits n) ->
  linked (nodes t) ->
  method f node t = Ok (a, t') ->
  stable t t' /\ exists i, node = Some i /\ (i < length (nodes t))%nat.
Proof.
  intros Hf Hl H. unfold method in H.
  sim_bind H n t1 Hn. apply deref_Ok in Hn as [-> (i & -> & Hn)].
  destruct (f n) as [a1 n'] eqn:Ef.
  sim_bind H u t2 Hstore. apply ret_Ok in H as [-> ->].
  apply store_Ok in Hstore as (j & Hj & Hnodes & _). injection Hj as <-.
  pose proof (Hf n) as [Hs Hv]. rewrite Ef in Hs, Hv. cbn [snd] in Hs, Hv.
  split; [eapply stable_list_set; eassumption|].
  exists i. split; [reflexivity|]. apply nth_error_Some. congruence.
Qed.

End Methods.

(** *** A new child *)

Lemma list_set_last {A : Type} (h : list A) (a b : A) :
  list_set (h ++ [a]) (length h) b = h ++ [b].
Proof. induction h as [|x h IH]; cbn; [reflexivity | rewrite IH; reflexivity]. Qed.

Lemma umap_find_In (m : list (Move * nat)) (k : Move) (v : nat) :
  umap_find m k = Some v -> In v (map snd m).
Proof.
  induction m as [|[k' v'] m IH]; cbn; [discriminate|].
  destruct (Move_eqb k' k); [intros [= ->]; auto | auto].
Qed.

Lemma umap_assign_new (m : list (Move * nat)) (k : Move) (v : nat) :
  umap_find m k = None -> umap_assign m k v = m ++ [(k, v)].
Proof.
  induction m as [|[k' v'] m IH]; cbn; [reflexivity|].
  destruct (Move_eqb k' k); [discriminate|]. intros H. rewrite IH by assumption. reflexivity.
Qed.

Section AddChild.

Variable h : list MonteCarloNode.
Variables (i : nat) (n child : MonteCarloNode) (move : Move).
Hypothesis Hlinked : linked h.
Hypothesis Hn : nth_error h i = Some n.
Hypothesis Hchild_parent : m_parent child = Some i.
Hypothesis Hchild_children : children child = [].
Hypothesis Hchild_visits : visits child = 0.

Local Abbreviation L := (length h).
Local Abbreviation n2 := (set_children n (children n ++ [(move, length h)])).
Local Abbreviation h' := (with_child h i n child move).

Lemma add_child_i_lt : (i < L)%nat.
Proof. apply nth_error_Some. congruence. Qed.

Lemma add_child_length : length h' = S L.
Proof. unfold with_child. rewrite length_list_set, length_app. cbn. lia. Qed.

Lemma add_child_nth (j : nat) :
  nth_error h' j =
  if Nat.eqb j i then Some n2 else if Nat.eqb j L then Some child else nth_error h j.
Proof.
  pose proof add_child_i_lt as Hi. unfold with_child.
  destruct (Nat.eqb_spec j i) as [->|Hne].
  - apply nth_error_list_set_same. rewrite length_app. cbn. lia.
  - rewrite nth_error_list_set_other by auto.
    destruct (Nat.eqb_spec j L) as [->|HneL].
    + rewrite nth_error_app2 by lia. rewrite Nat.sub_diag. reflexivity.
    + destruct (Nat.lt_ge_cases j L) as [Hlt|Hge].
      * apply nth_error_app1. exact Hlt.
      * transitivity (@None MonteCarloNode).
        -- apply nth_error_None. rewrite length_app. cbn. lia.
        -- symmetry. apply nth_error_None. lia.
Qed.

Lemma add_child_root_children :
  root_children h' = if Nat.eqb i 0 then root_children h ++ [L] else root_children h.
Proof.
  pose proof add_child_i_lt as Hi. unfold with_child.
  destruct h as [|r rest] eqn:Eh; [cbn in Hi; lia|].
  destruct i as [|i']; cbn [Nat.eqb].
  - cbn in Hn. injection Hn as ->. cbn. rewrite map_app. reflexivity.
  - reflexivity.
Qed.

Lemma add_child_fresh_address : ~ In L (root_children h).
Proof.
  intros Hin. destruct (linked_root _ Hlinked) as (r & Hr & _).
  assert (H : (0 < L < length h)%nat).
  { apply (linked_children _ Hlinked 0%nat r); [assumption|].
    destruct h as [|r' rest]; [discriminate|]. cbn in Hr. injection Hr as ->. exact Hin. }
  lia.
Qed.

Lemma linked_add_child : linked h'.
Proof.
  pose proof add_child_i_lt as Hi.
  pose proof add_child_fresh_address as Hfresh.
  destruct Hlinked as [Hroot Hpar Hch Hrc Hnd].
  constructor.
  - destruct Hroot as (r & Hr & Hrp). rewrite add_child_nth.
    destruct (Nat.eqb_spec 0 i) as [<-|Hne].
    + exists n2. split; [reflexivity|]. cbn. congruence.
    + destruct (Nat.eqb_spec 0 L) as [E|_]; [lia|]. exists r. auto.
  - intros j m Hm Hj. rewrite add_child_nth in Hm.
    destruct (Nat.eqb_spec j i) as [->|Hne].
    + injection Hm as <-. cbn. eapply Hpar; eassumption.
    + destruct (Nat.eqb_spec j L) as [->|HneL].
      * injection Hm as <-. exists i. auto.
      * eapply Hpar; eassumption.
  - intros j m c Hm Hin. rewrite add_child_length. rewrite add_child_nth in Hm.
    destruct (Nat.eqb_spec j i) as [->|Hne].
    + injection Hm as <-. cbn in Hin. rewrite map_app in Hin.
      apply in_app_or in Hin as [Hin|[<-|[]]].
      * specialize (Hch _ _ _ Hn Hin). lia.
      * cbn. lia.
    + destruct (Nat.eqb_spec j L) as [->|HneL].
      * injection Hm as <-. rewrite Hchild_children in Hin. destruct Hin.
      * specialize (Hch _ _ _ Hm Hin). lia.
  - intros c m Hm. rewrite add_child_root_children. rewrite add_child_nth in Hm.
    assert (Hgrow : forall k, (k < L)%nat ->
              (In k (if Nat.eqb i 0 then root_children h ++ [L] else root_children h)
               <-> In k (root_children h))).
    { intros k Hk. destruct (Nat.eqb i 0); [|tauto]. rewrite in_app_iff. cbn.
      split; [intros [H|[H|[]]]; [assumption | lia] | auto]. }
    destruct (Nat.eqb_spec c i) as [->|Hne].
    + injection Hm as <-. cbn [set_children m_parent]. rewrite Hgrow by assumption.
      apply Hrc. assumption.
    + destruct (Nat.eqb_spec c L) as [->|HneL].
      * injection Hm as <-. rewrite Hchild_parent.
        destruct (Nat.eqb_spec i 0) as [->|Hi0].
        -- split; [intros _; apply in_or_app; right; left; reflexivity | reflexivity].
        -- split; [intros [= E]; contradiction | intros H; contradiction].
      * assert (Hc : (c < L)%nat) by (apply nth_error_Some; congruence).
        rewrite Hgrow by assumption. apply Hrc. assumption.
  - rewrite add_child_root_children. destruct (Nat.eqb i 0); [|assumption].
    apply NoDup_app; [assumption | constructor; [intros [] | constructor] |].
    intros k Hk [<-|[]]. contradiction.
Qed.

Lemma add_child_visits_at (c : nat) : (c < L)%nat -> visits_at h' c = visits_at h c.
Proof.
  intros Hc. unfold visits_at. rewrite add_child_nth.
  destruct (Nat.eqb_spec c i) as [->|_]; [rewrite Hn; reflexivity|].
  destruct (Nat.eqb_spec c L) as [->|_]; [lia | reflexivity].
Qed.

Lemma add_child_sum_old (l : list nat) :
  (forall c, In c l -> (c < L)%nat) ->
  fold_right (fun c acc => visits_at h' c + acc) 0 l =
  fold_right (fun c acc => visits_at h c + acc) 0 l.
Proof.
  induction l as [|c l IH]; intros Hl; [reflexivity|]. cbn [fold_right].
  rewrite IH by (intros k Hk; apply Hl; right; exact Hk).
  rewrite add_child_visits_at by (apply Hl; left; reflexivity). reflexivity.
Qed.

Lemma add_child_root_children_visits :
  root_children_visits h' = root_children_visits h.
Proof.
  pose proof add_child_i_lt as Hi.
  assert (Hold : forall c, In c (root_children h) -> (c < L)%nat).
  { intros c Hc. destruct (linked_root _ Hlinked) as (r & Hr & _).
    assert (H : (0 < c < length h)%nat).
    { apply (linked_children _ Hlinked 0%nat r); [assumption|].
      destruct h as [|r' rest]; [discriminate|]. cbn in Hr. injection Hr as ->. exact Hc. }
    lia. }
  unfold root_children_visits. rewrite add_child_root_children.
  destruct (Nat.eqb i 0); [|apply add_child_sum_old; assumption].
  rewrite fold_right_app. cbn [fold_right].
  assert (HL : visits_at h' L = 0).
  { unfold visits_at. rewrite add_child_nth.
    destruct (Nat.eqb_spec L i) as [E|_]; [lia|]. rewrite Nat.eqb_refl. assumption. }
  rewrite HL. cbn.
  generalize (root_children h) Hold. intros l Hl.
  induction l as [|c l IH]; [reflexivity|]. cbn [fold_right].
  rewrite IH by (intros k Hk; apply Hl; right; exact Hk).
  rewrite add_child_visits_at by (apply Hl; left; reflexivity). reflexivity.
Qed.

Lemma add_child_root_visits : visits_at h' 0 = visits_at h 0.
Proof. apply add_child_visits_at. pose proof add_child_i_lt. lia. Qed.

End AddChild.

(** *** The phases of one simulation *)

Section Phases.

Variables S_ROWS S_COLS : nat.
Variable fl : FloatOps.
Variable umap_order : list Move -> list Move.
Variable rand : nat -> Z.
Variable self : MonteCarloPlayer.

Lemma createChild_stable (this : option nat) (move : Move) (a : nat) (t t' : Tree) :
  linked (nodes t) ->
  (forall i n, this = Some i -> nth_error (nodes t) i = Some n ->
               umap_find (children n) move = None) ->
  createChild S_ROWS S_COLS this move t = Ok (a, t') ->
  stable t t' /\ (0 < a < length (nodes t'))%nat.
Proof.
  intros Hl Hnew H. unfold createChild in H.
  sim_bind H n t1 Hn. apply deref_Ok in Hn as [-> (i & -> & Hn)].
  specialize (Hnew i n eq_refl Hn).
  sim_bind H made t1 Hfresh. apply lift_Ok in Hfresh as [Hfresh ->].
  apply Node_new_fresh in Hfresh as (Hfp & Hfc & Hfv).
  sim_bind H newNode t1 Halloc. apply alloc_Ok in Halloc as [-> Hnodes1].
  sim_bind H r t2 Happly. destruct r as [ok applied].
  apply lift_Ok in Happly as [Happly ->].
  apply Node_applyMove_links in Happly as [[Hap Hac] Hav].
  sim_bind H u t2 Hstore. apply store_Ok in Hstore as (j & Hj & Hnodes2 & _).
  injection Hj as <-. rewrite Hnodes1, list_set_last in Hnodes2.
  assert (Hi : (i < length (nodes t))%nat) by (apply nth_error_Some; congruence).
  sim_bind H n' t3 Hn'. apply deref_Ok in Hn' as [-> (j & Hj & Hn')]. injection Hj as <-.
  rewrite Hnodes2, nth_error_app1, Hn in Hn' by assumption. injection Hn' as <-.
  sim_bind H u' t3 Hstore. apply store_Ok in Hstore as (j & Hj & Hnodes3 & _).
  injection Hj as <-. apply ret_Ok in H as [-> ->].
  rewrite umap_assign_new in Hnodes3 by assumption. rewrite Hnodes2 in Hnodes3.
  set (child := set_parent applied (Some i)) in *.
  assert (Hcp : m_parent child = Some i) by reflexivity.
  assert (Hcc : children child = []) by (cbn; congruence).
  assert (Hcv : visits child = 0) by (cbn; congruence).
  match type of Hnodes3 with
  | nodes ?final = _ => change (nodes final = with_child (nodes t) i n child move) in Hnodes3
  end.
  unfold stable. rewrite Hnodes3. split; [split; [|split; [|split]]|].
  - eapply linked_add_child; eassumption.
  - rewrite add_child_length. lia.
  - eapply add_child_root_children_visits; eassumption.
  - eapply add_child_root_visits; eassumption.
  - rewrite add_child_length. lia.
Qed.

Lemma getChildForMove_Ok (node : option nat) (move : Move) (found : option nat) (t t' : Tree) :
  getChildForMove node move t = Ok (found, t') ->
  t' = t /\ exists i n, node = Some i /\ nth_error (nodes t) i = Some n /\
                        found = umap_find (children n) move.
Proof.
  unfold getChildForMove. intros H.
  sim_bind H n t1 Hn. apply deref_Ok in Hn as [-> (i & -> & Hn)].
  apply ret_Ok in H as [-> ->]. split; [reflexivity|]. eauto.
Qed.

Lemma getExpandedMoves_Ok (node : option nat) (moves : list Move) (t t' : Tree) :
  getExpandedMoves umap_order node t = Ok (moves, t') -> t' = t.
Proof.
  unfold getExpandedMoves. intros H.
  sim_bind H n t1 Hn. apply deref_Ok in Hn as [-> _]. apply ret_Ok in H as [_ ->]. reflexivity.
Qed.

Lemma bestUCT_loop_Ok (node : option nat) (moves : list Move) (maxVal : F fl)
  (res best : Move * option nat) (t t' : Tree) :
  linked (nodes t) -> below_root t (snd res) ->
  bestUCT_loop fl self node moves maxVal res t = Ok (best, t') ->
  t' = t /\ below_root t (snd best).
Proof.
  intros Hl. revert maxVal res.
  induction moves as [|move moves IH]; intros maxVal res Hres H; cbn [bestUCT_loop] in H.
  - apply ret_Ok in H as [-> ->]. auto.
  - sim_bind H found t1 Hfound.
    apply getChildForMove_Ok in Hfound as [-> (i & n & -> & Hn & ->)].
    sim_bind H child t1 Hchild. apply lift_Ok in Hchild as [Hchild ->].
    destruct (umap_find (children n) move) as [c|] eqn:Hfind; [|discriminate].
    injection Hchild as <-.
    sim_bind H cn t1 Hc. apply deref_Ok in Hc as [-> _].
    sim_bind H pn t1 Hp. apply deref_Ok in Hp as [-> _].
    destruct (F_gt fl _ maxVal).
    + apply IH in H; [assumption|]. cbn.
      eapply (linked_children _ Hl); [exact Hn|]. eapply umap_find_In. eassumption.
    + apply IH in H; assumption.
Qed.

Lemma bestUCT_Ok (node : option nat) (best : Move * option nat) (t t' : Tree) :
  linked (nodes t) ->
  bestUCT fl umap_order self node t = Ok (best, t') ->
  t' = t /\ below_root t (snd best).
Proof.
  intros Hl H. unfold bestUCT in H.
  sim_bind H moves t1 Hmoves. apply getExpandedMoves_Ok in Hmoves as ->.
  eapply bestUCT_loop_Ok; [assumption | | eassumption]. exact I.
Qed.

Lemma expand_loop_stable (node : option nat) (turn : Tile) (positions : list Vec2i)
  (leaf : option nat) (t t' : Tree) :
  linked (nodes t) ->
  expand_loop S_ROWS S_COLS node turn positions t = Ok (leaf, t') ->
  stable t t' /\ below_root t' leaf.
Proof.
  intros Hl. induction positions as [|p positions IH]; intros H; cbn [expand_loop] in H.
  - apply ret_Ok in H as [-> ->]. split; [apply stable_refl; assumption | exact I].
  - sim_bind H found t1 Hfound.
    apply getChildForMove_Ok in Hfound as [-> (i & n & -> & Hn & ->)].
    destruct (umap_find (children n) (mkMove p turn)) as [c|] eqn:Hfind.
    + apply IH. assumption.
    + sim_bind H child t1 Hchild. apply ret_Ok in H as [-> ->].
      apply createChild_stable in Hchild; [exact Hchild | assumption |].
      intros j m [= <-] Hm. congruence.
Qed.

Lemma expand_stable (node leaf : option nat) (t t' : Tree) :
  linked (nodes t) ->
  expand S_ROWS S_COLS node t = Ok (leaf, t') ->
  stable t t' /\ below_root t' leaf.
Proof.
  intros Hl H. unfold expand in H.
  sim_bind H n t1 Hn. apply deref_Ok in Hn as [-> _].
  sim_bind H positions t1 Hpos. apply lift_Ok in Hpos as [_ ->].
  eapply expand_loop_stable; eassumption.
Qed.

Lemma isTerminal_stable (node : option nat) (a : bool) (t t' : Tree) :
  linked (nodes t) -> isTerminal S_ROWS S_COLS node t = Ok (a, t') ->
  stable t t' /\ exists i, node = Some i /\ (i < length (nodes t))%nat.
Proof. intros Hl H. eapply method_stable; [apply Node_isTerminal_links | |]; eassumption. Qed.

Lemma isFullyExpanded_stable (node : option nat) (a : bool) (t t' : Tree) :
  linked (nodes t) -> isFullyExpanded node t = Ok (a, t') -> stable t t'.
Proof.
  intros Hl H. eapply method_stable in H; [apply H | apply Node_isFullyExpanded_links | assumption].
Qed.

Lemma getWinState_stable (node : option nat) (a : option Z) (t t' : Tree) :
  linked (nodes t) -> getWinState S_ROWS S_COLS node t = Ok (a, t') -> stable t t'.
Proof.
  intros Hl H. eapply method_stable in H; [apply H | apply Node_getWinState_links | assumption].
Qed.

Lemma traverse_loop_stable (fuel : nat) (node : option nat) (res : Move * option nat)
  (leaf : option nat) (t t' : Tree) :
  linked (nodes t) -> below_root t (snd res) ->
  traverse_loop S_ROWS S_COLS fl umap_order self fuel node res t = Ok (leaf, t') ->
  stable t t' /\ below_root t' leaf.
Proof.
  revert node res t. induction fuel as [|fuel IH]; intros node res t Hl Hres H;
    cbn [traverse_loop] in H.
  - apply lift_Ok in H as [H _]. discriminate.
  - sim_bind H terminal t1 Hterm. apply isTerminal_stable in Hterm as [Hs1 _]; [|assumption].
    pose proof (stable_linked _ _ Hs1) as Hl1.
    destruct terminal; cbn [negb] in H.
    + apply ret_Ok in H as [-> ->]. split; [assumption|].
      eapply below_root_stable; eassumption.
    + sim_bind H full t2 Hfull. apply isFullyExpanded_stable in Hfull as Hs2; [|assumption].
      pose proof (stable_linked _ _ Hs2) as Hl2.
      pose proof (stable_trans _ _ _ Hs1 Hs2) as Hs12.
      destruct full; cbn [negb] in H.
      * sim_bind H best t3 Hbest. apply bestUCT_Ok in Hbest as [-> Hbest]; [|assumption].
        apply IH in H as [Hs3 Hleaf]; [|assumption|assumption].
        split; [|assumption]. eapply stable_trans; eassumption.
      * apply expand_stable in H as [Hs3 Hleaf]; [|assumption].
        split; [|assumption]. eapply stable_trans; eassumption.
Qed.

Lemma traverse_stable (node leaf : option nat) (t t' : Tree) :
  linked (nodes t) ->
  traverse S_ROWS S_COLS fl umap_order self node t = Ok (leaf, t') ->
  stable t t' /\ below_root t' leaf.
Proof.
  intros Hl H. unfold traverse in H. sim_bind H k t1 Hk.
  unfold node_count in Hk. injection Hk as <- <-.
  eapply traverse_loop_stable; [assumption | | eassumption]. exact I.
Qed.

Lemma playoutPolicy_nodes (simNode : MonteCarloNode) (move : Move) (t t' : Tree) :
  playoutPolicy S_ROWS S_COLS rand simNode t = Ok (move, t') -> nodes t' = nodes t.
Proof.
  unfold playoutPolicy. intros H.
  sim_bind H moves t1 Hmoves. apply lift_Ok in Hmoves as [_ ->].
  sim_bind H r t1 Hrand. unfold call_rand in Hrand. injection Hrand as _ <-.
  destruct moves as [|p moves]; [apply lift_Ok in H as [H _]; discriminate|].
  sim_bind H q t2 Hq. apply lift_Ok in Hq as [_ ->]. apply ret_Ok in H as [_ ->]. reflexivity.
Qed.

Lemma playout_loop_nodes (fuel : nat) (simNode final : MonteCarloNode) (t t' : Tree) :
  playout_loop S_ROWS S_COLS rand fuel simNode t = Ok (final, t') -> nodes t' = nodes t.
Proof.
  revert simNode t. induction fuel as [|fuel IH]; intros simNode t H; cbn [playout_loop] in H.
  - apply lift_Ok in H as [H _]. discriminate.
  - destruct (Node_isTerminal S_ROWS S_COLS simNode) as [[|] simNode1]; cbn [negb] in H.
    + apply ret_Ok in H as [_ ->]. reflexivity.
    + sim_bind H move t1 Hmove. apply playoutPolicy_nodes in Hmove.
      sim_bind H r t2 Happly. destruct r as [applied simNode2].
      apply lift_Ok in Happly as [_ ->].
      destruct applied; cbn [negb] in H.
      * apply IH in H. congruence.
      * apply lift_Ok in H as [H _]. discriminate.
Qed.

Lemma playout_stable (node : option nat) (results : option Z) (t t' : Tree) :
  linked (nodes t) ->
  playout S_ROWS S_COLS rand node t = Ok (results, t') ->
  stable t t' /\ exists i, node = Some i /\ (i < length (nodes t))%nat.
Proof.
  intros Hl H. unfold playout in H.
  sim_bind H terminal t1 Hterm. apply isTerminal_stable in Hterm as [Hs1 Hnode]; [|assumption].
  split; [|assumption]. pose proof (stable_linked _ _ Hs1) as Hl1.
  destruct terminal.
  - apply getWinState_stable in H; [|assumption]. eapply stable_trans; eassumption.
  - sim_bind H n t2 Hn. apply deref_Ok in Hn as [-> _].
    sim_bind H simNode t2 Hloop. apply playout_loop_nodes in Hloop.
    destruct (Node_getWinState S_ROWS S_COLS simNode) as [res simNode'].
    destruct (children simNode').
    + apply ret_Ok in H as [_ ->]. eapply stable_trans; [eassumption|].
      apply stable_nodes; assumption.
    + apply lift_Ok in H as [H _]. discriminate.
Qed.

Lemma update_counts_Ok (node : option nat) (playoutResults : Z) (u : unit) (t t' : Tree) :
  update_counts self node playoutResults t = Ok (u, t') ->
  exists i n n', node = Some i /\ nth_error (nodes t) i = Some n /\
                 same_links n n' /\ visits n' = visits n + 1 /\
                 nodes t' = list_set (nodes t) i n'.
Proof.
  unfold update_counts. intros H.
  sim_bind H n t1 Hn. apply deref_Ok in Hn as [-> (i & -> & Hn)].
  apply store_Ok in H as (j & Hj & Hnodes & _). injection Hj as <-.
  exists i, n. eexists. split; [reflexivity|]. split; [assumption|].
  split; [|split; [|exact Hnodes]]; [split; reflexivity | reflexivity].
Qed.

(** The walk from a node up to the root adds one visit to the root and,
    when it starts below the root, one to exactly one child of the root. *)
Lemma backpropagate_loop_counts (fuel l : nat) (playoutResults : Z) (u : unit) (t t' : Tree) :
  linked (nodes t) ->
  backpropagate_loop self fuel (Some l) playoutResults t = Ok (u, t') ->
  linked (nodes t') /\
  visits_at (nodes t') 0 = visits_at (nodes t) 0 + 1 /\
  root_children_visits (nodes t') =
    root_children_visits (nodes t) + (if Nat.eqb l 0 then 0 else 1).
Proof.
  revert l t. induction fuel as [|fuel IH]; intros l t Hl H; cbn [backpropagate_loop] in H.
  - apply lift_Ok in H as [H _]. discriminate.
  - sim_bind H n t1 Hn. apply deref_Ok in Hn as [-> (i & Hi & Hn)]. injection Hi as <-.
    destruct (linked_root _ Hl) as (r & Hr & Hrp).
    destruct (m_parent n) as [p|] eqn:Hp.
    + assert (Hl0 : l <> 0%nat) by (intros ->; congruence).
      sim_bind H u1 t1 Hupd.
      apply update_counts_Ok in Hupd as (i & m & n' & Hi & Hm & Hlinks & Hv & Hnodes).
      injection Hi as <-. rewrite Hn in Hm. injection Hm as <-.
      assert (Hl1 : linked (nodes t1))
        by (rewrite Hnodes; apply (linked_list_set _ _ n); assumption).
      apply IH in H as (Hl' & Hv' & Hs'); [|assumption].
      split; [assumption|]. rewrite Hv', Hs', Hnodes.
      rewrite visits_at_list_set_other by auto.
      rewrite (root_children_visits_list_set _ _ n) by assumption.
      split; [reflexivity|].
      pose proof (linked_root_children _ Hl l n Hn) as Hrc. rewrite Hp in Hrc.
      destruct (Nat.eqb_spec l 0) as [E|_]; [contradiction|].
      destruct (in_dec Nat.eq_dec l (root_children (nodes t))) as [Hin|Hout].
      * apply Hrc in Hin. injection Hin as ->. cbn. lia.
      * destruct (Nat.eqb_spec p 0) as [->|_]; [exfalso; apply Hout, Hrc; reflexivity | lia].
    + assert (Hl0 : l = 0%nat).
      { destruct l as [|l]; [reflexivity|].
        destruct (linked_parent _ Hl (S l) n Hn) as (p & Hp' & _); [lia | congruence]. }
      subst l.
      apply update_counts_Ok in H as (i & m & n' & Hi & Hm & Hlinks & Hv & Hnodes).
      injection Hi as <-. rewrite Hn in Hm. injection Hm as <-.
      rewrite Hnodes. split; [apply (linked_list_set _ _ n); assumption|].
      rewrite visits_at_list_set_same by (apply nth_error_Some; congruence).
      rewrite (root_children_visits_list_set _ _ n) by assumption.
      split; [unfold visits_at; rewrite Hn; assumption|].
      destruct (in_dec Nat.eq_dec 0%nat (root_children (nodes t))) as [Hin|_];
        [exfalso; eapply root_not_own_child; eassumption | reflexivity].
Qed.

(** One simulation adds one visit to the root and one to exactly one of
    its children. *)
Lemma simulation_counts (u : unit) (t t' : Tree) :
  linked (nodes t) ->
  simulation S_ROWS S_COLS fl umap_order rand self (Some 0%nat) t = Ok (u, t') ->
  linked (nodes t') /\
  visits_at (nodes t') 0 = visits_at (nodes t) 0 + 1 /\
  root_children_visits (nodes t') = root_children_visits (nodes t) + 1.
Proof.
  intros Hl H. unfold simulation in H.
  sim_bind H leaf t1 Htrav. apply traverse_stable in Htrav as [Hs1 Hleaf]; [|assumption].
  pose proof (stable_linked _ _ Hs1) as Hl1.
  sim_bind H results t2 Hplay. apply playout_stable in Hplay as [Hs2 (c & -> & Hc)]; [|assumption].
  pose proof (stable_linked _ _ Hs2) as Hl2.
  sim_bind H r t3 Hr. apply lift_Ok in Hr as [_ ->].
  unfold backpropagate in H. sim_bind H k t3 Hk. unfold node_count in Hk. injection Hk as _ <-.
  apply backpropagate_loop_counts in H as (Hl' & Hv' & Hs'); [|assumption].
  destruct Hs1 as (_ & _ & Hsum1 & Hroot1), Hs2 as (_ & _ & Hsum2 & Hroot2).
  split; [assumption|]. cbn in Hleaf.
  destruct (Nat.eqb_spec c 0) as [->|_]; [lia|]. split; congruence.
Qed.

Lemma simulations_counts (count : nat) (u : unit) (t t' : Tree) :
  linked (nodes t) ->
  simulations S_ROWS S_COLS fl umap_order rand self count (Some 0%nat) t = Ok (u, t') ->
  linked (nodes t') /\
  visits_at (nodes t') 0 = visits_at (nodes t) 0 + Z.of_nat count /\
  root_children_visits (nodes t') = root_children_visits (nodes t) + Z.of_nat count.
Proof.
  revert t. induction count as [|count IH]; intros t Hl H; cbn [simulations] in H.
  - apply ret_Ok in H as [_ ->]. cbn. split; [assumption|]. split; lia.
  - sim_bind H u1 t1 Hsim. apply simulation_counts in Hsim as (Hl1 & Hv1 & Hs1); [|assumption].
    apply IH in H as (Hl' & Hv' & Hs'); [|assumption].
    split; [assumption|]. split; lia.
Qed.

Lemma linked_single (root : MonteCarloNode) :
  m_parent root = None -> children root = [] -> linked [root].
Proof.
  intros Hp Hc. constructor.
  - exists root. auto.
  - intros [|[|i]] n Hn Hi; cbn in Hn; try discriminate. lia.
  - intros [|[|i]] n c Hn Hin; cbn in Hn; try discriminate.
    injection Hn as <-. rewrite Hc in Hin. destruct Hin.
  - intros [|[|c]] n Hn; cbn in Hn; try discriminate. injection Hn as <-.
    cbn. rewrite Hp, Hc. cbn. split; [discriminate | intros []].
  - cbn. rewrite Hc. constructor.
Qed.

(** On every run of the simulation loop that completes, the visit counts
    of the root's expanded children sum to the number of simulations, as
    does the visit count of the root. *)
Lemma search_tree_visit_counts (b : Board) (t : Tree) :
  search_tree S_ROWS S_COLS fl umap_order rand self b = Ok t ->
  linked (nodes t) /\
  root_children_visits (nodes t) = Z.max 0 (m_nSimulation self) /\
  visits_at (nodes t) 0 = Z.max 0 (m_nSimulation self).
Proof.
  unfold search_tree. intros H.
  match type of H with
  | match ?c with _ => _ end = _ => destruct c as [[u t0]|f] eqn:Hrun; [|discriminate]
  end.
  injection H as ->.
  sim_bind Hrun made t1 Hmade. apply lift_Ok in Hmade as [Hmade ->].
  apply Node_new_fresh in Hmade as (Hp & Hc & Hv).
  sim_bind Hrun root t1 Hroot. apply alloc_Ok in Hroot as [-> Hnodes]. cbn in Hnodes.
  apply simulations_counts in Hrun as (Hl & Hvis & Hsum);
    [|rewrite Hnodes; apply linked_single; assumption].
  split; [assumption|]. rewrite Hsum, Hvis, Hnodes.
  unfold root_children_visits, visits_at. cbn. rewrite Hc, Hv. cbn. split; lia.
Qed.

End Phases.

Lemma search_tree_visit_counts_witness :
  search_tree 6 7 milli_floats newest_first rand_example
      player_two_simulations board_bottom_row = Ok tree_after_two_simulations /\
  linked (nodes tree_after_two_simulations) /\
  root_children_visits (nodes tree_after_two_simulations) = Z.max 0 2 /\
  visits_at (nodes tree_after_two_simulations) 0 = Z.max 0 2.
Proof.
  split; [exact two_simulations_tree|].
  apply (search_tree_visit_counts 6 7 milli_floats newest_first rand_example
           player_two_simulations board_bottom_row).
  exact two_simulations_tree.
Defined.

(** ** evaluate: runs of four *)

Lemma optTile_is_true (o : option Tile) (t : Tile) :
  optTile_is o t = true <-> o = Some t.
Proof.
  destruct o as [t'|]; cbn; [|split; discriminate].
  destruct t', t; cbn; split; congruence.
Qed.

Lemma Vec2i_eqb_eq (p q : Vec2i) : Vec2i_eqb p q = true <-> p = q.
Proof.
  destruct p as [px py], q as [qx qy]. unfold Vec2i_eqb. cbn [x y].
  rewrite andb_true_iff, !Z.eqb_eq. split; [intros [-> ->]; reflexivity|].
  intros [= -> ->]. split; reflexivity.
Qed.

Lemma Vec2i_step_0 (p d : Vec2i) : Vec2i_add p (Vec2i_scale d 0) = p.
Proof. destruct p as [px py], d as [dx dy]. unfold Vec2i_add, Vec2i_scale. cbn [x y]. f_equal; lia. Qed.

Lemma Vec2i_step_step (p d : Vec2i) (i j : Z) :
  Vec2i_add (Vec2i_add p (Vec2i_scale d i)) (Vec2i_scale d j) =
  Vec2i_add p (Vec2i_scale d (i + j)).
Proof. destruct p as [px py], d as [dx dy]. unfold Vec2i_add, Vec2i_scale. cbn [x y]. f_equal; lia. Qed.

Lemma Vec2i_step_back (p d : Vec2i) (i j : Z) :
  Vec2i_add (Vec2i_add p (Vec2i_scale d i)) (Vec2i_scale (Vec2i_neg d) j) =
  Vec2i_add p (Vec2i_scale d (i - j)).
Proof. destruct p as [px py], d as [dx dy]. unfold Vec2i_add, Vec2i_scale, Vec2i_neg. cbn [x y]. f_equal; lia. Qed.

Lemma int_range_length (lo hi : Z) : length (int_range lo hi) = Z.to_nat (hi - lo).
Proof. unfold int_range. rewrite length_map, length_seq. reflexivity. Qed.

Lemma flat_map_length_const {A B : Type} (f : A -> list B) (l : list A) (c : nat) :
  (forall a, length (f a) = c) -> length (flat_map f l) = (length l * c)%nat.
Proof.
  intros Hf. induction l as [|a l IH]; [reflexivity|].
  cbn [flat_map length]. rewrite length_app, Hf, IH. lia.
Qed.

Ltac geb_prop :=
  repeat match goal with
  | H : (_ >=? _) = true |- _ => rewrite Z.geb_leb in H; apply Z.leb_le in H
  | H : (_ >=? _) = false |- _ => rewrite Z.geb_leb in H; apply Z.leb_gt in H
  end.

Section Runs.

Variables S_ROWS S_COLS : nat.

Local Abbreviation valid := (isValidPosition S_ROWS S_COLS).
Local Abbreviation cell := (board_at S_ROWS S_COLS).
Local Abbreviation step p d k := (Vec2i_add p (Vec2i_scale d k)).

Lemma board_at_Some_valid (b : Board) (p : Vec2i) (t : Tile) :
  cell b p = Some t -> valid p = true.
Proof.
  intros H. destruct (valid p) eqn:E; [reflexivity|].
  rewrite board_at_invalid in H by assumption. discriminate.
Qed.

(** One turn of the loop of [check]: it goes on exactly when the cell shows
    the tile. *)
Lemma check_loop_cons (b : Board) (p d : Vec2i) (t : Tile) (i : Z) (steps : list Z) (count : Z) :
  check_loop S_ROWS S_COLS b p d t (i :: steps) count =
  if optTile_is (cell b (step p d i)) t
  then check_loop S_ROWS S_COLS b p d t steps (count + 1)
  else count.
Proof.
  cbn [check_loop].
  destruct (_ || _) eqn:E.
  - rewrite board_at_invalid; [reflexivity|].
    unfold isValidPosition. rewrite E. reflexivity.
  - destruct (cell b _) as [t'|]; [|reflexivity]. cbn [optTile_is].
    destruct (Tile_eqb t' t); reflexivity.
Qed.

(** [check] counts the cells after [p] in direction [d] that show [t], up to
    the first that does not, and at most [connectN - 1] of them. *)
Lemma check_spec (b : Board) (p d : Vec2i) (t : Tile) :
  let c := check S_ROWS S_COLS b p d t in
  0 <= c <= connectN - 1 /\
  (forall k, 1 <= k <= c -> cell b (step p d k) = Some t) /\
  (c < connectN - 1 -> cell b (step p d (c + 1)) <> Some t).
Proof.
  unfold check. change (int_range 1 connectN) with [1; 2; 3].
  change connectN with 4.
  rewrite !check_loop_cons. cbn [check_loop].
  destruct (optTile_is (cell b (step p d 1)) t) eqn:E1.
  2:{ cbn zeta. split; [lia|]. split; [intros; lia|]. intros _ H.
      apply optTile_is_true in H. cbn in H, E1. congruence. }
  destruct (optTile_is (cell b (step p d 2)) t) eqn:E2.
  2:{ cbn zeta. split; [lia|]. split.
      - intros k Hk. assert (k = 1) as -> by lia. apply optTile_is_true, E1.
      - intros _ H. apply optTile_is_true in H. cbn in H, E2. congruence. }
  destruct (optTile_is (cell b (step p d 3)) t) eqn:E3.
  - cbn zeta. split; [lia|]. split; [|lia].
    intros k Hk. assert (k = 1 \/ k = 2 \/ k = 3) as [-> | [-> | ->]] by lia;
      apply optTile_is_true; assumption.
  - cbn zeta. split; [lia|]. split.
    + intros k Hk. assert (k = 1 \/ k = 2) as [-> | ->] by lia;
        apply optTile_is_true; assumption.
    + intros _ H. apply optTile_is_true in H. cbn in H, E3. congruence.
Qed.

(** If the cells from [p] to [p + d * n] show [t], [check] counts at least
    [n] of them. *)
Lemma check_at_least (b : Board) (p d : Vec2i) (t : Tile) (n : Z) :
  0 <= n <= connectN - 1 ->
  (forall k, 1 <= k <= n -> cell b (step p d k) = Some t) ->
  n <= check S_ROWS S_COLS b p d t.
Proof.
  intros Hn Hrun. destruct (check_spec b p d t) as (Hc & _ & Hstop).
  destruct (Z.le_gt_cases n (check S_ROWS S_COLS b p d t)) as [H|H]; [exact H|].
  exfalso. apply Hstop; [lia|]. apply Hrun. lia.
Qed.

(** An early return of the loop over the directions: the run through [p]
    that it found. *)
Lemma scan_directions_inl (b : Board) (p : Vec2i) (t : Tile) (ds : list Vec2i)
  (score : Z) (e : Evaluation) :
  cell b p = Some t ->
  scan_directions S_ROWS S_COLS b p t ds score = inl e ->
  e = win_of t /\ exists q d, In d ds /\ line_of S_ROWS S_COLS b t q d.
Proof.
  intros Hp. revert score. induction ds as [|d ds IH]; intros score; cbn [scan_directions];
    [discriminate|].
  destruct (check_spec b p d t) as (Hc1 & Hrun1 & _).
  destruct (check_spec b p (Vec2i_neg d) t) as (Hc2 & Hrun2 & _).
  cbn zeta in *.
  set (c1 := check S_ROWS S_COLS b p d t) in *.
  set (c2 := check S_ROWS S_COLS b p (Vec2i_neg d) t) in *.
  change connectN with 4 in *.
  destruct (1 + c1 >=? 4) eqn:E1.
  { intros [= <-]. split; [reflexivity|]. exists p, d. split; [left; reflexivity|].
    intros k Hk. change connectN with 4 in Hk.
    destruct (Z.eq_dec k 0) as [-> | Hk0]; [rewrite Vec2i_step_0; exact Hp|].
    geb_prop. apply Hrun1. lia. }
  destruct (1 + c1 + c2 >=? 4) eqn:E2.
  { intros [= <-]. split; [reflexivity|]. geb_prop.
    exists (step p (Vec2i_neg d) c2), d. split; [left; reflexivity|].
    intros k Hk. change connectN with 4 in Hk.
    destruct (Z.lt_trichotomy k c2) as [Hlt | [-> | Hgt]].
    - replace (step (step p (Vec2i_neg d) c2) d k) with (step p (Vec2i_neg d) (c2 - k)).
      + apply Hrun2. lia.
      + destruct p as [px py], d as [dx dy]. unfold Vec2i_add, Vec2i_scale, Vec2i_neg. cbn [x y]. f_equal; lia.
    - replace (step (step p (Vec2i_neg d) c2) d c2) with p; [exact Hp|].
      destruct p as [px py], d as [dx dy]. unfold Vec2i_add, Vec2i_scale, Vec2i_neg. cbn [x y]. f_equal; lia.
    - replace (step (step p (Vec2i_neg d) c2) d k) with (step p d (k - c2)).
      + apply Hrun1. lia.
      + destruct p as [px py], d as [dx dy]. unfold Vec2i_add, Vec2i_scale, Vec2i_neg. cbn [x y]. f_equal; lia. }
  intros H. destruct (IH _ H) as (He & q & d' & Hd' & Hline).
  split; [exact He|]. exists q, d'. split; [right; exact Hd' | exact Hline].
Qed.

(** A run through [p] along one of the directions makes the loop return
    early. *)
Lemma scan_directions_line (b : Board) (p : Vec2i) (t : Tile) (ds : list Vec2i)
  (score : Z) (q d : Vec2i) (k0 : Z) :
  In d ds -> line_of S_ROWS S_COLS b t q d -> 0 <= k0 < connectN ->
  p = step q d k0 ->
  scan_directions S_ROWS S_COLS b p t ds score = inl (win_of t).
Proof.
  intros Hd Hline Hk0 ->. change connectN with 4 in Hk0.
  revert score. induction ds as [|d' ds IH]; intros score; [destruct Hd|].
  cbn [scan_directions]. change connectN with 4.
  destruct (1 + check _ _ _ _ d' t >=? 4) eqn:E1; [reflexivity|].
  destruct (1 + check _ _ _ _ d' t + check _ _ _ _ (Vec2i_neg d') t >=? 4) eqn:E2; [reflexivity|].
  destruct Hd as [-> | Hd]; [|apply IH; exact Hd].
  exfalso.
  assert (H1 : 3 - k0 <= check S_ROWS S_COLS b (step q d k0) d t).
  { apply check_at_least; [change connectN with 4; lia|].
    intros k Hk. rewrite Vec2i_step_step. apply Hline. change connectN with 4. lia. }
  assert (H2 : k0 <= check S_ROWS S_COLS b (step q d k0) (Vec2i_neg d) t).
  { apply check_at_least; [change connectN with 4; lia|].
    intros k Hk. rewrite Vec2i_step_back. apply Hline. change connectN with 4. lia. }
  geb_prop. lia.
Qed.

(** Without an early return every direction adds [10], [100] or [1000]
    times the value of the tile. *)
Lemma scan_directions_inr (b : Board) (p : Vec2i) (t : Tile) (ds : list Vec2i)
  (score score' : Z) :
  scan_directions S_ROWS S_COLS b p t ds score = inr score' ->
  Z.abs (score' - score) <= 1000 * Z.of_nat (length ds).
Proof.
  revert score. induction ds as [|d ds IH]; intros score; cbn [scan_directions].
  - intros [= <-]. cbn. lia.
  - destruct (check_spec b p d t) as (Hc1 & _).
    destruct (check_spec b p (Vec2i_neg d) t) as (Hc2 & _).
    cbn zeta in *.
    set (c1 := check S_ROWS S_COLS b p d t) in *.
    set (c2 := check S_ROWS S_COLS b p (Vec2i_neg d) t) in *.
    change connectN with 4 in *.
    destruct (1 + c1 >=? 4) eqn:E1; [discriminate|].
    destruct (1 + c1 + c2 >=? 4) eqn:E2; [discriminate|].
    intros H. apply IH in H. geb_prop.
    assert (Hpow : 0 <= 10 ^ (1 + c1 + c2) <= 1000).
    { assert (1 + c1 + c2 = 1 \/ 1 + c1 + c2 = 2 \/ 1 + c1 + c2 = 3) as [-> | [-> | ->]] by lia;
        cbn; lia. }
    cbn [length]. destruct t; cbn [Tile_value] in H; lia.
Qed.

Lemma scan_cells_inl (b : Board) (ps : list Vec2i) (score : Z) (e : Evaluation) :
  scan_cells S_ROWS S_COLS b ps score = inl e ->
  exists t, e = win_of t /\ four_in_a_row S_ROWS S_COLS b t.
Proof.
  revert score. induction ps as [|p ps IH]; intros score; cbn [scan_cells]; [discriminate|].
  destruct (cell b p) as [t|] eqn:Hp; [|apply IH].
  assert (Hscan : forall t', t = t' -> t' <> Empty ->
            match scan_directions S_ROWS S_COLS b p t' directions score with
            | inl r => inl r
            | inr score' => scan_cells S_ROWS S_COLS b ps score'
            end = inl e ->
            exists t, e = win_of t /\ four_in_a_row S_ROWS S_COLS b t).
  { intros t' <- Ht.
    destruct (scan_directions S_ROWS S_COLS b p t directions score) as [r|score'] eqn:E.
    - intros [= <-]. apply scan_directions_inl in E as (-> & q & d & Hd & Hline); [|exact Hp].
      exists t. split; [reflexivity|]. split; [exact Ht|]. exists q, d. split; assumption.
    - apply IH. }
  destruct t; [apply Hscan; [reflexivity | discriminate] | apply IH |
               apply Hscan; [reflexivity | discriminate]].
Qed.

Lemma scan_cells_line (b : Board) (ps : list Vec2i) (score : Z) (t : Tile) (q d : Vec2i) :
  In q ps -> t <> Empty -> In d directions -> line_of S_ROWS S_COLS b t q d ->
  exists e, scan_cells S_ROWS S_COLS b ps score = inl e.
Proof.
  intros Hq Ht Hd Hline. revert score.
  induction ps as [|p ps IH]; intros score; [destruct Hq|].
  cbn [scan_cells].
  destruct Hq as [-> | Hq].
  - assert (Hcell : cell b q = Some t).
    { rewrite <- (Vec2i_step_0 q d). apply Hline. change connectN with 4. lia. }
    rewrite Hcell.
    rewrite (scan_directions_line b q t directions score q d 0); try assumption.
    + destruct t; [eexists; reflexivity | contradiction | eexists; reflexivity].
    + change connectN with 4. lia.
    + symmetry. apply Vec2i_step_0.
  - destruct (cell b p) as [[| |]|]; try (apply IH; exact Hq).
    + destruct (scan_directions _ _ _ _ _ _ _); [eexists; reflexivity | apply IH; exact Hq].
    + destruct (scan_directions _ _ _ _ _ _ _); [eexists; reflexivity | apply IH; exact Hq].
Qed.

Lemma scan_cells_inr (b : Board) (ps : list Vec2i) (score score' : Z) :
  scan_cells S_ROWS S_COLS b ps score = inr score' ->
  Z.abs (score' - score) <= 4000 * Z.of_nat (length ps).
Proof.
  revert score. induction ps as [|p ps IH]; intros score; cbn [scan_cells].
  - intros [= <-]. cbn. lia.
  - assert (Hskip : scan_cells S_ROWS S_COLS b ps score = inr score' ->
                    Z.abs (score' - score) <= 4000 * Z.of_nat (length (p :: ps))).
    { intros H. apply IH in H. cbn [length]. lia. }
    assert (Hscan : forall t,
              match scan_directions S_ROWS S_COLS b p t directions score with
              | inl r => inl r
              | inr score' => scan_cells S_ROWS S_COLS b ps score'
              end = inr score' ->
              Z.abs (score' - score) <= 4000 * Z.of_nat (length (p :: ps))).
    { intros t. destruct (scan_directions _ _ _ _ _ _ _) as [r|s1] eqn:E; [discriminate|].
      intros H. apply IH in H. apply scan_directions_inr in E. cbn [length directions] in *.
      lia. }
    destruct (cell b p) as [[| |]|];
      [apply (Hscan Negative) | exact Hskip | apply (Hscan Positive) | exact Hskip].
Qed.

Lemma four_in_a_row_scan_cells (b : Board) (t : Tile) (score : Z) :
  four_in_a_row S_ROWS S_COLS b t ->
  exists e, scan_cells S_ROWS S_COLS b (cells S_ROWS S_COLS) score = inl e.
Proof.
  intros (Ht & q & d & Hd & Hline).
  apply (scan_cells_line b _ score t q d); try assumption.
  apply cells_In. apply (board_at_Some_valid b q t).
  rewrite <- (Vec2i_step_0 q d). apply Hline. change connectN with 4. lia.
Qed.

Lemma cells_length : length (cells S_ROWS S_COLS) = (S_ROWS * S_COLS)%nat.
Proof.
  unfold cells. change (rows (m_shape S_ROWS S_COLS)) with (Z.of_nat S_ROWS).
  change (cols (m_shape S_ROWS S_COLS)) with (Z.of_nat S_COLS).
  rewrite (flat_map_length_const _ _ S_COLS).
  - rewrite int_range_length. f_equal. lia.
  - intros yy. rewrite length_map, int_range_length. lia.
Qed.

End Runs.

(** ** Reading the board after a placement or a removal *)

Section ReadAfterWrite.

Variables S_ROWS S_COLS : nat.

Local Abbreviation valid := (isValidPosition S_ROWS S_COLS).
Local Abbreviation idx := (index S_ROWS S_COLS).
Local Abbreviation cell := (board_at S_ROWS S_COLS).

Lemma board_at_Empty_bits (b : Board) (p : Vec2i) :
  cell b p = Some Empty ->
  Z.testbit (m_positivePieces b) (idx p) = false /\
  Z.testbit (m_negativePieces b) (idx p) = false.
Proof.
  intros H. pose proof (board_at_Some_valid _ _ _ _ _ H) as Hv.
  rewrite board_at_bits in H by assumption.
  destruct (Z.testbit (m_positivePieces b) (idx p)); [discriminate|].
  destruct (Z.testbit (m_negativePieces b) (idx p)); [discriminate|].
  split; reflexivity.
Qed.

Lemma with_piece_cell_other (b : Board) (move : Move) (q : Vec2i) :
  valid (pos move) = true -> q <> pos move ->
  cell (with_piece S_ROWS S_COLS b move) q = cell b q.
Proof.
  intros Hv Hq. destruct (valid q) eqn:Hvq.
  2:{ rewrite !board_at_invalid by assumption. reflexivity. }
  rewrite !board_at_bits by assumption.
  assert (Hi : (idx q =? idx (pos move)) = false).
  { apply Z.eqb_neq. intros H. apply Hq. apply (index_inj S_ROWS S_COLS); assumption. }
  pose proof (index_range _ _ _ Hv) as Hr.
  unfold with_piece. destruct (tile move); cbn [m_positivePieces m_negativePieces];
    rewrite ?lor_pow2_bit by lia; rewrite ?Hi, ?orb_false_r; reflexivity.
Qed.

Lemma with_piece_cell_same (b : Board) (move : Move) :
  tile move <> Empty -> cell b (pos move) = Some Empty ->
  cell (with_piece S_ROWS S_COLS b move) (pos move) = Some (tile move).
Proof.
  intros Ht He. pose proof (board_at_Some_valid _ _ _ _ _ He) as Hv.
  apply board_at_Empty_bits in He as [Hp Hn].
  pose proof (index_range _ _ _ Hv) as Hr.
  rewrite board_at_bits by assumption.
  unfold with_piece. destruct (tile move); [| contradiction |];
    cbn [m_positivePieces m_negativePieces];
    rewrite ?lor_pow2_bit by lia; rewrite ?Hp, ?Hn, Z.eqb_refl; reflexivity.
Qed.

Lemma with_piece_cell_occupied (b : Board) (move : Move) :
  valid (pos move) = true -> tile move <> Empty ->
  occupied S_ROWS S_COLS (with_piece S_ROWS S_COLS b move) (pos move) = true.
Proof.
  intros Hv Ht. rewrite with_piece_occupied by assumption.
  replace (Vec2i_eqb (pos move) (pos move)) with true; [apply orb_true_r|].
  symmetry. apply Vec2i_eqb_eq. reflexivity.
Qed.

(** X5. After a successful [operator<<], [operator[]] reads the same tile as
    before at every other position, reads a tile other than [Empty] at the
    position of the move, and reads the tile of the move there if the cell
    was [Empty] before. *)
Theorem place_then_read (b b' : Board) (move : Move) :
  place S_ROWS S_COLS b move = (true, b') ->
  (forall q, q <> pos move -> cell b' q = cell b q) /\
  occupied S_ROWS S_COLS b' (pos move) = true /\
  (cell b (pos move) = Some Empty -> cell b' (pos move) = Some (tile move)).
Proof.
  intros H. apply place_true in H as [(Hv & _ & Ht) ->].
  assert (Ht' : tile move <> Empty) by (destruct Ht as [-> | ->]; discriminate).
  split; [|split].
  - intros q Hq. apply with_piece_cell_other; assumption.
  - apply with_piece_cell_occupied; assumption.
  - apply with_piece_cell_same; assumption.
Qed.

(** X6. After a successful [operator>>], [operator[]] reads the same tile as
    before at every other position; at the position of the move it reads
    [Empty] if the cell showed the tile of the move and held no bit of the
    other colour. *)
Theorem remove_then_read (b b' : Board) (move : Move) :
  remove S_ROWS S_COLS b move = (true, b') ->
  (forall q, q <> pos move -> cell b' q = cell b q) /\
  (cell b (pos move) = Some (tile move) ->
   Z.testbit (pieces b (getEnemyTile (tile move))) (idx (pos move)) = false ->
   cell b' (pos move) = Some Empty).
Proof.
  intros H.
  destruct (valid (pos move)) eqn:Hv.
  2:{ unfold remove in H. rewrite Hv in H. discriminate. }
  rewrite remove_valid in H by assumption. cbn zeta in H.
  pose proof (index_range _ _ _ Hv) as Hr.
  split.
  - intros q Hq. destruct (valid q) eqn:Hvq.
    2:{ rewrite !board_at_invalid by assumption. reflexivity. }
    pose proof (index_range _ _ _ Hvq) as Hrq.
    assert (Hi : (idx q =? idx (pos move)) = false).
    { apply Z.eqb_neq. intros E. apply Hq. apply (index_inj S_ROWS S_COLS); assumption. }
    assert (Hlt : (idx q <? Z.of_nat (n_bits S_ROWS S_COLS)) = true) by (apply Z.ltb_lt; lia).
    rewrite !board_at_bits by assumption.
    destruct (tile move); try discriminate;
      injection H as <-; cbn [m_positivePieces m_negativePieces];
      rewrite ?Z.land_spec, ?flip_pow2_bit by lia; rewrite ?Hi, ?Hlt; cbn [negb andb];
      rewrite ?andb_true_r; reflexivity.
  - intros Hc He. rewrite board_at_bits in Hc |- * by assumption.
    destruct (tile move); cbn [getEnemyTile pieces] in He; try discriminate;
      injection H as <-; cbn [m_positivePieces m_negativePieces];
      rewrite ?Z.land_spec, ?flip_pow2_bit by lia; rewrite ?He, ?Z.eqb_refl;
      cbn [negb andb]; rewrite ?andb_false_r; reflexivity.
Qed.

End ReadAfterWrite.

Lemma place_then_read_witness :
  place 6 7 board_one_positive move_negative_0_4
    = (true, snd (place 6 7 board_one_positive move_negative_0_4)) /\
  (forall q, q <> pos move_negative_0_4 ->
     board_at 6 7 (snd (place 6 7 board_one_positive move_negative_0_4)) q
     = board_at 6 7 board_one_positive q) /\
  occupied 6 7 (snd (place 6 7 board_one_positive move_negative_0_4))
           (pos move_negative_0_4) = true /\
  (board_at 6 7 board_one_positive (pos move_negative_0_4) = Some Empty ->
   board_at 6 7 (snd (place 6 7 board_one_positive move_negative_0_4))
            (pos move_negative_0_4) = Some (tile move_negative_0_4)).
Proof.
  split; [reflexivity|].
  apply (place_then_read 6 7 board_one_positive _ move_negative_0_4). reflexivity.
Defined.

Lemma remove_then_read_witness :
  remove 6 7 board_one_positive move_positive_0_5 = (true, Board_empty 6 7) /\
  (forall q, q <> pos move_positive_0_5 ->
     board_at 6 7 (Board_empty 6 7) q = board_at 6 7 board_one_positive q) /\
  (board_at 6 7 board_one_positive (pos move_positive_0_5) = Some (tile move_positive_0_5) ->
   Z.testbit (pieces board_one_positive (getEnemyTile (tile move_positive_0_5)))
             (index 6 7 (pos move_positive_0_5)) = false ->
   board_at 6 7 (Board_empty 6 7) (pos move_positive_0_5) = Some Empty).
Proof.
  split; [reflexivity|].
  apply (remove_then_read 6 7 board_one_positive _ move_positive_0_5). reflexivity.
Defined.

(** ** What evaluate reports *)

Lemma win_of_reports (t : Tile) : t <> Empty -> reports_win (win_of t) = true.
Proof. destruct t; [reflexivity | contradiction | reflexivity]. Qed.

Section Outcome.

Variables S_ROWS S_COLS : nat.

Local Abbreviation valid := (isValidPosition S_ROWS S_COLS).
Local Abbreviation cell := (board_at S_ROWS S_COLS).
Local Abbreviation step p d k := (Vec2i_add p (Vec2i_scale d k)).

Lemma evaluate_no_win (b : Board) :
  reports_win (evaluate S_ROWS S_COLS b) = false ->
  forall t, ~ four_in_a_row S_ROWS S_COLS b t.
Proof.
  intros H t Hrow.
  destruct (four_in_a_row_scan_cells S_ROWS S_COLS b t 0 Hrow) as [e He].
  unfold evaluate in H. rewrite He in H.
  apply scan_cells_inl in He as (t' & -> & Ht' & _).
  rewrite win_of_reports in H by assumption. discriminate.
Qed.

(** X7. [evaluate] names a winner exactly when some row, column or diagonal
    holds four adjacent tiles of one colour, and then a colour that has such
    a run, with the saturated score of that colour; otherwise it reports a
    draw with score 0 when no cell of the top row is [Empty], and no
    terminal result when one is. *)
Theorem evaluate_outcome (b : Board) :
  match fst (evaluate S_ROWS S_COLS b) with
  | Some v =>
      (v = 1 /\ snd (evaluate S_ROWS S_COLS b) = LONG_MAX /\
       four_in_a_row S_ROWS S_COLS b Positive) \/
      (v = -1 /\ snd (evaluate S_ROWS S_COLS b) = LONG_MIN /\
       four_in_a_row S_ROWS S_COLS b Negative) \/
      (v = 0 /\ snd (evaluate S_ROWS S_COLS b) = 0 /\
       isDraw S_ROWS S_COLS b = true /\
       forall t, ~ four_in_a_row S_ROWS S_COLS b t)
  | None =>
      isDraw S_ROWS S_COLS b = false /\
      forall t, ~ four_in_a_row S_ROWS S_COLS b t
  end.
Proof.
  pose proof (evaluate_no_win b) as Hno.
  unfold evaluate in *.
  destruct (scan_cells S_ROWS S_COLS b (cells S_ROWS S_COLS) 0) as [e|score] eqn:E.
  - apply scan_cells_inl in E as (t & -> & Hrow).
    destruct t; cbn [win_of fst snd Tile_value].
    + right. left. auto.
    + destruct Hrow as [Ht _]. contradiction.
    + left. auto.
  - destruct (isDraw S_ROWS S_COLS b); cbn [fst snd].
    + right. right. repeat split; auto.
    + split; auto.
Qed.

(** X8. When [evaluate] names no winner, the score it returns lies within
    4000 times the number of cells: every tile adds at most 1000 for each of
    the four directions. *)
Theorem evaluate_score_bound (b : Board) :
  reports_win (evaluate S_ROWS S_COLS b) = false ->
  Z.abs (snd (evaluate S_ROWS S_COLS b)) <= 4000 * Z.of_nat (S_ROWS * S_COLS).
Proof.
  unfold evaluate.
  destruct (scan_cells S_ROWS S_COLS b (cells S_ROWS S_COLS) 0) as [e|score] eqn:E.
  - apply scan_cells_inl in E as (t & -> & Ht & _).
    rewrite win_of_reports by assumption. discriminate.
  - intros _. apply scan_cells_inr in E. rewrite cells_length in E.
    destruct (isDraw S_ROWS S_COLS b); cbn [snd]; lia.
Qed.

(** The cells of a line of four either include [p] or are all different
    from it. *)
Lemma line_through (p q d : Vec2i) :
  (exists k, 0 <= k < connectN /\ p = step q d k) \/
  (forall k, 0 <= k < connectN -> step q d k <> p).
Proof.
  change connectN with 4.
  destruct (Vec2i_eqb (step q d 0) p) eqn:E0;
    [left; exists 0; split; [lia | symmetry; apply Vec2i_eqb_eq, E0]|].
  destruct (Vec2i_eqb (step q d 1) p) eqn:E1;
    [left; exists 1; split; [lia | symmetry; apply Vec2i_eqb_eq, E1]|].
  destruct (Vec2i_eqb (step q d 2) p) eqn:E2;
    [left; exists 2; split; [lia | symmetry; apply Vec2i_eqb_eq, E2]|].
  destruct (Vec2i_eqb (step q d 3) p) eqn:E3;
    [left; exists 3; split; [lia | symmetry; apply Vec2i_eqb_eq, E3]|].
  right. intros k Hk H. apply Vec2i_eqb_eq in H.
  assert (k = 0 \/ k = 1 \/ k = 2 \/ k = 3) as [-> | [-> | [-> | ->]]] by lia; congruence.
Qed.

(** A run of four on the board after a move, when the board before had
    none, passes through the cell of the move and has its colour. *)
Lemma new_line_through_move (b : Board) (move : Move) (t : Tile) (q d : Vec2i) :
  valid (pos move) = true -> tile move <> Empty ->
  cell b (pos move) = Some Empty ->
  (forall t', ~ four_in_a_row S_ROWS S_COLS b t') ->
  t <> Empty -> In d directions ->
  line_of S_ROWS S_COLS (with_piece S_ROWS S_COLS b move) t q d ->
  t = tile move /\ exists k, 0 <= k < connectN /\ pos move = step q d k.
Proof.
  intros Hv Hm He Hno Ht Hd Hline.
  destruct (line_through (pos move) q d) as [(k & Hk & Hp) | Hoff].
  - split; [|exists k; auto].
    specialize (Hline k Hk). rewrite <- Hp, with_piece_cell_same in Hline by assumption.
    congruence.
  - exfalso. apply (Hno t). split; [exact Ht|]. exists q, d. split; [exact Hd|].
    intros k Hk. rewrite <- (with_piece_cell_other S_ROWS S_COLS b move); auto.
Qed.

Lemma evaluate_at_after_place (b : Board) (move : Move) :
  reports_win (evaluate S_ROWS S_COLS b) = false ->
  cell b (pos move) = Some Empty ->
  valid (pos move) = true -> tile move <> Empty ->
  fst (evaluate_at S_ROWS S_COLS (with_piece S_ROWS S_COLS b move) (pos move)) =
  fst (evaluate S_ROWS S_COLS (with_piece S_ROWS S_COLS b move)).
Proof.
  intros Hb He Hv Hm.
  pose proof (evaluate_no_win b Hb) as Hno.
  set (b' := with_piece S_ROWS S_COLS b move).
  assert (Hcell : cell b' (pos move) = Some (tile move))
    by (apply with_piece_cell_same; assumption).
  assert (Hat : evaluate_at S_ROWS S_COLS b' (pos move) =
                match scan_directions S_ROWS S_COLS b' (pos move) (tile move) directions 0 with
                | inl r => r
                | inr score => if isDraw S_ROWS S_COLS b' then (Some 0, 0) else (None, score)
                end).
  { unfold evaluate_at. rewrite Hcell. destruct (tile move); [reflexivity | contradiction | reflexivity]. }
  rewrite Hat. unfold evaluate.
  destruct (scan_cells S_ROWS S_COLS b' (cells S_ROWS S_COLS) 0) as [e|score] eqn:E.
  - apply scan_cells_inl in E as (t & -> & Hnz & q & d & Hd & Hline).
    destruct (new_line_through_move b move t q d) as (-> & k & Hk & Hp); try assumption.
    rewrite (scan_directions_line S_ROWS S_COLS b' _ _ _ 0 q d k); auto.
  - destruct (scan_directions S_ROWS S_COLS b' (pos move) (tile move) directions 0)
      as [r|score'] eqn:E'.
    + exfalso. apply scan_directions_inl in E' as (_ & q & d & Hd & Hline); [|exact Hcell].
      destruct (four_in_a_row_scan_cells S_ROWS S_COLS b' (tile move) 0) as [e He'].
      * split; [exact Hm|]. exists q, d. split; assumption.
      * congruence.
    + destruct (isDraw S_ROWS S_COLS b'); reflexivity.
Qed.

Lemma evaluate_signal (b : Board) : signal (fst (evaluate S_ROWS S_COLS b)).
Proof.
  unfold evaluate, signal.
  destruct (scan_cells S_ROWS S_COLS b (cells S_ROWS S_COLS) 0) as [e|score] eqn:E.
  - apply scan_cells_inl in E as (t & -> & Ht & _).
    destruct t; cbn; [auto | contradiction | auto].
  - destruct (isDraw S_ROWS S_COLS b); cbn; auto.
Qed.

Lemma evaluate_at_signal (b : Board) (p : Vec2i) :
  signal (fst (evaluate_at S_ROWS S_COLS b p)).
Proof.
  unfold evaluate_at, signal.
  destruct (cell b p) as [t|] eqn:Hp; [|cbn; auto].
  assert (Hscan : t <> Empty ->
            signal (fst match scan_directions S_ROWS S_COLS b p t directions 0 with
                        | inl r => r
                        | inr score =>
                            if isDraw S_ROWS S_COLS b then (Some 0, 0) else (None, score)
                        end)).
  { intros Ht. unfold signal.
    destruct (scan_directions S_ROWS S_COLS b p t directions 0) as [r|score] eqn:E.
    - apply scan_directions_inl in E as (-> & _); [|exact Hp].
      destruct t; cbn; [auto | contradiction | auto].
    - destruct (isDraw S_ROWS S_COLS b); cbn; auto. }
  destruct t; [apply Hscan; discriminate | cbn; auto | apply Hscan; discriminate].
Qed.

(** X9. After a successful [operator<<] on an empty cell of a board on which
    [evaluate] names no winner, the evaluation around the last position
    reports the same terminal result as the evaluation of the whole board. *)
Theorem evaluate_at_last_move (b b' : Board) (move : Move) :
  reports_win (evaluate S_ROWS S_COLS b) = false ->
  cell b (pos move) = Some Empty ->
  place S_ROWS S_COLS b move = (true, b') ->
  fst (evaluate_at S_ROWS S_COLS b' (pos move)) = fst (evaluate S_ROWS S_COLS b').
Proof.
  intros Hb He Hplace. apply place_true in Hplace as [(Hv & _ & Ht) ->].
  apply evaluate_at_after_place; try assumption.
  destruct Ht as [-> | ->]; discriminate.
Qed.

End Outcome.

(** No four in a row on the board with a single tile. *)
Lemma board_one_positive_no_win : reports_win (evaluate 6 7 board_one_positive) = false.
Proof. vm_compute. reflexivity. Qed.

Lemma evaluate_score_bound_witness :
  reports_win (evaluate 6 7 board_one_positive) = false /\
  Z.abs (snd (evaluate 6 7 board_one_positive)) <= 4000 * Z.of_nat (6 * 7).
Proof.
  split; [exact board_one_positive_no_win|].
  apply (evaluate_score_bound 6 7 board_one_positive). exact board_one_positive_no_win.
Defined.

Lemma evaluate_at_last_move_witness :
  reports_win (evaluate 6 7 board_one_positive) = false /\
  board_at 6 7 board_one_positive (pos move_negative_0_4) = Some Empty /\
  place 6 7 board_one_positive move_negative_0_4
    = (true, snd (place 6 7 board_one_positive move_negative_0_4)) /\
  fst (evaluate_at 6 7 (snd (place 6 7 board_one_positive move_negative_0_4))
                   (pos move_negative_0_4))
  = fst (evaluate 6 7 (snd (place 6 7 board_one_positive move_negative_0_4))).
Proof.
  split; [exact board_one_positive_no_win|]. split; [reflexivity|]. split; [reflexivity|].
  apply (evaluate_at_last_move 6 7 board_one_positive _ move_negative_0_4);
    [exact board_one_positive_no_win | reflexivity | reflexivity].
Defined.

(** ** The generated positions and the placement rule *)

Section GeneratedPositions.

Variables S_ROWS S_COLS : nat.
Variable b : Board.

Local Abbreviation valid := (isValidPosition S_ROWS S_COLS).
Local Abbreviation cell := (board_at S_ROWS S_COLS b).
Local Abbreviation targets := (flat_map (column_target S_ROWS S_COLS b)).

Lemma column_open_valid (xx : Z) :
  column_open S_ROWS S_COLS b xx = true ->
  0 <= xx < Z.of_nat S_COLS /\ (0 < S_ROWS)%nat.
Proof.
  unfold column_open. intros H. apply optTile_is_true in H.
  apply board_at_Some_valid, isValidPosition_iff in H. cbn [x y] in H. lia.
Qed.

(** The position meant for an open column: an empty cell of that column
    that is on the bottom row or above a piece. *)
Lemma column_target_playable (xx : Z) (p : Vec2i) :
  In p (column_target S_ROWS S_COLS b xx) ->
  column_open S_ROWS S_COLS b xx = true /\ x p = xx /\
  cell p = Some Empty /\
  (y p + 1 = Z.of_nat S_ROWS \/
   occupied S_ROWS S_COLS b (mkVec2i (x p) (y p + 1)) = true).
Proof.
  unfold column_target. destruct (column_open S_ROWS S_COLS b xx) eqn:Hopen; [|intros []].
  destruct (column_open_valid xx Hopen) as [Hx HR].
  assert (Htop : cell (mkVec2i xx 0) = Some Empty) by (apply optTile_is_true, Hopen).
  intros [<- | []]. split; [reflexivity|].
  destruct (scan_levels S_ROWS S_COLS b xx (int_range 1 (Z.of_nat S_ROWS))) as [q|] eqn:E.
  - apply scan_levels_Some in E as (l & Hl & -> & Hfull & Hempty). cbn [x y].
    split; [reflexivity|]. split.
    + destruct (Z.eq_dec l 1) as [-> | Hl1]; [exact Htop|].
      apply optTile_is_true. apply Hempty. lia.
    + right. replace (l - 1 + 1) with l by lia.
      rewrite is_Empty_occupied in Hfull
        by (apply isValidPosition_iff; cbn [x y]; lia).
      destruct (occupied S_ROWS S_COLS b (mkVec2i xx l)); [reflexivity | discriminate].
  - cbn [x y]. split; [reflexivity|]. split; [|left; lia].
    destruct (Z.eq_dec (Z.of_nat S_ROWS) 1) as [H1 | H1].
    + rewrite H1. exact Htop.
    + apply optTile_is_true. apply (scan_levels_None S_ROWS S_COLS b xx 1 (Z.of_nat S_ROWS) E). lia.
Qed.

Lemma column_target_open (xx : Z) :
  column_open S_ROWS S_COLS b xx = true ->
  exists p, column_target S_ROWS S_COLS b xx = [p].
Proof. intros H. unfold column_target. rewrite H. eexists. reflexivity. Qed.

Lemma targets_In (xs : list Z) (p : Vec2i) :
  In p (targets xs) <-> In (x p) xs /\ In p (column_target S_ROWS S_COLS b (x p)).
Proof.
  rewrite in_flat_map. split.
  - intros (xx & Hxx & Hp). pose proof (column_target_x _ _ _ _ _ Hp) as Hx.
    subst xx. split; assumption.
  - intros [Hx Hp]. exists (x p). split; assumption.
Qed.

Lemma targets_nil (xs : list Z) :
  targets xs = [] <-> forallb (fun xx => negb (column_open S_ROWS S_COLS b xx)) xs = true.
Proof.
  induction xs as [|xx xs IH]; cbn [flat_map forallb]; [split; reflexivity|].
  destruct (column_open S_ROWS S_COLS b xx) eqn:Hopen; cbn [negb andb].
  - destruct (column_target_open xx Hopen) as [p ->]. split; discriminate.
  - unfold column_target at 1. rewrite Hopen. exact IH.
Qed.

(** X10. On a run of [generateValidPositions] that completes, every
    position returned is an empty cell of the board on which [operator<<]
    succeeds for either colour; a column has a position in the result
    exactly when its top cell is empty; and the result is empty exactly
    when the draw check of [evaluate] succeeds. *)
Theorem generated_positions_playable (l : list Vec2i) :
  generateValidPositions S_ROWS S_COLS b = Ok l ->
  (forall p, In p l ->
     cell p = Some Empty /\
     forall t, t <> Empty -> fst (place S_ROWS S_COLS b (mkMove p t)) = true) /\
  (forall xx, column_open S_ROWS S_COLS b xx = true <-> exists p, In p l /\ x p = xx) /\
  (l = [] <-> isDraw S_ROWS S_COLS b = true).
Proof.
  rewrite generateValidPositions_spec.
  destruct (first_open_bare _ _ _ _); [discriminate|]. intros [= <-].
  split; [|split].
  - intros p Hp. apply targets_In in Hp as [_ Hp].
    apply column_target_playable in Hp as (_ & _ & He & Hbelow).
    split; [exact He|]. intros t Ht.
    destruct (place_cases S_ROWS S_COLS b (mkMove p t)) as [[_ ->] | [Hno _]]; [reflexivity|].
    exfalso. apply Hno. split; [|split]; cbn [pos tile].
    + eapply board_at_Some_valid; eassumption.
    + exact Hbelow.
    + destruct t; [right; reflexivity | contradiction | left; reflexivity].
  - intros xx. split.
    + intros Hopen. destruct (column_target_open xx Hopen) as [p Hp].
      assert (Hin : In p (column_target S_ROWS S_COLS b xx)) by (rewrite Hp; left; reflexivity).
      pose proof (column_target_x _ _ _ _ _ Hin) as Hx.
      exists p. split; [|exact Hx]. apply targets_In. rewrite Hx. split; [|exact Hin].
      apply int_range_In. apply column_open_valid in Hopen. lia.
    + intros (p & Hp & <-). apply targets_In in Hp as [_ Hp].
      apply column_target_playable in Hp as (Hopen & _). exact Hopen.
  - rewrite targets_nil. unfold isDraw, column_open. reflexivity.
Qed.

End GeneratedPositions.

Lemma board_one_positive_generated :
  generateValidPositions 6 7 board_one_positive =
  Ok [mkVec2i 0 4; mkVec2i 1 5; mkVec2i 2 5; mkVec2i 3 5; mkVec2i 4 5; mkVec2i 5 5;
      mkVec2i 6 5].
Proof. vm_compute. reflexivity. Qed.

Lemma generated_positions_playable_witness :
  let l := [mkVec2i 0 4; mkVec2i 1 5; mkVec2i 2 5; mkVec2i 3 5; mkVec2i 4 5; mkVec2i 5 5;
            mkVec2i 6 5] in
  generateValidPositions 6 7 board_one_positive = Ok l /\
  (forall p, In p l ->
     board_at 6 7 board_one_positive p = Some Empty /\
     forall t, t <> Empty -> fst (place 6 7 board_one_positive (mkMove p t)) = true) /\
  (forall xx, column_open 6 7 board_one_positive xx = true <-> exists p, In p l /\ x p = xx) /\
  (l = [] <-> isDraw 6 7 board_one_positive = true).
Proof.
  split; [exact board_one_positive_generated|].
  apply (generated_positions_playable 6 7 board_one_positive). exact board_one_positive_generated.
Defined.

(** ** The move of the human player *)

Section HumanMove.

Variables S_ROWS S_COLS : nat.
Variable b : Board.

Lemma drop_loop_scan_levels (column : Z) (levels : list Z) :
  drop_loop S_ROWS S_COLS b column levels =
  option_map y (scan_levels S_ROWS S_COLS b column levels).
Proof.
  induction levels as [|l levels IH]; [reflexivity|]. cbn [drop_loop scan_levels].
  destruct (negb _); [reflexivity | exact IH].
Qed.

Lemma Human_getNextMove_open (self : HumanPlayer) (column : Z) :
  column_open S_ROWS S_COLS b column = true ->
  column_target S_ROWS S_COLS b column = [pos (Human_getNextMove S_ROWS S_COLS self column b)].
Proof.
  intros Hopen. destruct (column_open_valid _ _ _ _ Hopen) as [_ HR].
  unfold Human_getNextMove, column_target. rewrite Hopen. cbn [pos].
  change (rows (m_shape S_ROWS S_COLS)) with (Z.of_nat S_ROWS).
  rewrite (int_range_cons 0) by lia. cbn [drop_loop].
  unfold column_open in Hopen. rewrite Hopen. cbn [negb].
  rewrite drop_loop_scan_levels. change (0 + 1) with 1.
  destruct (scan_levels S_ROWS S_COLS b column (int_range 1 (Z.of_nat S_ROWS))) as [p|] eqn:E;
    cbn [option_map]; [|reflexivity].
  apply scan_levels_x in E. destruct p as [px py]. cbn [x y] in *. subst px. reflexivity.
Qed.

Lemma Human_getNextMove_closed (self : HumanPlayer) (column : Z) :
  column_open S_ROWS S_COLS b column = false ->
  pos (Human_getNextMove S_ROWS S_COLS self column b) = mkVec2i column (-1).
Proof.
  intros Hclosed. unfold Human_getNextMove. cbn [pos].
  change (rows (m_shape S_ROWS S_COLS)) with (Z.of_nat S_ROWS).
  destruct S_ROWS as [|n] eqn:ER.
  - reflexivity.
  - rewrite (int_range_cons 0) by lia. cbn [drop_loop].
    unfold column_open in Hclosed. rewrite Hclosed. reflexivity.
Qed.

(** X11. [HumanPlayer::getNextMove] answers with the player's tile in the
    chosen column. If the top cell of that column is empty, the position is
    the one [generateValidPositions] means for the column; otherwise, also
    for a column outside the board, the row is -1. [operator<<] accepts the
    move exactly when the top cell of the column is empty and the player's
    tile is not [Empty]. *)
Theorem Human_getNextMove_legal (self : HumanPlayer) (column : Z) :
  tile (Human_getNextMove S_ROWS S_COLS self column b) = hm_tile self /\
  x (pos (Human_getNextMove S_ROWS S_COLS self column b)) = column /\
  (column_open S_ROWS S_COLS b column = true ->
   column_target S_ROWS S_COLS b column =
     [pos (Human_getNextMove S_ROWS S_COLS self column b)]) /\
  (column_open S_ROWS S_COLS b column = false ->
   y (pos (Human_getNextMove S_ROWS S_COLS self column b)) = -1) /\
  (fst (place S_ROWS S_COLS b (Human_getNextMove S_ROWS S_COLS self column b)) = true <->
   column_open S_ROWS S_COLS b column = true /\ hm_tile self <> Empty).
Proof.
  split; [reflexivity|]. split; [reflexivity|].
  split; [apply Human_getNextMove_open|].
  split; [intros H; rewrite Human_getNextMove_closed by exact H; reflexivity|].
  set (move := Human_getNextMove S_ROWS S_COLS self column b).
  destruct (place_cases S_ROWS S_COLS b move) as [[Hok ->] | [Hno ->]]; cbn [fst].
  - split; [intros _|reflexivity].
    destruct Hok as (Hv & _ & Ht). split.
    + destruct (column_open S_ROWS S_COLS b column) eqn:Hopen; [reflexivity|].
      unfold move in Hv. rewrite Human_getNextMove_closed in Hv by exact Hopen.
      apply isValidPosition_iff in Hv. cbn [x y] in Hv. lia.
    + change (tile move) with (hm_tile self) in Ht. destruct Ht as [-> | ->]; discriminate.
  - split; [discriminate|]. intros [Hopen Ht]. exfalso. apply Hno.
    pose proof (Human_getNextMove_open self column Hopen) as Htarget. fold move in Htarget.
    assert (Hin : In (pos move) (column_target S_ROWS S_COLS b column))
      by (rewrite Htarget; left; reflexivity).
    apply column_target_playable in Hin as (_ & _ & He & Hbelow).
    split; [|split].
    + eapply board_at_Some_valid; eassumption.
    + exact Hbelow.
    + change (tile move) with (hm_tile self).
      destruct (hm_tile self); [right; reflexivity | contradiction | left; reflexivity].
Qed.

End HumanMove.

(** ** The alpha-beta search *)

Section PlaceRemove.

Variables S_ROWS S_COLS : nat.

Local Abbreviation valid := (isValidPosition S_ROWS S_COLS).
Local Abbreviation idx := (index S_ROWS S_COLS).
Local Abbreviation cell := (board_at S_ROWS S_COLS).

Lemma clear_unset (z i : Z) :
  Bitset.wf (n_bits S_ROWS S_COLS) z -> 0 <= i -> Z.testbit z i = false ->
  Z.land z (Bitset.flip (n_bits S_ROWS S_COLS) (2 ^ i)) = z.
Proof.
  intros Hwf Hi Hbit. apply Z.bits_inj'. intros j Hj.
  rewrite Z.land_spec, flip_pow2_bit by lia.
  destruct (Z.eqb_spec j i) as [-> | Hne].
  - rewrite Hbit. reflexivity.
  - destruct (Z.ltb_spec j (Z.of_nat (n_bits S_ROWS S_COLS))) as [Hlt | Hge].
    + cbn. apply andb_true_r.
    + rewrite (wf_bit_high _ _ _ Hwf Hge). reflexivity.
Qed.

Lemma with_piece_wf (b : Board) (move : Move) :
  Board_wf S_ROWS S_COLS b -> valid (pos move) = true ->
  Board_wf S_ROWS S_COLS (with_piece S_ROWS S_COLS b move).
Proof.
  intros [Hp Hn] Hv. pose proof (index_range _ _ _ Hv) as Hr.
  assert (Hlor : forall z, Bitset.wf (n_bits S_ROWS S_COLS) z ->
                   Bitset.wf (n_bits S_ROWS S_COLS) (Z.lor z (2 ^ idx (pos move)))).
  { intros z [Hz0 Hz1]. unfold Bitset.wf.
    assert (H0 : 0 <= Z.lor z (2 ^ idx (pos move)))
      by (apply Z.lor_nonneg; split; [lia | apply Z.pow_nonneg; lia]).
    split; [exact H0|].
    destruct (Z.eq_dec (Z.lor z (2 ^ idx (pos move))) 0) as [E | E];
      [rewrite E; apply Z.pow_pos_nonneg; lia|].
    apply Z.log2_lt_pow2; [lia|].
    rewrite Z.log2_lor by (try lia; apply Z.pow_nonneg; lia).
    rewrite Z.log2_pow2 by lia.
    apply Z.max_lub_lt; [|lia].
    destruct (Z.eq_dec z 0) as [-> | Hz]; [cbn; lia|].
    apply Z.log2_lt_pow2; lia. }
  unfold with_piece, Board_wf. destruct (tile move); cbn [m_positivePieces m_negativePieces];
    split; auto.
Qed.

(** Placing on an empty cell and removing the same move again gives the
    board back, also when the placement is refused. *)
Lemma place_remove_empty_cell (b : Board) (move : Move) :
  Board_wf S_ROWS S_COLS b -> cell b (pos move) = Some Empty ->
  snd (remove S_ROWS S_COLS (snd (place S_ROWS S_COLS b move)) move) = b.
Proof.
  intros Hwf He. pose proof (board_at_Some_valid _ _ _ _ _ He) as Hv.
  pose proof (index_range _ _ _ Hv) as Hr.
  destruct (board_at_Empty_bits _ _ _ _ He) as [Hp Hn].
  destruct Hwf as [Hwp Hwn].
  rewrite remove_valid by assumption. cbn zeta.
  destruct (place_cases S_ROWS S_COLS b move) as [[_ ->] | [_ ->]]; cbn [snd];
    unfold with_piece; destruct b as [bp bn]; cbn [m_positivePieces m_negativePieces] in *;
    destruct (tile move); cbn [snd m_positivePieces m_negativePieces];
    rewrite ?clear_after_set, ?clear_unset by (assumption || lia); reflexivity.
Qed.

Lemma place_wf (b : Board) (move : Move) :
  Board_wf S_ROWS S_COLS b -> Board_wf S_ROWS S_COLS (snd (place S_ROWS S_COLS b move)).
Proof.
  intros Hwf.
  destruct (place_cases S_ROWS S_COLS b move) as [[(Hv & _) ->] | [_ ->]]; cbn [snd];
    [apply with_piece_wf; assumption | exact Hwf].
Qed.

Lemma evaluate_None_open (b : Board) :
  fst (evaluate S_ROWS S_COLS b) = None -> isDraw S_ROWS S_COLS b = false.
Proof.
  unfold evaluate.
  destruct (scan_cells S_ROWS S_COLS b (cells S_ROWS S_COLS) 0) as [e|score] eqn:E.
  - apply scan_cells_inl in E as (t & -> & _). discriminate.
  - destruct (isDraw S_ROWS S_COLS b); [discriminate | reflexivity].
Qed.

(** What a run of the generator that completes returns on a board that is
    not drawn: at least one position, each an empty cell on the bottom row
    or above a piece. *)
Lemma generated_positions (b : Board) :
  returns_or_reads_empty (generateValidPositions S_ROWS S_COLS b) /\
  forall l, generateValidPositions S_ROWS S_COLS b = Ok l ->
    (isDraw S_ROWS S_COLS b = false -> l <> []) /\
    forall p, In p l ->
      cell b p = Some Empty /\
      (y p + 1 = Z.of_nat S_ROWS \/ occupied S_ROWS S_COLS b (mkVec2i (x p) (y p + 1)) = true).
Proof.
  rewrite generateValidPositions_spec.
  destruct (first_open_bare _ _ _ _); [split; [right; reflexivity | discriminate]|].
  split; [left; eexists; reflexivity|]. intros l [= <-]. split.
  - intros Hd Hnil. apply targets_nil in Hnil. unfold isDraw in Hd.
    unfold column_open in Hnil.
    change (cols (m_shape S_ROWS S_COLS)) with (Z.of_nat S_COLS) in Hd. congruence.
  - intros p Hp. apply targets_In in Hp as [_ Hp].
    apply column_target_playable in Hp as (_ & _ & He & Hbelow). auto.
Qed.

Lemma playable_place (b : Board) (p : Vec2i) (t : Tile) :
  cell b p = Some Empty ->
  (y p + 1 = Z.of_nat S_ROWS \/ occupied S_ROWS S_COLS b (mkVec2i (x p) (y p + 1)) = true) ->
  t <> Empty ->
  place S_ROWS S_COLS b (mkMove p t) = (true, with_piece S_ROWS S_COLS b (mkMove p t)).
Proof.
  intros He Hbelow Ht.
  destruct (place_cases S_ROWS S_COLS b (mkMove p t)) as [[_ ->] | [Hno _]]; [reflexivity|].
  exfalso. apply Hno. split; [|split]; cbn [pos tile].
  - eapply board_at_Some_valid; eassumption.
  - exact Hbelow.
  - destruct t; [right; reflexivity | contradiction | left; reflexivity].
Qed.

End PlaceRemove.

Section AlphaBeta.

Variables S_ROWS S_COLS : nat.
Variable self : MinimaxPlayer.

Local Abbreviation cell := (board_at S_ROWS S_COLS).

(** The two loops, for a recursive call that leaves the board as it found
    it: the board is the same after the loop, and the move returned is the
    initial one or pairs one of the positions with the tile. *)
Section Loops.

Variable recur : Board -> Z -> Z -> result SearchResult.
Variable currentTile : Tile.
Variable b : Board.
Hypothesis Hwf : Board_wf S_ROWS S_COLS b.
Hypothesis Hrecur : forall b1 alpha beta v m b2,
  Board_wf S_ROWS S_COLS b1 -> recur b1 alpha beta = Ok (v, m, b2) -> b2 = b1.

Lemma maximise_loop_result (positions : list Vec2i) (alpha beta best : Z)
  (resultMove : Move) (v : Z) (m : Move) (b' : Board) :
  (forall p, In p positions -> cell b p = Some Empty) ->
  maximise_loop S_ROWS S_COLS recur currentTile positions b alpha beta best resultMove
    = Ok (v, m, b') ->
  b' = b /\ (m = resultMove \/ exists p, In p positions /\ m = mkMove p currentTile).
Proof.
  revert alpha best resultMove.
  induction positions as [|p positions IH]; intros alpha best resultMove Hcells;
    cbn [maximise_loop].
  - intros [= <- <- <-]. auto.
  - destruct (recur _ alpha beta) as [[[v1 m1] b2]|f] eqn:E; cbn [bind]; [|discriminate].
    apply Hrecur in E; [|apply place_wf; exact Hwf]. subst b2.
    rewrite (place_remove_empty_cell S_ROWS S_COLS b (mkMove p currentTile))
      by (try exact Hwf; apply Hcells; left; reflexivity).
    destruct (beta <=? Z.max alpha v1).
    + intros [= <- <- <-]. split; [reflexivity|].
      destruct (v1 >? best); [right; exists p; split; [left|]; reflexivity | left; reflexivity].
    + intros H. apply IH in H as [-> Hm]; [|intros q Hq; apply Hcells; right; exact Hq].
      split; [reflexivity|].
      destruct Hm as [-> | (q & Hq & ->)].
      * destruct (v1 >? best); [right; exists p; split; [left|]; reflexivity | left; reflexivity].
      * right. exists q. split; [right; exact Hq | reflexivity].
Qed.

Lemma minimise_loop_result (positions : list Vec2i) (alpha beta best : Z)
  (resultMove : Move) (v : Z) (m : Move) (b' : Board) :
  (forall p, In p positions -> cell b p = Some Empty) ->
  minimise_loop S_ROWS S_COLS recur currentTile positions b alpha beta best resultMove
    = Ok (v, m, b') ->
  b' = b /\ (m = resultMove \/ exists p, In p positions /\ m = mkMove p currentTile).
Proof.
  revert beta best resultMove.
  induction positions as [|p positions IH]; intros beta best resultMove Hcells;
    cbn [minimise_loop].
  - intros [= <- <- <-]. auto.
  - destruct (recur _ alpha beta) as [[[v1 m1] b2]|f] eqn:E; cbn [bind]; [|discriminate].
    apply Hrecur in E; [|apply place_wf; exact Hwf]. subst b2.
    rewrite (place_remove_empty_cell S_ROWS S_COLS b (mkMove p currentTile))
      by (try exact Hwf; apply Hcells; left; reflexivity).
    destruct (Z.min beta v1 <=? alpha).
    + intros [= <- <- <-]. split; [reflexivity|].
      destruct (v1 <? best); [right; exists p; split; [left|]; reflexivity | left; reflexivity].
    + intros H. apply IH in H as [-> Hm]; [|intros q Hq; apply Hcells; right; exact Hq].
      split; [reflexivity|].
      destruct Hm as [-> | (q & Hq & ->)].
      * destruct (v1 <? best); [right; exists p; split; [left|]; reflexivity | left; reflexivity].
      * right. exists q. split; [right; exact Hq | reflexivity].
Qed.

End Loops.

(** The loops fault only where the recursive call does. *)
Lemma maximise_loop_returns (recur : Board -> Z -> Z -> result SearchResult)
  (currentTile : Tile) (positions : list Vec2i) (b : Board) (alpha beta best : Z)
  (resultMove : Move) :
  (forall b1 alpha1 beta1, returns_or_reads_empty (recur b1 alpha1 beta1)) ->
  returns_or_reads_empty
    (maximise_loop S_ROWS S_COLS recur currentTile positions b alpha beta best resultMove).
Proof.
  intros Hrecur. revert b alpha best resultMove.
  induction positions as [|p positions IH]; intros b alpha best resultMove;
    cbn [maximise_loop]; [left; eexists; reflexivity|].
  destruct (Hrecur (snd (place S_ROWS S_COLS b (mkMove p currentTile))) alpha beta)
    as [[[[v1 m1] b2] ->] | ->]; cbn [bind]; [|right; reflexivity].
  destruct (beta <=? Z.max alpha v1); [left; eexists; reflexivity | apply IH].
Qed.

Lemma minimise_loop_returns (recur : Board -> Z -> Z -> result SearchResult)
  (currentTile : Tile) (positions : list Vec2i) (b : Board) (alpha beta best : Z)
  (resultMove : Move) :
  (forall b1 alpha1 beta1, returns_or_reads_empty (recur b1 alpha1 beta1)) ->
  returns_or_reads_empty
    (minimise_loop S_ROWS S_COLS recur currentTile positions b alpha beta best resultMove).
Proof.
  intros Hrecur. revert b beta best resultMove.
  induction positions as [|p positions IH]; intros b beta best resultMove;
    cbn [minimise_loop]; [left; eexists; reflexivity|].
  destruct (Hrecur (snd (place S_ROWS S_COLS b (mkMove p currentTile))) alpha beta)
    as [[[[v1 m1] b2] ->] | ->]; cbn [bind]; [|right; reflexivity].
  destruct (Z.min beta v1 <=? alpha); [left; eexists; reflexivity | apply IH].
Qed.

(** What a call of [alphabeta] that returns has done. *)
Lemma alphabeta_result (fuel : nat) (b : Board) (alpha beta depth : Z) (isEnemy : bool)
  (v : Z) (m : Move) (b' : Board) :
  Board_wf S_ROWS S_COLS b ->
  alphabeta S_ROWS S_COLS self fuel b alpha beta depth isEnemy = Ok (v, m, b') ->
  b' = b /\
  if (depth =? 0) || has_value (fst (evaluate S_ROWS S_COLS b))
  then m = Move_default /\ v = snd (evaluate S_ROWS S_COLS b)
  else tile m = (if negb isEnemy then m_tile self else m_enemyTile self) /\
       cell b (pos m) = Some Empty /\
       (tile m <> Empty -> fst (place S_ROWS S_COLS b m) = true).
Proof.
  revert b alpha beta depth isEnemy v m b'.
  induction fuel as [|fuel IH]; intros b alpha beta depth isEnemy v m b' Hwf;
    cbn [alphabeta]; [discriminate|].
  destruct (evaluate S_ROWS S_COLS b) as [terminal score] eqn:Ev. cbn [fst snd].
  destruct ((depth =? 0) || has_value terminal); [intros [= <- <- <-]; auto|].
  destruct (generated_positions S_ROWS S_COLS b) as [_ Hgen].
  destruct (generateValidPositions S_ROWS S_COLS b) as [l|f]; cbn [bind]; [|discriminate].
  destruct (Hgen l eq_refl) as [_ Hl].
  destruct l as [|p0 l]; cbn [vector_index nth_error bind]; [discriminate|].
  set (currentTile := if negb isEnemy then m_tile self else m_enemyTile self).
  assert (Hcells : forall p, In p (p0 :: l) -> cell b p = Some Empty)
    by (intros p Hp; apply Hl; exact Hp).
  assert (Hrecur : forall b1 alpha1 beta1 v1 m1 b2,
            Board_wf S_ROWS S_COLS b1 ->
            alphabeta S_ROWS S_COLS self fuel b1 alpha1 beta1 (depth - 1) (negb isEnemy)
              = Ok (v1, m1, b2) -> b2 = b1).
  { intros b1 alpha1 beta1 v1 m1 b2 Hwf1 H. apply IH in H as [H _]; assumption. }
  assert (Hfinish : forall m', (m' = mkMove p0 currentTile \/
                                exists p, In p (p0 :: l) /\ m' = mkMove p currentTile) ->
            tile m' = currentTile /\ cell b (pos m') = Some Empty /\
            (tile m' <> Empty -> fst (place S_ROWS S_COLS b m') = true)).
  { intros m' Hm'.
    assert (Hp : exists p, In p (p0 :: l) /\ m' = mkMove p currentTile).
    { destruct Hm' as [-> | Hm']; [exists p0; split; [left|]; reflexivity | exact Hm']. }
    destruct Hp as (p & Hp & ->). cbn [tile pos].
    destruct (Hl p Hp) as [He Hbelow].
    split; [reflexivity|]. split; [exact He|].
    intros Ht. rewrite playable_place by assumption. reflexivity. }
  destruct (if Tile_eqb (m_tile self) Positive
            then if negb isEnemy then true else false
            else if negb isEnemy then false else true).
  - intros H. apply maximise_loop_result in H as [-> Hm]; try assumption.
    split; [reflexivity|]. apply Hfinish. exact Hm.
  - intros H. apply minimise_loop_result in H as [-> Hm]; try assumption.
    split; [reflexivity|]. apply Hfinish. exact Hm.
Qed.

Lemma alphabeta_returns (fuel : nat) (b : Board) (alpha beta depth : Z) (isEnemy : bool) :
  0 <= depth < Z.of_nat fuel ->
  returns_or_reads_empty (alphabeta S_ROWS S_COLS self fuel b alpha beta depth isEnemy).
Proof.
  revert b alpha beta depth isEnemy.
  induction fuel as [|fuel IH]; intros b alpha beta depth isEnemy Hd; [lia|].
  cbn [alphabeta].
  destruct (evaluate S_ROWS S_COLS b) as [terminal score] eqn:Ev.
  destruct (Z.eqb_spec depth 0) as [-> | Hd0]; cbn [orb]; [left; eexists; reflexivity|].
  destruct terminal as [w|]; cbn [has_value]; [left; eexists; reflexivity|].
  destruct (generated_positions S_ROWS S_COLS b) as [Hret Hgen].
  destruct Hret as [[l Hl] | Hf]; [|rewrite Hf; right; reflexivity].
  rewrite Hl. cbn [bind]. destruct (Hgen l Hl) as [Hne _].
  destruct l as [|p0 l].
  { exfalso. apply Hne; [|reflexivity]. apply evaluate_None_open. rewrite Ev. reflexivity. }
  cbn [vector_index nth_error bind].
  assert (Hrecur : forall b1 alpha1 beta1,
            returns_or_reads_empty
              (alphabeta S_ROWS S_COLS self fuel b1 alpha1 beta1 (depth - 1) (negb isEnemy)))
    by (intros; apply IH; lia).
  destruct (if Tile_eqb (m_tile self) Positive
            then if negb isEnemy then true else false
            else if negb isEnemy then false else true).
  - apply maximise_loop_returns. exact Hrecur.
  - apply minimise_loop_returns. exact Hrecur.
Qed.

(** X12. A call of [alphabeta] that returns leaves the board it was given
    exactly as it found it: every placement of the search is taken back. *)
Theorem alphabeta_restores_board (fuel : nat) (b : Board) (alpha beta depth : Z)
  (isEnemy : bool) (v : Z) (m : Move) (b' : Board) :
  Board_wf S_ROWS S_COLS b ->
  alphabeta S_ROWS S_COLS self fuel b alpha beta depth isEnemy = Ok (v, m, b') ->
  b' = b.
Proof. intros Hwf H. apply alphabeta_result in H as [H _]; assumption. Qed.

(** X13. The move that [MinimaxPlayer::getNextMove] returns: at depth 0 or
    on a board that [evaluate] reports as terminal it is [Move{}], which
    [operator<<] refuses; otherwise it carries the player's tile and an
    empty cell of the board, and [operator<<] accepts it when the player's
    tile is not [Empty]. *)
Theorem Minimax_getNextMove_legal (b : Board) (m : Move) :
  Board_wf S_ROWS S_COLS b ->
  Minimax_getNextMove S_ROWS S_COLS self b = Ok m ->
  if (m_depth self =? 0) || has_value (fst (evaluate S_ROWS S_COLS b))
  then m = Move_default /\ fst (place S_ROWS S_COLS b m) = false
  else tile m = m_tile self /\
       cell b (pos m) = Some Empty /\
       (m_tile self <> Empty -> fst (place S_ROWS S_COLS b m) = true).
Proof.
  intros Hwf. unfold Minimax_getNextMove.
  destruct (alphabeta _ _ _ _ _ _ _ _ _) as [[[v m'] b']|f] eqn:E; cbn [bind]; [|discriminate].
  intros [= ->]. apply alphabeta_result in E as [_ H]; [|exact Hwf].
  destruct ((m_depth self =? 0) || has_value (fst (evaluate S_ROWS S_COLS b))).
  - destruct H as [-> _]. split; [reflexivity|].
    destruct (place_cases S_ROWS S_COLS b Move_default) as [[(_ & _ & Ht) _] | [_ ->]];
      [destruct Ht; discriminate | reflexivity].
  - cbn [negb] in H. destruct H as (Ht & He & Hplace).
    split; [exact Ht|]. split; [exact He|]. rewrite <- Ht. exact Hplace.
Qed.

(** X14. For a depth of zero or more, [MinimaxPlayer::getNextMove] returns
    a move, or the move generator has read [back()] of an empty vector;
    in particular [positions[0]] is never read from an empty vector. *)
Theorem Minimax_getNextMove_returns (b : Board) :
  0 <= m_depth self ->
  (exists m, Minimax_getNextMove S_ROWS S_COLS self b = Ok m) \/
  Minimax_getNextMove S_ROWS S_COLS self b = Fault BackOfEmptyVector.
Proof.
  intros Hd. unfold Minimax_getNextMove.
  destruct (alphabeta_returns (alphabeta_fuel S_ROWS S_COLS self) b LONG_MIN LONG_MAX
              (m_depth self) false) as [[[[v m] b'] ->] | ->].
  - unfold alphabeta_fuel. lia.
  - left. exists m. reflexivity.
  - right. reflexivity.
Qed.

End AlphaBeta.

Lemma board_three_positive_wf : Board_wf 6 7 board_three_positive.
Proof. unfold Board_wf, Bitset.wf. cbn. lia. Qed.

Lemma minimax_depth_1_search :
  alphabeta 6 7 (minimax_positive 1) 2 board_three_positive LONG_MIN LONG_MAX 1 false
  = Ok (LONG_MAX, move_positive_3_5, board_three_positive).
Proof. vm_compute. reflexivity. Qed.

Lemma minimax_depth_1_move :
  Minimax_getNextMove 6 7 (minimax_positive 1) board_three_positive = Ok move_positive_3_5.
Proof. vm_compute. reflexivity. Qed.

Lemma alphabeta_restores_board_witness :
  Board_wf 6 7 board_three_positive /\
  alphabeta 6 7 (minimax_positive 1) 2 board_three_positive LONG_MIN LONG_MAX 1 false
    = Ok (LONG_MAX, move_positive_3_5, board_three_positive) /\
  board_three_positive = board_three_positive.
Proof.
  split; [exact board_three_positive_wf|]. split; [exact minimax_depth_1_search|].
  apply (alphabeta_restores_board 6 7 (minimax_positive 1) 2 board_three_positive
           LONG_MIN LONG_MAX 1 false LONG_MAX move_positive_3_5 board_three_positive);
    [exact board_three_positive_wf | exact minimax_depth_1_search].
Defined.

Lemma Minimax_getNextMove_legal_witness :
  Board_wf 6 7 board_three_positive /\
  Minimax_getNextMove 6 7 (minimax_positive 1) board_three_positive = Ok move_positive_3_5 /\
  if (m_depth (minimax_positive 1) =? 0) || has_value (fst (evaluate 6 7 board_three_positive))
  then move_positive_3_5 = Move_default /\
       fst (place 6 7 board_three_positive move_positive_3_5) = false
  else tile move_positive_3_5 = m_tile (minimax_positive 1) /\
       board_at 6 7 board_three_positive (pos move_positive_3_5) = Some Empty /\
       (m_tile (minimax_positive 1) <> Empty ->
        fst (place 6 7 board_three_positive move_positive_3_5) = true).
Proof.
  split; [exact board_three_positive_wf|]. split; [exact minimax_depth_1_move|].
  apply (Minimax_getNextMove_legal 6 7 (minimax_positive 1) board_three_positive
           move_positive_3_5);
    [exact board_three_positive_wf | exact minimax_depth_1_move].
Defined.

Lemma Minimax_getNextMove_returns_witness :
  0 <= m_depth (minimax_positive 1) /\
  ((exists m, Minimax_getNextMove 6 7 (minimax_positive 1) board_three_positive = Ok m) \/
   Minimax_getNextMove 6 7 (minimax_positive 1) board_three_positive = Fault BackOfEmptyVector).
Proof.
  split; [cbn; lia|].
  apply (Minimax_getNextMove_returns 6 7 (minimax_positive 1) board_three_positive).
  cbn. lia.
Defined.

(** ** Printing the board *)

Lemma string_of_count_Ok (count : Z) (c : Ascii.ascii) :
  0 <= count -> exists s, string_of_count count c = Ok s.
Proof.
  intros H. unfold string_of_count.
  destruct (Z.ltb_spec count 0); [lia | eexists; reflexivity].
Qed.

Section PrintingFacts.

Variables S_ROWS S_COLS : nat.

Lemma show_cells_Ok (b : Board) (yy : Z) (xs : list Z) (os : ostream) :
  (forall xx, In xx xs -> isValidPosition S_ROWS S_COLS (mkVec2i xx yy) = true) ->
  exists os', show_cells S_ROWS S_COLS b yy xs os = Ok os'.
Proof.
  revert os. induction xs as [|xx xs IH]; intros os Hxs; cbn [show_cells];
    [eexists; reflexivity|].
  rewrite board_at_bits by (apply Hxs; left; reflexivity).
  apply IH. intros xx' Hxx'. apply Hxs. right. exact Hxx'.
Qed.

Lemma show_rows_Ok (b : Board) (full inner : String.string) (ys : list Z) (os : ostream) :
  (forall yy, In yy ys -> 0 <= yy < Z.of_nat S_ROWS) ->
  exists os', show_rows S_ROWS S_COLS b full inner ys os = Ok os'.
Proof.
  revert os. induction ys as [|yy ys IH]; intros os Hys; cbn [show_rows];
    [eexists; reflexivity|].
  match goal with
  | |- context [show_cells _ _ _ _ ?xs ?os1] =>
      destruct (show_cells_Ok b yy xs os1) as [os' ->]
  end.
  - intros xx Hxx. apply int_range_In in Hxx.
    change (cols (m_shape S_ROWS S_COLS)) with (Z.of_nat S_COLS) in Hxx.
    apply isValidPosition_iff. cbn [x y]. split; [lia|]. apply Hys. left. reflexivity.
  - cbn [bind]. apply IH. intros yy' Hyy'. apply Hys. right. exact Hyy'.
Qed.

(** X15. The board printer returns for every board when the board has at
    least one column, and never reaches its [throw]; with no column it
    throws, for the negative length of the inner line. *)
Theorem Board_show_returns (os : ostream) (b : Board) :
  (exists os', Board_show S_ROWS S_COLS os b = Ok os') <-> (0 < S_COLS)%nat.
Proof.
  unfold Board_show. change (cols (m_shape S_ROWS S_COLS)) with (Z.of_nat S_COLS).
  change (rows (m_shape S_ROWS S_COLS)) with (Z.of_nat S_ROWS).
  destruct (string_of_count_Ok ((Z.of_nat S_COLS + 2) * 3) "-"%char) as [s1 ->]; [lia|].
  cbn [bind]. split.
  - intros [os' H]. unfold string_of_count in H.
    destruct (Z.ltb_spec ((Z.of_nat S_COLS - 1) * 4) 0); [discriminate | lia].
  - intros HC.
    destruct (string_of_count_Ok ((Z.of_nat S_COLS - 1) * 4) "-"%char) as [s2 ->]; [lia|].
    cbn [bind]. apply show_rows_Ok. intros yy Hyy. apply int_range_In in Hyy. lia.
Qed.

Lemma Board_show_Ok (os : ostream) (b : Board) :
  (0 < S_COLS)%nat -> exists os', Board_show S_ROWS S_COLS os b = Ok os'.
Proof.
  intros HC. unfold Board_show. change (cols (m_shape S_ROWS S_COLS)) with (Z.of_nat S_COLS).
  change (rows (m_shape S_ROWS S_COLS)) with (Z.of_nat S_ROWS).
  destruct (string_of_count_Ok ((Z.of_nat S_COLS + 2) * 3) "-"%char) as [s1 ->]; [lia|].
  destruct (string_of_count_Ok ((Z.of_nat S_COLS - 1) * 4) "-"%char) as [s2 ->]; [lia|].
  cbn [bind]. apply show_rows_Ok. intros yy Hyy. apply int_range_In in Hyy. lia.
Qed.

(** ** makeMove and the game loop *)

Variable getNextMove : nat -> Board -> result Move.
Variable getFriendlyName : nat -> String.string.

(** The current player is one of the two players of the game. *)
Local Abbreviation seated g :=
  (currentPlayer g = playerPositive g \/ currentPlayer g = playerNegative g).

Lemma swapPlayers_seated (g : Game) :
  seated g ->
  exists g', swapPlayers g = Ok g' /\ board g' = board g /\
    isGameOver g' = isGameOver g /\
    playerPositive g' = playerPositive g /\ playerNegative g' = playerNegative g /\
    currentPlayer g' = (if Nat.eqb (currentPlayer g) (playerPositive g)
                        then playerNegative g else playerPositive g).
Proof.
  intros Hs. unfold swapPlayers.
  destruct (Nat.eqb_spec (currentPlayer g) (playerPositive g)) as [E | E].
  - eexists. split; [reflexivity|]. cbn. auto 6.
  - destruct Hs as [Hs | Hs]; [contradiction|].
    rewrite Hs, Nat.eqb_refl. eexists. split; [reflexivity|]. cbn. auto 6.
Qed.

(** X16. A legal move of the current player while the game is not over:
    [makeMove] places the tile, hands the turn to the other player and
    returns the terminal result of the evaluation around the move; that
    result is the one [evaluate] gives for the whole new board when the
    board before had no winner and the cell was empty. *)
Theorem makeMove_legal_move (g : Game) (newMove : Move) (b' : Board) :
  getNextMove (currentPlayer g) (board g) = Ok newMove ->
  isGameOver g = false ->
  place S_ROWS S_COLS (board g) newMove = (true, b') ->
  seated g ->
  makeMove S_ROWS S_COLS getNextMove g =
    Ok (fst (evaluate_at S_ROWS S_COLS b' (pos newMove)),
        mkGame b' false (playerPositive g) (playerNegative g)
               (if Nat.eqb (currentPlayer g) (playerPositive g)
                then playerNegative g else playerPositive g)) /\
  (reports_win (evaluate S_ROWS S_COLS (board g)) = false ->
   board_at S_ROWS S_COLS (board g) (pos newMove) = Some Empty ->
   fst (evaluate_at S_ROWS S_COLS b' (pos newMove)) = fst (evaluate S_ROWS S_COLS b')).
Proof.
  intros Hmove Hover Hplace Hs. split.
  - unfold makeMove. rewrite Hmove. cbn [bind]. rewrite Hover, Hplace. cbn [negb].
    unfold swapPlayers.
    cbn [currentPlayer playerPositive playerNegative board isGameOver].
    destruct (Nat.eqb_spec (currentPlayer g) (playerPositive g)) as [E | E];
      [reflexivity|].
    destruct Hs as [Hs | Hs]; [contradiction|].
    rewrite Hs, Nat.eqb_refl. reflexivity.
  - intros Hb He. apply place_true in Hplace as [(Hv & _ & Ht) ->].
    apply evaluate_at_after_place; try assumption.
    destruct Ht as [-> | ->]; discriminate.
Qed.

(** What [makeMove] returns when the agent answers. *)
Lemma makeMove_returns (g : Game) :
  (forall p b, exists m, getNextMove p b = Ok m) -> seated g ->
  exists v g', makeMove S_ROWS S_COLS getNextMove g = Ok (v, g') /\
    signal v /\ seated g' /\
    playerPositive g' = playerPositive g /\ playerNegative g' = playerNegative g.
Proof.
  intros Hagent Hs. unfold makeMove.
  destruct (Hagent (currentPlayer g) (board g)) as [m ->]. cbn [bind].
  destruct (isGameOver g); cbn [negb].
  { eexists _, _. split; [reflexivity|]. split; [apply evaluate_signal | auto]. }
  destruct (place S_ROWS S_COLS (board g) m) as [[|] b'].
  - match goal with
    | |- context [swapPlayers ?g1] =>
        destruct (swapPlayers_seated g1) as (g2 & -> & Hb & Ho & Hp & Hn & Hc)
    end; [exact Hs|].
    cbn [bind]. eexists _, _. split; [reflexivity|].
    cbn [playerPositive playerNegative currentPlayer] in *.
    split; [apply evaluate_at_signal|]. rewrite Hp, Hn, Hc. split; [|auto].
    destruct (Nat.eqb _ _); auto.
  - eexists _, _. split; [reflexivity|]. split; [apply evaluate_signal | auto].
Qed.

Lemma announce_Ok (g : Game) (value : Z) (os : ostream) :
  signal (Some value) -> exists os', announce getFriendlyName g value os = Ok os'.
Proof.
  unfold signal, announce.
  intros [H | [[= ->] | [[= ->] | [= ->]]]]; [discriminate | | |]; cbn; eexists; reflexivity.
Qed.

Lemma gameLoop_turns_returns (turns : nat) (g : Game) (os : ostream) :
  (0 < S_COLS)%nat -> (forall p b, exists m, getNextMove p b = Ok m) -> seated g ->
  exists g' os', gameLoop_turns S_ROWS S_COLS getNextMove getFriendlyName turns g os
                 = Ok (g', os') /\
    playerPositive g' = playerPositive g /\ playerNegative g' = playerNegative g.
Proof.
  intros HC Hagent. revert g os.
  induction turns as [|turns IH]; intros g os Hs; cbn [gameLoop_turns].
  - eexists _, _. split; [reflexivity | auto].
  - destruct (Board_show_Ok os (board g) HC) as [os1 ->]. cbn [bind].
    destruct (makeMove_returns g Hagent Hs) as (v & g1 & -> & Hv & Hs1 & Hp & Hn).
    cbn [bind]. destruct v as [value|].
    + match goal with
      | |- context [announce _ _ _ ?os2] =>
          destruct (announce_Ok g1 value os2 Hv) as [os3 ->]
      end.
      cbn [bind]. eexists _, _. split; [reflexivity|].
      cbn [playerPositive playerNegative]. auto.
    + match goal with
      | |- context [gameLoop_turns _ _ _ _ _ _ ?os2] =>
          destruct (IH g1 os2 Hs1) as (g' & os' & -> & Hp' & Hn')
      end.
      eexists _, _. split; [reflexivity|]. split; congruence.
Qed.

(** X17. When the board has a column, every agent answers with a move and
    the current player is one of the two players, [Game::gameLoop] returns:
    neither [swapPlayers] nor the [switch] on the terminal value nor the
    board printer throws. The two players of the game stay the same. *)
Theorem gameLoop_returns (g : Game) (os : ostream) :
  (0 < S_COLS)%nat -> (forall p b, exists m, getNextMove p b = Ok m) -> seated g ->
  exists g' os', gameLoop S_ROWS S_COLS getNextMove getFriendlyName g os = Ok (g', os') /\
    playerPositive g' = playerPositive g /\ playerNegative g' = playerNegative g.
Proof.
  intros HC Hagent Hs. unfold gameLoop.
  destruct (gameLoop_turns_returns 1000 g os HC Hagent Hs) as (g1 & os1 & -> & Hp & Hn).
  cbn [bind]. destruct (Board_show_Ok os1 (board g1) HC) as [os2 ->]. cbn [bind].
  eexists _, _. split; [reflexivity | auto].
Qed.

End PrintingFacts.

Lemma makeMove_legal_move_witness :
  agent_bottom_left (currentPlayer game_start) (board game_start) = Ok move_positive_0_5 /\
  isGameOver game_start = false /\
  place 6 7 (board game_start) move_positive_0_5 = (true, board_one_positive) /\
  (currentPlayer game_start = playerPositive game_start \/
   currentPlayer game_start = playerNegative game_start) /\
  makeMove 6 7 agent_bottom_left game_start =
    Ok (fst (evaluate_at 6 7 board_one_positive (pos move_positive_0_5)),
        mkGame board_one_positive false (playerPositive game_start)
               (playerNegative game_start)
               (if Nat.eqb (currentPlayer game_start) (playerPositive game_start)
                then playerNegative game_start else playerPositive game_start)) /\
  (reports_win (evaluate 6 7 (board game_start)) = false ->
   board_at 6 7 (board game_start) (pos move_positive_0_5) = Some Empty ->
   fst (evaluate_at 6 7 board_one_positive (pos move_positive_0_5))
   = fst (evaluate 6 7 board_one_positive)).
Proof.
  split; [reflexivity|]. split; [reflexivity|]. split; [reflexivity|].
  split; [left; reflexivity|].
  apply (makeMove_legal_move 6 7 agent_bottom_left game_start move_positive_0_5
           board_one_positive); [reflexivity | reflexivity | reflexivity | left; reflexivity].
Defined.

Lemma gameLoop_returns_witness :
  (0 < 7)%nat /\
  (forall p b, exists m, agent_off_grid p b = Ok m) /\
  (currentPlayer game_start = playerPositive game_start \/
   currentPlayer game_start = playerNegative game_start) /\
  exists g' os',
    gameLoop 6 7 agent_off_grid names_example game_start String.EmptyString = Ok (g', os') /\
    playerPositive g' = playerPositive game_start /\
    playerNegative g' = playerNegative game_start.
Proof.
  split; [lia|].
  split; [intros p b; eexists; reflexivity|].
  split; [left; reflexivity|].
  apply (gameLoop_returns 6 7 agent_off_grid names_example game_start String.EmptyString);
    [lia | intros p b; eexists; reflexivity | left; reflexivity].
Defined.

(** ** The search tree is a game tree *)

Lemma same_frame_refl (n : MonteCarloNode) : same_frame n n.
Proof. unfold same_frame. auto. Qed.

Lemma same_frame_trans (n1 n2 n3 : MonteCarloNode) :
  same_frame n1 n2 -> same_frame n2 n3 -> same_frame n1 n3.
Proof.
  unfold same_frame. intros (H1 & H2 & H3 & H4) (H5 & H6 & H7 & H8).
  repeat split; congruence.
Qed.

Lemma Move_eqb_eq (a b : Move) : Move_eqb a b = true <-> a = b.
Proof.
  destruct a as [pa ta], b as [pb tb]. unfold Move_eqb. cbn [pos tile].
  rewrite andb_true_iff, Vec2i_eqb_eq. split.
  - intros [-> Ht]. destruct ta, tb; cbn in Ht; congruence.
  - intros [= -> ->]. split; [reflexivity | destruct tb; reflexivity].
Qed.

Lemma umap_find_None (m : list (Move * nat)) (k : Move) :
  umap_find m k = None -> ~ In k (map fst m).
Proof.
  induction m as [|[k' v'] m IH]; cbn; [intros _ []|].
  destruct (Move_eqb k' k) eqn:E; [discriminate|].
  intros H [-> | Hin]; [|apply IH; assumption].
  assert (Move_eqb k k = true) by (apply Move_eqb_eq; reflexivity). congruence.
Qed.

Lemma umap_find_Some (m : list (Move * nat)) (k : Move) (v : nat) :
  umap_find m k = Some v -> In (k, v) m.
Proof.
  induction m as [|[k' v'] m IH]; cbn; [discriminate|].
  destruct (Move_eqb k' k) eqn:E.
  - apply Move_eqb_eq in E as ->. intros [= ->]. left. reflexivity.
  - intros H. right. apply IH. exact H.
Qed.

Section NodeFacts.

Variables S_ROWS S_COLS : nat.

Local Abbreviation sound := (node_sound S_ROWS S_COLS).

(** A state of the node with the same frame and the same bound stays
    sound when its flag, win state and counts are. *)
Lemma node_sound_update (n n' : MonteCarloNode) :
  sound n -> same_frame n n' -> m_maxChildren n' = m_maxChildren n ->
  winState_sound n' ->
  (m_isTerminal n' = true ->
   fst (evaluate S_ROWS S_COLS (m_board n')) = Some (m_winState n')) ->
  Z.abs (wins n') <= visits n' ->
  sound n'.
Proof.
  intros [Hw Ht Hmax Hc Hk Hd] (Hb & Htn & Hp & Hch) Hm Hw' Ht' Hc'.
  constructor; try assumption.
  - rewrite Hb, Hm. exact Hmax.
  - rewrite Hch, Hb, Htn. exact Hk.
  - rewrite Hch. exact Hd.
Qed.

Lemma signal_Some (w : Z) : signal (Some w) -> w = 1 \/ w = 0 \/ w = -1.
Proof. intros [H | [[= ->] | [[= ->] | [= ->]]]]; [discriminate | auto | auto | auto]. Qed.

(** [isTerminal] on a node: the flag it returns is the flag it stores;
    board, turn, links, bound and counts stay. *)
Lemma Node_isTerminal_frame (n : MonteCarloNode) :
  let n1 := snd (Node_isTerminal S_ROWS S_COLS n) in
  fst (Node_isTerminal S_ROWS S_COLS n) = m_isTerminal n1 /\
  same_frame n n1 /\ m_maxChildren n1 = m_maxChildren n /\
  wins n1 = wins n /\ visits n1 = visits n /\
  m_isFullyExpanded n1 = m_isFullyExpanded n /\
  (winState_sound n -> winState_sound n1) /\
  ((m_isTerminal n = true ->
    fst (evaluate S_ROWS S_COLS (m_board n)) = Some (m_winState n)) ->
   m_isTerminal n1 = has_value (fst (evaluate S_ROWS S_COLS (m_board n1))) /\
   (m_isTerminal n1 = true ->
    fst (evaluate S_ROWS S_COLS (m_board n1)) = Some (m_winState n1))).
Proof.
  cbn zeta. unfold Node_isTerminal.
  pose proof (evaluate_signal S_ROWS S_COLS (m_board n)) as Hsig.
  destruct (m_isTerminal n) eqn:Hterm; cbn [negb fst snd].
  - rewrite Hterm. repeat (split; [solve [auto using same_frame_refl]|]).
    intros H. rewrite (H eq_refl). split; [reflexivity | intros _; reflexivity].
  - destruct (evaluate S_ROWS S_COLS (m_board n)) as [[w|] s] eqn:Ev; cbn [fst snd] in *;
      unfold same_frame, winState_sound;
      cbn [set_terminal m_isTerminal m_winState m_board m_turn m_parent children
           m_maxChildren wins visits m_isFullyExpanded has_value fst snd];
      rewrite ?Ev; cbn [has_value fst snd].
    + repeat (split; [solve [auto]|]).
      split; [intros _; apply signal_Some; exact Hsig|].
      intros _. split; [reflexivity | intros _; reflexivity].
    + repeat (split; [solve [auto]|]). discriminate.
Qed.

Lemma Node_isTerminal_sound (n : MonteCarloNode) :
  sound n -> sound (snd (Node_isTerminal S_ROWS S_COLS n)).
Proof.
  intros Hs. destruct (Node_isTerminal_frame n) as (_ & Hf & Hm & Hw & Hv & _ & Hws & Ht).
  apply (node_sound_update n); try assumption.
  - apply Hws, Hs.
  - apply Ht, Hs.
  - rewrite Hw, Hv. apply Hs.
Qed.

Lemma Node_isFullyExpanded_frame (n : MonteCarloNode) :
  let n1 := snd (Node_isFullyExpanded n) in
  same_frame n n1 /\ m_maxChildren n1 = m_maxChildren n /\
  wins n1 = wins n /\ visits n1 = visits n /\
  m_isTerminal n1 = m_isTerminal n /\ m_winState n1 = m_winState n.
Proof.
  cbn zeta. unfold Node_isFullyExpanded, same_frame. destruct (_ && _); cbn; auto 10.
Qed.

Lemma Node_isFullyExpanded_sound (n : MonteCarloNode) :
  sound n -> sound (snd (Node_isFullyExpanded n)).
Proof.
  intros Hs. destruct (Node_isFullyExpanded_frame n) as (Hf & Hm & Hw & Hv & Ht & Hws).
  pose proof Hf as (Hb & _).
  apply (node_sound_update n); try assumption.
  - unfold winState_sound. rewrite Hws. apply Hs.
  - rewrite Ht, Hb, Hws. apply Hs.
  - rewrite Hw, Hv. apply Hs.
Qed.

Lemma Node_getWinState_sound (n : MonteCarloNode) :
  sound n ->
  sound (snd (Node_getWinState S_ROWS S_COLS n)) /\
  same_frame n (snd (Node_getWinState S_ROWS S_COLS n)) /\
  exists w, fst (Node_getWinState S_ROWS S_COLS n) = Some w /\ (w = 1 \/ w = 0 \/ w = -1).
Proof.
  intros Hs. unfold Node_getWinState. cbn [fst snd].
  pose proof (Node_isTerminal_sound n Hs) as Hs1.
  destruct (Node_isTerminal_frame n) as (_ & Hf & _).
  split; [exact Hs1|]. split; [exact Hf|]. eexists. split; [reflexivity|]. apply Hs1.
Qed.

(** The constructor. *)
Lemma Node_new_sound (turn : Tile) (b : Board) (n : MonteCarloNode) :
  Node_new S_ROWS S_COLS turn b = Ok n ->
  sound n /\ m_board n = b /\ m_turn n = turn /\ m_isTerminal n = false /\
  children n = [] /\ m_parent n = None /\ visits n = 0 /\ wins n = 0.
Proof.
  unfold Node_new. destruct (generateValidPositions S_ROWS S_COLS b) as [l|f] eqn:E;
    [|discriminate].
  cbn [bind]. intros [= <-]. split; [|cbn; auto 10].
  constructor; cbn.
  - right. left. reflexivity.
  - discriminate.
  - exists l. auto.
  - lia.
  - intros m [].
  - constructor.
Qed.

(** [applyMove] on a node that is not flagged terminal and has no
    children. *)
Lemma Node_applyMove_sound (n n' : MonteCarloNode) (move : Move) (ok : bool) :
  sound n -> m_isTerminal n = false -> children n = [] ->
  Node_applyMove S_ROWS S_COLS n move = Ok (ok, n') ->
  sound n' /\ ok = fst (place S_ROWS S_COLS (m_board n) move) /\
  m_board n' = snd (place S_ROWS S_COLS (m_board n) move) /\
  m_turn n' = (if ok then getEnemyTile (m_turn n) else m_turn n) /\
  children n' = [] /\ m_parent n' = m_parent n /\
  wins n' = wins n /\ visits n' = visits n.
Proof.
  intros Hs Hterm Hch. unfold Node_applyMove.
  destruct (place_cases S_ROWS S_COLS (m_board n) move) as [[_ Hplace] | [_ Hplace]];
    rewrite Hplace; cbv beta iota zeta.
  - set (b' := with_piece S_ROWS S_COLS (m_board n) move).
    cbn [set_board m_board].
    destruct (generateValidPositions S_ROWS S_COLS b') as [l|f] eqn:E; [|discriminate].
    unfold bind. change (snd (true, b')) with b'.
    change (fst (true, b')) with true. cbv beta iota.
    set (n2 := set_maxChildren (set_board n b') (Z.of_nat (length l))).
    assert (H2 : m_board n2 = b' /\ m_turn n2 = m_turn n /\ children n2 = children n /\
                 m_parent n2 = m_parent n /\ wins n2 = wins n /\ visits n2 = visits n /\
                 m_isTerminal n2 = m_isTerminal n /\ m_winState n2 = m_winState n /\
                 m_maxChildren n2 = Z.of_nat (length l)) by (cbn; auto 10).
    destruct H2 as (Hb2 & Htn2 & Hc2 & Hp2 & Hw2 & Hv2 & Ht2 & Hws2 & Hm2).
    destruct (Node_isTerminal_frame n2) as (_ & Hf3 & Hm3 & Hw3 & Hv3 & _ & Hws3 & Ht3).
    cbn zeta in *. set (n3 := snd (Node_isTerminal S_ROWS S_COLS n2)) in *.
    destruct (Node_isFullyExpanded_frame n3) as (Hf4 & Hm4 & Hw4 & Hv4 & Ht4 & Hws4).
    cbn zeta in *. set (n4 := snd (Node_isFullyExpanded n3)) in *.
    destruct Hf3 as (Hb3 & Htn3 & Hp3 & Hc3), Hf4 as (Hb4 & Htn4 & Hp4 & Hc4).
    clearbody n4 n3 n2. intros [= <- <-].
    assert (Hb : m_board n4 = b') by congruence.
    assert (Hc : children n4 = []) by congruence.
    cbn [set_turn m_board m_turn children m_parent wins visits].
    split; [|repeat split].
    + constructor; unfold winState_sound;
        cbn [set_turn m_board m_turn children m_parent wins visits
             m_winState m_isTerminal m_maxChildren].
      * rewrite Hws4. apply Hws3. unfold winState_sound. rewrite Hws2. apply Hs.
      * rewrite Ht4, Hws4, Hb4. apply Ht3. rewrite Ht2, Hterm. discriminate.
      * exists l. rewrite Hb. split; [exact E|]. congruence.
      * rewrite Hw4, Hw3, Hv4, Hv3, Hw2, Hv2. apply Hs.
      * rewrite Hc. intros m [].
      * rewrite Hc. constructor.
    + exact Hb.
    + congruence.
    + exact Hc.
    + congruence.
    + congruence.
    + congruence.
  - intros [= <- <-]. cbn [set_board m_board m_turn children m_parent wins visits fst snd].
    split; [|repeat split; auto].
    destruct Hs as [Hw Ht Hmax Hc Hk Hd].
    constructor; cbn [set_board m_board m_turn children m_parent wins visits
                      m_winState m_isTerminal m_maxChildren]; assumption.
Qed.

End NodeFacts.

(** *** The store *)

Section TreeFacts.

Variables S_ROWS S_COLS : nat.
Variable b0 : Board.
Variable turn0 : Tile.

Local Abbreviation sound := (node_sound S_ROWS S_COLS).
Local Abbreviation tree := (game_tree S_ROWS S_COLS b0 turn0).

(** Replacing a node by a sound state of it with the same frame. *)
Lemma game_tree_list_set (h : list MonteCarloNode) (i : nat) (n n' : MonteCarloNode) :
  tree h -> nth_error h i = Some n -> same_frame n n' -> sound n' ->
  tree (list_set h i n').
Proof.
  intros [Hroot Hnodes Hedges Hturns] Hn (Hb & Ht & Hp & Hc) Hs.
  assert (Hi : (i < length h)%nat) by (apply nth_error_Some; congruence).
  assert (Hframe : forall j m, nth_error h j = Some m ->
            exists m', nth_error (list_set h i n') j = Some m' /\
                       m_board m' = m_board m /\ m_turn m' = m_turn m /\
                       m_parent m' = m_parent m).
  { intros j m Hm. destruct (Nat.eq_dec i j) as [<- | Hne].
    - rewrite nth_error_list_set_same by assumption. exists n'.
      rewrite Hn in Hm. injection Hm as <-. auto.
    - rewrite nth_error_list_set_other by assumption. exists m. auto. }
  constructor.
  - destruct Hroot as (r & Hr & Hrb & Hrt).
    destruct (Hframe _ _ Hr) as (r' & Hr' & Hb' & Ht' & _).
    exists r'. split; [exact Hr'|]. split; congruence.
  - intros j m Hm. apply nth_error_list_set in Hm as [(-> & -> & _) | [_ Hm]];
      [exact Hs | eapply Hnodes; eassumption].
  - intros j m mv c Hm Hin.
    assert (Hold : exists m0, nth_error h j = Some m0 /\ In (mv, c) (children m0) /\
                              m_board m = m_board m0 /\ m_turn m = m_turn m0).
    { apply nth_error_list_set in Hm as [(-> & -> & _) | [_ Hm]].
      - exists n. rewrite <- Hc. auto.
      - exists m. auto. }
    destruct Hold as (m0 & Hm0 & Hin0 & Hbm & Htm).
    destruct (Hedges _ _ _ _ Hm0 Hin0) as (k & Hk & Hkp & Hkb & Hkt).
    destruct (Hframe _ _ Hk) as (k' & Hk' & Hkb' & Hkt' & Hkp').
    exists k'. split; [exact Hk'|]. rewrite Hbm, Htm, Hkb', Hkt', Hkp'. auto.
  - intros Hne j m Hm. apply nth_error_list_set in Hm as [(-> & -> & _) | [_ Hm]].
    + rewrite Ht. eapply Hturns; eassumption.
    + eapply Hturns; eassumption.
Qed.

(** A member function that keeps the frame of its node and its
    soundness. *)
Lemma method_game_tree {A : Type} (f : MonteCarloNode -> A * MonteCarloNode)
  (node : option nat) (a : A) (t t' : Tree) :
  (forall n, sound n -> same_frame n (snd (f n)) /\ sound (snd (f n))) ->
  tree (nodes t) ->
  method f node t = Ok (a, t') ->
  tree (nodes t') /\
  exists i n, node = Some i /\ nth_error (nodes t) i = Some n /\ a = fst (f n) /\
              nth_error (nodes t') i = Some (snd (f n)).
Proof.
  intros Hf Ht H. unfold method in H.
  sim_bind H n t1 Hn. apply deref_Ok in Hn as [-> (i & -> & Hn)].
  destruct (f n) as [a1 n'] eqn:Ef.
  sim_bind H u t2 Hstore. apply ret_Ok in H as [-> ->].
  apply store_Ok in Hstore as (j & Hj & Hnodes & _). injection Hj as <-.
  destruct (Hf n) as [Hframe Hs]; [eapply (tree_nodes _ _ _ _ _ Ht); eassumption|].
  rewrite Ef in Hframe, Hs. cbn [snd] in Hframe, Hs.
  rewrite Hnodes. split; [eapply game_tree_list_set; eassumption|].
  exists i, n. rewrite Ef. cbn [fst snd]. repeat split; try assumption.
  apply nth_error_list_set_same. apply nth_error_Some. congruence.
Qed.

(** The store after [createChild]. *)
Lemma game_tree_add_child (h : list MonteCarloNode) (i : nat) (n child : MonteCarloNode)
  (move : Move) (l : list Vec2i) :
  tree h -> nth_error h i = Some n ->
  ~ In move (map fst (children n)) ->
  tile move = m_turn n ->
  generateValidPositions S_ROWS S_COLS (m_board n) = Ok l -> In (pos move) l ->
  sound child -> children child = [] -> m_parent child = Some i ->
  m_board child = snd (place S_ROWS S_COLS (m_board n) move) ->
  m_turn child = (if fst (place S_ROWS S_COLS (m_board n) move)
                  then getEnemyTile (m_turn n) else m_turn n) ->
  tree (with_child h i n child move).
Proof.
  intros [Hroot Hnodes Hedges Hturns] Hn Hnew Htile Hgen Hpos Hcs Hcc Hcp Hcb Hct.
  assert (Hi : (i < length h)%nat) by (apply nth_error_Some; congruence).
  pose proof (add_child_nth h i n child move Hn) as Hnth.
  set (n2 := set_children n (children n ++ [(move, length h)])) in *.
  assert (Hframe : forall j m, nth_error h j = Some m ->
            exists m', nth_error (with_child h i n child move) j = Some m' /\
                       m_board m' = m_board m /\ m_turn m' = m_turn m /\
                       m_parent m' = m_parent m).
  { intros j m Hm. rewrite Hnth. destruct (Nat.eqb_spec j i) as [-> | Hne].
    - exists n2. rewrite Hn in Hm. injection Hm as <-. auto.
    - assert (Hj : (j < length h)%nat) by (apply nth_error_Some; congruence).
      destruct (Nat.eqb_spec j (length h)) as [E | _]; [lia|]. exists m. auto. }
  assert (Hs2 : sound n2).
  { pose proof (Hnodes _ _ Hn) as [Hw Ht Hmax Hc Hk Hd].
    constructor; unfold winState_sound;
      cbn [n2 set_children m_winState m_isTerminal m_board m_maxChildren wins visits
           children m_turn]; try assumption.
    - intros m Hm. rewrite map_app in Hm. apply in_app_or in Hm as [Hm | [<- | []]].
      + apply Hk. exact Hm.
      + split; [exact Htile|]. exists l. auto.
    - rewrite map_app. apply NoDup_app; [exact Hd | constructor; [intros [] | constructor] |].
      intros m Hm [<- | []]. contradiction. }
  constructor.
  - destruct Hroot as (r & Hr & Hrb & Hrt).
    destruct (Hframe _ _ Hr) as (r' & Hr' & Hb' & Ht' & _).
    exists r'. split; [exact Hr'|]. split; congruence.
  - intros j m Hm. rewrite Hnth in Hm.
    destruct (Nat.eqb_spec j i) as [-> | Hne]; [injection Hm as <-; exact Hs2|].
    destruct (Nat.eqb_spec j (length h)) as [-> | _]; [injection Hm as <-; exact Hcs|].
    eapply Hnodes; eassumption.
  - intros j m mv c Hm Hin. rewrite Hnth in Hm.
    assert (Hold : forall m0, nth_error h j = Some m0 -> In (mv, c) (children m0) ->
              m_board m = m_board m0 -> m_turn m = m_turn m0 ->
              edge_sound S_ROWS S_COLS (with_child h i n child move) j m mv c).
    { intros m0 Hm0 Hin0 Hbm Htm.
      destruct (Hedges _ _ _ _ Hm0 Hin0) as (k & Hk & Hkp & Hkb & Hkt).
      destruct (Hframe _ _ Hk) as (k' & Hk' & Hkb' & Hkt' & Hkp').
      exists k'. split; [exact Hk'|]. rewrite Hbm, Htm, Hkb', Hkt', Hkp'. auto. }
    destruct (Nat.eqb_spec j i) as [-> | Hne].
    + injection Hm as <-. cbn [n2 set_children children] in Hin.
      apply in_app_or in Hin as [Hin | [[= <- <-] | []]].
      * apply (Hold n); auto.
      * exists child. rewrite Hnth.
        destruct (Nat.eqb_spec (length h) i) as [E | _]; [lia|].
        rewrite Nat.eqb_refl. cbn [n2 set_children m_board m_turn]. auto.
    + destruct (Nat.eqb_spec j (length h)) as [-> | _].
      * injection Hm as <-. rewrite Hcc in Hin. destruct Hin.
      * apply (Hold m); auto.
  - intros Hne j m Hm. rewrite Hnth in Hm.
    pose proof (Hturns Hne _ _ Hn) as Hnt.
    destruct (Nat.eqb_spec j i) as [-> | _]; [injection Hm as <-; exact Hnt|].
    destruct (Nat.eqb_spec j (length h)) as [-> | _]; [|eapply Hturns; eassumption].
    injection Hm as <-. rewrite Hct.
    destruct (fst (place S_ROWS S_COLS (m_board n) move)); [|exact Hnt].
    destruct (m_turn n); [discriminate | contradiction | discriminate].
Qed.

Lemma game_tree_single (root : MonteCarloNode) :
  sound root -> children root = [] -> m_board root = b0 -> m_turn root = turn0 ->
  tree [root].
Proof.
  intros Hs Hc Hb Ht. constructor.
  - exists root. auto.
  - intros [|[|i]] n Hn; cbn in Hn; try discriminate. injection Hn as <-. exact Hs.
  - intros [|[|i]] n m c Hn Hin; cbn in Hn; try discriminate.
    injection Hn as <-. rewrite Hc in Hin. destruct Hin.
  - intros Hne [|[|i]] n Hn; cbn in Hn; try discriminate.
    injection Hn as <-. rewrite Ht. exact Hne.
Qed.

End TreeFacts.

(** *** The phases of one simulation keep the game tree *)

Section TreePhases.

Variables S_ROWS S_COLS : nat.
Variable fl : FloatOps.
Variable umap_order : list Move -> list Move.
Variable rand : nat -> Z.
Variable self : MonteCarloPlayer.
Variable b0 : Board.
Variable turn0 : Tile.

Local Abbreviation sound := (node_sound S_ROWS S_COLS).
Local Abbreviation tree := (game_tree S_ROWS S_COLS b0 turn0).

Lemma node_sound_set_parent (n : MonteCarloNode) (p : option nat) :
  sound n -> sound (set_parent n p).
Proof. intros [Hw Ht Hmax Hc Hk Hd]. constructor; assumption. Qed.

(** What [createChild] does to the store when the node has no child for
    the move yet. *)
Lemma createChild_Ok (this : option nat) (move : Move) (a : nat) (t t' : Tree) :
  (forall i n, this = Some i -> nth_error (nodes t) i = Some n ->
               umap_find (children n) move = None) ->
  createChild S_ROWS S_COLS this move t = Ok (a, t') ->
  exists i n made ok applied,
    this = Some i /\ nth_error (nodes t) i = Some n /\
    Node_new S_ROWS S_COLS (m_turn n) (m_board n) = Ok made /\
    Node_applyMove S_ROWS S_COLS made move = Ok (ok, applied) /\
    a = length (nodes t) /\
    nodes t' = with_child (nodes t) i n (set_parent applied (Some i)) move.
Proof.
  intros Hnew H. unfold createChild in H.
  sim_bind H n t1 Hn. apply deref_Ok in Hn as [-> (i & -> & Hn)].
  specialize (Hnew i n eq_refl Hn).
  sim_bind H made t1 Hfresh. apply lift_Ok in Hfresh as [Hfresh ->].
  sim_bind H newNode t1 Halloc. apply alloc_Ok in Halloc as [-> Hnodes1].
  sim_bind H r t2 Happly. destruct r as [ok applied].
  apply lift_Ok in Happly as [Happly ->].
  sim_bind H u t2 Hstore. apply store_Ok in Hstore as (j & Hj & Hnodes2 & _).
  injection Hj as <-. rewrite Hnodes1, list_set_last in Hnodes2.
  assert (Hi : (i < length (nodes t))%nat) by (apply nth_error_Some; congruence).
  sim_bind H n' t3 Hn'. apply deref_Ok in Hn' as [-> (j & Hj & Hn')]. injection Hj as <-.
  rewrite Hnodes2, nth_error_app1, Hn in Hn' by assumption. injection Hn' as <-.
  sim_bind H u' t3 Hstore. apply store_Ok in Hstore as (j & Hj & Hnodes3 & _).
  injection Hj as <-. apply ret_Ok in H as [-> ->].
  rewrite umap_assign_new in Hnodes3 by assumption. rewrite Hnodes2 in Hnodes3.
  exists i, n, made, ok, applied. repeat split; try assumption.
Qed.

Lemma createChild_game_tree (i : nat) (n : MonteCarloNode) (move : Move)
  (l : list Vec2i) (a : nat) (t t' : Tree) :
  tree (nodes t) -> nth_error (nodes t) i = Some n ->
  umap_find (children n) move = None ->
  tile move = m_turn n ->
  generateValidPositions S_ROWS S_COLS (m_board n) = Ok l -> In (pos move) l ->
  createChild S_ROWS S_COLS (Some i) move t = Ok (a, t') ->
  tree (nodes t').
Proof.
  intros Ht Hn Hfind Htile Hgen Hpos H.
  apply createChild_Ok in H as (j & m & made & ok & applied & Hj & Hm & Hmade & Happly & _ & ->).
  2:{ intros j m [= <-] Hm. congruence. }
  injection Hj as <-. rewrite Hn in Hm. injection Hm as <-.
  apply Node_new_sound in Hmade as (Hs & Hb & Htn & Hterm & Hc & Hp & _).
  apply Node_applyMove_sound in Happly as (Has & Hok & Hab & Hat & Hac & _); try assumption.
  rewrite Hb in Hab, Hok. rewrite Htn in Hat.
  eapply game_tree_add_child; try eassumption.
  - apply umap_find_None. exact Hfind.
  - apply node_sound_set_parent. exact Has.
  - reflexivity.
  - cbn [set_parent m_turn]. rewrite Hat, Hok. reflexivity.
Qed.

Lemma expand_loop_game_tree (i : nat) (n : MonteCarloNode) (l positions : list Vec2i)
  (leaf : option nat) (t t' : Tree) :
  tree (nodes t) -> nth_error (nodes t) i = Some n ->
  generateValidPositions S_ROWS S_COLS (m_board n) = Ok l ->
  (forall p, In p positions -> In p l) ->
  expand_loop S_ROWS S_COLS (Some i) (m_turn n) positions t = Ok (leaf, t') ->
  tree (nodes t').
Proof.
  intros Ht Hn Hgen. induction positions as [|p positions IH]; intros Hsub H;
    cbn [expand_loop] in H.
  - apply ret_Ok in H as [_ ->]. exact Ht.
  - sim_bind H found t1 Hfound.
    apply getChildForMove_Ok in Hfound as [-> (j & m & Hj & Hm & ->)].
    injection Hj as <-. rewrite Hn in Hm. injection Hm as <-.
    destruct (umap_find (children n) (mkMove p (m_turn n))) as [c|] eqn:Hfind.
    + apply IH; [|exact H]. intros q Hq. apply Hsub. right. exact Hq.
    + sim_bind H child t1 Hchild. apply ret_Ok in H as [_ ->].
      eapply createChild_game_tree; try eassumption; [reflexivity|].
      cbn [pos]. apply Hsub. left. reflexivity.
Qed.

Lemma expand_game_tree (node leaf : option nat) (t t' : Tree) :
  tree (nodes t) ->
  expand S_ROWS S_COLS node t = Ok (leaf, t') ->
  tree (nodes t').
Proof.
  intros Ht H. unfold expand in H.
  sim_bind H n t1 Hn. apply deref_Ok in Hn as [-> (i & -> & Hn)].
  sim_bind H positions t1 Hpos. apply lift_Ok in Hpos as [Hpos ->].
  eapply expand_loop_game_tree; try eassumption. auto.
Qed.

Lemma isTerminal_game_tree (node : option nat) (a : bool) (t t' : Tree) :
  tree (nodes t) -> isTerminal S_ROWS S_COLS node t = Ok (a, t') -> tree (nodes t').
Proof.
  intros Ht H. eapply method_game_tree in H; [apply H | | exact Ht].
  intros n Hs. split; [apply Node_isTerminal_frame | apply Node_isTerminal_sound; exact Hs].
Qed.

Lemma isFullyExpanded_game_tree (node : option nat) (a : bool) (t t' : Tree) :
  tree (nodes t) -> isFullyExpanded node t = Ok (a, t') -> tree (nodes t').
Proof.
  intros Ht H. eapply method_game_tree in H; [apply H | | exact Ht].
  intros n Hs. split; [apply Node_isFullyExpanded_frame | apply Node_isFullyExpanded_sound; exact Hs].
Qed.

(** [getWinState] answers with one of the three outcomes. *)
Lemma getWinState_game_tree (node : option nat) (a : option Z) (t t' : Tree) :
  tree (nodes t) -> getWinState S_ROWS S_COLS node t = Ok (a, t') ->
  tree (nodes t') /\ exists w, a = Some w /\ (w = 1 \/ w = 0 \/ w = -1).
Proof.
  intros Ht H. eapply method_game_tree in H as [Ht' (i & n & _ & Hn & -> & _)];
    [| intros m Hs; destruct (Node_getWinState_sound S_ROWS S_COLS m Hs) as (H1 & H2 & _);
       split; assumption | exact Ht].
  split; [exact Ht'|].
  destruct (Node_getWinState_sound S_ROWS S_COLS n) as (_ & _ & Hw); [|exact Hw].
  eapply (tree_nodes _ _ _ _ _ Ht); eassumption.
Qed.

Lemma bestUCT_loop_nodes (node : option nat) (moves : list Move) (maxVal : F fl)
  (res best : Move * option nat) (t t' : Tree) :
  bestUCT_loop fl self node moves maxVal res t = Ok (best, t') -> t' = t.
Proof.
  revert maxVal res.
  induction moves as [|move moves IH]; intros maxVal res H; cbn [bestUCT_loop] in H.
  - apply ret_Ok in H as [_ ->]. reflexivity.
  - sim_bind H found t1 Hfound.
    apply getChildForMove_Ok in Hfound as [-> _].
    sim_bind H child t1 Hchild. apply lift_Ok in Hchild as [_ ->].
    sim_bind H cn t1 Hc. apply deref_Ok in Hc as [-> _].
    sim_bind H pn t1 Hp. apply deref_Ok in Hp as [-> _].
    destruct (F_gt fl _ maxVal); apply IH in H; exact H.
Qed.

Lemma bestUCT_nodes (node : option nat) (best : Move * option nat) (t t' : Tree) :
  bestUCT fl umap_order self node t = Ok (best, t') -> t' = t.
Proof.
  intros H. unfold bestUCT in H.
  sim_bind H moves t1 Hmoves. apply getExpandedMoves_Ok in Hmoves as ->.
  eapply bestUCT_loop_nodes. eassumption.
Qed.

Lemma traverse_loop_game_tree (fuel : nat) (node : option nat) (res : Move * option nat)
  (leaf : option nat) (t t' : Tree) :
  tree (nodes t) ->
  traverse_loop S_ROWS S_COLS fl umap_order self fuel node res t = Ok (leaf, t') ->
  tree (nodes t').
Proof.
  revert node res t. induction fuel as [|fuel IH]; intros node res t Ht H;
    cbn [traverse_loop] in H.
  - apply lift_Ok in H as [H _]. discriminate.
  - sim_bind H terminal t1 Hterm. apply isTerminal_game_tree in Hterm; [|assumption].
    destruct terminal; cbn [negb] in H.
    + apply ret_Ok in H as [_ ->]. assumption.
    + sim_bind H full t2 Hfull. apply isFullyExpanded_game_tree in Hfull; [|assumption].
      destruct full; cbn [negb] in H.
      * sim_bind H best t3 Hbest. apply bestUCT_nodes in Hbest as ->.
        eapply IH; eassumption.
      * eapply expand_game_tree; eassumption.
Qed.

Lemma traverse_game_tree (node leaf : option nat) (t t' : Tree) :
  tree (nodes t) ->
  traverse S_ROWS S_COLS fl umap_order self node t = Ok (leaf, t') ->
  tree (nodes t').
Proof.
  intros Ht H. unfold traverse in H. sim_bind H k t1 Hk.
  unfold node_count in Hk. injection Hk as <- <-.
  eapply traverse_loop_game_tree; eassumption.
Qed.

(** The copy that [playout] plays on keeps a win state that is one of the
    three outcomes. *)
Lemma Node_applyMove_winState (n n' : MonteCarloNode) (move : Move) (ok : bool) :
  winState_sound n ->
  Node_applyMove S_ROWS S_COLS n move = Ok (ok, n') -> winState_sound n'.
Proof.
  intros Hw. unfold Node_applyMove.
  destruct (place S_ROWS S_COLS (m_board n) move) as [[|] b'].
  - destruct (generateValidPositions S_ROWS S_COLS _) as [l|f]; [|discriminate].
    unfold bind. cbv beta iota zeta.
    set (n2 := set_maxChildren (set_board n b') (Z.of_nat (length l))).
    assert (Hw2 : winState_sound n2) by exact Hw.
    destruct (Node_isTerminal_frame S_ROWS S_COLS n2) as (_ & _ & _ & _ & _ & _ & Hws3 & _).
    cbn zeta in Hws3. set (n3 := snd (Node_isTerminal S_ROWS S_COLS n2)) in *.
    destruct (Node_isFullyExpanded_frame n3) as (_ & _ & _ & _ & _ & Hws4).
    cbn zeta in Hws4. set (n4 := snd (Node_isFullyExpanded n3)) in *.
    clearbody n4 n3 n2. intros [= _ <-].
    unfold winState_sound. cbn [set_turn m_winState]. rewrite Hws4. apply Hws3, Hw2.
  - intros [= _ <-]. exact Hw.
Qed.

Lemma playout_loop_winState (fuel : nat) (simNode final : MonteCarloNode) (t t' : Tree) :
  winState_sound simNode ->
  playout_loop S_ROWS S_COLS rand fuel simNode t = Ok (final, t') ->
  winState_sound final.
Proof.
  revert simNode t. induction fuel as [|fuel IH]; intros simNode t Hw H;
    cbn [playout_loop] in H.
  - apply lift_Ok in H as [H _]. discriminate.
  - destruct (Node_isTerminal_frame S_ROWS S_COLS simNode) as (_ & _ & _ & _ & _ & _ & Hws & _).
    cbn zeta in Hws. specialize (Hws Hw).
    destruct (Node_isTerminal S_ROWS S_COLS simNode) as [[|] simNode1]; cbn [negb snd] in *.
    + apply ret_Ok in H as [<- _]. exact Hws.
    + sim_bind H move t1 Hmove.
      sim_bind H r t2 Happly. destruct r as [applied simNode2].
      apply lift_Ok in Happly as [Happly ->].
      destruct applied; cbn [negb] in H.
      * apply IH in H; [exact H|]. eapply Node_applyMove_winState; eassumption.
      * apply lift_Ok in H as [H _]. discriminate.
Qed.

Lemma playout_game_tree (node : option nat) (results : option Z) (t t' : Tree) :
  tree (nodes t) ->
  playout S_ROWS S_COLS rand node t = Ok (results, t') ->
  tree (nodes t') /\ exists w, results = Some w /\ (w = 1 \/ w = 0 \/ w = -1).
Proof.
  intros Ht H. unfold playout in H.
  sim_bind H terminal t1 Hterm. apply isTerminal_game_tree in Hterm; [|assumption].
  destruct terminal.
  - eapply getWinState_game_tree; eassumption.
  - sim_bind H n t2 Hn. apply deref_Ok in Hn as [-> (i & -> & Hn)].
    sim_bind H simNode t2 Hloop.
    pose proof (playout_loop_nodes _ _ _ _ _ _ _ _ Hloop) as Hnodes.
    apply playout_loop_winState in Hloop;
      [|apply (tree_nodes _ _ _ _ _ Hterm i n Hn)].
    destruct (Node_isTerminal_frame S_ROWS S_COLS simNode) as (_ & _ & _ & _ & _ & _ & Hws & _).
    cbn zeta in Hws. specialize (Hws Hloop).
    unfold Node_getWinState in H. cbv beta iota zeta in H.
    destruct (children (snd (Node_isTerminal S_ROWS S_COLS simNode))).
    + apply ret_Ok in H as [-> ->]. rewrite Hnodes. split; [exact Hterm|].
      eexists. split; [reflexivity | exact Hws].
    + apply lift_Ok in H as [H _]. discriminate.
Qed.

Lemma update_counts_game_tree (node : option nat) (r : Z) (u : unit) (t t' : Tree) :
  tree (nodes t) -> r = 1 \/ r = 0 \/ r = -1 ->
  update_counts self node r t = Ok (u, t') ->
  tree (nodes t').
Proof.
  intros Ht Hr H. unfold update_counts in H.
  sim_bind H n t1 Hn. apply deref_Ok in Hn as [-> (i & -> & Hn)].
  apply store_Ok in H as (j & Hj & Hnodes & _). injection Hj as <-.
  rewrite Hnodes. eapply game_tree_list_set; try eassumption.
  - unfold same_frame. cbn. auto.
  - pose proof (tree_nodes _ _ _ _ _ Ht i n Hn) as Hs.
    apply (node_sound_update S_ROWS S_COLS n); try assumption.
    + unfold same_frame. cbn. auto.
    + reflexivity.
    + apply Hs.
    + apply Hs.
    + cbn [set_counts wins visits]. pose proof (sound_counts _ _ _ Hs) as Hc.
      destruct (mc_tile self); cbn [Tile_value]; lia.
Qed.

Lemma backpropagate_loop_game_tree (fuel : nat) (node : option nat) (r : Z) (u : unit)
  (t t' : Tree) :
  tree (nodes t) -> r = 1 \/ r = 0 \/ r = -1 ->
  backpropagate_loop self fuel node r t = Ok (u, t') ->
  tree (nodes t').
Proof.
  intros Ht Hr. revert node t Ht.
  induction fuel as [|fuel IH]; intros node t Ht H; cbn [backpropagate_loop] in H.
  - apply lift_Ok in H as [H _]. discriminate.
  - sim_bind H n t1 Hn. apply deref_Ok in Hn as [-> _].
    destruct (m_parent n) as [p|].
    + sim_bind H u1 t1 Hupd. apply update_counts_game_tree in Hupd; [|assumption|assumption].
      eapply IH; eassumption.
    + eapply update_counts_game_tree; eassumption.
Qed.

Lemma simulation_game_tree (root : option nat) (u : unit) (t t' : Tree) :
  tree (nodes t) ->
  simulation S_ROWS S_COLS fl umap_order rand self root t = Ok (u, t') ->
  tree (nodes t').
Proof.
  intros Ht H. unfold simulation in H.
  sim_bind H leaf t1 Htrav. apply traverse_game_tree in Htrav; [|assumption].
  sim_bind H results t2 Hplay.
  apply playout_game_tree in Hplay as [Ht2 (w & -> & Hw)]; [|assumption].
  sim_bind H r t3 Hr. apply lift_Ok in Hr as [[= <-] ->].
  unfold backpropagate in H. sim_bind H k t3 Hk. unfold node_count in Hk. injection Hk as _ <-.
  eapply backpropagate_loop_game_tree; eassumption.
Qed.

Lemma simulations_game_tree (count : nat) (root : option nat) (u : unit) (t t' : Tree) :
  tree (nodes t) ->
  simulations S_ROWS S_COLS fl umap_order rand self count root t = Ok (u, t') ->
  tree (nodes t').
Proof.
  revert t. induction count as [|count IH]; intros t Ht H; cbn [simulations] in H.
  - apply ret_Ok in H as [_ ->]. exact Ht.
  - sim_bind H u1 t1 Hsim. apply simulation_game_tree in Hsim; [|assumption].
    eapply IH; eassumption.
Qed.

End TreePhases.

Section SearchTree.

Variables S_ROWS S_COLS : nat.
Variable fl : FloatOps.
Variable umap_order : list Move -> list Move.
Variable rand : nat -> Z.
Variable self : MonteCarloPlayer.

Lemma search_tree_is_game_tree (b : Board) (t : Tree) :
  search_tree S_ROWS S_COLS fl umap_order rand self b = Ok t ->
  game_tree S_ROWS S_COLS b (mc_tile self) (nodes t).
Proof.
  unfold search_tree. intros H.
  match type of H with
  | match ?c with _ => _ end = _ => destruct c as [[u t0]|f] eqn:Hrun; [|discriminate]
  end.
  injection H as ->.
  sim_bind Hrun made t1 Hmade. apply lift_Ok in Hmade as [Hmade ->].
  apply Node_new_sound in Hmade as (Hs & Hb & Htn & _ & Hc & _).
  sim_bind Hrun root t1 Hroot. apply alloc_Ok in Hroot as [-> Hnodes]. cbn in Hnodes.
  eapply simulations_game_tree; [|eassumption].
  rewrite Hnodes. apply game_tree_single; assumption.
Qed.

End SearchTree.

(** *** What the search returns *)

Section SearchResult.

Variables S_ROWS S_COLS : nat.
Variable fl : FloatOps.
Variable umap_order : list Move -> list Move.
Variable rand : nat -> Z.
Variable self : MonteCarloPlayer.

(** X18. On every run of the simulation loop of [monteCarloTreeSearch]
    that completes, the store of nodes is a game tree for the given board
    with the player's tile to move: every key of every map of children is
    a move of the node's turn to a position that the move generator gives
    for the node's board, the child holds the board after that move and
    the enemy's turn and points back to the node, the memoised terminal
    flag, win state and bound on the children of every node agree with
    its board, and the wins of every node lie within its visits. *)
Theorem search_tree_game_tree (b : Board) (t : Tree) :
  search_tree S_ROWS S_COLS fl umap_order rand self b = Ok t ->
  game_tree S_ROWS S_COLS b (mc_tile self) (nodes t).
Proof. apply search_tree_is_game_tree. Qed.

(** The final loop returns the move it started with or a key of the
    root's map of children. *)
Lemma mostVisited_loop_key (t t' : Tree) (root : MonteCarloNode)
  (moves : list Move) (floor : Z) (fallback res : Move) :
  nth_error (nodes t) 0 = Some root ->
  mostVisited_loop (Some 0%nat) moves floor fallback t = Ok (res, t') ->
  res = fallback \/ In res (map fst (children root)).
Proof.
  intros Hroot. revert floor fallback.
  induction moves as [|move moves IH]; intros floor fallback H; cbn [mostVisited_loop] in H.
  - apply ret_Ok in H as [-> _]. left. reflexivity.
  - sim_bind H found t1 Hfound.
    apply getChildForMove_Ok in Hfound as [-> (i & n & Hi & Hn & ->)].
    injection Hi as <-. rewrite Hroot in Hn. injection Hn as <-.
    sim_bind H child t1 Hchild. apply lift_Ok in Hchild as [Hchild ->].
    destruct (umap_find (children root) move) as [c|] eqn:Hfind; [|discriminate].
    sim_bind H cn t1 Hc. apply deref_Ok in Hc as [-> _].
    assert (Hkey : In move (map fst (children root))).
    { apply umap_find_Some in Hfind. apply (in_map fst) in Hfind. exact Hfind. }
    destruct (visits cn >? floor); apply IH in H as [-> | H]; auto.
Qed.

(** X19. A move that [monteCarloTreeSearch] returns is [Move{}] or carries
    the player's tile and an empty cell of the given board, and
    [operator<<] accepts it when the player's tile is not [Empty]. *)
Theorem monteCarloTreeSearch_legal (b : Board) (res : Move) :
  monteCarloTreeSearch S_ROWS S_COLS fl umap_order rand self b = Ok res ->
  res = Move_default \/
  (tile res = mc_tile self /\
   board_at S_ROWS S_COLS b (pos res) = Some Empty /\
   (mc_tile self <> Empty -> fst (place S_ROWS S_COLS b res) = true)).
Proof.
  unfold monteCarloTreeSearch.
  destruct (search_tree S_ROWS S_COLS fl umap_order rand self b) as [t|f] eqn:Htree;
    [|discriminate].
  cbn [bind]. apply search_tree_is_game_tree in Htree.
  destruct (tree_root _ _ _ _ _ Htree) as (root & Hroot & Hb & Ht).
  destruct (mostVisited umap_order (Some 0%nat) t) as [[res' t']|f] eqn:Hmost; [|discriminate].
  intros [= ->]. unfold mostVisited in Hmost.
  sim_bind Hmost moves t1 Hmoves. apply getExpandedMoves_Ok in Hmoves as ->.
  apply (mostVisited_loop_key _ _ root) in Hmost as [-> | Hkey]; [left; reflexivity | | exact Hroot].
  right. pose proof (tree_nodes _ _ _ _ _ Htree 0%nat root Hroot) as Hs.
  destruct (sound_keys _ _ _ Hs res Hkey) as (Htile & l & Hgen & Hpos).
  rewrite Hb in Hgen. rewrite Ht in Htile.
  destruct (generated_positions S_ROWS S_COLS b) as [_ Hplay].
  destruct (Hplay l Hgen) as [_ Hl]. destruct (Hl _ Hpos) as [He Hbelow].
  split; [exact Htile|]. split; [exact He|]. intros Hne.
  destruct res as [p tl]. cbn [tile pos] in *. subst tl.
  rewrite playable_place by assumption. reflexivity.
Qed.

(** X20. The search on a board for which the move generator completes:
    with a budget of zero or less it returns [Move{}]; with a budget of
    one or more on a board that [evaluate] reports as terminal, [traverse]
    returns a null pointer and [playout] dereferences it. *)
Theorem monteCarloTreeSearch_degenerate (b : Board) (l : list Vec2i) :
  generateValidPositions S_ROWS S_COLS b = Ok l ->
  (m_nSimulation self <= 0 -> umap_order [] = [] ->
   monteCarloTreeSearch S_ROWS S_COLS fl umap_order rand self b = Ok Move_default) /\
  (1 <= m_nSimulation self -> has_value (fst (evaluate S_ROWS S_COLS b)) = true ->
   monteCarloTreeSearch S_ROWS S_COLS fl umap_order rand self b = Fault NullDereference).
Proof.
  intros Hgen. split.
  - intros Hn Hnil. unfold monteCarloTreeSearch, search_tree, Node_new.
    rewrite Hgen. replace (Z.to_nat (m_nSimulation self)) with 0%nat by lia.
    cbn. unfold mostVisited, getExpandedMoves, sbind, deref. cbn. rewrite Hnil. reflexivity.
  - intros Hn Hterm. unfold monteCarloTreeSearch, search_tree, Node_new.
    rewrite Hgen. destruct (Z.to_nat (m_nSimulation self)) as [|k] eqn:Ek; [lia|].
    cbn [bind lift sbind alloc nodes length simulations].
    unfold simulation, traverse, sbind at 1 2 3.
    cbn [node_count nodes length app traverse_loop].
    unfold sbind at 1, isTerminal, method, sbind at 1, deref. cbn [nodes app nth_error].
    unfold Node_isTerminal. cbn [m_isTerminal negb m_board].
    destruct (evaluate S_ROWS S_COLS b) as [[w|] s]; [|discriminate].
    reflexivity.
Qed.

End SearchResult.

Lemma board_four_positive_generated :
  generateValidPositions 6 7 board_four_positive =
  Ok [mkVec2i 0 4; mkVec2i 1 4; mkVec2i 2 4; mkVec2i 3 4; mkVec2i 4 5; mkVec2i 5 5;
      mkVec2i 6 5].
Proof. vm_compute. reflexivity. Qed.

Lemma search_tree_game_tree_witness :
  search_tree 6 7 milli_floats newest_first rand_example
      player_two_simulations board_bottom_row = Ok tree_after_two_simulations /\
  game_tree 6 7 board_bottom_row (mc_tile player_two_simulations)
            (nodes tree_after_two_simulations).
Proof.
  split; [exact two_simulations_tree|].
  apply (search_tree_game_tree 6 7 milli_floats newest_first rand_example
           player_two_simulations board_bottom_row).
  exact two_simulations_tree.
Defined.

Lemma monteCarloTreeSearch_legal_witness :
  monteCarloTreeSearch 6 7 milli_floats newest_first rand_example
      player_two_simulations board_bottom_row = Ok move_negative_1_4 /\
  (move_negative_1_4 = Move_default \/
   (tile move_negative_1_4 = mc_tile player_two_simulations /\
    board_at 6 7 board_bottom_row (pos move_negative_1_4) = Some Empty /\
    (mc_tile player_two_simulations <> Empty ->
     fst (place 6 7 board_bottom_row move_negative_1_4) = true))).
Proof.
  split; [exact two_simulations_move|].
  apply (monteCarloTreeSearch_legal 6 7 milli_floats newest_first rand_example
           player_two_simulations board_bottom_row).
  exact two_simulations_move.
Defined.

Lemma monteCarloTreeSearch_degenerate_witness :
  generateValidPositions 6 7 board_four_positive =
    Ok [mkVec2i 0 4; mkVec2i 1 4; mkVec2i 2 4; mkVec2i 3 4; mkVec2i 4 5; mkVec2i 5 5;
        mkVec2i 6 5] /\
  1 <= m_nSimulation player_two_simulations /\
  has_value (fst (evaluate 6 7 board_four_positive)) = true /\
  monteCarloTreeSearch 6 7 milli_floats newest_first rand_example
    player_two_simulations board_four_positive = Fault NullDereference.
Proof.
  split; [exact board_four_positive_generated|].
  split; [cbn; lia|]. split; [reflexivity|].
  apply (proj2 (monteCarloTreeSearch_degenerate 6 7 milli_floats newest_first rand_example
                  player_two_simulations board_four_positive _
                  board_four_positive_generated)); [cbn; lia | reflexivity].
Defined.

(** ** Alpha-beta pruning keeps the minimax value *)

Lemma gtb_max (r m : Z) : (if r >? m then r else m) = Z.max m r.
Proof. rewrite Z.gtb_ltb. destruct (Z.ltb_spec m r); lia. Qed.

Lemma ltb_min (r m : Z) : (if r <? m then r else m) = Z.min m r.
Proof. destruct (Z.ltb_spec r m); lia. Qed.

Lemma fold_max_init (M v : Z) (vs : list Z) :
  fold_right Z.max (Z.max M v) vs = Z.max v (fold_right Z.max M vs).
Proof. induction vs as [|w vs IH]; cbn [fold_right]; [lia | rewrite IH; lia]. Qed.

Lemma fold_min_init (M v : Z) (vs : list Z) :
  fold_right Z.min (Z.min M v) vs = Z.min v (fold_right Z.min M vs).
Proof. induction vs as [|w vs IH]; cbn [fold_right]; [lia | rewrite IH; lia]. Qed.

Lemma fold_max_range (lo hi M : Z) (vs : list Z) :
  lo <= M <= hi -> Forall (fun v => lo <= v <= hi) vs ->
  lo <= fold_right Z.max M vs <= hi.
Proof. intros HM H. induction H as [|v vs Hv _ IH]; cbn [fold_right]; lia. Qed.

Lemma fold_min_range (lo hi M : Z) (vs : list Z) :
  lo <= M <= hi -> Forall (fun v => lo <= v <= hi) vs ->
  lo <= fold_right Z.min M vs <= hi.
Proof. intros HM H. induction H as [|v vs Hv _ IH]; cbn [fold_right]; lia. Qed.

Section Pruning.

Variables S_ROWS S_COLS : nat.
Variable self : MinimaxPlayer.

(** The scores of [evaluate] fit a [long]. *)
Hypothesis Hfit : 4000 * Z.of_nat (S_ROWS * S_COLS) <= LONG_MAX.

Local Abbreviation cell := (board_at S_ROWS S_COLS).
Local Abbreviation in_range v := (LONG_MIN <= v <= LONG_MAX).

Lemma evaluate_score_range (b : Board) : in_range (snd (evaluate S_ROWS S_COLS b)).
Proof.
  unfold evaluate.
  destruct (scan_cells S_ROWS S_COLS b (cells S_ROWS S_COLS) 0) as [e|score] eqn:E.
  - apply scan_cells_inl in E as (t & -> & _). unfold LONG_MIN, LONG_MAX.
    destruct t; cbn; lia.
  - apply scan_cells_inr in E. rewrite cells_length in E.
    unfold LONG_MIN, LONG_MAX in *. destruct (isDraw S_ROWS S_COLS b); cbn [snd]; lia.
Qed.

Lemma minimax_children_range (recur : Board -> result Z) (currentTile : Tile)
  (positions : list Vec2i) (b : Board) (vs : list Z) :
  (forall b1 v1, recur b1 = Ok v1 -> in_range v1) ->
  minimax_children S_ROWS S_COLS recur currentTile positions b = Ok vs ->
  Forall (fun v => in_range v) vs.
Proof.
  intros Hrecur. revert vs.
  induction positions as [|p positions IH]; intros vs; cbn [minimax_children].
  - intros [= <-]. constructor.
  - destruct (recur _) as [v|f] eqn:E; cbn [bind]; [|discriminate].
    destruct (minimax_children _ _ _ _ _ _) as [vs'|f]; cbn [bind]; [|discriminate].
    intros [= <-]. constructor; [eapply Hrecur; eassumption | apply IH; reflexivity].
Qed.

Lemma minimax_range (fuel : nat) (b : Board) (depth : Z) (isEnemy : bool) (v : Z) :
  minimax S_ROWS S_COLS self fuel b depth isEnemy = Ok v -> in_range v.
Proof.
  revert b depth isEnemy v.
  induction fuel as [|fuel IH]; intros b depth isEnemy v; cbn [minimax]; [discriminate|].
  pose proof (evaluate_score_range b) as Hscore.
  destruct (evaluate S_ROWS S_COLS b) as [terminal score]. cbn [snd] in Hscore.
  destruct ((depth =? 0) || has_value terminal); [intros [= <-]; exact Hscore|].
  destruct (generateValidPositions S_ROWS S_COLS b) as [l|f]; cbn [bind]; [|discriminate].
  destruct (minimax_children _ _ _ _ _ _) as [vs|f] eqn:E; cbn [bind]; [|discriminate].
  apply minimax_children_range in E; [|intros b1 v1 H1; eapply IH; exact H1].
  assert (HM : in_range LONG_MIN /\ in_range LONG_MAX) by (unfold LONG_MIN, LONG_MAX; lia).
  intros [= <-].
  destruct (if Tile_eqb (m_tile self) Positive
            then if negb isEnemy then true else false
            else if negb isEnemy then false else true).
  - apply fold_max_range; [apply HM | exact E].
  - apply fold_min_range; [apply HM | exact E].
Qed.

Section Loops.

Variable recurAB : Board -> Z -> Z -> result SearchResult.
Variable recurM : Board -> result Z.
Variable currentTile : Tile.
Variable b : Board.
Hypothesis Hwf : Board_wf S_ROWS S_COLS b.
Hypothesis HrangeM : forall b1 v1, recurM b1 = Ok v1 -> in_range v1.
Hypothesis Hrecur : forall b1 alpha1 beta1 v1,
  Board_wf S_ROWS S_COLS b1 -> alpha1 < beta1 ->
  LONG_MIN <= alpha1 -> beta1 <= LONG_MAX ->
  recurM b1 = Ok v1 ->
  exists r m, recurAB b1 alpha1 beta1 = Ok (r, m, b1) /\ in_range r /\
              within_window v1 alpha1 beta1 r.

(** The maximising loop: [best] is the value kept so far, [M] the largest
    true value of the positions seen so far. *)
Lemma maximise_loop_value (alpha beta : Z) (positions : list Vec2i) (vs : list Z)
  (a best M : Z) (resultMove : Move) :
  (forall p, In p positions -> cell b p = Some Empty) ->
  minimax_children S_ROWS S_COLS recurM currentTile positions b = Ok vs ->
  LONG_MIN <= alpha -> beta <= LONG_MAX ->
  a = Z.max alpha best -> a < beta -> M < beta ->
  (M <= alpha -> best <= alpha) -> (alpha < M -> best = M) ->
  in_range best ->
  exists R m, maximise_loop S_ROWS S_COLS recurAB currentTile positions b a beta best
                resultMove = Ok (R, m, b) /\
              in_range R /\ within_window (fold_right Z.max M vs) alpha beta R.
Proof.
  intros Hcells Hvs Halpha Hbeta. revert vs a best M resultMove Hvs.
  induction positions as [|p positions IH];
    intros vs a best M resultMove Hvs Ha Hab HM Hlow Hhigh Hbest;
    cbn [minimax_children] in Hvs; cbn [maximise_loop].
  - injection Hvs as <-. cbn [fold_right]. exists best, resultMove.
    split; [reflexivity|]. split; [exact Hbest|]. unfold within_window. lia.
  - set (b1 := snd (place S_ROWS S_COLS b (mkMove p currentTile))) in *.
    destruct (recurM b1) as [v|f] eqn:Ev; cbn [bind] in Hvs; [|discriminate].
    destruct (minimax_children _ _ _ _ _ _) as [vs'|f] eqn:Evs; cbn [bind] in Hvs;
      [|discriminate].
    injection Hvs as <-. cbn [fold_right].
    pose proof (HrangeM _ _ Ev) as Hv.
    destruct (Hrecur b1 a beta v) as (r & m1 & -> & Hr & Hwin);
      [apply place_wf; exact Hwf | lia | lia | lia | exact Ev |].
    cbn [bind]. unfold b1.
    rewrite (place_remove_empty_cell S_ROWS S_COLS b (mkMove p currentTile))
      by (try exact Hwf; apply Hcells; left; reflexivity).
    rewrite gtb_max. unfold within_window in Hwin.
    destruct (Z.leb_spec beta (Z.max a r)) as [Hbreak | Hgo].
    + eexists _, _. split; [reflexivity|]. split; [lia|].
      assert (Hfold : M <= fold_right Z.max M vs'
                      \/ fold_right Z.max M vs' < M) by lia.
      unfold within_window. lia.
    + destruct (IH (fun q Hq => Hcells q (or_intror Hq)) vs' (Z.max a r) (Z.max best r)
                  (Z.max M v) (if r >? best then mkMove p currentTile else resultMove) eq_refl)
        as (R & m & -> & HR & Hw); try lia.
      exists R, m. split; [reflexivity|]. split; [exact HR|].
      rewrite fold_max_init in Hw. exact Hw.
Qed.

(** The minimising loop, likewise. *)
Lemma minimise_loop_value (alpha beta : Z) (positions : list Vec2i) (vs : list Z)
  (c best M : Z) (resultMove : Move) :
  (forall p, In p positions -> cell b p = Some Empty) ->
  minimax_children S_ROWS S_COLS recurM currentTile positions b = Ok vs ->
  LONG_MIN <= alpha -> beta <= LONG_MAX ->
  c = Z.min beta best -> alpha < c -> alpha < M ->
  (beta <= M -> beta <= best) -> (M < beta -> best = M) ->
  in_range best ->
  exists R m, minimise_loop S_ROWS S_COLS recurAB currentTile positions b alpha c best
                resultMove = Ok (R, m, b) /\
              in_range R /\ within_window (fold_right Z.min M vs) alpha beta R.
Proof.
  intros Hcells Hvs Halpha Hbeta. revert vs c best M resultMove Hvs.
  induction positions as [|p positions IH];
    intros vs c best M resultMove Hvs Hc Hac HM Hhigh Hlow Hbest;
    cbn [minimax_children] in Hvs; cbn [minimise_loop].
  - injection Hvs as <-. cbn [fold_right]. exists best, resultMove.
    split; [reflexivity|]. split; [exact Hbest|]. unfold within_window. lia.
  - set (b1 := snd (place S_ROWS S_COLS b (mkMove p currentTile))) in *.
    destruct (recurM b1) as [v|f] eqn:Ev; cbn [bind] in Hvs; [|discriminate].
    destruct (minimax_children _ _ _ _ _ _) as [vs'|f] eqn:Evs; cbn [bind] in Hvs;
      [|discriminate].
    injection Hvs as <-. cbn [fold_right].
    pose proof (HrangeM _ _ Ev) as Hv.
    destruct (Hrecur b1 alpha c v) as (r & m1 & -> & Hr & Hwin);
      [apply place_wf; exact Hwf | lia | lia | lia | exact Ev |].
    cbn [bind]. unfold b1.
    rewrite (place_remove_empty_cell S_ROWS S_COLS b (mkMove p currentTile))
      by (try exact Hwf; apply Hcells; left; reflexivity).
    rewrite ltb_min. unfold within_window in Hwin.
    destruct (Z.leb_spec (Z.min c r) alpha) as [Hbreak | Hgo].
    + eexists _, _. split; [reflexivity|]. split; [lia|].
      assert (Hfold : M <= fold_right Z.min M vs'
                      \/ fold_right Z.min M vs' < M) by lia.
      unfold within_window. lia.
    + destruct (IH (fun q Hq => Hcells q (or_intror Hq)) vs' (Z.min c r) (Z.min best r)
                  (Z.min M v) (if r <? best then mkMove p currentTile else resultMove) eq_refl)
        as (R & m & -> & HR & Hw); try lia.
      exists R, m. split; [reflexivity|]. split; [exact HR|].
      rewrite fold_min_init in Hw. exact Hw.
Qed.

End Loops.

(** The search with a window: where the board's subtree has a minimax
    value, [alphabeta] returns, leaves the board as it was, and its value
    is the minimax value if that lies inside the window and lies on the
    same side of the window if not. *)
Lemma alphabeta_window (fuel : nat) (b : Board) (alpha beta depth : Z) (isEnemy : bool)
  (v : Z) :
  Board_wf S_ROWS S_COLS b -> alpha < beta -> LONG_MIN <= alpha -> beta <= LONG_MAX ->
  minimax S_ROWS S_COLS self fuel b depth isEnemy = Ok v ->
  exists r m, alphabeta S_ROWS S_COLS self fuel b alpha beta depth isEnemy = Ok (r, m, b) /\
              in_range r /\ within_window v alpha beta r.
Proof.
  revert b alpha beta depth isEnemy v.
  induction fuel as [|fuel IH]; intros b alpha beta depth isEnemy v Hwf Hab Ha Hb;
    cbn [minimax alphabeta]; [discriminate|].
  pose proof (evaluate_score_range b) as Hscore.
  destruct (evaluate S_ROWS S_COLS b) as [terminal score] eqn:Ev. cbn [snd] in Hscore.
  destruct ((depth =? 0) || has_value terminal) eqn:Estop.
  { intros [= <-]. eexists _, _. split; [reflexivity|]. split; [exact Hscore|].
    unfold within_window. lia. }
  destruct (generated_positions S_ROWS S_COLS b) as [_ Hgen].
  destruct (generateValidPositions S_ROWS S_COLS b) as [l|f]; cbn [bind]; [|discriminate].
  destruct (Hgen l eq_refl) as [Hne Hl].
  assert (Hopen : isDraw S_ROWS S_COLS b = false).
  { apply evaluate_None_open. rewrite Ev. cbn [fst].
    destruct terminal; [|reflexivity]. rewrite orb_true_r in Estop. discriminate. }
  destruct l as [|p0 l]; [exfalso; apply (Hne Hopen); reflexivity|].
  cbn [vector_index nth_error bind].
  set (currentTile := if negb isEnemy then m_tile self else m_enemyTile self).
  destruct (minimax_children _ _ _ _ _ _) as [vs|f] eqn:Evs; cbn [bind]; [|discriminate].
  intros [= <-].
  assert (Hcells : forall p, In p (p0 :: l) -> cell b p = Some Empty)
    by (intros p Hp; apply Hl; exact Hp).
  assert (HrangeM : forall b1 v1,
            minimax S_ROWS S_COLS self fuel b1 (depth - 1) (negb isEnemy) = Ok v1 ->
            in_range v1) by (intros b1 v1 H1; eapply minimax_range; exact H1).
  assert (Hrecur : forall b1 alpha1 beta1 v1,
            Board_wf S_ROWS S_COLS b1 -> alpha1 < beta1 ->
            LONG_MIN <= alpha1 -> beta1 <= LONG_MAX ->
            minimax S_ROWS S_COLS self fuel b1 (depth - 1) (negb isEnemy) = Ok v1 ->
            exists r m,
              alphabeta S_ROWS S_COLS self fuel b1 alpha1 beta1 (depth - 1) (negb isEnemy)
                = Ok (r, m, b1) /\ in_range r /\ within_window v1 alpha1 beta1 r)
    by (intros; apply IH; assumption).
  assert (HM : in_range LONG_MIN /\ in_range LONG_MAX) by (unfold LONG_MIN, LONG_MAX; lia).
  destruct (if Tile_eqb (m_tile self) Positive
            then if negb isEnemy then true else false
            else if negb isEnemy then false else true).
  - apply (maximise_loop_value _ _ currentTile b Hwf HrangeM Hrecur alpha beta (p0 :: l) vs
             alpha LONG_MIN LONG_MIN); try assumption; try lia.
  - apply (minimise_loop_value _ _ currentTile b Hwf HrangeM Hrecur alpha beta (p0 :: l) vs
             beta LONG_MAX LONG_MAX); try assumption; try lia.
Qed.

(** X21. Pruning does not change the value: whenever the full search of
    the given depth has a minimax value, that is, the move generator
    completes on every board of it, [alphabeta] with the window from
    [LONG_MIN] to [LONG_MAX] returns exactly that value, and the board as
    it was. *)
Theorem alphabeta_minimax_value (fuel : nat) (b : Board) (depth : Z) (isEnemy : bool)
  (v : Z) :
  Board_wf S_ROWS S_COLS b ->
  minimax S_ROWS S_COLS self fuel b depth isEnemy = Ok v ->
  exists m, alphabeta S_ROWS S_COLS self fuel b LONG_MIN LONG_MAX depth isEnemy
            = Ok (v, m, b).
Proof.
  intros Hwf Hv. pose proof (minimax_range _ _ _ _ _ Hv) as Hrange.
  destruct (alphabeta_window fuel b LONG_MIN LONG_MAX depth isEnemy v)
    as (r & m & Hr & Hin & Hw); try assumption;
    try (unfold LONG_MIN, LONG_MAX; lia).
  exists m. rewrite Hr. unfold within_window in Hw.
  replace r with v; [reflexivity|]. lia.
Qed.

End Pruning.

Lemma board_fits_long : 4000 * Z.of_nat (6 * 7) <= LONG_MAX.
Proof. unfold LONG_MAX. cbn. lia. Qed.

Lemma minimax_depth_2_value :
  minimax 6 7 (minimax_positive 2) 3 board_three_positive 2 false = Ok LONG_MAX.
Proof. vm_compute. reflexivity. Qed.

Lemma alphabeta_minimax_value_witness :
  4000 * Z.of_nat (6 * 7) <= LONG_MAX /\
  Board_wf 6 7 board_three_positive /\
  minimax 6 7 (minimax_positive 2) 3 board_three_positive 2 false = Ok LONG_MAX /\
  exists m, alphabeta 6 7 (minimax_positive 2) 3 board_three_positive LONG_MIN LONG_MAX 2 false
            = Ok (LONG_MAX, m, board_three_positive).
Proof.
  split; [exact board_fits_long|]. split; [exact board_three_positive_wf|].
  split; [exact minimax_depth_2_value|].
  apply (alphabeta_minimax_value 6 7 (minimax_positive 2) board_fits_long 3
           board_three_positive 2 false LONG_MAX board_three_positive_wf
           minimax_depth_2_value).
Defined.

(** ** The hash of a move *)

(** X22. Whatever [std::hash<int>] is, moves that [operator==] takes for
    equal have the same hash, but the hash of a position does not tell its
    two coordinates apart: a position and its mirror image (x and y
    exchanged) collide, also as moves of the same tile, and every position
    on the diagonal hashes to 0. *)
Theorem hash_Move_collisions (hash_int : Z -> Z) (a b : Z) (t : Tile) :
  (forall m m', Move_eqb m m' = true -> hash_Move hash_int m = hash_Move hash_int m') /\
  hash_Vec2i hash_int (mkVec2i a b) = hash_Vec2i hash_int (mkVec2i b a) /\
  hash_Move hash_int (mkMove (mkVec2i a b) t) = hash_Move hash_int (mkMove (mkVec2i b a) t) /\
  hash_Vec2i hash_int (mkVec2i a a) = 0.
Proof.
  split; [|split; [|split]].
  - intros m m' H. apply Move_eqb_eq in H. subst m'. reflexivity.
  - unfold hash_Vec2i. cbn [x y]. apply Z.lxor_comm.
  - unfold hash_Move, hash_Vec2i. cbn [pos tile x y]. f_equal. apply Z.lxor_comm.
  - unfold hash_Vec2i. cbn [x y]. apply Z.lxor_nilpotent.
Qed.

(** ** The search ends, and how *)

Lemma safe_Ok {A : Type} (a : A) : safe (Ok a).
Proof. exact I. Qed.

Lemma safe_bind {A B : Type} (r : result A) (k : A -> result B) :
  safe r -> (forall a, r = Ok a -> safe (k a)) -> safe (bind r k).
Proof. intros Hr Hk. destruct r as [a|f]; cbn; [apply Hk; reflexivity | exact Hr]. Qed.

Lemma safe_sbind {A B : Type} (c : Sim A) (k : A -> Sim B) (t : Tree) :
  safe (c t) -> (forall a t1, c t = Ok (a, t1) -> safe (k a t1)) -> safe (sbind c k t).
Proof.
  intros Hc Hk. unfold sbind. destruct (c t) as [[a t1]|f]; [apply Hk; reflexivity | exact Hc].
Qed.

Lemma safe_lift {A : Type} (r : result A) (t : Tree) : safe r -> safe (lift r t).
Proof. destruct r; cbn; auto. Qed.

Lemma safe_deref (node : option nat) (t : Tree) : safe (deref node t).
Proof.
  unfold deref. destruct node as [i|]; [|right; reflexivity].
  destruct (nth_error (nodes t) i); [exact I | right; reflexivity].
Qed.

Lemma safe_store (node : option nat) (n : MonteCarloNode) (t : Tree) : safe (store node n t).
Proof. unfold store. destruct node; [exact I | right; reflexivity]. Qed.

Lemma safe_method {A : Type} (f : MonteCarloNode -> A * MonteCarloNode)
  (node : option nat) (t : Tree) : safe (method f node t).
Proof.
  unfold method. apply safe_sbind; [apply safe_deref|]. intros n t1 _.
  destruct (f n) as [a n']. apply safe_sbind; [apply safe_store|]. intros u t2 _. exact I.
Qed.

Lemma returns_or_reads_empty_safe {A : Type} (r : result A) :
  returns_or_reads_empty r -> safe r.
Proof. intros [[a ->] | ->]; [exact I | left; reflexivity]. Qed.

Lemma reads_empty_sbind {A B : Type} (c : Sim A) (k : A -> Sim B) (t : Tree) :
  returns_or_reads_empty (c t) ->
  (forall a t1, c t = Ok (a, t1) -> returns_or_reads_empty (k a t1)) ->
  returns_or_reads_empty (sbind c k t).
Proof.
  intros Hc Hk. unfold sbind. destruct (c t) as [[a t1]|f].
  - apply Hk. reflexivity.
  - destruct Hc as [[a H] | H]; [discriminate | right; congruence].
Qed.

Lemma filter_length_mono {A : Type} (f g : A -> bool) (l : list A) :
  (forall a, g a = true -> f a = true) ->
  (length (filter g l) <= length (filter f l))%nat.
Proof.
  intros Hfg. induction l as [|a l IH]; cbn [filter]; [lia|].
  destruct (g a) eqn:Eg; [rewrite (Hfg a Eg); cbn; lia|].
  destruct (f a); cbn; lia.
Qed.

Lemma filter_length_lt {A : Type} (f g : A -> bool) (l : list A) (a : A) :
  (forall a, g a = true -> f a = true) -> In a l -> f a = true -> g a = false ->
  (length (filter g l) < length (filter f l))%nat.
Proof.
  intros Hfg Hin Hf Hg. induction l as [|c l IH]; [destruct Hin|]. cbn [filter].
  destruct Hin as [-> | Hin].
  - rewrite Hf, Hg. cbn [length]. pose proof (filter_length_mono f g l Hfg). lia.
  - specialize (IH Hin). destruct (g c) eqn:Eg; [rewrite (Hfg c Eg); cbn; lia|].
    destruct (f c); cbn; lia.
Qed.

Section Endings.

Variables S_ROWS S_COLS : nat.

Local Abbreviation sound := (node_sound S_ROWS S_COLS).
Local Abbreviation cell := (board_at S_ROWS S_COLS).

Lemma safe_generateValidPositions (b : Board) :
  safe (generateValidPositions S_ROWS S_COLS b).
Proof. apply returns_or_reads_empty_safe. apply generated_positions. Qed.

Lemma empties_bound (b : Board) : (empties S_ROWS S_COLS b <= n_bits S_ROWS S_COLS)%nat.
Proof.
  unfold empties, n_bits. rewrite <- (cells_length S_ROWS S_COLS). apply List.filter_length_le.
Qed.

(** A piece on an empty cell leaves one empty cell less. *)
Lemma empties_with_piece (b : Board) (move : Move) :
  cell b (pos move) = Some Empty -> tile move <> Empty ->
  (empties S_ROWS S_COLS (with_piece S_ROWS S_COLS b move) < empties S_ROWS S_COLS b)%nat.
Proof.
  intros He Ht. pose proof (board_at_Some_valid _ _ _ _ _ He) as Hv.
  unfold empties. apply (filter_length_lt _ _ _ (pos move)).
  - intros q Hq. destruct (Vec2i_eqb q (pos move)) eqn:E.
    + apply Vec2i_eqb_eq in E. subst q. rewrite He. reflexivity.
    + rewrite with_piece_cell_other in Hq; [exact Hq | exact Hv |].
      intros ->. assert (Vec2i_eqb (pos move) (pos move) = true)
        by (apply Vec2i_eqb_eq; reflexivity). congruence.
  - apply cells_In. exact Hv.
  - rewrite He. reflexivity.
  - rewrite with_piece_cell_same by assumption. destruct (tile move); [reflexivity | contradiction | reflexivity].
Qed.

Lemma safe_Node_new (turn : Tile) (b : Board) : safe (Node_new S_ROWS S_COLS turn b).
Proof.
  unfold Node_new. apply safe_bind; [apply safe_generateValidPositions|]. intros l _. exact I.
Qed.

Lemma safe_Node_applyMove (n : MonteCarloNode) (move : Move) :
  safe (Node_applyMove S_ROWS S_COLS n move).
Proof.
  unfold Node_applyMove. destruct (place S_ROWS S_COLS (m_board n) move) as [[|] b']; [|exact I].
  apply safe_bind; [apply safe_generateValidPositions|]. intros l _. exact I.
Qed.

Variable rand : nat -> Z.

(** The playout policy on a board that is not terminal picks one of the
    generated positions. *)
Lemma playoutPolicy_pick (simNode : MonteCarloNode) (t : Tree) (moves : list Vec2i) :
  generateValidPositions S_ROWS S_COLS (m_board simNode) = Ok moves -> moves <> [] ->
  exists q, In q moves /\
    playoutPolicy S_ROWS S_COLS rand simNode t =
    Ok (mkMove q (m_turn simNode), mkTree (nodes t) (S (rand_calls t))).
Proof.
  intros Hgen Hne. unfold playoutPolicy, sbind, lift, call_rand. rewrite Hgen.
  destruct moves as [|p l]; [contradiction|].
  unfold vector_index.
  match goal with
  | |- context [nth_error ?v ?i] => destruct (nth_error v i) as [q|] eqn:Eq
  end.
  - exists q. split; [eapply nth_error_In; exact Eq | reflexivity].
  - exfalso. apply nth_error_None in Eq.
    assert (H : 0 < Z.of_nat (length (p :: l))) by (cbn [length]; lia).
    pose proof (Z.mod_pos_bound (rand (rand_calls t)) (Z.of_nat (length (p :: l))) H). lia.
Qed.

Lemma Node_applyMove_returns (n : MonteCarloNode) (move : Move) :
  returns_or_reads_empty (Node_applyMove S_ROWS S_COLS n move).
Proof.
  unfold Node_applyMove.
  destruct (place S_ROWS S_COLS (m_board n) move) as [[|] b']; [|left; eexists; reflexivity].
  destruct (generated_positions S_ROWS S_COLS (m_board (set_board n b'))) as [[[l ->] | ->] _];
    [left; eexists; reflexivity | right; reflexivity].
Qed.

Lemma playoutPolicy_returns (simNode : MonteCarloNode) (t : Tree) :
  fst (evaluate S_ROWS S_COLS (m_board simNode)) = None ->
  returns_or_reads_empty (playoutPolicy S_ROWS S_COLS rand simNode t) /\
  forall move t', playoutPolicy S_ROWS S_COLS rand simNode t = Ok (move, t') ->
    tile move = m_turn simNode /\
    exists l, generateValidPositions S_ROWS S_COLS (m_board simNode) = Ok l /\
              In (pos move) l.
Proof.
  intros Hopen. apply evaluate_None_open in Hopen.
  destruct (generated_positions S_ROWS S_COLS (m_board simNode)) as [Hret Hgen].
  destruct Hret as [[l Hl] | Hf].
  2:{ unfold playoutPolicy, sbind, lift. rewrite Hf. split; [right; reflexivity | discriminate]. }
  destruct (Hgen l Hl) as [Hne _]. specialize (Hne Hopen).
  destruct (playoutPolicy_pick simNode t l Hl Hne) as (q & Hq & ->).
  split; [left; eexists; reflexivity|]. intros move t' [= <- <-]. cbn [tile pos].
  split; [reflexivity|]. exists l. auto.
Qed.

(** The playout loop on a copy without children whose turn is a colour:
    it ends within one pass per empty cell and one more and throws
    nothing; the copy it ends with is flagged terminal, in agreement with
    [evaluate] on its board, and still has no children. *)
Lemma playout_loop_returns (fuel : nat) (simNode : MonteCarloNode) (t : Tree) :
  sound simNode -> children simNode = [] -> m_turn simNode <> Empty ->
  (empties S_ROWS S_COLS (m_board simNode) < fuel)%nat ->
  returns_or_reads_empty (playout_loop S_ROWS S_COLS rand fuel simNode t) /\
  forall final t', playout_loop S_ROWS S_COLS rand fuel simNode t = Ok (final, t') ->
    children final = [] /\ sound final /\ m_isTerminal final = true.
Proof.
  revert simNode t. induction fuel as [|fuel IH]; intros simNode t Hs Hc Ht Hfuel; [lia|].
  cbn [playout_loop].
  pose proof (Node_isTerminal_sound S_ROWS S_COLS simNode Hs) as Hs1.
  destruct (Node_isTerminal_frame S_ROWS S_COLS simNode)
    as (Hflag & (Hb1 & Ht1 & _ & Hc1) & _ & _ & _ & _ & _ & Hterm).
  cbn zeta in *. specialize (Hterm (sound_terminal _ _ _ Hs)). destruct Hterm as [Hterm _].
  destruct (Node_isTerminal S_ROWS S_COLS simNode) as [terminal simNode1].
  cbn [fst snd] in *. subst terminal.
  destruct (m_isTerminal simNode1) eqn:Eterm; cbn [negb].
  { split; [left; eexists; reflexivity|]. intros final t' [= <- _].
    split; [congruence|]. split; assumption. }
  assert (Hopen : fst (evaluate S_ROWS S_COLS (m_board simNode1)) = None).
  { destruct (fst (evaluate S_ROWS S_COLS (m_board simNode1))); [discriminate | reflexivity]. }
  destruct (playoutPolicy_returns simNode1 t Hopen) as [Hsafe Hmove].
  assert (Hrest : forall move t1,
            playoutPolicy S_ROWS S_COLS rand simNode1 t = Ok (move, t1) ->
            returns_or_reads_empty
              ((' (applied, simNode2) <~
                   lift (Node_applyMove S_ROWS S_COLS simNode1 move) ;;
                 (if negb applied then lift (Fault ExceptionThrown)
                  else playout_loop S_ROWS S_COLS rand fuel simNode2)) t1) /\
            forall final t',
              (' (applied, simNode2) <~
                  lift (Node_applyMove S_ROWS S_COLS simNode1 move) ;;
                (if negb applied then lift (Fault ExceptionThrown)
                 else playout_loop S_ROWS S_COLS rand fuel simNode2)) t1 = Ok (final, t') ->
              children final = [] /\ sound final /\ m_isTerminal final = true).
  { intros move t1 Hpol. destruct (Hmove move t1 Hpol) as (Htile & l & Hgen & Hpos).
    destruct (generated_positions S_ROWS S_COLS (m_board simNode1)) as [_ Hplay].
    destruct (Hplay l Hgen) as [_ Hl]. destruct (Hl _ Hpos) as [He Hbelow].
    assert (Hplace : place S_ROWS S_COLS (m_board simNode1) move =
                     (true, with_piece S_ROWS S_COLS (m_board simNode1) move)).
    { destruct move as [p tl]. cbn [tile pos] in *. subst tl.
      apply playable_place; try assumption. congruence. }
    unfold sbind at 1, lift at 1.
    pose proof (Node_applyMove_returns simNode1 move) as Hsafe_apply.
    destruct (Node_applyMove S_ROWS S_COLS simNode1 move) as [[applied simNode2]|f] eqn:Eapply.
    2:{ unfold sbind at 1, lift at 1. split; [|discriminate].
        destruct Hsafe_apply as [[a H] | H]; [discriminate | right; congruence]. }
    apply Node_applyMove_sound in Eapply
      as (Hs2 & Hok & Hb2 & Ht2 & Hc2 & _); [| exact Hs1 | exact Eterm | congruence].
    rewrite Hplace in Hok, Hb2. cbn [fst snd] in Hok, Hb2. subst applied. cbn [negb].
    apply IH; try assumption.
    - rewrite Ht2, Ht1. destruct (m_turn simNode); [discriminate | contradiction | discriminate].
    - rewrite Hb2.
      assert (Hlt : (empties S_ROWS S_COLS (with_piece S_ROWS S_COLS (m_board simNode1) move)
                     < empties S_ROWS S_COLS (m_board simNode1))%nat).
      { apply empties_with_piece; [exact He|]. rewrite Htile, Ht1. exact Ht. }
      rewrite <- Hb1 in Hfuel. lia. }
  split.
  - apply reads_empty_sbind; [exact Hsafe|]. intros move t1 Hpol. apply (Hrest move t1 Hpol).
  - intros final t' H. sim_bind H move t1 Hpol. apply (Hrest move t1 Hpol) in H. exact H.
Qed.

Lemma playout_loop_safe (fuel : nat) (simNode : MonteCarloNode) (t : Tree) :
  sound simNode -> children simNode = [] -> m_turn simNode <> Empty ->
  (empties S_ROWS S_COLS (m_board simNode) < fuel)%nat ->
  safe (playout_loop S_ROWS S_COLS rand fuel simNode t) /\
  forall final t', playout_loop S_ROWS S_COLS rand fuel simNode t = Ok (final, t') ->
    children final = [].
Proof.
  intros Hs Hc Ht Hfuel.
  destruct (playout_loop_returns fuel simNode t Hs Hc Ht Hfuel) as [Hret Hfinal].
  split; [apply returns_or_reads_empty_safe; exact Hret|].
  intros final t' H. apply Hfinal in H. apply H.
Qed.

(** X23. The random playout on a copy of a node whose turn is a colour:
    the loop ends within its bound of one pass per cell and two more, the
    [throw] after a refused move is never reached, [rand() % moves.size()]
    never divides by zero and the index is inside the vector; the copy it
    ends with is flagged terminal with the win state that [evaluate] gives
    for its board, and the store of nodes is as before. The one way out
    besides is the move generator reading [back()] of an empty vector. *)
Theorem playout_loop_ends (simNode : MonteCarloNode) (t : Tree) :
  sound simNode -> children simNode = [] -> m_turn simNode <> Empty ->
  (exists final t',
     playout_loop S_ROWS S_COLS rand (S (S (n_bits S_ROWS S_COLS))) simNode t
       = Ok (final, t') /\
     m_isTerminal final = true /\
     fst (evaluate S_ROWS S_COLS (m_board final)) = Some (m_winState final) /\
     nodes t' = nodes t) \/
  playout_loop S_ROWS S_COLS rand (S (S (n_bits S_ROWS S_COLS))) simNode t
    = Fault BackOfEmptyVector.
Proof.
  intros Hs Hc Ht.
  destruct (playout_loop_returns (S (S (n_bits S_ROWS S_COLS))) simNode t Hs Hc Ht)
    as [Hret Hfinal].
  { pose proof (empties_bound (m_board simNode)). lia. }
  destruct Hret as [[[final t'] H] | H]; [left | right; exact H].
  destruct (Hfinal _ _ H) as (_ & Hsf & Hterm).
  exists final, t'. split; [exact H|]. split; [exact Hterm|].
  split; [apply (sound_terminal _ _ _ Hsf); exact Hterm|].
  eapply playout_loop_nodes. exact H.
Qed.

End Endings.

(** *** The phases of one simulation end well *)

Lemma umap_find_key (m : list (Move * nat)) (k : Move) :
  In k (map fst m) -> exists v, umap_find m k = Some v.
Proof.
  induction m as [|[k' v'] m IH]; cbn; [intros []|].
  destruct (Move_eqb k' k) eqn:E; [intros _; eexists; reflexivity|].
  intros [-> | Hin]; [|apply IH; exact Hin].
  assert (Move_eqb k k = true) by (apply Move_eqb_eq; reflexivity). congruence.
Qed.

Section SafePhases.

Variables S_ROWS S_COLS : nat.
Variable fl : FloatOps.
Variable umap_order : list Move -> list Move.
Variable rand : nat -> Z.
Variable self : MonteCarloPlayer.
Variable b0 : Board.
Variable turn0 : Tile.

(** The iteration over a map visits keys of the map only. *)
Hypothesis Horder : forall keys m, In m (umap_order keys) -> In m keys.
Hypothesis Hturn : turn0 <> Empty.

Local Abbreviation sound := (node_sound S_ROWS S_COLS).
Local Abbreviation tree := (game_tree S_ROWS S_COLS b0 turn0).

Lemma safe_createChild (this : option nat) (move : Move) (t : Tree) :
  safe (createChild S_ROWS S_COLS this move t).
Proof.
  unfold createChild.
  apply safe_sbind; [apply safe_deref|]. intros n t1 _.
  apply safe_sbind; [apply safe_lift, safe_Node_new|]. intros made t2 _.
  apply safe_sbind; [exact I|]. intros newNode t3 _.
  apply safe_sbind; [apply safe_lift, safe_Node_applyMove|]. intros [ok applied] t4 _.
  apply safe_sbind; [apply safe_store|]. intros u t5 _.
  apply safe_sbind; [apply safe_deref|]. intros n' t6 _.
  apply safe_sbind; [apply safe_store|]. intros u' t7 _. exact I.
Qed.

Lemma safe_getChildForMove (node : option nat) (move : Move) (t : Tree) :
  safe (getChildForMove node move t).
Proof.
  unfold getChildForMove. apply safe_sbind; [apply safe_deref|]. intros n t1 _. exact I.
Qed.

Lemma safe_getExpandedMoves (node : option nat) (t : Tree) :
  safe (getExpandedMoves umap_order node t).
Proof.
  unfold getExpandedMoves. apply safe_sbind; [apply safe_deref|]. intros n t1 _. exact I.
Qed.

Lemma safe_expand_loop (node : option nat) (turn : Tile) (positions : list Vec2i) (t : Tree) :
  safe (expand_loop S_ROWS S_COLS node turn positions t).
Proof.
  induction positions as [|p positions IH]; cbn [expand_loop]; [exact I|].
  apply safe_sbind; [apply safe_getChildForMove|]. intros found t1 Hfound.
  apply getChildForMove_Ok in Hfound as [-> _].
  destruct found; [exact IH|].
  apply safe_sbind; [apply safe_createChild|]. intros child t2 _. exact I.
Qed.

Lemma safe_expand (node : option nat) (t : Tree) : safe (expand S_ROWS S_COLS node t).
Proof.
  unfold expand. apply safe_sbind; [apply safe_deref|]. intros n t1 _.
  apply safe_sbind; [apply safe_lift, safe_generateValidPositions|]. intros l t2 _.
  apply safe_expand_loop.
Qed.

(** [expand] returns a null pointer or a node without children. *)
Lemma expand_loop_leaf (node : option nat) (turn : Tile) (positions : list Vec2i)
  (leaf : option nat) (t t' : Tree) :
  tree (nodes t) ->
  expand_loop S_ROWS S_COLS node turn positions t = Ok (leaf, t') ->
  leaf = None \/
  exists c n, leaf = Some c /\ nth_error (nodes t') c = Some n /\ children n = [].
Proof.
  intros Ht. induction positions as [|p positions IH]; intros H; cbn [expand_loop] in H.
  - apply ret_Ok in H as [-> _]. left. reflexivity.
  - sim_bind H found t1 Hfound.
    apply getChildForMove_Ok in Hfound as [-> (i & n & -> & Hn & ->)].
    destruct (umap_find (children n) (mkMove p turn)) as [c|] eqn:Hfind; [apply IH; exact H|].
    sim_bind H child t1 Hchild. apply ret_Ok in H as [-> ->].
    apply createChild_Ok in Hchild
      as (j & m & made & ok & applied & Hj & Hm & Hmade & Happly & -> & Hnodes).
    2:{ intros j m [= <-] Hm. congruence. }
    injection Hj as <-. rewrite Hn in Hm. injection Hm as <-.
    apply Node_new_sound in Hmade as (Hs & _ & _ & Hterm & Hc & _).
    apply Node_applyMove_sound in Happly as (_ & _ & _ & _ & Hac & _); try assumption.
    right. exists (length (nodes t)), (set_parent applied (Some i)).
    split; [reflexivity|]. split; [|exact Hac].
    rewrite Hnodes, (add_child_nth _ _ _ _ _ Hn).
    assert (Hi : (i < length (nodes t))%nat) by (apply nth_error_Some; congruence).
    destruct (Nat.eqb_spec (length (nodes t)) i) as [E | _]; [lia|].
    rewrite Nat.eqb_refl. reflexivity.
Qed.

Lemma expand_leaf (node leaf : option nat) (t t' : Tree) :
  tree (nodes t) ->
  expand S_ROWS S_COLS node t = Ok (leaf, t') ->
  leaf = None \/
  exists c n, leaf = Some c /\ nth_error (nodes t') c = Some n /\ children n = [].
Proof.
  intros Ht H. unfold expand in H.
  sim_bind H n t1 Hn. apply deref_Ok in Hn as [-> _].
  sim_bind H positions t1 Hpos. apply lift_Ok in Hpos as [_ ->].
  eapply expand_loop_leaf; eassumption.
Qed.

(** [bestUCT]: every move of the iteration has its child, and the pair
    returned holds a null pointer or a child of the node. *)
Lemma safe_bestUCT_loop (i : nat) (n : MonteCarloNode) (moves : list Move)
  (maxVal : F fl) (res : Move * option nat) (t : Tree) :
  nth_error (nodes t) i = Some n ->
  (forall m, In m moves -> In m (map fst (children n))) ->
  safe (bestUCT_loop fl self (Some i) moves maxVal res t).
Proof.
  intros Hn. revert maxVal res.
  induction moves as [|move moves IH]; intros maxVal res Hmoves; cbn [bestUCT_loop];
    [exact I|].
  apply safe_sbind; [apply safe_getChildForMove|]. intros found t1 Hfound.
  apply getChildForMove_Ok in Hfound as [-> (j & m & Hj & Hm & ->)].
  injection Hj as <-. rewrite Hn in Hm. injection Hm as <-.
  destruct (umap_find_key (children n) move) as [c ->]; [apply Hmoves; left; reflexivity|].
  apply safe_sbind; [exact I|]. intros child t1 Hchild. apply lift_Ok in Hchild as [_ ->].
  apply safe_sbind; [apply safe_deref|]. intros cn t1 Hc. apply deref_Ok in Hc as [-> _].
  apply safe_sbind; [apply safe_deref|]. intros pn t1 Hp. apply deref_Ok in Hp as [-> _].
  destruct (F_gt fl _ maxVal); apply IH; intros m Hm'; apply Hmoves; right; exact Hm'.
Qed.

Lemma safe_bestUCT (node : option nat) (t : Tree) :
  safe (bestUCT fl umap_order self node t).
Proof.
  unfold bestUCT. apply safe_sbind; [apply safe_getExpandedMoves|]. intros moves t1 Hmoves.
  unfold getExpandedMoves in Hmoves.
  sim_bind Hmoves n t2 Hn. apply deref_Ok in Hn as [-> (i & -> & Hn)].
  apply ret_Ok in Hmoves as [-> ->].
  apply (safe_bestUCT_loop i n); [exact Hn|]. intros m Hm. apply Horder in Hm. exact Hm.
Qed.

Lemma bestUCT_loop_child (i : nat) (n : MonteCarloNode) (moves : list Move)
  (maxVal : F fl) (res best : Move * option nat) (t t' : Tree) :
  nth_error (nodes t) i = Some n ->
  (snd res = None \/ exists c, snd res = Some c /\ In (fst res, c) (children n)) ->
  bestUCT_loop fl self (Some i) moves maxVal res t = Ok (best, t') ->
  snd best = None \/ exists c, snd best = Some c /\ In (fst best, c) (children n).
Proof.
  intros Hn. revert maxVal res.
  induction moves as [|move moves IH]; intros maxVal res Hres H; cbn [bestUCT_loop] in H.
  - apply ret_Ok in H as [-> _]. exact Hres.
  - sim_bind H found t1 Hfound.
    apply getChildForMove_Ok in Hfound as [-> (j & m & Hj & Hm & ->)].
    injection Hj as <-. rewrite Hn in Hm. injection Hm as <-.
    sim_bind H child t1 Hchild. apply lift_Ok in Hchild as [Hchild ->].
    destruct (umap_find (children n) move) as [c|] eqn:Hfind; [|discriminate].
    injection Hchild as <-.
    sim_bind H cn t1 Hc. apply deref_Ok in Hc as [-> _].
    sim_bind H pn t1 Hp. apply deref_Ok in Hp as [-> _].
    destruct (F_gt fl _ maxVal); eapply IH; try exact H; try exact Hres.
    right. exists c. split; [reflexivity|]. apply umap_find_Some. exact Hfind.
Qed.

Lemma bestUCT_child (i : nat) (n : MonteCarloNode) (best : Move * option nat) (t t' : Tree) :
  nth_error (nodes t) i = Some n ->
  bestUCT fl umap_order self (Some i) t = Ok (best, t') ->
  snd best = None \/ exists c, snd best = Some c /\ In (fst best, c) (children n).
Proof.
  intros Hn H. unfold bestUCT in H.
  sim_bind H moves t1 Hmoves. apply getExpandedMoves_Ok in Hmoves as ->.
  eapply bestUCT_loop_child; [exact Hn | | exact H]. left. reflexivity.
Qed.

(** A child lies above its node in the store. *)
Lemma child_above (h : list MonteCarloNode) (i c : nat) (n : MonteCarloNode) (m : Move) :
  linked h -> tree h -> nth_error h i = Some n -> In (m, c) (children n) ->
  (i < c < length h)%nat.
Proof.
  intros Hl Ht Hn Hin.
  destruct (tree_edges _ _ _ _ _ Ht i n m c Hn Hin) as (n' & Hc & Hp & _).
  assert (Hlen : (c < length h)%nat) by (apply nth_error_Some; congruence).
  split; [|exact Hlen].
  destruct c as [|c].
  - destruct (linked_root _ Hl) as (r & Hr & Hrp). congruence.
  - destruct (linked_parent _ Hl (S c) n' Hc) as (p & Hp' & Hlt); [lia|].
    rewrite Hp in Hp'. injection Hp' as <-. exact Hlt.
Qed.

(** The state of a node after the call of a member function on it. *)
Lemma isTerminal_flag (node : option nat) (a : bool) (t t' : Tree) :
  tree (nodes t) -> isTerminal S_ROWS S_COLS node t = Ok (a, t') ->
  length (nodes t') = length (nodes t) /\
  exists i n n', node = Some i /\ nth_error (nodes t) i = Some n /\
    nth_error (nodes t') i = Some n' /\
    m_isTerminal n' = a /\ children n' = children n /\
    (m_isTerminal n = true -> a = true).
Proof.
  intros Ht H. pose proof H as H'. unfold isTerminal, method in H'.
  sim_bind H' n0 t1 Hn0. apply deref_Ok in Hn0 as [-> _].
  destruct (Node_isTerminal S_ROWS S_COLS n0) as [a0 n0'].
  sim_bind H' u t2 Hstore. apply ret_Ok in H' as [_ ->].
  apply store_Ok in Hstore as (j & _ & Hnodes & _).
  split; [rewrite Hnodes; apply length_list_set|].
  eapply method_game_tree in H as [_ (i & n & -> & Hn & -> & Hn')]; [| |exact Ht].
  2:{ intros m Hs. split; [apply Node_isTerminal_frame | apply Node_isTerminal_sound; exact Hs]. }
  destruct (Node_isTerminal_frame S_ROWS S_COLS n) as (Hflag & (_ & _ & _ & Hc) & _).
  exists i, n, (snd (Node_isTerminal S_ROWS S_COLS n)).
  repeat split; try assumption; try (symmetry; assumption).
  intros Hterm. unfold Node_isTerminal. rewrite Hterm. reflexivity.
Qed.

Lemma isFullyExpanded_length (node : option nat) (a : bool) (t t' : Tree) :
  isFullyExpanded node t = Ok (a, t') -> length (nodes t') = length (nodes t).
Proof.
  intros H. unfold isFullyExpanded, method in H.
  sim_bind H n0 t1 Hn0. apply deref_Ok in Hn0 as [-> _].
  destruct (Node_isFullyExpanded n0) as [a0 n0'].
  sim_bind H u t2 Hstore. apply ret_Ok in H as [_ ->].
  apply store_Ok in Hstore as (j & _ & Hnodes & _).
  rewrite Hnodes. apply length_list_set.
Qed.

(** The descent of [traverse] ends: every step moves to a node allocated
    later. *)
Lemma safe_traverse_loop (fuel : nat) (node : option nat) (res : Move * option nat)
  (t : Tree) :
  linked (nodes t) -> tree (nodes t) ->
  match node with
  | Some i => (length (nodes t) - i < fuel)%nat
  | None => (0 < fuel)%nat
  end ->
  safe (traverse_loop S_ROWS S_COLS fl umap_order self fuel node res t).
Proof.
  revert node res t. induction fuel as [|fuel IH]; intros node res t Hl Ht Hfuel.
  { destruct node; lia. }
  cbn [traverse_loop].
  apply safe_sbind; [apply safe_method|]. intros terminal t1 Hterm.
  pose proof (isTerminal_flag _ _ _ _ Ht Hterm) as (Hlen1 & i & n & n1 & -> & Hn & Hn1 & _).
  pose proof (isTerminal_game_tree _ _ _ _ _ _ _ _ Ht Hterm) as Ht1.
  apply isTerminal_stable in Hterm as [Hs1 _]; [|exact Hl].
  pose proof (stable_linked _ _ Hs1) as Hl1.
  destruct terminal; cbn [negb]; [exact I|].
  apply safe_sbind; [apply safe_method|]. intros full t2 Hfull.
  pose proof (isFullyExpanded_length _ _ _ _ Hfull) as Hlen2.
  pose proof (isFullyExpanded_game_tree _ _ _ _ _ _ _ _ Ht1 Hfull) as Ht2.
  apply isFullyExpanded_stable in Hfull as Hs2; [|exact Hl1].
  pose proof (stable_linked _ _ Hs2) as Hl2.
  destruct full; cbn [negb]; [|apply safe_expand].
  apply safe_sbind; [apply safe_bestUCT|]. intros best t3 Hbest.
  pose proof (bestUCT_nodes _ _ _ _ _ _ _ Hbest) as ->.
  assert (Hi : (i < length (nodes t))%nat) by (apply nth_error_Some; congruence).
  assert (Hn2 : exists n2, nth_error (nodes t2) i = Some n2).
  { destruct (nth_error (nodes t2) i) eqn:E; [eexists; reflexivity|].
    apply nth_error_None in E. lia. }
  destruct Hn2 as [n2 Hn2].
  apply (bestUCT_child i n2) in Hbest as [Hnone | (c & Hc & Hin)]; [| |exact Hn2].
  - apply IH; try assumption. rewrite Hnone. lia.
  - apply IH; try assumption. rewrite Hc.
    pose proof (child_above _ _ _ _ _ Hl2 Ht2 Hn2 Hin). lia.
Qed.

(** The leaf that [traverse] returns is a null pointer, a node without
    children, or a node flagged terminal. *)
Lemma traverse_loop_leaf (fuel : nat) (node : option nat) (res : Move * option nat)
  (leaf : option nat) (t t' : Tree) :
  tree (nodes t) ->
  snd res = None \/ snd res = node ->
  traverse_loop S_ROWS S_COLS fl umap_order self fuel node res t = Ok (leaf, t') ->
  leaf = None \/
  exists c n, leaf = Some c /\ nth_error (nodes t') c = Some n /\
              (children n = [] \/ m_isTerminal n = true).
Proof.
  revert node res t. induction fuel as [|fuel IH]; intros node res t Ht Hres H;
    cbn [traverse_loop] in H.
  - apply lift_Ok in H as [H _]. discriminate.
  - sim_bind H terminal t1 Hterm.
    pose proof (isTerminal_flag _ _ _ _ Ht Hterm) as (_ & i & n & n1 & -> & Hn & Hn1 & Hflag & _).
    pose proof (isTerminal_game_tree _ _ _ _ _ _ _ _ Ht Hterm) as Ht1.
    destruct terminal; cbn [negb] in H.
    + apply ret_Ok in H as [-> ->].
      destruct Hres as [-> | ->]; [left; reflexivity|].
      right. exists i, n1. auto.
    + sim_bind H full t2 Hfull.
      pose proof (isFullyExpanded_game_tree _ _ _ _ _ _ _ _ Ht1 Hfull) as Ht2.
      destruct full; cbn [negb] in H.
      * sim_bind H best t3 Hbest. pose proof (bestUCT_nodes _ _ _ _ _ _ _ Hbest) as ->.
        eapply IH; [exact Ht2 | | exact H]. right. reflexivity.
      * apply expand_leaf in H; [|exact Ht2].
        destruct H as [-> | (c & m & -> & Hm & Hc)]; [left; reflexivity|].
        right. exists c, m. auto.
Qed.

(** [playout] on such a leaf ends with one of the three outcomes. *)
Lemma safe_playout (node : option nat) (t : Tree) :
  tree (nodes t) ->
  (node = None \/
   exists c n, node = Some c /\ nth_error (nodes t) c = Some n /\
               (children n = [] \/ m_isTerminal n = true)) ->
  safe (playout S_ROWS S_COLS rand node t).
Proof.
  intros Ht Hleaf. unfold playout.
  apply safe_sbind; [apply safe_method|]. intros terminal t1 Hterm.
  pose proof (isTerminal_flag _ _ _ _ Ht Hterm)
    as (_ & i & n & n1 & -> & Hn & Hn1 & Hflag & Hch & Hkeep).
  pose proof (isTerminal_game_tree _ _ _ _ _ _ _ _ Ht Hterm) as Ht1.
  destruct terminal; [apply safe_method|].
  apply safe_sbind; [apply safe_deref|]. intros m t2 Hm.
  apply deref_Ok in Hm as [-> (j & Hj & Hm)]. injection Hj as <-.
  rewrite Hn1 in Hm. injection Hm as <-.
  assert (Hc1 : children n1 = []).
  { destruct Hleaf as [H | (c & m & Hc & Hm & [H | H])]; [discriminate | |].
    - injection Hc as <-. rewrite Hn in Hm. injection Hm as <-. congruence.
    - injection Hc as <-. rewrite Hn in Hm. injection Hm as <-.
      specialize (Hkeep H). discriminate. }
  pose proof (tree_nodes _ _ _ _ _ Ht1 i n1 Hn1) as Hs1.
  pose proof (tree_turns _ _ _ _ _ Ht1 Hturn i n1 Hn1) as Hturn1.
  destruct (playout_loop_safe S_ROWS S_COLS rand (S (S (n_bits S_ROWS S_COLS))) n1 t1)
    as [Hsafe Hfinal]; try assumption.
  { pose proof (empties_bound S_ROWS S_COLS (m_board n1)). lia. }
  apply safe_sbind; [exact Hsafe|]. intros simNode t2 Hloop.
  specialize (Hfinal _ _ Hloop).
  unfold Node_getWinState. cbv beta iota zeta.
  destruct (Node_isTerminal_frame S_ROWS S_COLS simNode) as (_ & (_ & _ & _ & Hc2) & _).
  cbn zeta in Hc2. cbn [fst snd]. rewrite Hc2, Hfinal. exact I.
Qed.

Lemma safe_update_counts (node : option nat) (r : Z) (t : Tree) :
  safe (update_counts self node r t).
Proof.
  unfold update_counts. apply safe_sbind; [apply safe_deref|]. intros n t1 _. apply safe_store.
Qed.

(** The walk of [backpropagate] ends: every step moves to a node
    allocated earlier. *)
Lemma safe_backpropagate_loop (fuel : nat) (node : option nat) (r : Z) (t : Tree) :
  linked (nodes t) ->
  match node with
  | Some i => (i < fuel)%nat
  | None => (0 < fuel)%nat
  end ->
  safe (backpropagate_loop self fuel node r t).
Proof.
  revert node t. induction fuel as [|fuel IH]; intros node t Hl Hfuel.
  { destruct node; lia. }
  cbn [backpropagate_loop].
  apply safe_sbind; [apply safe_deref|]. intros n t1 Hn.
  apply deref_Ok in Hn as [-> (i & -> & Hn)].
  destruct (m_parent n) as [p|] eqn:Hp; [|apply safe_update_counts].
  apply safe_sbind; [apply safe_update_counts|]. intros u t1 Hupd.
  apply update_counts_Ok in Hupd as (j & m & n' & Hj & Hm & Hlinks & _ & Hnodes).
  injection Hj as <-. rewrite Hn in Hm. injection Hm as <-.
  apply IH.
  - rewrite Hnodes. apply (linked_list_set _ _ n); assumption.
  - destruct i as [|i].
    + destruct (linked_root _ Hl) as (r0 & Hr0 & Hrp). congruence.
    + destruct (linked_parent _ Hl (S i) n Hn) as (p' & Hp' & Hlt); [lia|].
      rewrite Hp in Hp'. injection Hp' as <-. lia.
Qed.

(** One pass of the simulation loop. *)
Lemma safe_simulation (t : Tree) :
  linked (nodes t) -> tree (nodes t) ->
  safe (simulation S_ROWS S_COLS fl umap_order rand self (Some 0%nat) t).
Proof.
  intros Hl Ht. unfold simulation.
  apply safe_sbind.
  { unfold traverse. apply safe_sbind; [exact I|]. intros k t1 Hk.
    unfold node_count in Hk. injection Hk as <- <-.
    apply safe_traverse_loop; try assumption. lia. }
  intros leaf t1 Htrav.
  pose proof (traverse_game_tree _ _ _ _ _ _ _ _ _ _ _ Ht Htrav) as Ht1.
  assert (Hleaf : leaf = None \/
            exists c n, leaf = Some c /\ nth_error (nodes t1) c = Some n /\
                        (children n = [] \/ m_isTerminal n = true)).
  { unfold traverse in Htrav. sim_bind Htrav k t2 Hk.
    unfold node_count in Hk. injection Hk as <- <-.
    eapply traverse_loop_leaf; [exact Ht | | exact Htrav]. left. reflexivity. }
  apply traverse_stable in Htrav as [Hs1 _]; [|exact Hl].
  pose proof (stable_linked _ _ Hs1) as Hl1.
  apply safe_sbind; [apply safe_playout; assumption|]. intros results t2 Hplay.
  pose proof (playout_game_tree _ _ _ _ _ _ _ _ _ Ht1 Hplay) as [Ht2 (w & -> & Hw)].
  apply playout_stable in Hplay as [Hs2 (c & -> & Hc)]; [|exact Hl1].
  pose proof (stable_linked _ _ Hs2) as Hl2.
  apply safe_sbind; [exact I|]. intros r t3 Hr. apply lift_Ok in Hr as [_ ->].
  unfold backpropagate. apply safe_sbind; [exact I|]. intros k t3 Hk.
  unfold node_count in Hk. injection Hk as <- <-.
  apply safe_backpropagate_loop; [exact Hl2|].
  destruct Hs2 as (_ & Hlen & _). lia.
Qed.

Lemma safe_simulations (count : nat) (t : Tree) :
  linked (nodes t) -> tree (nodes t) ->
  safe (simulations S_ROWS S_COLS fl umap_order rand self count (Some 0%nat) t).
Proof.
  revert t. induction count as [|count IH]; intros t Hl Ht; cbn [simulations]; [exact I|].
  apply safe_sbind; [apply safe_simulation; assumption|]. intros u t1 Hsim.
  apply IH.
  - apply simulation_counts in Hsim as [H _]; assumption.
  - eapply simulation_game_tree; eassumption.
Qed.

Lemma safe_mostVisited_loop (root : MonteCarloNode) (moves : list Move) (floor : Z)
  (res : Move) (t : Tree) :
  nth_error (nodes t) 0 = Some root ->
  (forall m, In m moves -> In m (map fst (children root))) ->
  safe (mostVisited_loop (Some 0%nat) moves floor res t).
Proof.
  intros Hroot. revert floor res.
  induction moves as [|move moves IH]; intros floor res Hmoves; cbn [mostVisited_loop];
    [exact I|].
  apply safe_sbind; [apply safe_getChildForMove|]. intros found t1 Hfound.
  apply getChildForMove_Ok in Hfound as [-> (j & m & Hj & Hm & ->)].
  injection Hj as <-. rewrite Hroot in Hm. injection Hm as <-.
  destruct (umap_find_key (children root) move) as [c ->]; [apply Hmoves; left; reflexivity|].
  apply safe_sbind; [exact I|]. intros child t1 Hchild. apply lift_Ok in Hchild as [_ ->].
  apply safe_sbind; [apply safe_deref|]. intros cn t1 Hc. apply deref_Ok in Hc as [-> _].
  destruct (visits cn >? floor); apply IH; intros m Hm'; apply Hmoves; right; exact Hm'.
Qed.

Lemma safe_mostVisited (t : Tree) : safe (mostVisited umap_order (Some 0%nat) t).
Proof.
  unfold mostVisited. apply safe_sbind; [apply safe_getExpandedMoves|]. intros moves t1 Hmoves.
  unfold getExpandedMoves in Hmoves.
  sim_bind Hmoves n t2 Hn. apply deref_Ok in Hn as [-> (i & Hi & Hn)]. injection Hi as <-.
  apply ret_Ok in Hmoves as [-> ->].
  apply (safe_mostVisited_loop n); [exact Hn|]. intros m Hm. apply Horder in Hm. exact Hm.
Qed.

End SafePhases.

(** *** The search as a whole *)

Section SearchEnds.

Variables S_ROWS S_COLS : nat.
Variable fl : FloatOps.
Variable umap_order : list Move -> list Move.
Variable rand : nat -> Z.
Variable self : MonteCarloPlayer.

(** X24. When the iteration over a map of children visits keys of the map
    only and the player's tile is a colour, [monteCarloTreeSearch] ends in
    one of three ways, for every board, budget, random sequence and float
    arithmetic: it returns a move, or the move generator reads [back()] of
    an empty vector, or a null node pointer is dereferenced. No loop runs
    on, no exception is thrown, no [optional] is read empty, no vector is
    read past its end, nothing is divided by zero and no deleted node is
    used. *)
Theorem monteCarloTreeSearch_ends (b : Board) :
  (forall keys m, In m (umap_order keys) -> In m keys) ->
  mc_tile self <> Empty ->
  (exists m, monteCarloTreeSearch S_ROWS S_COLS fl umap_order rand self b = Ok m) \/
  monteCarloTreeSearch S_ROWS S_COLS fl umap_order rand self b = Fault BackOfEmptyVector \/
  monteCarloTreeSearch S_ROWS S_COLS fl umap_order rand self b = Fault NullDereference.
Proof.
  intros Horder Hturn.
  assert (Hsafe : safe (monteCarloTreeSearch S_ROWS S_COLS fl umap_order rand self b)).
  { unfold monteCarloTreeSearch, search_tree.
    match goal with
    | |- safe (bind (match ?c with _ => _ end) _) =>
        assert (Hrun : safe c); [|destruct c as [[u t]|f]]
    end.
    - apply safe_sbind; [apply safe_lift, safe_Node_new|]. intros made t1 Hmade.
      apply lift_Ok in Hmade as [Hmade ->].
      apply Node_new_sound in Hmade as (Hs & Hb & Htn & _ & Hc & Hp & _).
      apply safe_sbind; [exact I|]. intros root t1 Hroot.
      apply alloc_Ok in Hroot as [-> Hnodes]. cbn in Hnodes.
      apply (safe_simulations S_ROWS S_COLS fl umap_order rand self b (mc_tile self));
        try assumption; rewrite Hnodes.
      + apply linked_single; assumption.
      + apply game_tree_single; assumption.
    - cbn [bind].
      pose proof (safe_mostVisited umap_order Horder t) as Hmost.
      destruct (mostVisited umap_order (Some 0%nat) t) as [[res t']|f]; [exact I | exact Hmost].
    - cbn [bind]. exact Hrun. }
  destruct (monteCarloTreeSearch S_ROWS S_COLS fl umap_order rand self b) as [m|f].
  - left. exists m. reflexivity.
  - right. destruct Hsafe as [-> | ->]; auto.
Qed.

End SearchEnds.

Lemma node_bottom_row_new : Node_new 6 7 Negative board_bottom_row = Ok node_bottom_row.
Proof. vm_compute. reflexivity. Qed.

Lemma node_bottom_row_sound : node_sound 6 7 node_bottom_row.
Proof. apply (Node_new_sound 6 7 Negative board_bottom_row). exact node_bottom_row_new. Qed.

Lemma playout_loop_ends_witness :
  node_sound 6 7 node_bottom_row /\
  children node_bottom_row = [] /\
  m_turn node_bottom_row <> Empty /\
  ((exists final t',
      playout_loop 6 7 rand_example (S (S (n_bits 6 7))) node_bottom_row (mkTree [] 0)
        = Ok (final, t') /\
      m_isTerminal final = true /\
      fst (evaluate 6 7 (m_board final)) = Some (m_winState final) /\
      nodes t' = nodes (mkTree [] 0)) \/
   playout_loop 6 7 rand_example (S (S (n_bits 6 7))) node_bottom_row (mkTree [] 0)
     = Fault BackOfEmptyVector).
Proof.
  split; [exact node_bottom_row_sound|]. split; [reflexivity|].
  split; [discriminate|].
  apply (playout_loop_ends 6 7 rand_example node_bottom_row (mkTree [] 0)
           node_bottom_row_sound); [reflexivity | discriminate].
Defined.

Lemma newest_first_keys (keys : list Move) (m : Move) :
  In m (newest_first keys) -> In m keys.
Proof. unfold newest_first. intros H. apply in_rev. exact H. Qed.

Lemma monteCarloTreeSearch_ends_witness :
  (forall keys m, In m (newest_first keys) -> In m keys) /\
  mc_tile player_two_simulations <> Empty /\
  ((exists m, monteCarloTreeSearch 6 7 milli_floats newest_first rand_example
                player_two_simulations board_bottom_row = Ok m) \/
   monteCarloTreeSearch 6 7 milli_floats newest_first rand_example
     player_two_simulations board_bottom_row = Fault BackOfEmptyVector \/
   monteCarloTreeSearch 6 7 milli_floats newest_first rand_example
     player_two_simulations board_bottom_row = Fault NullDereference).
Proof.
  split; [exact newest_first_keys|]. split; [discriminate|].
  apply (monteCarloTreeSearch_ends 6 7 milli_floats newest_first rand_example
           player_two_simulations board_bottom_row newest_first_keys).
  discriminate.
Defined.

(** ** The game keeps a position of Connect Four *)

Section Position.

Variables S_ROWS S_COLS : nat.

Local Abbreviation valid := (isValidPosition S_ROWS S_COLS).
Local Abbreviation idx := (index S_ROWS S_COLS).
Local Abbreviation cell := (board_at S_ROWS S_COLS).

(** A piece placed on an empty cell that is on the bottom row or above a
    piece keeps the two colours apart and the pieces stacked. *)
Lemma with_piece_position (b : Board) (move : Move) :
  single_colour S_ROWS S_COLS b -> gravity S_ROWS S_COLS b ->
  placeable S_ROWS S_COLS b move -> cell b (pos move) = Some Empty ->
  single_colour S_ROWS S_COLS (with_piece S_ROWS S_COLS b move) /\
  gravity S_ROWS S_COLS (with_piece S_ROWS S_COLS b move).
Proof.
  intros Hsingle Hgrav (Hv & Hsup & Ht) He.
  pose proof (index_range _ _ _ Hv) as Hi.
  assert (Hne : tile move <> Empty) by (destruct Ht as [-> | ->]; discriminate).
  destruct (board_at_Empty_bits _ _ _ _ He) as [HbP HbN].
  split.
  - intros p Hp [HP HN].
    destruct (Z.eq_dec (idx p) (idx (pos move))) as [E | E].
    + apply index_inj in E; try assumption. subst p.
      unfold with_piece in HP, HN.
      destruct (tile move); cbn [m_positivePieces m_negativePieces] in HP, HN; congruence.
    + apply (Hsingle p Hp). unfold with_piece in HP, HN.
      assert (Hoff : (idx p =? idx (pos move)) = false) by (apply Z.eqb_neq; exact E).
      destruct (tile move); cbn [m_positivePieces m_negativePieces] in HP, HN;
        rewrite ?lor_pow2_bit in HP by lia; rewrite ?lor_pow2_bit in HN by lia;
        rewrite ?Hoff, ?orb_false_r in HP; rewrite ?Hoff, ?orb_false_r in HN; auto.
  - intros p q Hocc Hx Hy.
    pose proof (occupied_valid _ _ _ _ Hocc) as Hp.
    assert (Hq : valid q = true).
    { apply isValidPosition_iff. apply isValidPosition_iff in Hp. lia. }
    rewrite with_piece_occupied in Hocc |- * by assumption.
    apply orb_true_iff. left.
    apply orb_true_iff in Hocc as [Hocc | Hocc].
    + apply (Hgrav p q); assumption.
    + apply Vec2i_eqb_eq in Hocc. subst p.
      destruct Hsup as [Hbottom | Hbelow]; [lia|].
      destruct (Z.eq_dec (y q) (y (pos move) + 1)) as [E | E].
      * replace q with (mkVec2i (x (pos move)) (y (pos move) + 1)); [assumption|].
        destruct q as [qx qy]; cbn [x y] in *. f_equal; lia.
      * apply (Hgrav _ q Hbelow); cbn [x y]; lia.
Qed.

Variable getNextMove : nat -> Board -> result Move.
Variable getFriendlyName : nat -> String.string.
Hypothesis Hpolite : polite S_ROWS S_COLS getNextMove.

Local Abbreviation position b :=
  (single_colour S_ROWS S_COLS b /\ gravity S_ROWS S_COLS b).

Lemma makeMove_position (g g' : Game) (v : option Z) :
  position (board g) ->
  makeMove S_ROWS S_COLS getNextMove g = Ok (v, g') ->
  position (board g').
Proof.
  intros Hpos. unfold makeMove.
  destruct (getNextMove (currentPlayer g) (board g)) as [m|f] eqn:Hm; [|discriminate].
  cbn [bind]. destruct (isGameOver g); cbn [negb]; [intros [= _ <-]; exact Hpos|].
  pose proof (Hpolite _ _ _ Hm) as He.
  destruct (place_cases S_ROWS S_COLS (board g) m) as [[Hok Hplace] | [_ Hplace]];
    rewrite Hplace in *; cbn [fst] in He.
  - unfold swapPlayers. cbn [currentPlayer playerPositive playerNegative board isGameOver].
    assert (Hnew : position (with_piece S_ROWS S_COLS (board g) m))
      by (apply with_piece_position; [apply Hpos | apply Hpos | exact Hok | apply He; reflexivity]).
    destruct (Nat.eqb _ _); [intros [= _ <-]; exact Hnew|].
    destruct (Nat.eqb _ _); [intros [= _ <-]; exact Hnew | discriminate].
  - intros [= _ <-]. exact Hpos.
Qed.

Lemma gameLoop_turns_position (turns : nat) (g g' : Game) (os os' : ostream) :
  position (board g) ->
  gameLoop_turns S_ROWS S_COLS getNextMove getFriendlyName turns g os = Ok (g', os') ->
  position (board g').
Proof.
  revert g os. induction turns as [|turns IH]; intros g os Hpos; cbn [gameLoop_turns].
  - intros [= <- _]. exact Hpos.
  - destruct (Board_show S_ROWS S_COLS os (board g)) as [os1|f]; cbn [bind]; [|discriminate].
    destruct (makeMove S_ROWS S_COLS getNextMove g) as [[v g1]|f] eqn:Hmove; cbn [bind];
      [|discriminate].
    apply makeMove_position in Hmove; [|exact Hpos].
    destruct v as [value|]; [|apply IH; exact Hmove].
    destruct (announce getFriendlyName g1 value _) as [os3|f]; cbn [bind]; [|discriminate].
    intros [= <- _]. exact Hmove.
Qed.

(** X25. When the moves of the agents that [operator<<] accepts go to
    cells that read [Empty], a game that starts from a board on which no
    cell holds both colours and every piece rests on pieces down to the
    bottom row is still on such a board when [gameLoop] returns. *)
Theorem gameLoop_keeps_position (g g' : Game) (os os' : ostream) :
  single_colour S_ROWS S_COLS (board g) -> gravity S_ROWS S_COLS (board g) ->
  gameLoop S_ROWS S_COLS getNextMove getFriendlyName g os = Ok (g', os') ->
  single_colour S_ROWS S_COLS (board g') /\ gravity S_ROWS S_COLS (board g').
Proof.
  intros Hs Hg. unfold gameLoop.
  destruct (gameLoop_turns _ _ _ _ _ _ _) as [[g1 os1]|f] eqn:Hturns; cbn [bind];
    [|discriminate].
  apply gameLoop_turns_position in Hturns; [|split; assumption].
  destruct (Board_show S_ROWS S_COLS os1 (board g1)) as [os2|f]; cbn [bind]; [|discriminate].
  intros [= <- _]. exact Hturns.
Qed.

End Position.

Lemma agent_centre_polite : polite 6 7 agent_centre.
Proof.
  intros player b move. unfold agent_centre.
  destruct (optTile_is (board_at 6 7 b (mkVec2i 3 5)) Empty) eqn:E; intros [= <-] Hplace.
  - apply optTile_is_true. exact E.
  - destruct (place_cases 6 7 b Move_default) as [[(_ & _ & Ht) _] | [_ H]];
      [destruct Ht; discriminate | rewrite H in Hplace; discriminate].
Qed.

Lemma board_three_positive_gravity : gravity 6 7 board_three_positive.
Proof. apply gravityb_sound. reflexivity. Qed.

Lemma game_three_positive_loop :
  gameLoop 6 7 agent_centre names_example game_three_positive String.EmptyString
  = Ok game_after_win.
Proof. vm_compute. reflexivity. Qed.

Lemma gameLoop_keeps_position_witness :
  polite 6 7 agent_centre /\
  single_colour 6 7 (board game_three_positive) /\
  gravity 6 7 (board game_three_positive) /\
  gameLoop 6 7 agent_centre names_example game_three_positive String.EmptyString
    = Ok (fst game_after_win, snd game_after_win) /\
  single_colour 6 7 (board (fst game_after_win)) /\
  gravity 6 7 (board (fst game_after_win)).
Proof.
  split; [exact agent_centre_polite|].
  split; [apply no_negative_single_colour; reflexivity|].
  split; [exact board_three_positive_gravity|].
  split; [exact game_three_positive_loop|].
  apply (gameLoop_keeps_position 6 7 agent_centre names_example agent_centre_polite
           game_three_positive (fst game_after_win) String.EmptyString (snd game_after_win)).
  - apply no_negative_single_colour. reflexivity.
  - exact board_three_positive_gravity.
  - exact game_three_positive_loop.
Defined.

(** ** The path of backpropagate *)

Section Path.

Variable self : MonteCarloPlayer.

(** The path depends on the parent pointers only. *)
Lemma path_to_root_parents (h h' : list MonteCarloNode) (fuel c : nat) :
  (forall i, option_map m_parent (nth_error h' i) = option_map m_parent (nth_error h i)) ->
  path_to_root h' fuel c = path_to_root h fuel c.
Proof.
  intros Hsame. revert c. induction fuel as [|fuel IH]; intros c; [reflexivity|].
  cbn [path_to_root]. specialize (Hsame c).
  destruct (nth_error h' c) as [n'|], (nth_error h c) as [n|]; cbn [option_map] in Hsame;
    try discriminate; [|reflexivity].
  injection Hsame as ->. destruct (m_parent n); [rewrite IH|]; reflexivity.
Qed.

(** The path goes down in the store. *)
Lemma path_to_root_below (h : list MonteCarloNode) (fuel c j : nat) :
  linked h -> In j (path_to_root h fuel c) -> (j <= c)%nat.
Proof.
  intros Hl. revert c. induction fuel as [|fuel IH]; intros c; [intros []|].
  cbn [path_to_root]. destruct (nth_error h c) as [n|] eqn:Hn; [|intros []].
  destruct (m_parent n) as [p|] eqn:Hp.
  - intros [<- | Hin]; [lia|]. apply IH in Hin.
    destruct c as [|c].
    + destruct (linked_root _ Hl) as (r & Hr & Hrp). congruence.
    + destruct (linked_parent _ Hl (S c) n Hn) as (p' & Hp' & Hlt); [lia|].
      rewrite Hp in Hp'. injection Hp' as <-. lia.
  - intros [<- | []]. lia.
Qed.

Lemma update_counts_store (c : nat) (r : Z) (u : unit) (t t' : Tree) :
  update_counts self (Some c) r t = Ok (u, t') ->
  exists n, nth_error (nodes t) c = Some n /\
            nodes t' = list_set (nodes t) c (bumped (mc_tile self) r n).
Proof.
  unfold update_counts. intros H.
  sim_bind H n t1 Hn. apply deref_Ok in Hn as [-> (i & Hi & Hn)]. injection Hi as <-.
  apply store_Ok in H as (j & Hj & Hnodes & _). injection Hj as <-.
  exists n. split; [exact Hn | exact Hnodes].
Qed.

Lemma list_set_parents (h : list MonteCarloNode) (c : nat) (n n' : MonteCarloNode) :
  nth_error h c = Some n -> m_parent n' = m_parent n ->
  forall i, option_map m_parent (nth_error (list_set h c n') i)
            = option_map m_parent (nth_error h i).
Proof.
  intros Hn Hp i. destruct (Nat.eq_dec c i) as [<- | Hne].
  - rewrite nth_error_list_set_same by (apply nth_error_Some; congruence).
    rewrite Hn. cbn. f_equal. exact Hp.
  - rewrite nth_error_list_set_other by assumption. reflexivity.
Qed.

(** The loop of [backpropagate]: the nodes on the path are bumped once,
    every other node stays. *)
Lemma backpropagate_loop_path (fuel c : nat) (r : Z) (u : unit) (t t' : Tree) :
  linked (nodes t) ->
  backpropagate_loop self fuel (Some c) r t = Ok (u, t') ->
  forall i,
    (In i (path_to_root (nodes t) fuel c) ->
     nth_error (nodes t') i = option_map (bumped (mc_tile self) r) (nth_error (nodes t) i)) /\
    (~ In i (path_to_root (nodes t) fuel c) ->
     nth_error (nodes t') i = nth_error (nodes t) i).
Proof.
  revert c t. induction fuel as [|fuel IH]; intros c t Hl H; cbn [backpropagate_loop] in H.
  - apply lift_Ok in H as [H _]. discriminate.
  - sim_bind H n t1 Hn. apply deref_Ok in Hn as [-> (j & Hj & Hn)]. injection Hj as <-.
    cbn [path_to_root]. rewrite Hn.
    assert (Hc : (c < length (nodes t))%nat) by (apply nth_error_Some; congruence).
    destruct (m_parent n) as [p|] eqn:Hp.
    + sim_bind H u1 t1 Hupd.
      apply update_counts_store in Hupd as (m & Hm & Hnodes).
      rewrite Hn in Hm. injection Hm as <-.
      assert (Hl1 : linked (nodes t1)).
      { rewrite Hnodes. apply (linked_list_set _ _ n); [assumption | assumption |].
        split; reflexivity. }
      pose proof (IH p t1 Hl1 H) as Hrest.
      assert (Hpath : path_to_root (nodes t1) fuel p = path_to_root (nodes t) fuel p).
      { apply path_to_root_parents. rewrite Hnodes.
        apply (list_set_parents _ _ n); [assumption | reflexivity]. }
      rewrite Hpath in Hrest.
      assert (Hpc : (p < c)%nat).
      { destruct c as [|c'].
        - destruct (linked_root _ Hl) as (r0 & Hr0 & Hrp). congruence.
        - destruct (linked_parent _ Hl (S c') n Hn) as (p' & Hp' & Hlt); [lia|].
          rewrite Hp in Hp'. injection Hp' as <-. exact Hlt. }
      assert (Hout : ~ In c (path_to_root (nodes t) fuel p)).
      { intros Hin. apply (path_to_root_below _ _ _ _ Hl) in Hin. lia. }
      intros i. destruct (Hrest i) as [Hin Hnot]. split.
      * intros [<- | Hi].
        -- rewrite (Hnot Hout), Hnodes, nth_error_list_set_same, Hn by assumption. reflexivity.
        -- rewrite (Hin Hi), Hnodes.
           rewrite nth_error_list_set_other; [reflexivity|]. intros <-. contradiction.
      * intros Hi. rewrite Hnot by (intros Hi'; apply Hi; right; exact Hi').
        rewrite Hnodes. apply nth_error_list_set_other. intros <-. apply Hi. left. reflexivity.
    + apply update_counts_store in H as (m & Hm & Hnodes).
      rewrite Hn in Hm. injection Hm as <-.
      intros i. split.
      * intros [<- | []]. rewrite Hnodes, nth_error_list_set_same, Hn by assumption. reflexivity.
      * intros Hi. rewrite Hnodes. apply nth_error_list_set_other.
        intros <-. apply Hi. left. reflexivity.
Qed.

(** X26. [backpropagate] from a leaf of a linked tree changes exactly the
    nodes on the path from the leaf along the parent pointers up to the
    root: each of them gets one more visit and the playout result times
    the value of the player's tile added to its wins, whichever side is to
    move at the node; every other node stays as it is. *)
Theorem backpropagate_path (c : nat) (r : Z) (u : unit) (t t' : Tree) :
  linked (nodes t) ->
  backpropagate self (Some c) r t = Ok (u, t') ->
  forall i,
    (In i (path_to_root (nodes t) (S (length (nodes t))) c) ->
     nth_error (nodes t') i = option_map (bumped (mc_tile self) r) (nth_error (nodes t) i)) /\
    (~ In i (path_to_root (nodes t) (S (length (nodes t))) c) ->
     nth_error (nodes t') i = nth_error (nodes t) i).
Proof.
  intros Hl H. unfold backpropagate in H.
  sim_bind H k t1 Hk. unfold node_count in Hk. injection Hk as <- <-.
  apply (backpropagate_loop_path _ _ _ u _ _ Hl H).
Qed.

End Path.

Lemma search_tree_linked (S_ROWS S_COLS : nat) (fl : FloatOps)
  (umap_order : list Move -> list Move) (rand : nat -> Z) (self : MonteCarloPlayer)
  (b : Board) (t : Tree) :
  search_tree S_ROWS S_COLS fl umap_order rand self b = Ok t -> linked (nodes t).
Proof.
  unfold search_tree. intros H.
  match type of H with
  | match ?c with _ => _ end = _ => destruct c as [[u t0]|f] eqn:Hrun; [|discriminate]
  end.
  injection H as ->.
  sim_bind Hrun made t1 Hmade. apply lift_Ok in Hmade as [Hmade ->].
  apply Node_new_fresh in Hmade as (Hp & Hc & Hv).
  sim_bind Hrun root t1 Hroot. apply alloc_Ok in Hroot as [-> Hnodes]. cbn in Hnodes.
  apply simulations_counts in Hrun as (Hl & _);
    [exact Hl | rewrite Hnodes; apply linked_single; assumption].
Qed.

Lemma tree_after_two_simulations_linked : linked (nodes tree_after_two_simulations).
Proof. exact (search_tree_linked _ _ _ _ _ _ _ _ two_simulations_tree). Qed.

Lemma tree_after_backpropagate_run :
  backpropagate player_two_simulations (Some 1%nat) 1 tree_after_two_simulations
  = Ok (tt, tree_after_backpropagate).
Proof. vm_compute. reflexivity. Qed.

Lemma backpropagate_path_witness :
  linked (nodes tree_after_two_simulations) /\
  backpropagate player_two_simulations (Some 1%nat) 1 tree_after_two_simulations
    = Ok (tt, tree_after_backpropagate) /\
  forall i,
    (In i (path_to_root (nodes tree_after_two_simulations)
                        (S (length (nodes tree_after_two_simulations))) 1) ->
     nth_error (nodes tree_after_backpropagate) i
     = option_map (bumped (mc_tile player_two_simulations) 1)
                  (nth_error (nodes tree_after_two_simulations) i)) /\
    (~ In i (path_to_root (nodes tree_after_two_simulations)
                          (S (length (nodes tree_after_two_simulations))) 1) ->
     nth_error (nodes tree_after_backpropagate) i
     = nth_error (nodes tree_after_two_simulations) i).
Proof.
  split; [exact tree_after_two_simulations_linked|].
  split; [exact tree_after_backpropagate_run|].
  apply (backpropagate_path player_two_simulations 1 1 tt tree_after_two_simulations
           tree_after_backpropagate tree_after_two_simulations_linked
           tree_after_backpropagate_run).
Defined.

(** ** What expand adds *)

Section Expansion.

Variables S_ROWS S_COLS : nat.

Lemma expand_loop_first (i : nat) (n : MonteCarloNode) (positions : list Vec2i)
  (leaf : option nat) (t t' : Tree) :
  nth_error (nodes t) i = Some n ->
  expand_loop S_ROWS S_COLS (Some i) (m_turn n) positions t = Ok (leaf, t') ->
  (leaf = None /\ t' = t /\
   forall p, In p positions -> umap_find (children n) (mkMove p (m_turn n)) <> None) \/
  (exists before p after child,
     positions = before ++ p :: after /\
     (forall q, In q before -> umap_find (children n) (mkMove q (m_turn n)) <> None) /\
     umap_find (children n) (mkMove p (m_turn n)) = None /\
     leaf = Some (length (nodes t)) /\
     nodes t' = with_child (nodes t) i n child (mkMove p (m_turn n)) /\
     m_parent child = Some i /\ children child = [] /\
     visits child = 0 /\ wins child = 0 /\
     m_board child = snd (place S_ROWS S_COLS (m_board n) (mkMove p (m_turn n)))).
Proof.
  intros Hn. induction positions as [|p positions IH]; intros H; cbn [expand_loop] in H.
  - apply ret_Ok in H as [-> ->]. left. split; [reflexivity|]. split; [reflexivity|].
    intros p [].
  - sim_bind H found t1 Hfound.
    apply getChildForMove_Ok in Hfound as [-> (j & m & Hj & Hm & ->)].
    injection Hj as <-. rewrite Hn in Hm. injection Hm as <-.
    destruct (umap_find (children n) (mkMove p (m_turn n))) as [c|] eqn:Hfind.
    + destruct (IH H) as [(-> & -> & Hall) | (before & q & after & child & -> & Hb & Hrest)].
      * left. split; [reflexivity|]. split; [reflexivity|].
        intros q [<- | Hq]; [congruence | apply Hall; exact Hq].
      * right. exists (p :: before), q, after, child. split; [reflexivity|].
        split; [|exact Hrest]. intros q' [<- | Hq']; [congruence | apply Hb; exact Hq'].
    + sim_bind H child t1 Hchild. apply ret_Ok in H as [-> ->].
      apply createChild_Ok in Hchild
        as (j & m & made & ok & applied & Hj & Hm & Hmade & Happly & -> & Hnodes).
      2:{ intros j m [= <-] Hm. congruence. }
      injection Hj as <-. rewrite Hn in Hm. injection Hm as <-.
      apply Node_new_sound in Hmade as (Hs & Hb & _ & Hterm & Hc & _ & Hv & Hw).
      apply Node_applyMove_sound in Happly
        as (_ & _ & Hab & _ & Hac & _ & Haw & Hav); try assumption.
      right. exists [], p, positions, (set_parent applied (Some i)).
      split; [reflexivity|]. split; [intros q []|]. split; [exact Hfind|].
      split; [reflexivity|]. split; [exact Hnodes|].
      cbn [set_parent m_parent children visits wins m_board].
      repeat split; congruence.
Qed.

(** X27. [expand] on a node goes through the generated positions of the
    node's board in their order and makes a child for the first one that
    has no child yet: the child is allocated at the end of the store with
    no children and no visits, holds the node's board after [operator<<]
    with that move and points back to the node, and the node's map gets
    the one entry more. When every generated position has a child, [expand]
    returns a null pointer and changes nothing. *)
Theorem expand_first_unexpanded (i : nat) (n : MonteCarloNode) (l : list Vec2i)
  (leaf : option nat) (t t' : Tree) :
  nth_error (nodes t) i = Some n ->
  generateValidPositions S_ROWS S_COLS (m_board n) = Ok l ->
  expand S_ROWS S_COLS (Some i) t = Ok (leaf, t') ->
  (leaf = None /\ t' = t /\
   forall p, In p l -> umap_find (children n) (mkMove p (m_turn n)) <> None) \/
  (exists before p after child,
     l = before ++ p :: after /\
     (forall q, In q before -> umap_find (children n) (mkMove q (m_turn n)) <> None) /\
     umap_find (children n) (mkMove p (m_turn n)) = None /\
     leaf = Some (length (nodes t)) /\
     nodes t' = with_child (nodes t) i n child (mkMove p (m_turn n)) /\
     m_parent child = Some i /\ children child = [] /\
     visits child = 0 /\ wins child = 0 /\
     m_board child = snd (place S_ROWS S_COLS (m_board n) (mkMove p (m_turn n)))).
Proof.
  intros Hn Hgen H. unfold expand in H.
  sim_bind H m t1 Hm. apply deref_Ok in Hm as [-> (j & Hj & Hm)]. injection Hj as <-.
  rewrite Hn in Hm. injection Hm as <-.
  sim_bind H positions t1 Hpos. apply lift_Ok in Hpos as [Hpos ->].
  rewrite Hgen in Hpos. injection Hpos as <-.
  apply expand_loop_first; assumption.
Qed.

End Expansion.

Lemma board_bottom_row_generated :
  generateValidPositions 6 7 (m_board node_bottom_row) =
  Ok [mkVec2i 0 4; mkVec2i 1 4; mkVec2i 2 4; mkVec2i 3 4; mkVec2i 4 4; mkVec2i 5 4;
      mkVec2i 6 4].
Proof. vm_compute. reflexivity. Qed.

Lemma tree_bottom_row_expand :
  expand 6 7 (Some 0%nat) tree_bottom_row = Ok (Some 1%nat, tree_after_expand).
Proof. vm_compute. reflexivity. Qed.

Lemma expand_first_unexpanded_witness :
  nth_error (nodes tree_bottom_row) 0 = Some node_bottom_row /\
  generateValidPositions 6 7 (m_board node_bottom_row) =
    Ok [mkVec2i 0 4; mkVec2i 1 4; mkVec2i 2 4; mkVec2i 3 4; mkVec2i 4 4; mkVec2i 5 4;
        mkVec2i 6 4] /\
  expand 6 7 (Some 0%nat) tree_bottom_row = Ok (Some 1%nat, tree_after_expand) /\
  ((Some 1%nat = None /\ tree_after_expand = tree_bottom_row /\
    forall p, In p [mkVec2i 0 4; mkVec2i 1 4; mkVec2i 2 4; mkVec2i 3 4; mkVec2i 4 4;
                    mkVec2i 5 4; mkVec2i 6 4] ->
      umap_find (children node_bottom_row) (mkMove p (m_turn node_bottom_row)) <> None) \/
   (exists before p after child,
      [mkVec2i 0 4; mkVec2i 1 4; mkVec2i 2 4; mkVec2i 3 4; mkVec2i 4 4; mkVec2i 5 4;
       mkVec2i 6 4] = before ++ p :: after /\
      (forall q, In q before ->
         umap_find (children node_bottom_row) (mkMove q (m_turn node_bottom_row)) <> None) /\
      umap_find (children node_bottom_row) (mkMove p (m_turn node_bottom_row)) = None /\
      Some 1%nat = Some (length (nodes tree_bottom_row)) /\
      nodes tree_after_expand =
        with_child (nodes tree_bottom_row) 0 node_bottom_row child
                   (mkMove p (m_turn node_bottom_row)) /\
      m_parent child = Some 0%nat /\ children child = [] /\
      visits child = 0 /\ wins child = 0 /\
      m_board child =
        snd (place 6 7 (m_board node_bottom_row) (mkMove p (m_turn node_bottom_row))))).
Proof.
  split; [reflexivity|]. split; [exact board_bottom_row_generated|].
  split; [exact tree_bottom_row_expand|].
  apply (expand_first_unexpanded 6 7 0 node_bottom_row _ (Some 1%nat) tree_bottom_row
           tree_after_expand eq_refl board_bottom_row_generated tree_bottom_row_expand).
Defined.

(** ** The terminal signal of makeMove is truthful *)

Section Signal.

Variables S_ROWS S_COLS : nat.

Local Abbreviation cell := (board_at S_ROWS S_COLS).

(** What a terminal value means on a board. *)
Local Abbreviation outcome b v :=
  ((v = 1 /\ four_in_a_row S_ROWS S_COLS b Positive) \/
   (v = -1 /\ four_in_a_row S_ROWS S_COLS b Negative) \/
   (v = 0 /\ isDraw S_ROWS S_COLS b = true)).

Lemma evaluate_Some (b : Board) (v : Z) :
  fst (evaluate S_ROWS S_COLS b) = Some v -> outcome b v.
Proof.
  unfold evaluate.
  destruct (scan_cells S_ROWS S_COLS b (cells S_ROWS S_COLS) 0) as [e|score] eqn:E.
  - apply scan_cells_inl in E as (t & -> & Hrow).
    destruct t; cbn [win_of fst Tile_value]; intros [= <-].
    + right. left. auto.
    + destruct Hrow as [Ht _]. contradiction.
    + left. auto.
  - destruct (isDraw S_ROWS S_COLS b) eqn:Ed; cbn [fst]; [|discriminate].
    intros [= <-]. right. right. auto.
Qed.

Lemma evaluate_at_Some (b : Board) (p : Vec2i) (v : Z) :
  fst (evaluate_at S_ROWS S_COLS b p) = Some v -> outcome b v.
Proof.
  unfold evaluate_at.
  destruct (cell b p) as [t|] eqn:Hp; [|discriminate].
  assert (Hscan : t <> Empty ->
            fst match scan_directions S_ROWS S_COLS b p t directions 0 with
                | inl r => r
                | inr score =>
                    if isDraw S_ROWS S_COLS b then (Some 0, 0) else (None, score)
                end = Some v -> outcome b v).
  { intros Ht.
    destruct (scan_directions S_ROWS S_COLS b p t directions 0) as [r|score] eqn:E.
    - apply scan_directions_inl in E as (-> & q & d & Hd & Hline); [|exact Hp].
      assert (Hrow : four_in_a_row S_ROWS S_COLS b t)
        by (split; [exact Ht | exists q, d; split; assumption]).
      destruct t; cbn [win_of fst Tile_value]; intros [= <-];
        [right; left; auto | contradiction | left; auto].
    - destruct (isDraw S_ROWS S_COLS b) eqn:Ed; cbn [fst]; [|discriminate].
      intros [= <-]. right. right. auto. }
  destruct t; [apply Hscan; discriminate | discriminate | apply Hscan; discriminate].
Qed.

Variable getNextMove : nat -> Board -> result Move.

(** X28. Whatever the agent answers, a terminal value that [makeMove]
    returns is true of the board the game then has: +1 only with four
    adjacent Positive tiles in a row, a column or a diagonal, -1 only with
    four Negative ones, and 0 only when no cell of the top row is
    [Empty]; so [gameLoop] announces no winner and no draw that the board
    does not show. *)
Theorem makeMove_signal_sound (g g' : Game) (v : Z) :
  makeMove S_ROWS S_COLS getNextMove g = Ok (Some v, g') ->
  (v = 1 /\ four_in_a_row S_ROWS S_COLS (board g') Positive) \/
  (v = -1 /\ four_in_a_row S_ROWS S_COLS (board g') Negative) \/
  (v = 0 /\ isDraw S_ROWS S_COLS (board g') = true).
Proof.
  unfold makeMove.
  destruct (getNextMove (currentPlayer g) (board g)) as [m|f]; [|discriminate].
  cbn [bind]. destruct (isGameOver g); cbn [negb].
  { intros [= Hv <-]. apply evaluate_Some. exact Hv. }
  destruct (place S_ROWS S_COLS (board g) m) as [[|] b'].
  - unfold swapPlayers. cbn [currentPlayer playerPositive playerNegative board isGameOver].
    destruct (Nat.eqb _ _); cbn [bind board].
    + intros [= Hv <-]. cbn [board]. apply (evaluate_at_Some _ _ _ Hv).
    + destruct (Nat.eqb _ _); cbn [bind board]; [|discriminate].
      intros [= Hv <-]. cbn [board]. apply (evaluate_at_Some _ _ _ Hv).
  - intros [= Hv <-]. cbn [board]. apply evaluate_Some. exact Hv.
Qed.

End Signal.

Lemma game_three_positive_move :
  makeMove 6 7 agent_centre game_three_positive
  = Ok (Some 1, mkGame board_four_positive false 1%nat 2%nat 2%nat).
Proof. vm_compute. reflexivity. Qed.

Lemma makeMove_signal_sound_witness :
  makeMove 6 7 agent_centre game_three_positive
    = Ok (Some 1, mkGame board_four_positive false 1%nat 2%nat 2%nat) /\
  ((1 = 1 /\ four_in_a_row 6 7 (board (mkGame board_four_positive false 1%nat 2%nat 2%nat))
                           Positive) \/
   (1 = -1 /\ four_in_a_row 6 7 (board (mkGame board_four_positive false 1%nat 2%nat 2%nat))
                            Negative) \/
   (1 = 0 /\ isDraw 6 7 (board (mkGame board_four_positive false 1%nat 2%nat 2%nat)) = true)).
Proof.
  split; [exact game_three_positive_move|].
  apply (makeMove_signal_sound 6 7 agent_centre game_three_positive
           (mkGame board_four_positive false 1%nat 2%nat 2%nat) 1).
  exact game_three_positive_move.
Defined.

(** ** A game of legal moves ends with a verdict *)

Section Verdict.

Variables S_ROWS S_COLS : nat.
Variable getNextMove : nat -> Board -> result Move.
Variable getFriendlyName : nat -> String.string.

Hypothesis Hcols : (0 < S_COLS)%nat.
Hypothesis Hlegal : plays_legally S_ROWS S_COLS getNextMove.

Local Abbreviation seated g :=
  (currentPlayer g = playerPositive g \/ currentPlayer g = playerNegative g).

(** One turn on a board that is not terminal: the move is placed, the
    signal is the terminal result of [evaluate] on the new board, and one
    cell less is empty. *)
Lemma makeMove_progress (g : Game) :
  isGameOver g = false -> seated g ->
  fst (evaluate S_ROWS S_COLS (board g)) = None ->
  exists g', makeMove S_ROWS S_COLS getNextMove g
             = Ok (fst (evaluate S_ROWS S_COLS (board g')), g') /\
    isGameOver g' = false /\ seated g' /\
    playerPositive g' = playerPositive g /\ playerNegative g' = playerNegative g /\
    (empties S_ROWS S_COLS (board g') < empties S_ROWS S_COLS (board g))%nat.
Proof.
  intros Hover Hs Hopen.
  destruct (Hlegal (currentPlayer g) (board g) Hopen) as (m & Hm & Hplace & He).
  destruct (place S_ROWS S_COLS (board g) m) as [ok b'] eqn:Ep. cbn [fst] in Hplace. subst ok.
  apply place_true in Ep as Hp. destruct Hp as [(Hv & _ & Ht) Hb'].
  unfold makeMove. rewrite Hm. cbn [bind]. rewrite Hover. cbn [negb]. rewrite Ep.
  match goal with
  | |- context [swapPlayers ?g1] =>
      destruct (swapPlayers_seated g1) as (g2 & -> & Hb & Ho & Hp & Hn & Hc)
  end; [exact Hs|].
  cbn [bind board isGameOver playerPositive playerNegative currentPlayer] in *.
  exists g2. rewrite Hb, Ho, Hp, Hn, Hc.
  split.
  { f_equal. f_equal. rewrite Hb'. apply evaluate_at_after_place;
      [unfold reports_win; rewrite Hopen; reflexivity | exact He | exact Hv |].
    destruct Ht as [-> | ->]; discriminate. }
  split; [reflexivity|]. split; [destruct (Nat.eqb _ _); auto|].
  split; [reflexivity|]. split; [reflexivity|].
  rewrite Hb'. apply empties_with_piece; [exact He|]. destruct Ht as [-> | ->]; discriminate.
Qed.

Lemma gameLoop_turns_verdict (turns : nat) (g : Game) (os : ostream) :
  isGameOver g = false -> seated g ->
  fst (evaluate S_ROWS S_COLS (board g)) = None ->
  (empties S_ROWS S_COLS (board g) < turns)%nat ->
  exists g' os', gameLoop_turns S_ROWS S_COLS getNextMove getFriendlyName turns g os
                 = Ok (g', os') /\
    isGameOver g' = true /\ fst (evaluate S_ROWS S_COLS (board g')) <> None /\
    playerPositive g' = playerPositive g /\ playerNegative g' = playerNegative g.
Proof.
  revert g os. induction turns as [|turns IH]; intros g os Hover Hs Hopen Hturns; [lia|].
  cbn [gameLoop_turns].
  destruct (Board_show_Ok S_ROWS S_COLS os (board g) Hcols) as [os1 ->]. cbn [bind].
  destruct (makeMove_progress g Hover Hs Hopen) as (g1 & -> & Hover1 & Hs1 & Hp & Hn & Hless).
  cbn [bind].
  destruct (fst (evaluate S_ROWS S_COLS (board g1))) as [value|] eqn:Ev.
  - match goal with
    | |- context [announce _ _ _ ?os2] =>
        destruct (announce_Ok getFriendlyName g1 value os2) as [os3 ->]
    end.
    { rewrite <- Ev. apply evaluate_signal. }
    cbn [bind]. eexists _, _. split; [reflexivity|].
    cbn [isGameOver board playerPositive playerNegative].
    split; [reflexivity|]. split; [congruence | auto].
  - match goal with
    | |- context [gameLoop_turns _ _ _ _ _ _ ?os2] =>
        destruct (IH g1 os2 Hover1 Hs1 Ev) as (g' & os' & -> & Hg' & Hv' & Hp' & Hn'); [lia|]
    end.
    eexists _, _. split; [reflexivity|]. split; [exact Hg'|]. split; [exact Hv'|].
    split; congruence.
Qed.

(** X29. A game on a board with fewer than a thousand cells whose agents
    answer every board that is not terminal with a move that [operator<<]
    accepts on an empty cell: started on a board that is not terminal,
    [gameLoop] returns with [isGameOver] set, on a board that [evaluate]
    reports as won or drawn; the loop never runs out its thousand turns. *)
Theorem gameLoop_reaches_verdict (g : Game) (os : ostream) :
  (n_bits S_ROWS S_COLS < 1000)%nat ->
  isGameOver g = false ->
  currentPlayer g = playerPositive g \/ currentPlayer g = playerNegative g ->
  fst (evaluate S_ROWS S_COLS (board g)) = None ->
  exists g' os', gameLoop S_ROWS S_COLS getNextMove getFriendlyName g os = Ok (g', os') /\
    isGameOver g' = true /\ fst (evaluate S_ROWS S_COLS (board g')) <> None.
Proof.
  intros Hsize Hover Hs Hopen. unfold gameLoop.
  destruct (gameLoop_turns_verdict 1000 g os Hover Hs Hopen)
    as (g1 & os1 & -> & Hover1 & Hv1 & _).
  { pose proof (empties_bound S_ROWS S_COLS (board g)). lia. }
  cbn [bind]. destruct (Board_show_Ok S_ROWS S_COLS os1 (board g1) Hcols) as [os2 ->].
  cbn [bind]. eexists _, _. split; [reflexivity|]. split; assumption.
Qed.

End Verdict.

Lemma find_forallb_false {A : Type} (f : A -> bool) (l : list A) :
  forallb (fun a => negb (f a)) l = false -> exists a, find f l = Some a /\ f a = true.
Proof.
  induction l as [|a l IH]; cbn [forallb find]; [discriminate|].
  destruct (f a) eqn:E; cbn [negb andb]; [intros _; exists a; auto | exact IH].
Qed.

Lemma agent_leftmost_legal : plays_legally 6 7 agent_leftmost.
Proof.
  intros player b Hopen. apply evaluate_None_open in Hopen.
  unfold agent_leftmost. eexists. split; [reflexivity|].
  set (self := mkHumanPlayer (if Nat.eqb player 1 then Positive else Negative)).
  assert (Hcol : column_open 6 7 b (leftmost_open_column b) = true).
  { unfold leftmost_open_column. unfold isDraw in Hopen.
    change (cols (m_shape 6 7)) with 7 in Hopen.
    apply (find_forallb_false (column_open 6 7 b)) in Hopen as (c & -> & Hc). exact Hc. }
  pose proof (Human_getNextMove_open 6 7 b self _ Hcol) as Htarget.
  set (move := Human_getNextMove 6 7 self (leftmost_open_column b) b) in *.
  assert (Hin : In (pos move) (column_target 6 7 b (leftmost_open_column b)))
    by (rewrite Htarget; left; reflexivity).
  apply column_target_playable in Hin as (_ & _ & He & Hbelow).
  split; [|exact He].
  replace move with (mkMove (pos move) (hm_tile self)) by (subst move; reflexivity).
  rewrite playable_place; [reflexivity | exact He | exact Hbelow |].
  unfold self. cbn [hm_tile]. destruct (Nat.eqb player 1); discriminate.
Qed.

Lemma gameLoop_reaches_verdict_witness :
  (0 < 7)%nat /\
  plays_legally 6 7 agent_leftmost /\
  (n_bits 6 7 < 1000)%nat /\
  isGameOver game_start = false /\
  (currentPlayer game_start = playerPositive game_start \/
   currentPlayer game_start = playerNegative game_start) /\
  fst (evaluate 6 7 (board game_start)) = None /\
  exists g' os',
    gameLoop 6 7 agent_leftmost names_example game_start String.EmptyString = Ok (g', os') /\
    isGameOver g' = true /\ fst (evaluate 6 7 (board g')) <> None.
Proof.
  split; [lia|]. split; [exact agent_leftmost_legal|].
  split; [cbn; lia|]. split; [reflexivity|]. split; [left; reflexivity|].
  split; [reflexivity|].
  apply (gameLoop_reaches_verdict 6 7 agent_leftmost names_example);
    [lia | exact agent_leftmost_legal | cbn; lia | reflexivity | left; reflexivity | reflexivity].
Defined.
